(** * SmartCampus Teachable Machine scanners: a shallow embedding

    The development follows the script of the SmartCampus demo: the
    [TMScanner] class (model loading, camera, the per-frame prediction
    [loop] with its stability lock, [stop]), the helper [normalizeName],
    and the sequential demo flow (face scan, ID scan, verify) together
    with the solo flows and the home buttons.

    Conventions.
    - A JavaScript string is the list of its UTF-16 code units.
    - A JavaScript number is a rational: the script only compares
      probabilities and time stamps and subtracts two time stamps, and the
      model takes these operations exactly (finite values, no rounding).
    - [Scanner.start] and [Scanner.loop] run an [async] method to
      completion in one step: they are the runs in which every awaited
      promise settles before the page or the browser does anything
      else, and the page flows are built on them. [Async] cuts the two
      methods at their awaits and lets calls, callbacks and settlements
      come in any order; [AsyncFacts] relates the two. A rejected
      promise nobody awaits shows up as [UnhandledRejection].
    - Of what the script writes to the page, the state keeps what later
      behaviour depends on (the active view, whether a Scan Again button
      is shown, whether the handlers of a view are assigned); the rest
      (overlay texts, badges, status line, alert, log lines) goes to an
      output trace.
    - The page is taken to contain the elements the script looks up.

    The definitions come first: [JS], [Eff], [Scanner], [Names], [Demo],
    [Session], [Async], [Page], [Flows], [Campus].
    The facts follow, module by module. *)

From Stdlib Require Import List Bool Arith ZArith NArith PArith QArith Lqa Lia.
From Stdlib Require Import String Ascii.
Import ListNotations.

Set Implicit Arguments.

(* ===================================================================== *)
(** ** JavaScript values used by the script *)
(* ===================================================================== *)

Module JS.

(** Strings as lists of UTF-16 code units. *)
Definition jsstring := list N.

Definition str (s : string) : jsstring :=
  map N_of_ascii (list_ascii_of_string s).

Definition jsstring_dec : forall a b : jsstring, {a = b} + {a <> b} :=
  list_eq_dec N.eq_dec.

(** [a === b] and [a !== b] on strings. *)
Definition strict_eq (a b : jsstring) : bool :=
  if jsstring_dec a b then true else false.
Definition strict_neq (a b : jsstring) : bool := negb (strict_eq a b).

(** [a >= b] and [a < b] on (finite) numbers. *)
Definition ge (a b : Q) : bool := Qle_bool b a.
Definition lt (a b : Q) : bool := negb (Qle_bool b a).

(** The exceptions that occur: a [TypeError] of the language (property
    access on [undefined] or [null]), the two DOMException names [start]
    tells apart, and any other error of a collaborator. *)
Inductive Exn := TypeError | NotAllowedError | NotFoundError | OtherError.

End JS.

(* ===================================================================== *)
(** ** Effects: state, output trace and exceptions *)
(* ===================================================================== *)

(** A computation reads and writes a state [S], appends events of type [E]
    to the output, and either returns a value or throws. *)

Module Eff.
Section Eff.

Variables S E : Type.

Record Result (A : Type) : Type := mkResult {
  value : A + JS.Exn;
  final : S;
  output : list E
}.

Definition M (A : Type) : Type := S -> Result A.

Definition ret {A} (a : A) : M A := fun s => mkResult (inl a) s [].

Definition throw {A} (e : JS.Exn) : M A := fun s => mkResult (inr e) s [].

Definition bind {A B} (m : M A) (k : A -> M B) : M B := fun s =>
  match m s with
  | mkResult (inl a) s1 o1 =>
      match k a s1 with
      | mkResult v s2 o2 => mkResult v s2 (o1 ++ o2)
      end
  | mkResult (inr e) s1 o1 => mkResult (inr e) s1 o1
  end.

(** [try { m } catch (e) { h e }] *)
Definition try_catch {A} (m : M A) (h : JS.Exn -> M A) : M A := fun s =>
  match m s with
  | mkResult (inl a) s1 o1 => mkResult (inl a) s1 o1
  | mkResult (inr e) s1 o1 =>
      match h e s1 with
      | mkResult v s2 o2 => mkResult v s2 (o1 ++ o2)
      end
  end.

Definition get : M S := fun s => mkResult (inl s) s [].
Definition put (s : S) : M unit := fun _ => mkResult (inl tt) s [].
Definition modify (f : S -> S) : M unit := fun s => mkResult (inl tt) (f s) [].
Definition emit (e : E) : M unit := fun s => mkResult (inl tt) s [e].

Definition when (b : bool) (m : M unit) : M unit := if b then m else ret tt.

(** [triple P m Q X]: from a state satisfying [P], [m] ends in a state
    satisfying [Q x] if it returns [x] and [X] if it throws. *)
Definition triple {A} (P : S -> Prop) (m : M A)
    (Q : A -> S -> Prop) (X : S -> Prop) : Prop :=
  forall s, P s ->
    match m s with
    | mkResult (inl x) s' _ => Q x s'
    | mkResult (inr _) s' _ => X s'
    end.

(** [keeps I m]: [m] preserves [I], however it ends. *)
Definition keeps {A} (I : S -> Prop) (m : M A) : Prop :=
  triple I m (fun _ => I) I.

End Eff.
End Eff.

Arguments Eff.ret {S E A} a.
Arguments Eff.throw {S E A} e.
Arguments Eff.get {S E}.
Arguments Eff.put {S E} s.
Arguments Eff.modify {S E} f.
Arguments Eff.emit {S E} e.
Arguments Eff.when {S E} b m.
Arguments Eff.mkResult {S E A} value final output.

Declare Scope eff_scope.
Delimit Scope eff_scope with eff.
Notation "x <- m ;; k" := (Eff.bind m (fun x => k))
  (at level 61, m at next level, right associativity) : eff_scope.
Notation "m ;; k" := (Eff.bind m (fun _ => k))
  (at level 61, right associativity) : eff_scope.

(* ===================================================================== *)
(** ** The scanner: class [TMScanner] *)
(* ===================================================================== *)

Module Scanner.

Import JS.
Local Open Scope eff_scope.

Inductive FacingMode := user | environment.

(** One entry of what [model.predict] resolves to. *)
Record Prediction := mkPrediction {
  className : jsstring;
  probability : Q
}.

(** [this.lastTop = { name, since, prob }] *)
Record LastTop := mkLastTop {
  name : jsstring;
  since : Q;
  prob : Q
}.

(** [lockInfo = { className, prob, timestamp }] handed to [onLock]. *)
Record LockInfo := mkLockInfo {
  info_className : jsstring;
  info_prob : Q;
  info_timestamp : Z
}.

(** The camera collaborator ([tmImage.Webcam]), as far as the script
    depends on it: [setup] acquires the stream, [stop] releases it, and
    [stop] on an object whose stream was never set up raises. *)
Inductive Webcam := CamNew | CamLive | CamStopped.

Inductive Model := TMModel (path : jsstring).

(** The constructor argument. [cfg_facingMode = None] is an absent
    [facingMode]; the two booleans say whether the overlay elements were
    passed. *)
Record Cfg := mkCfg {
  cfg_topLeftEl : bool;
  cfg_bottomLeftEl : bool;
  cfg_modelPath : jsstring;
  cfg_facingMode : option FacingMode
}.

Record TMScanner := mkTMScanner {
  topLeftEl : bool;
  bottomLeftEl : bool;
  modelPath : jsstring;
  facingMode : FacingMode;
  (* runtime state *)
  model : option Model;
  predLoopId : option positive;
  webcam : option Webcam;
  isRunning : bool;
  (* stability tracking *)
  threshold : Q;
  stableWindowMs : Q;
  lastTop : option LastTop;
  locked : bool
}.

Definition new (cfg : Cfg) : TMScanner := {|
  topLeftEl := cfg_topLeftEl cfg;
  bottomLeftEl := cfg_bottomLeftEl cfg;
  modelPath := cfg_modelPath cfg;
  facingMode := match cfg_facingMode cfg with Some m => m | None => user end;
  model := None;
  predLoopId := None;
  webcam := None;
  isRunning := false;
  threshold := 98 # 100;
  stableWindowMs := 1000;
  lastTop := None;
  locked := false
|}.

Definition set_model v (s : TMScanner) : TMScanner :=
  mkTMScanner (topLeftEl s) (bottomLeftEl s) (modelPath s) (facingMode s)
    v (predLoopId s) (webcam s) (isRunning s)
    (threshold s) (stableWindowMs s) (lastTop s) (locked s).
Definition set_predLoopId v (s : TMScanner) : TMScanner :=
  mkTMScanner (topLeftEl s) (bottomLeftEl s) (modelPath s) (facingMode s)
    (model s) v (webcam s) (isRunning s)
    (threshold s) (stableWindowMs s) (lastTop s) (locked s).
Definition set_webcam v (s : TMScanner) : TMScanner :=
  mkTMScanner (topLeftEl s) (bottomLeftEl s) (modelPath s) (facingMode s)
    (model s) (predLoopId s) v (isRunning s)
    (threshold s) (stableWindowMs s) (lastTop s) (locked s).
Definition set_isRunning v (s : TMScanner) : TMScanner :=
  mkTMScanner (topLeftEl s) (bottomLeftEl s) (modelPath s) (facingMode s)
    (model s) (predLoopId s) (webcam s) v
    (threshold s) (stableWindowMs s) (lastTop s) (locked s).
Definition set_lastTop v (s : TMScanner) : TMScanner :=
  mkTMScanner (topLeftEl s) (bottomLeftEl s) (modelPath s) (facingMode s)
    (model s) (predLoopId s) (webcam s) (isRunning s)
    (threshold s) (stableWindowMs s) v (locked s).
Definition set_locked v (s : TMScanner) : TMScanner :=
  mkTMScanner (topLeftEl s) (bottomLeftEl s) (modelPath s) (facingMode s)
    (model s) (predLoopId s) (webcam s) (isRunning s)
    (threshold s) (stableWindowMs s) (lastTop s) v.

(** What the scanner writes into its top-left overlay. *)
Inductive Overlay :=
| Loading                       (* note: Loading model... *)
| ModelReady                    (* note: Model ready *)
| RequestingCamera              (* note: Requesting camera... *)
| Scanning                      (* note: Scanning... *)
| ModelLoadFailed (path : jsstring)
| CameraBlocked                 (* error: Camera blocked or not found *)
| StartFailed                   (* error: Failed to start camera *)
| PredictionFailed              (* error: Prediction failed (see console) *)
| TopClass (n : jsstring) (p : Q)
| LockedOn (n : jsstring).      (* freezeOverlay *)

Inductive Event :=
| TopLeft (o : Overlay)
| PredList (rows : list Prediction)
| ConsoleError (what : string)
| OnLock (info : LockInfo)
| UnhandledRejection (e : Exn).

(** A scanner object together with the animation-frame callbacks
    [() => this.loop()] the browser holds for it: [queue] lists the
    identifiers still pending, oldest first, [fresh] is the identifier
    the next [requestAnimationFrame] returns. Identifiers are positive,
    so [if (this.predLoopId)] only tests for presence. *)
Record Sess := mkSess {
  scanner : TMScanner;
  queue : list positive;
  fresh : positive
}.

Definition create (cfg : Cfg) : Sess :=
  {| scanner := new cfg; queue := []; fresh := 1%positive |}.

Definition M := Eff.M Sess Event.

Definition this : M TMScanner :=
  Eff.bind Eff.get (fun st => Eff.ret (scanner st)).

Definition upd (f : TMScanner -> TMScanner) : M unit :=
  Eff.modify (fun st => mkSess (f (scanner st)) (queue st) (fresh st)).

(** Calling an [async] function without awaiting it: an exception inside
    rejects a promise nobody looks at. *)
Definition spawn (m : M unit) : M unit :=
  Eff.try_catch m (fun e => Eff.emit (UnhandledRejection e)).

Definition requestAnimationFrame : M positive :=
  st <- Eff.get ;;
  Eff.put (mkSess (scanner st) (queue st ++ [fresh st]) (Pos.succ (fresh st))) ;;
  Eff.ret (fresh st).

Definition cancelAnimationFrame (id : positive) : M unit :=
  Eff.modify (fun st =>
    mkSess (scanner st)
           (filter (fun j => negb (Pos.eqb j id)) (queue st))
           (fresh st)).

Definition note (o : Overlay) : M unit :=
  s <- this ;; Eff.when (topLeftEl s) (Eff.emit (TopLeft o)).

Definition error (o : Overlay) : M unit :=
  s <- this ;; Eff.when (topLeftEl s) (Eff.emit (TopLeft o)).

(** *** What the environment answers *)

Inductive PredictResult :=
| PredictOk (preds : list Prediction)
| PredictErr (e : Exn).

(** One frame: what [model.predict] settles to, the reading of
    [performance.now()] and the reading of [new Date()]. *)
Record Frame := mkFrame {
  predict : PredictResult;
  now : Q;
  date : Z
}.

(** One activation run in one step: whether [tmImage.load] fails,
    whether [webcam.setup] fails, and the first frame. [webcam.play] is
    taken to resolve here; its rejection, after which the stream stays
    live, is a run of [Async]. *)
Record StartEnv := mkStartEnv {
  load : option Exn;
  camera : option Exn;
  first : Frame
}.

(** *** [loadModel] *)

Definition loadModel (env : StartEnv) : M unit :=
  Eff.try_catch
    (note Loading ;;
     match load env with
     | Some e => Eff.throw e
     | None =>
         s <- this ;;
         upd (set_model (Some (TMModel (modelPath s)))) ;;
         note ModelReady
     end)
    (fun e =>
       s <- this ;;
       error (ModelLoadFailed (modelPath s)) ;;
       Eff.emit (ConsoleError "TMScanner model load error:") ;;
       Eff.throw e).

(** *** [stop] *)

Definition webcam_stop : M unit :=
  s <- this ;;
  match webcam s with
  | Some CamNew | None => Eff.throw TypeError
  | Some _ => upd (set_webcam (Some CamStopped))
  end.

Definition stop : M unit :=
  upd (set_isRunning false) ;;
  s <- this ;;
  match predLoopId s with
  | Some id => cancelAnimationFrame id
  | None => Eff.ret tt
  end ;;
  match webcam s with
  | Some _ => Eff.try_catch webcam_stop (fun _ => Eff.ret tt)
  | None => Eff.ret tt
  end.

Definition freezeOverlay (message : jsstring) : M unit :=
  s <- this ;; Eff.when (topLeftEl s) (Eff.emit (TopLeft (LockedOn message))).

(** *** [loop] *)

(** [preds.sort((a, b) => b.probability - a.probability)]: descending by
    probability; the sort is stable, equal probabilities keep the order
    of the model's output. *)
Fixpoint insert_desc (p : Prediction) (l : list Prediction) : list Prediction :=
  match l with
  | [] => [p]
  | q :: l' =>
      if lt (probability p) (probability q)
      then q :: insert_desc p l'
      else p :: q :: l'
  end.

Definition sort_desc (l : list Prediction) : list Prediction :=
  fold_right insert_desc [] l.

(** [await this.model.predict(this.webcam.canvas)]; a missing model is a
    [TypeError] raised inside the [try]. *)
Definition call_predict (f : Frame) : M (list Prediction) :=
  s <- this ;;
  match model s with
  | None => Eff.throw TypeError
  | Some _ =>
      match predict f with
      | PredictOk preds => Eff.ret preds
      | PredictErr e => Eff.throw e
      end
  end.

Definition schedule : M unit :=
  id <- requestAnimationFrame ;;
  upd (set_predLoopId (Some id)).

(** The stability / lock part of [loop]; the result says whether the
    function goes on to schedule the next frame ([true]) or has returned
    after locking ([false]). *)
Definition stability (topName : jsstring) (topProb : Q) (f : Frame) : M bool :=
  s <- this ;;
  let establish : M bool :=
    (if ge topProb (threshold s)
     then upd (set_lastTop (Some (mkLastTop topName (now f) topProb)))
     else upd (set_lastTop None)) ;;
    Eff.ret true in
  match lastTop s with
  | None => establish
  | Some l =>
      if strict_neq (name l) topName || lt topProb (threshold s)
      then establish
      else
        if ge (now f - since l) (stableWindowMs s)
        then
          upd (set_locked true) ;;
          stop ;;
          freezeOverlay topName ;;
          Eff.emit (OnLock (mkLockInfo topName topProb (date f))) ;;
          Eff.ret false
        else Eff.ret true
  end.

(** [loop] with its await of [predict] settled on the spot; the two
    halves are [Async.begin_loop] and [Async.after_predict]. *)
Definition loop (f : Frame) : M unit :=
  s <- this ;;
  if negb (isRunning s) then Eff.ret tt else
  match webcam s with
  | None => Eff.throw TypeError            (* this.webcam.update() *)
  | Some _ =>
      r <- Eff.try_catch
             (preds <- call_predict f ;; Eff.ret (Some preds))
             (fun _ =>
                error PredictionFailed ;;
                Eff.emit (ConsoleError "Predict error:") ;;
                Eff.ret None) ;;
      match r with
      | None => Eff.ret tt                 (* return; inside the catch *)
      | Some preds0 =>
          match sort_desc preds0 with
          | [] => Eff.throw TypeError      (* top is undefined: top.className *)
          | (top :: _) as preds =>
              let topName := className top in
              let topProb := probability top in
              Eff.when (topLeftEl s) (Eff.emit (TopLeft (TopClass topName topProb))) ;;
              Eff.when (bottomLeftEl s) (Eff.emit (PredList (firstn 3 preds))) ;;
              continue <- stability topName topProb f ;;
              Eff.when continue schedule
          end
      end
  end.

(** *** [start] *)

(** [await this.webcam.setup(...)] followed by [await this.webcam.play()],
    when nothing happens in between and [play] resolves. *)
Definition webcam_setup (env : StartEnv) : M unit :=
  match camera env with
  | Some e => Eff.throw e
  | None => upd (set_webcam (Some CamLive))
  end.

Definition is_none {A} (o : option A) : bool :=
  match o with None => true | Some _ => false end.

(** [start] with each of its three awaits settled on the spot. What the
    page and the browser can do while one of them is pending
    ([start()] again, [stop()], a callback) is in [Async.begin_start]
    and [Async.resume]. *)
Definition start (env : StartEnv) : M unit :=
  Eff.try_catch
    (s <- this ;;
     Eff.when (is_none (model s)) (loadModel env) ;;
     upd (set_webcam (Some CamNew)) ;;
     note RequestingCamera ;;
     webcam_setup env ;;
     upd (set_isRunning true) ;;
     upd (set_locked false) ;;
     upd (set_lastTop None) ;;
     note Scanning ;;
     spawn (loop (first env)))
    (fun e =>
       match e with
       | NotAllowedError | NotFoundError => error CameraBlocked
       | _ => error StartFailed
       end ;;
       Eff.emit (ConsoleError "TMScanner start error:") ;;
       Eff.throw e).

(** *** The browser drives the loop *)

(** The browser runs the oldest pending animation-frame callback of the
    scanner, if there is one, on the given frame. *)
Definition tick (f : Frame) : M unit :=
  st <- Eff.get ;;
  match queue st with
  | [] => Eff.ret tt
  | _ :: q =>
      Eff.put (mkSess (scanner st) q (fresh st)) ;;
      spawn (loop f)
  end.

Fixpoint run (fs : list Frame) : M unit :=
  match fs with
  | [] => Eff.ret tt
  | f :: fs' => tick f ;; run fs'
  end.

(** The [onLock] calls in an output trace. *)
Definition locks (out : list Event) : list LockInfo :=
  flat_map (fun e => match e with OnLock i => [i] | _ => [] end) out.

(** The top-ranked prediction of a frame, when there is one. *)
Definition top_of (f : Frame) : option Prediction :=
  match predict f with
  | PredictOk preds => hd_error (sort_desc preds)
  | PredictErr _ => None
  end.

(** *** Vocabulary for the statements below *)

(** The session after [loop] has scheduled its next run with scanner
    fields [s]: the new identifier is stored in [predLoopId] and joins the
    pending callbacks [q]. *)
Definition rescheduled (s : TMScanner) (q : list positive) (n : positive) : Sess :=
  mkSess (set_predLoopId (Some n) s) (q ++ [n]) (Pos.succ n).

(** What [loop] stores in [lastTop] when it starts a streak on the top
    prediction [p] at time [t]. *)
Definition candidate (s : TMScanner) (p : Prediction) (t : Q) : option LastTop :=
  if ge (probability p) (threshold s)
  then Some (mkLastTop (className p) t (probability p))
  else None.

(** The streak the top prediction [p] continues, if it does: there is a
    [lastTop], it has the name of [p], and [p] is not below the threshold. *)
Definition continued (s : TMScanner) (p : Prediction) : option LastTop :=
  match lastTop s with
  | Some l =>
      if strict_neq (name l) (className p) || lt (probability p) (threshold s)
      then None
      else Some l
  | None => None
  end.

(** The label of the top-ranked prediction of a frame. *)
Definition label_of (f : Frame) : option jsstring :=
  option_map className (top_of f).

(** A session in which no evaluation can happen any more unless [start]
    is called: not running, or no callback pending. *)
Definition halted (st : Sess) : Prop :=
  isRunning (scanner st) = false \/ queue st = [].

(** The top label changes before the window [w] has elapsed: whenever the
    frames [i..j] of the stream all have the same top label, less than [w]
    passes between frame [i] and frame [j]. *)
Definition changes_within (w : Q) (fs : list Frame) : Prop :=
  forall i j fi fj lbl,
    (i < j)%nat ->
    nth_error fs i = Some fi -> nth_error fs j = Some fj ->
    (forall k fk, (i <= k <= j)%nat -> nth_error fs k = Some fk ->
                  label_of fk = Some lbl) ->
    (now fj - now fi < w)%Q.

(** The scanner has what [loop] dereferences: a model and a webcam
    object, as it does from the first successful [start] on. *)
Definition equipped (s : TMScanner) : Prop :=
  (exists m, model s = Some m) /\ (exists w, webcam s = Some w).

(** All pending callbacks are the one [predLoopId] names: the session has
    a single loop. *)
Definition single_loop (st : Sess) : Prop :=
  forall id, In id (queue st) -> predLoopId (scanner st) = Some id.

(** At most one callback is pending, and [predLoopId] names it: what a
    session has as long as [start] is not called while a callback is
    pending. *)
Definition one_pending (st : Sess) : Prop :=
  queue st = [] \/
  exists id, queue st = [id] /\ predLoopId (scanner st) = Some id.

(** The session as [start] leaves it when it calls [loop]: model loaded,
    camera live, running, not locked, no candidate. *)
Definition armed (st : Sess) : Sess :=
  let s := scanner st in
  let s1 := match model s with
            | None => set_model (Some (TMModel (modelPath s))) s
            | Some _ => s
            end in
  mkSess
    (set_lastTop None
       (set_locked false
          (set_isRunning true
             (set_webcam (Some CamLive) (set_webcam (Some CamNew) s1)))))
    (queue st) (fresh st).

(** The streak stored in [lastTop] cannot reach the window [w] on the
    frames [fs] to come: as long as they keep its label, less than [w] has
    passed since it began. *)
Definition streak_short (w : Q) (st : Sess) (fs : list Frame) : Prop :=
  match lastTop (scanner st) with
  | None => True
  | Some l =>
      forall j fj,
        nth_error fs j = Some fj ->
        (forall k fk, (k <= j)%nat -> nth_error fs k = Some fk ->
                      label_of fk = Some (name l)) ->
        (now fj - since l < w)%Q
  end.

(** After the cycle on frame [f] a callback is pending, so that the next
    frame will be processed. *)
Definition retried_after (st : Sess) (f : Frame) : Prop :=
  queue (Eff.final (tick f st)) <> [].

(** The camera is released: no live stream is held by [this.webcam]. *)
Definition released (s : TMScanner) : Prop := webcam s <> Some CamLive.

(** *** Sample data *)

Definition cat : jsstring := str "cat".
Definition dog : jsstring := str "dog".

(** A frame whose model output is the single class [lbl] with
    probability [p], at time [t]. *)
Definition frame_of (lbl : jsstring) (p t : Q) : Frame :=
  mkFrame (PredictOk [mkPrediction lbl p]) t 0.

(** An activation in which model and camera are fine. *)
Definition env_of (f : Frame) : StartEnv := mkStartEnv None None f.

Definition cfg0 : Cfg := mkCfg true true (str "./tm_model/") None.

(** The session right after a successful first activation whose first
    frame shows a cat with probability 0.99 at time 0. *)
Definition st_cat : Sess :=
  Eff.final (start (env_of (frame_of cat (99 # 100) 0)) (create cfg0)).

(** A frame on which [model.predict] rejects, and one on which it
    resolves to an empty list. *)
Definition frame_rejected (t : Q) : Frame := mkFrame (PredictErr OtherError) t 0.
Definition frame_empty (t : Q) : Frame := mkFrame (PredictOk []) t 0.

(** The scanner with another stability window. The script fixes the
    window in the constructor; this is only used to state what the loop
    does for other values. *)
Definition with_window (w : Q) (st : Sess) : Sess :=
  let s := scanner st in
  mkSess
    (mkTMScanner (topLeftEl s) (bottomLeftEl s) (modelPath s) (facingMode s)
       (model s) (predLoopId s) (webcam s) (isRunning s)
       (threshold s) w (lastTop s) (locked s))
    (queue st) (fresh st).

End Scanner.

(* ===================================================================== *)
(** ** [normalizeName] *)
(* ===================================================================== *)

Module Names.

Import JS.
Local Open Scope N_scope.

(** The code units [String.prototype.trim] strips and [\s] matches: the
    WhiteSpace and LineTerminator code points of ECMAScript. *)
Definition is_space (c : N) : bool :=
  ((9 <=? c) && (c <=? 13)) || (c =? 32) || (c =? 160) || (c =? 5760)
  || ((8192 <=? c) && (c <=? 8202)) || (c =? 8232) || (c =? 8233)
  || (c =? 8239) || (c =? 8287) || (c =? 12288) || (c =? 65279).

Fixpoint trimStart (s : jsstring) : jsstring :=
  match s with
  | c :: s' => if is_space c then trimStart s' else s
  | [] => []
  end.

Definition trimEnd (s : jsstring) : jsstring := rev (trimStart (rev s)).

Definition trim (s : jsstring) : jsstring := trimEnd (trimStart s).

(** A case table for [toLowerCase], one code unit at a time: Basic Latin
    (A-Z) and the Latin-1 Supplement (U+00C0-U+00DE without the
    multiplication sign); code units outside these blocks are left as they
    are. The case conversion of the engine covers every cased letter, may
    change the length of a string and looks at the context of a capital
    sigma: it is not part of the script, and [normalizeWith] below takes it
    as a parameter. The table is the instance used where labels are
    compared on the page. *)
Definition lower_unit (c : N) : N :=
  if (65 <=? c) && (c <=? 90) then c + 32
  else if (192 <=? c) && (c <=? 222) && negb (c =? 215) then c + 32
  else c.

Definition toLowerCase (s : jsstring) : jsstring := map lower_unit s.

(** [s.replace(/\s+/g, ' ')]: every maximal run of white space becomes one
    U+0020. [in_run] says that the previous code unit was white space. *)
Fixpoint replace_runs (in_run : bool) (s : jsstring) : jsstring :=
  match s with
  | [] => []
  | c :: s' =>
      if is_space c
      then if in_run then replace_runs true s' else 32 :: replace_runs true s'
      else c :: replace_runs false s'
  end.

Definition collapse (s : jsstring) : jsstring := replace_runs false s.

(** [function normalizeName(s)]; [None] stands for [null] or [undefined],
    which [(s || '')] turns into the empty string like the empty string
    itself. *)
Definition normalizeName (s : option jsstring) : jsstring :=
  collapse (toLowerCase (trim (match s with Some x => x | None => [] end))).

(** [normalizeName] over the case conversion of the engine: [lower] is
    [String.prototype.toLowerCase]. *)
Definition normalizeWith (lower : jsstring -> jsstring) (s : option jsstring)
    : jsstring :=
  collapse (lower (trim (match s with Some x => x | None => [] end))).

(** *** Vocabulary for the statements below *)

(** The white space of ECMAScript, code point by code point: TAB, LF, VT,
    FF, CR, SP, NBSP, U+1680, U+2000-U+200A, LS, PS, U+202F, U+205F,
    U+3000 and ZWNBSP. *)
Definition white_space : list N :=
  [9; 10; 11; 12; 13; 32; 160; 5760;
   8192; 8193; 8194; 8195; 8196; 8197; 8198; 8199; 8200; 8201; 8202;
   8232; 8233; 8239; 8287; 12288; 65279].

Definition white (c : N) : Prop := In c white_space.

Definition is_white (c : N) : bool := existsb (N.eqb c) white_space.

(** The capital letters A-Z, and a string of Basic Latin. *)
Definition capital (c : N) : Prop := 65 <= c <= 90.

Definition basic_latin (s : jsstring) : Prop := forall c, In c s -> c < 128.

(** A-Z to a-z, every other code unit as it is. *)
Definition ascii_lower (c : N) : N :=
  if (65 <=? c) && (c <=? 90) then c + 32 else c.

(** No white space at either end. *)
Definition bare_ends (s : jsstring) : Prop :=
  (forall c s', s = c :: s' -> ~ white c) /\
  (forall c s', s = s' ++ [c] -> ~ white c).

(** Every white-space code unit of the string is a U+0020 that stands
    between two code units that are not white space. *)
Definition lone_spaces (s : jsstring) : Prop :=
  forall a c b, s = a ++ c :: b -> white c ->
    c = 32 /\
    (exists a' x, a = a' ++ [x] /\ ~ white x) /\
    (exists y b', b = y :: b' /\ ~ white y).

(** The pieces of a string: its maximal runs of code units that are not
    white space, in their order. [w] is the piece being read, in reverse. *)
Fixpoint pieces_from (w : jsstring) (s : jsstring) : list jsstring :=
  match s with
  | [] => match w with [] => [] | _ => [rev w] end
  | c :: s' =>
      if is_white c
      then match w with
           | [] => pieces_from [] s'
           | _ => rev w :: pieces_from [] s'
           end
      else pieces_from (c :: w) s'
  end.

Definition pieces (s : jsstring) : list jsstring := pieces_from [] s.

(** What is asked of the case conversion of the engine. *)
Record case_conversion (lower : jsstring -> jsstring) : Prop := {
  (* it puts no white space at an end that has none *)
  lower_ends : forall s, bare_ends s -> bare_ends (lower s);
  (* converting twice is converting once *)
  lower_twice : forall s, lower (lower s) = lower s;
  (* a converted string stays converted when each run of white space in
     it is replaced by one space *)
  lower_runs : forall s, lower s = s -> lower (collapse s) = collapse s;
  (* the result has no capital A-Z *)
  lower_capitals : forall s c, In c (lower s) -> ~ capital c;
  (* on Basic Latin it turns A-Z into a-z and nothing else *)
  lower_basic : forall s, basic_latin s -> lower s = map ascii_lower s
}.


(** No white space at either end. *)
Definition trimmed (s : jsstring) : Prop :=
  (forall c s', s = c :: s' -> is_space c = false) /\
  (forall c s', s = s' ++ [c] -> is_space c = false).

(** Nothing or a code unit that is not white space at the end. *)
Definition ends_well (s : jsstring) : Prop :=
  forall c s', s = s' ++ [c] -> is_space c = false.

(** The only white space is a single U+0020 between two other code units. *)
Fixpoint single_spaced (s : jsstring) : Prop :=
  match s with
  | [] => True
  | c :: s' =>
      (is_space c = true ->
         c = 32 /\ match s' with d :: _ => is_space d = false | [] => True end)
      /\ single_spaced s'
  end.

(** The words of a string: its maximal runs of code units that are not
    white space. [w] is the word being read, in reverse. *)
Fixpoint words_from (w : jsstring) (s : jsstring) : list jsstring :=
  match s with
  | [] => match w with [] => [] | _ => [rev w] end
  | c :: s' =>
      if is_space c
      then match w with [] => words_from [] s' | _ => rev w :: words_from [] s' end
      else words_from (c :: w) s'
  end.

Definition words (s : jsstring) : list jsstring := words_from [] s.

Fixpoint join_space (ws : list jsstring) : jsstring :=
  match ws with
  | [] => []
  | [w] => w
  | w :: ws' => w ++ 32 :: join_space ws'
  end.

(** What the specification says of normalization, read word by word: the
    words of the label in lower case, one space between them. *)
Definition spec_normalize (s : jsstring) : jsstring :=
  join_space (map toLowerCase (words s)).

End Names.

(* ===================================================================== *)
(** ** The page: demo flow, solo flows, home buttons *)
(* ===================================================================== *)

Module Demo.

Import JS Scanner Names.
Local Open Scope eff_scope.

Inductive View := ViewHome | ViewDemo | ViewSoloFace | ViewSoloId | ViewVerified.

(** [style.display] of a Scan Again button: as the page declares it until
    the script assigns ['none'] or ['inline-flex']. *)
Inductive Display := DisplayInitial | DisplayNone | DisplayInlineFlex.

(** The four scanner variables of the script. *)
Inductive Role := DemoFace | DemoId | SoloFace | SoloId.

Record App := mkApp {
  view : View;
  (* let demoFaceScanner, demoIdScanner; let lockedFace, lockedId *)
  demoFaceScanner : option Sess;
  demoIdScanner : option Sess;
  lockedFace : option LockInfo;
  lockedId : option LockInfo;
  (* let soloFaceScanner, soloIdScanner *)
  soloFaceScanner : option Sess;
  soloIdScanner : option Sess;
  (* the Scan Again buttons *)
  demoFaceAgain : Display;
  demoIdAgain : Display;
  soloFaceAgain : Display;
  soloIdAgain : Display;
  (* whether startDemoFlow / startSoloFace / startSoloId have assigned
     the onclick handlers of their view *)
  demoWired : bool;
  soloFaceWired : bool;
  soloIdWired : bool
}.

Definition set_view v (a : App) : App :=
  mkApp v (demoFaceScanner a) (demoIdScanner a) (lockedFace a) (lockedId a)
    (soloFaceScanner a) (soloIdScanner a)
    (demoFaceAgain a) (demoIdAgain a) (soloFaceAgain a) (soloIdAgain a)
    (demoWired a) (soloFaceWired a) (soloIdWired a).
Definition set_demoFaceScanner v (a : App) : App :=
  mkApp (view a) v (demoIdScanner a) (lockedFace a) (lockedId a)
    (soloFaceScanner a) (soloIdScanner a)
    (demoFaceAgain a) (demoIdAgain a) (soloFaceAgain a) (soloIdAgain a)
    (demoWired a) (soloFaceWired a) (soloIdWired a).
Definition set_demoIdScanner v (a : App) : App :=
  mkApp (view a) (demoFaceScanner a) v (lockedFace a) (lockedId a)
    (soloFaceScanner a) (soloIdScanner a)
    (demoFaceAgain a) (demoIdAgain a) (soloFaceAgain a) (soloIdAgain a)
    (demoWired a) (soloFaceWired a) (soloIdWired a).
Definition set_lockedFace v (a : App) : App :=
  mkApp (view a) (demoFaceScanner a) (demoIdScanner a) v (lockedId a)
    (soloFaceScanner a) (soloIdScanner a)
    (demoFaceAgain a) (demoIdAgain a) (soloFaceAgain a) (soloIdAgain a)
    (demoWired a) (soloFaceWired a) (soloIdWired a).
Definition set_lockedId v (a : App) : App :=
  mkApp (view a) (demoFaceScanner a) (demoIdScanner a) (lockedFace a) v
    (soloFaceScanner a) (soloIdScanner a)
    (demoFaceAgain a) (demoIdAgain a) (soloFaceAgain a) (soloIdAgain a)
    (demoWired a) (soloFaceWired a) (soloIdWired a).
Definition set_soloFaceScanner v (a : App) : App :=
  mkApp (view a) (demoFaceScanner a) (demoIdScanner a) (lockedFace a) (lockedId a)
    v (soloIdScanner a)
    (demoFaceAgain a) (demoIdAgain a) (soloFaceAgain a) (soloIdAgain a)
    (demoWired a) (soloFaceWired a) (soloIdWired a).
Definition set_soloIdScanner v (a : App) : App :=
  mkApp (view a) (demoFaceScanner a) (demoIdScanner a) (lockedFace a) (lockedId a)
    (soloFaceScanner a) v
    (demoFaceAgain a) (demoIdAgain a) (soloFaceAgain a) (soloIdAgain a)
    (demoWired a) (soloFaceWired a) (soloIdWired a).
Definition set_demoFaceAgain v (a : App) : App :=
  mkApp (view a) (demoFaceScanner a) (demoIdScanner a) (lockedFace a) (lockedId a)
    (soloFaceScanner a) (soloIdScanner a)
    v (demoIdAgain a) (soloFaceAgain a) (soloIdAgain a)
    (demoWired a) (soloFaceWired a) (soloIdWired a).
Definition set_demoIdAgain v (a : App) : App :=
  mkApp (view a) (demoFaceScanner a) (demoIdScanner a) (lockedFace a) (lockedId a)
    (soloFaceScanner a) (soloIdScanner a)
    (demoFaceAgain a) v (soloFaceAgain a) (soloIdAgain a)
    (demoWired a) (soloFaceWired a) (soloIdWired a).
Definition set_soloFaceAgain v (a : App) : App :=
  mkApp (view a) (demoFaceScanner a) (demoIdScanner a) (lockedFace a) (lockedId a)
    (soloFaceScanner a) (soloIdScanner a)
    (demoFaceAgain a) (demoIdAgain a) v (soloIdAgain a)
    (demoWired a) (soloFaceWired a) (soloIdWired a).
Definition set_soloIdAgain v (a : App) : App :=
  mkApp (view a) (demoFaceScanner a) (demoIdScanner a) (lockedFace a) (lockedId a)
    (soloFaceScanner a) (soloIdScanner a)
    (demoFaceAgain a) (demoIdAgain a) (soloFaceAgain a) v
    (demoWired a) (soloFaceWired a) (soloIdWired a).
Definition set_demoWired v (a : App) : App :=
  mkApp (view a) (demoFaceScanner a) (demoIdScanner a) (lockedFace a) (lockedId a)
    (soloFaceScanner a) (soloIdScanner a)
    (demoFaceAgain a) (demoIdAgain a) (soloFaceAgain a) (soloIdAgain a)
    v (soloFaceWired a) (soloIdWired a).
Definition set_soloFaceWired v (a : App) : App :=
  mkApp (view a) (demoFaceScanner a) (demoIdScanner a) (lockedFace a) (lockedId a)
    (soloFaceScanner a) (soloIdScanner a)
    (demoFaceAgain a) (demoIdAgain a) (soloFaceAgain a) (soloIdAgain a)
    (demoWired a) v (soloIdWired a).
Definition set_soloIdWired v (a : App) : App :=
  mkApp (view a) (demoFaceScanner a) (demoIdScanner a) (lockedFace a) (lockedId a)
    (soloFaceScanner a) (soloIdScanner a)
    (demoFaceAgain a) (demoIdAgain a) (soloFaceAgain a) (soloIdAgain a)
    (demoWired a) (soloFaceWired a) v.

Definition slot (r : Role) (a : App) : option Sess :=
  match r with
  | DemoFace => demoFaceScanner a
  | DemoId => demoIdScanner a
  | SoloFace => soloFaceScanner a
  | SoloId => soloIdScanner a
  end.

Definition set_slot (r : Role) (v : option Sess) : App -> App :=
  match r with
  | DemoFace => set_demoFaceScanner v
  | DemoId => set_demoIdScanner v
  | SoloFace => set_soloFaceScanner v
  | SoloId => set_soloIdScanner v
  end.

(** What the handlers write to the page besides the state above. *)
Inductive BadgeEl := BadgeFace | BadgeId | BadgeVerify.
Inductive BadgeState := Pending | Active | Done.
Inductive Status :=
| WaitingForFace        (* Waiting for face lock... *)
| WaitingForId          (* Face done. Waiting for ID lock... *)
| ReadyToVerifyText     (* Ready to verify! *)
| RescanningId          (* Rescanning ID... *)
| BothMustBeLocked.     (* Both face & ID must be locked! *)
Inductive LogLine :=
| DemoStarted
| FaceLocked (n : jsstring)
| IdLocked (n : jsstring)
| VerifiedLog (n : jsstring).

Inductive Out :=
| SetStepState (b : BadgeEl) (s : BadgeState)
| VerifyStatus (s : Status)
| AddLog (l : LogLine)
| AlertMismatch                       (* alert('Mismatch! Please rescan ID.') *)
| VerifiedText (n : jsstring)         (* the name shown on the Verified view *)
| OfScanner (r : Role) (e : Scanner.Event).

Definition AppM := Eff.M App Out.

(** [x.m()] on the scanner held in a variable: a [TypeError] when the
    variable is [undefined]; the result lists the [onLock] calls the
    method made. *)
Definition call (r : Role) (m : Scanner.M unit) : AppM (list LockInfo) :=
  fun a =>
    match slot r a with
    | None => Eff.mkResult (inr TypeError) a []
    | Some st =>
        match m st with
        | Eff.mkResult v st' out =>
            Eff.mkResult
              (match v with
               | inl _ => inl (locks out)
               | inr e => inr e
               end)
              (set_slot r (Some st') a)
              (map (OfScanner r) out)
        end
    end.

Fixpoint each {A} (k : A -> AppM unit) (l : list A) : AppM unit :=
  match l with
  | [] => Eff.ret tt
  | x :: l' => k x ;; each k l'
  end.

(** [if (x) x.stop();] *)
Definition stop_if_set (r : Role) : AppM unit :=
  a <- Eff.get ;;
  match slot r a with
  | Some _ => call r stop ;; Eff.ret tt
  | None => Eff.ret tt
  end.

(** [function safeStop(scanner)] *)
Definition safeStop (r : Role) : AppM unit :=
  a <- Eff.get ;;
  match slot r a with
  | Some _ => Eff.try_catch (call r stop ;; Eff.ret tt) (fun _ => Eff.ret tt)
  | None => Eff.ret tt
  end.

(** [x.start();] not awaited, with the [onLock] callback of [x]. *)
Definition start_scanner (r : Role) (env : StartEnv)
    (onLock : LockInfo -> AppM unit) : AppM unit :=
  ls <- call r (spawn (start env)) ;; each onLock ls.

Definition cfgFace : Cfg := mkCfg true true (str "./tm_model/") (Some user).
Definition cfgId : Cfg := mkCfg true true (str "./id_model/") (Some environment).

(** *** Demo flow *)

Definition onLockDemoId (idInfo : LockInfo) : AppM unit :=
  Eff.modify (set_lockedId (Some idInfo)) ;;
  Eff.emit (SetStepState BadgeId Done) ;;
  Eff.modify (set_demoIdAgain DisplayInlineFlex) ;;
  Eff.emit (SetStepState BadgeVerify Active) ;;
  Eff.emit (VerifyStatus ReadyToVerifyText) ;;
  Eff.emit (AddLog (IdLocked (info_className idInfo))).

Definition onLockDemoFace (idEnv : StartEnv) (info : LockInfo) : AppM unit :=
  Eff.modify (set_lockedFace (Some info)) ;;
  Eff.emit (SetStepState BadgeFace Done) ;;
  Eff.modify (set_demoFaceAgain DisplayInlineFlex) ;;
  Eff.emit (AddLog (FaceLocked (info_className info))) ;;
  Eff.emit (SetStepState BadgeId Active) ;;
  Eff.emit (VerifyStatus WaitingForId) ;;
  stop_if_set DemoId ;;
  Eff.modify (set_demoIdScanner (Some (create cfgId))) ;;
  start_scanner DemoId idEnv onLockDemoId.

Definition startDemoFlow (env idEnv : StartEnv) : AppM unit :=
  Eff.emit (AddLog DemoStarted) ;;
  Eff.modify (set_lockedFace None) ;;
  Eff.modify (set_lockedId None) ;;
  Eff.emit (SetStepState BadgeFace Active) ;;
  Eff.emit (SetStepState BadgeId Pending) ;;
  Eff.emit (SetStepState BadgeVerify Pending) ;;
  Eff.emit (VerifyStatus WaitingForFace) ;;
  stop_if_set DemoFace ;;
  stop_if_set DemoId ;;
  Eff.modify (set_demoFaceScanner (Some (create cfgFace))) ;;
  start_scanner DemoFace env (onLockDemoFace idEnv) ;;
  Eff.modify (set_demoWired true).

(** [demo-face-scan-again.onclick] *)
Definition demoFaceScanAgain (env idEnv : StartEnv) : AppM unit :=
  Eff.modify (set_lockedFace None) ;;
  Eff.modify (set_lockedId None) ;;
  stop_if_set DemoId ;;
  Eff.emit (SetStepState BadgeFace Active) ;;
  Eff.emit (SetStepState BadgeId Pending) ;;
  Eff.emit (SetStepState BadgeVerify Pending) ;;
  Eff.modify (set_demoFaceAgain DisplayNone) ;;
  Eff.modify (set_demoIdAgain DisplayNone) ;;
  Eff.emit (VerifyStatus WaitingForFace) ;;
  start_scanner DemoFace env (onLockDemoFace idEnv).

(** [demo-id-scan-again.onclick] *)
Definition demoIdScanAgain (env : StartEnv) : AppM unit :=
  Eff.modify (set_lockedId None) ;;
  Eff.emit (SetStepState BadgeId Active) ;;
  Eff.emit (SetStepState BadgeVerify Pending) ;;
  Eff.modify (set_demoIdAgain DisplayNone) ;;
  Eff.emit (VerifyStatus RescanningId) ;;
  start_scanner DemoId env onLockDemoId.

(** [btn-demo-back.onclick] *)
Definition demoBack : AppM unit :=
  safeStop DemoFace ;;
  safeStop DemoId ;;
  Eff.modify (set_view ViewHome).

Definition goVerified (n : jsstring) : AppM unit :=
  safeStop DemoFace ;;
  safeStop DemoId ;;
  Eff.emit (VerifiedText n) ;;
  Eff.modify (set_view ViewVerified) ;;
  Eff.emit (AddLog (VerifiedLog n)).

(** [faceName && idName && faceName === idName] *)
Definition names_match (faceName idName : jsstring) : bool :=
  negb (is_none (hd_error faceName)) && negb (is_none (hd_error idName))
  && strict_eq faceName idName.

(** [btn-check-verify.onclick] *)
Definition checkVerify (env : StartEnv) : AppM unit :=
  a <- Eff.get ;;
  match lockedFace a, lockedId a with
  | Some face, Some id =>
      let faceName := normalizeName (Some (info_className face)) in
      let idName := normalizeName (Some (info_className id)) in
      if names_match faceName idName
      then
        Eff.emit (SetStepState BadgeVerify Done) ;;
        goVerified faceName
      else
        Eff.emit AlertMismatch ;;
        Eff.modify (set_lockedId None) ;;
        Eff.modify (set_demoIdAgain DisplayNone) ;;
        Eff.emit (SetStepState BadgeVerify Pending) ;;
        Eff.emit (SetStepState BadgeId Active) ;;
        start_scanner DemoId env onLockDemoId
  | _, _ => Eff.emit (VerifyStatus BothMustBeLocked)
  end.

(** *** Solo flows *)

Definition onLockSoloFace (info : LockInfo) : AppM unit :=
  Eff.emit (AddLog (FaceLocked (info_className info))) ;;
  Eff.modify (set_soloFaceAgain DisplayInlineFlex).

Definition onLockSoloId (info : LockInfo) : AppM unit :=
  Eff.emit (AddLog (IdLocked (info_className info))) ;;
  Eff.modify (set_soloIdAgain DisplayInlineFlex).

Definition startSoloFace (env : StartEnv) : AppM unit :=
  stop_if_set SoloFace ;;
  Eff.modify (set_soloFaceAgain DisplayNone) ;;
  Eff.modify (set_soloFaceScanner (Some (create cfgFace))) ;;
  start_scanner SoloFace env onLockSoloFace ;;
  Eff.modify (set_soloFaceWired true).

Definition startSoloId (env : StartEnv) : AppM unit :=
  stop_if_set SoloId ;;
  Eff.modify (set_soloIdAgain DisplayNone) ;;
  Eff.modify (set_soloIdScanner (Some (create cfgId))) ;;
  start_scanner SoloId env onLockSoloId ;;
  Eff.modify (set_soloIdWired true).

Definition soloFaceScanAgain (env : StartEnv) : AppM unit :=
  Eff.modify (set_soloFaceAgain DisplayNone) ;;
  start_scanner SoloFace env onLockSoloFace.

Definition soloIdScanAgain (env : StartEnv) : AppM unit :=
  Eff.modify (set_soloIdAgain DisplayNone) ;;
  start_scanner SoloId env onLockSoloId.

Definition soloBack (r : Role) : AppM unit :=
  safeStop r ;; Eff.modify (set_view ViewHome).

(** *** What can happen on the page *)

(** A click on one of the buttons, or the browser running a pending
    animation-frame callback of one of the scanners. A click that starts a
    scanner carries what the environment answers to that activation;
    [idEnv] is the answer to the activation of the ID scanner that the
    face scanner's [onLock] starts. *)
Inductive Input :=
| ClickDemo (env idEnv : StartEnv)            (* btn-demo *)
| ClickFaceOnly (env : StartEnv)              (* btn-face-only *)
| ClickIdOnly (env : StartEnv)                (* btn-id-only *)
| ClickVerifiedDone                           (* btn-verified-done *)
| ClickDemoFaceAgain (env idEnv : StartEnv)   (* demo-face-scan-again *)
| ClickDemoIdAgain (env : StartEnv)           (* demo-id-scan-again *)
| ClickDemoBack                               (* btn-demo-back *)
| ClickVerify (env : StartEnv)                (* btn-check-verify *)
| ClickSoloFaceAgain (env : StartEnv)         (* solo-face-scan-again *)
| ClickSoloFaceBack                           (* solo-face-back *)
| ClickSoloIdAgain (env : StartEnv)           (* solo-id-scan-again *)
| ClickSoloIdBack                             (* solo-id-back *)
| Animate (r : Role) (f : Frame) (idEnv : StartEnv).

Definition onLock (r : Role) (idEnv : StartEnv) : LockInfo -> AppM unit :=
  match r with
  | DemoFace => onLockDemoFace idEnv
  | DemoId => onLockDemoId
  | SoloFace => onLockSoloFace
  | SoloId => onLockSoloId
  end.

(** A handler assigned to [onclick] by one of the flows runs only once
    that flow has assigned it. *)
Definition wired (w : App -> bool) (m : AppM unit) : AppM unit :=
  a <- Eff.get ;; if w a then m else Eff.ret tt.

Definition handle (i : Input) : AppM unit :=
  match i with
  | ClickDemo env idEnv => Eff.modify (set_view ViewDemo) ;; startDemoFlow env idEnv
  | ClickFaceOnly env => Eff.modify (set_view ViewSoloFace) ;; startSoloFace env
  | ClickIdOnly env => Eff.modify (set_view ViewSoloId) ;; startSoloId env
  | ClickVerifiedDone => Eff.modify (set_view ViewHome)
  | ClickDemoFaceAgain env idEnv => wired demoWired (demoFaceScanAgain env idEnv)
  | ClickDemoIdAgain env => wired demoWired (demoIdScanAgain env)
  | ClickDemoBack => wired demoWired demoBack
  | ClickVerify env => wired demoWired (checkVerify env)
  | ClickSoloFaceAgain env => wired soloFaceWired (soloFaceScanAgain env)
  | ClickSoloFaceBack => wired soloFaceWired (soloBack SoloFace)
  | ClickSoloIdAgain env => wired soloIdWired (soloIdScanAgain env)
  | ClickSoloIdBack => wired soloIdWired (soloBack SoloId)
  | Animate r f idEnv =>
      a <- Eff.get ;;
      match slot r a with
      | Some _ => ls <- call r (tick f) ;; each (onLock r idEnv) ls
      | None => Eff.ret tt
      end
  end.

(** The page once the script has loaded. *)
Definition boot : App := {|
  view := ViewHome;
  demoFaceScanner := None; demoIdScanner := None;
  lockedFace := None; lockedId := None;
  soloFaceScanner := None; soloIdScanner := None;
  demoFaceAgain := DisplayInitial; demoIdAgain := DisplayInitial;
  soloFaceAgain := DisplayInitial; soloIdAgain := DisplayInitial;
  demoWired := false; soloFaceWired := false; soloIdWired := false
|}.

(** The state a handler leaves behind, whether it returned or threw. *)
Definition react (a : App) (i : Input) : App := Eff.final (handle i a).

Definition after (ins : list Input) : App := fold_left react ins boot.

Inductive reachable : App -> Prop :=
| reach_boot : reachable boot
| reach_step a i : reachable a -> reachable (react a i).

(** *** Vocabulary for the statements below *)

(** The phase of the sequencer, read off the state: [Verified] is the
    Verified view being shown; before that the phase is given by which
    locks are stored. *)
Inductive Phase := AwaitingFirst | AwaitingSecond | ReadyToVerify | Verified.

Definition phase (a : App) : Phase :=
  match view a with
  | ViewVerified => Verified
  | _ =>
      match lockedFace a, lockedId a with
      | None, _ => AwaitingFirst
      | Some _, None => AwaitingSecond
      | Some _, Some _ => ReadyToVerify
      end
  end.

(** A button the user certainly sees: it sits in the active view, and if
    it is a Scan Again button the script has set it to ['inline-flex']. *)
Definition view_is (v : View) (a : App) : bool :=
  match view a, v with
  | ViewHome, ViewHome | ViewDemo, ViewDemo | ViewSoloFace, ViewSoloFace
  | ViewSoloId, ViewSoloId | ViewVerified, ViewVerified => true
  | _, _ => false
  end.

Definition shown (d : Display) : bool :=
  match d with DisplayInlineFlex => true | _ => false end.

Definition offered (a : App) (i : Input) : bool :=
  match i with
  | ClickDemo _ _ | ClickFaceOnly _ | ClickIdOnly _ => view_is ViewHome a
  | ClickVerifiedDone => view_is ViewVerified a
  | ClickDemoFaceAgain _ _ => view_is ViewDemo a && shown (demoFaceAgain a)
  | ClickDemoIdAgain _ => view_is ViewDemo a && shown (demoIdAgain a)
  | ClickDemoBack | ClickVerify _ => view_is ViewDemo a
  | ClickSoloFaceAgain _ => view_is ViewSoloFace a && shown (soloFaceAgain a)
  | ClickSoloFaceBack => view_is ViewSoloFace a
  | ClickSoloIdAgain _ => view_is ViewSoloId a && shown (soloIdAgain a)
  | ClickSoloIdBack => view_is ViewSoloId a
  | Animate _ _ _ => true
  end.

(** Every input of the sequence is offered in the state it arrives in. *)
Fixpoint all_offered (a : App) (ins : list Input) : bool :=
  match ins with
  | [] => true
  | i :: ins' => offered a i && all_offered (react a i) ins'
  end.

(** The variables of the demo flow hang together: an ID lock is stored
    only if there is an ID scanner, an ID scanner only if there is a face
    scanner, and a face scanner only if the handlers of the view are
    assigned. *)
Definition linked (a : App) : Prop :=
  (lockedId a <> None -> demoIdScanner a <> None) /\
  (demoIdScanner a <> None -> demoFaceScanner a <> None).

Definition wired_up (a : App) : Prop :=
  linked a /\ (demoFaceScanner a <> None -> demoWired a = true).

(** The page is not on the Verified view. *)
Definition not_verified (a : App) : Prop := view a <> ViewVerified.

(** An invariant of the page that the steps of the handlers preserve:
    everything they assign, except a new face scanner. Storing an ID lock
    may rely on the ID scanner being there, creating the ID scanner on the
    face scanner being there. *)
Record plain (I : App -> Prop) : Prop := mkPlain {
  p_slot : forall a r st', slot r a <> None -> I a -> I (set_slot r (Some st') a);
  p_face : forall a v, I a -> I (set_lockedFace v a);
  p_id_none : forall a, I a -> I (set_lockedId None a);
  p_id_some : forall a v, demoIdScanner a <> None -> I a -> I (set_lockedId (Some v) a);
  p_new_id : forall a st, demoFaceScanner a <> None -> I a ->
             I (set_demoIdScanner (Some st) a);
  p_view : forall a v, I a -> I (set_view v a);
  p_demoFaceAgain : forall a v, I a -> I (set_demoFaceAgain v a);
  p_demoIdAgain : forall a v, I a -> I (set_demoIdAgain v a);
  p_soloFaceAgain : forall a v, I a -> I (set_soloFaceAgain v a);
  p_soloIdAgain : forall a v, I a -> I (set_soloIdAgain v a);
  p_soloFaceScanner : forall a st, I a -> I (set_soloFaceScanner (Some st) a);
  p_soloIdScanner : forall a st, I a -> I (set_soloIdScanner (Some st) a);
  p_soloFaceWired : forall a v, I a -> I (set_soloFaceWired v a);
  p_soloIdWired : forall a v, I a -> I (set_soloIdWired v a);
  p_demoWired : forall a, I a -> I (set_demoWired true a)
}.

(** [safe I m]: [m] preserves [I] and does not throw. *)
Definition safe {A} (I : App -> Prop) (m : AppM A) : Prop :=
  Eff.triple I m (fun _ => I) (fun _ => False).

(** *** Sample runs *)

Definition env_cat : StartEnv := env_of (frame_of cat (99 # 100) 0).

(** One demo, run to the point where both locks are stored, then left
    through Back and entered again from the home view. *)
Definition second_visit : list Input :=
  [ ClickDemo env_cat env_cat;
    Animate DemoFace (frame_of cat (99 # 100) 1000) env_cat;
    Animate DemoId (frame_of cat (99 # 100) 1000) env_cat;
    ClickDemoBack;
    ClickDemo env_cat env_cat ].

(** Scenario D of the specification: the face locks on Alice, the ID on
    Bob. *)
Definition alice_bob : list Input :=
  let alice t := frame_of (str "Alice") (99 # 100) t in
  let bob t := frame_of (str "Bob") (99 # 100) t in
  [ ClickDemo (env_of (alice 0)) (env_of (bob 0));
    Animate DemoFace (alice 1000) (env_of (bob 0));
    Animate DemoId (bob 1000) (env_of (bob 0)) ].

End Demo.

(* ===================================================================== *)
(** ** A scanner object over its lifetime *)
(* ===================================================================== *)

Module Session.

Import JS Scanner.
Local Open Scope eff_scope.

(** What happens to a scanner object once it is constructed: the page
    calls [start()] without awaiting it, the page calls [stop()], or the
    browser runs a pending animation-frame callback on a frame. Each
    call runs in one step, its awaits settled on the spot; the runs in
    which calls and callbacks come while a promise is pending are those
    of [Async]. *)
Inductive Call :=
| CallStart (env : StartEnv)
| CallStop
| CallFrame (f : Frame).

Definition perform (c : Call) : M unit :=
  match c with
  | CallStart env => spawn (start env)
  | CallStop => stop
  | CallFrame f => tick f
  end.

Fixpoint drive (cs : list Call) : M unit :=
  match cs with
  | [] => Eff.ret tt
  | c :: cs' => perform c ;; drive cs'
  end.

(** *** Vocabulary for the statements below *)

(** The fields the constructor copies from its argument or fixes, which
    no method assigns. *)
Definition constructed (cfg : Cfg) (s : TMScanner) : Prop :=
  topLeftEl s = cfg_topLeftEl cfg /\
  bottomLeftEl s = cfg_bottomLeftEl cfg /\
  modelPath s = cfg_modelPath cfg /\
  facingMode s = match cfg_facingMode cfg with Some m => m | None => user end /\
  threshold s = 98 # 100 /\
  stableWindowMs s = 1000.

(** How the runtime fields of a scanner hang together between such
    calls. *)
Definition coherent (st : Sess) : Prop :=
  let s := scanner st in
  (isRunning s = true -> equipped s) /\
  (isRunning s = false -> released s) /\
  (locked s = true -> isRunning s = false) /\
  (forall l, lastTop s = Some l -> (threshold s <= prob l)%Q) /\
  (forall m, model s = Some m -> m = TMModel (modelPath s)) /\
  (forall id, In id (queue st) -> (id < fresh st)%positive) /\
  (forall id, predLoopId s = Some id -> (id < fresh st)%positive).

(** The number of calls of [start] among the calls. *)
Definition is_start (c : Call) : bool :=
  match c with CallStart _ => true | _ => false end.

Definition starts (cs : list Call) : nat := List.length (filter is_start cs).

(** The writes to the two overlay elements. *)
Definition is_overlay (e : Event) : bool :=
  match e with
  | TopLeft _ | PredList _ => true
  | _ => false
  end.

(** An output trace without the overlay writes. *)
Definition silent (out : list Event) : list Event :=
  filter (fun e => negb (is_overlay e)) out.

(** The same session for a scanner constructed without overlay
    elements. *)
Definition without_overlays (st : Sess) : Sess :=
  let s := scanner st in
  mkSess
    (mkTMScanner false false (modelPath s) (facingMode s)
       (model s) (predLoopId s) (webcam s) (isRunning s)
       (threshold s) (stableWindowMs s) (lastTop s) (locked s))
    (queue st) (fresh st).

(** The list is in descending order of probability. *)
Fixpoint descending (l : list Prediction) : Prop :=
  match l with
  | [] => True
  | p :: l' =>
      (forall q, In q l' -> (probability q <= probability p)%Q) /\ descending l'
  end.

(** The entries of a list that have probability [v], in their order. *)
Definition with_probability (v : Q) (l : list Prediction) : list Prediction :=
  filter (fun p => Qeq_bool (probability p) v) l.

(** The frames [i..j] of a stream all have the top label [lbl] with a
    probability of at least [thr]. *)
Definition stable_stretch (thr : Q) (lbl : jsstring) (fs : list Frame)
    (i j : nat) : Prop :=
  forall k fk, (i <= k <= j)%nat -> nth_error fs k = Some fk ->
    exists q, top_of fk = Some q /\ className q = lbl /\
              (thr <= probability q)%Q.

(** The text the top-left overlay shows after the writes of an output
    trace, if any of them is a write to it. *)
Definition overlay_text (out : list Event) : option Overlay :=
  fold_left (fun acc e => match e with TopLeft o => Some o | _ => acc end) out None.

(** What [start] writes to the overlay when it fails with [e]. *)
Definition failure_overlay (e : Exn) : Overlay :=
  match e with
  | NotAllowedError | NotFoundError => CameraBlocked
  | _ => StartFailed
  end.

(** *** Sample data *)

(** A frame with four classes, the most probable one last. *)
Definition frame_four (t : Q) : Frame :=
  mkFrame (PredictOk [mkPrediction dog (1 # 100);
                      mkPrediction (str "bird") (5 # 1000);
                      mkPrediction (str "fish") (1 # 100);
                      mkPrediction cat (975 # 1000)]) t 0.

End Session.

(* ===================================================================== *)
(** ** The scanner with its awaits *)
(* ===================================================================== *)

(** [start] and [loop] are [async] functions: each runs up to its next
    [await], gives control back, and goes on when the awaited promise
    settles. In between the page may call [stop] or [start], the browser
    may run an animation-frame callback, and another promise may settle.
    This module cuts the two methods at their awaits: a step runs from
    one await to the next, and which step comes next is up to the page
    and the browser. [Scanner.start] and [Scanner.loop] are the runs in
    which every awaited promise settles before anything else happens. *)

Module Async.

Import JS Scanner.
Local Open Scope eff_scope.

(** The promise a suspended activation waits for. *)
Inductive Await :=
| AwaitLoad                   (* start, in loadModel: tmImage.load(...) *)
| AwaitSetup (c : positive)   (* start: setup(...) of the webcam object c *)
| AwaitPlay                   (* start: this.webcam.play() *)
| AwaitPredict.               (* loop: this.model.predict(...) *)

(** The scanner object with its callbacks ([sess]), the webcam objects,
    and the suspended activations. [start] makes a new webcam object
    each time: [cam] is the identity of the one [this.webcam] refers to
    (its state is the field [webcam] of the scanner), [lost] holds the
    objects [this.webcam] referred to before, with the state they are
    in, and [nextCam] is the identity of the next object. *)
Record Run := mkRun {
  sess : Sess;
  cam : positive;
  lost : list (positive * Webcam);
  nextCam : positive;
  awaits : list Await
}.

Definition created (cfg : Cfg) : Run :=
  mkRun (create cfg) 1 [] 1 [].

Definition Task := Eff.M Run Event.

(** A synchronous stretch of a method. *)
Definition lift {A} (m : M A) : Task A := fun r =>
  match m (sess r) with
  | Eff.mkResult v st o =>
      Eff.mkResult v (mkRun st (cam r) (lost r) (nextCam r) (awaits r)) o
  end.

(** [await p]: the activation is suspended until [p] settles. *)
Definition await (a : Await) : Task unit :=
  Eff.modify (fun r =>
    mkRun (sess r) (cam r) (lost r) (nextCam r) (awaits r ++ [a])).

(** The promise of an [async] function nobody awaits: a rejection is
    reported by the host. The script never awaits [start()] or
    [loop()]. *)
Definition detach (m : Task unit) : Task unit :=
  Eff.try_catch m (fun e => Eff.emit (UnhandledRejection e)).

(** *** [start] *)

(** [this.webcam = new tmImage.Webcam(w, h, false)]: the object
    [this.webcam] referred to is no longer reachable from the scanner,
    in whatever state it is. *)
Definition new_webcam : Task positive :=
  r <- Eff.get ;;
  let st := sess r in
  let old := match webcam (scanner st) with
             | Some w => [(cam r, w)]
             | None => []
             end in
  Eff.put (mkRun (mkSess (set_webcam (Some CamNew) (scanner st))
                         (queue st) (fresh st))
                 (nextCam r) (lost r ++ old) (Pos.succ (nextCam r))
                 (awaits r)) ;;
  Eff.ret (nextCam r).

(** [setup] of the webcam object [c] has resolved: that object holds
    the camera stream, whether [this.webcam] still refers to it or
    not. *)
Definition acquire (c : positive) : Task unit :=
  r <- Eff.get ;;
  if Pos.eqb (cam r) c
  then lift (upd (set_webcam (Some CamLive)))
  else Eff.put (mkRun (sess r) (cam r)
                  (map (fun cw => if Pos.eqb (fst cw) c then (c, CamLive) else cw)
                       (lost r))
                  (nextCam r) (awaits r)).

(** [loadModel] after its await: the assignment of the model and
    [note], or the [catch] block up to its [throw]. *)
Definition model_loaded : M unit :=
  s <- this ;;
  upd (set_model (Some (TMModel (modelPath s)))) ;;
  note ModelReady.

Definition model_failed : M unit :=
  s <- this ;;
  error (ModelLoadFailed (modelPath s)) ;;
  Eff.emit (ConsoleError "TMScanner model load error:").

(** [start] from the construction of the webcam to the await of
    [setup]. *)
Definition request_camera : Task unit :=
  c <- new_webcam ;;
  lift (note RequestingCamera) ;;
  await (AwaitSetup c).

(** The [catch] block of [start]; the rejection of its promise goes to
    the host. *)
Definition start_failed (e : Exn) : Task unit :=
  lift (match e with
        | NotAllowedError | NotFoundError => error CameraBlocked
        | _ => error StartFailed
        end ;;
        Eff.emit (ConsoleError "TMScanner start error:") ;;
        Eff.emit (UnhandledRejection e)).

(** [start()] up to its first await. *)
Definition begin_start : Task unit :=
  s <- lift this ;;
  if is_none (model s)
  then lift (note Loading) ;; await AwaitLoad
  else request_camera.

(** *** [loop] *)

(** The [catch] block around [predict]. *)
Definition predict_failed : M unit :=
  error PredictionFailed ;;
  Eff.emit (ConsoleError "Predict error:").

(** [loop()] up to its await. A missing model makes the call of
    [predict] itself raise inside the [try]. *)
Definition begin_loop : Task unit :=
  s <- lift this ;;
  if negb (isRunning s) then Eff.ret tt else
  match webcam s with
  | None => Eff.throw TypeError            (* this.webcam.update() *)
  | Some _ =>
      match model s with
      | None => lift predict_failed
      | Some _ => await AwaitPredict
      end
  end.

(** [loop] from the point where [predict] has settled: [isRunning] is
    not looked at again, neither before the overlays are written nor
    before the next callback is requested. *)
Definition after_predict (f : Frame) : M unit :=
  s <- this ;;
  match predict f with
  | PredictErr _ => predict_failed
  | PredictOk preds0 =>
      match sort_desc preds0 with
      | [] => Eff.throw TypeError          (* top is undefined: top.className *)
      | (top :: _) as preds =>
          let topName := className top in
          let topProb := probability top in
          Eff.when (topLeftEl s) (Eff.emit (TopLeft (TopClass topName topProb))) ;;
          Eff.when (bottomLeftEl s) (Eff.emit (PredList (firstn 3 preds))) ;;
          continue <- stability topName topProb f ;;
          Eff.when continue schedule
      end
  end.

(** *** Settling a promise *)

(** What a promise settles to: [load], [setup] and [play] resolve or
    reject with an exception; [predict] settles as the frame says, which
    also carries the clock readings taken after the await. *)
Inductive Answer :=
| Settled (e : option Exn)
| Predicted (f : Frame).

(** The activation that waits for [a] goes on, up to its next await or
    its end. An answer of the wrong kind is no answer. *)
Definition resume (a : Await) (ans : Answer) : option (Task unit) :=
  match a, ans with
  | AwaitLoad, Settled None => Some (lift model_loaded ;; request_camera)
  | AwaitLoad, Settled (Some e) => Some (lift model_failed ;; start_failed e)
  | AwaitSetup c, Settled None => Some (acquire c ;; await AwaitPlay)
  | AwaitSetup _, Settled (Some e) => Some (start_failed e)
  | AwaitPlay, Settled None =>
      Some (lift (upd (set_isRunning true) ;;
                  upd (set_locked false) ;;
                  upd (set_lastTop None) ;;
                  note Scanning) ;;
            detach begin_loop)
  | AwaitPlay, Settled (Some e) => Some (start_failed e)
  | AwaitPredict, Predicted f => Some (detach (lift (after_predict f)))
  | _, _ => None
  end.

(** *** What can happen next *)

(** The page calls [start()] or [stop()], the browser runs the oldest
    pending animation-frame callback, or the [k]-th pending promise
    settles. *)
Inductive Action :=
| Start
| Stop
| Callback
| Settle (k : nat) (ans : Answer).

(** The list without its [k]-th entry. *)
Fixpoint drop_await {A} (k : nat) (l : list A) : list A :=
  match k, l with
  | _, [] => []
  | O, _ :: l' => l'
  | S k', x :: l' => x :: drop_await k' l'
  end.

(** The browser runs the oldest pending callback [() => this.loop()],
    if there is one. *)
Definition animate : Task unit :=
  r <- Eff.get ;;
  let st := sess r in
  match queue st with
  | [] => Eff.ret tt
  | _ :: q =>
      Eff.put (mkRun (mkSess (scanner st) q (fresh st))
                     (cam r) (lost r) (nextCam r) (awaits r)) ;;
      detach begin_loop
  end.

(** The [k]-th pending promise settles to [ans], if there is such a
    promise and [ans] is an answer to it: it is no longer pending, and
    the activation that waited for it goes on. *)
Definition settle (k : nat) (ans : Answer) : Task unit :=
  r <- Eff.get ;;
  match nth_error (awaits r) k with
  | None => Eff.ret tt
  | Some a =>
      match resume a ans with
      | None => Eff.ret tt
      | Some m =>
          Eff.put (mkRun (sess r) (cam r) (lost r) (nextCam r)
                         (drop_await k (awaits r))) ;;
          m
      end
  end.

Definition act (a : Action) : Task unit :=
  match a with
  | Start => detach begin_start
  | Stop => lift stop
  | Callback => animate
  | Settle k ans => settle k ans
  end.

Fixpoint acts (l : list Action) : Task unit :=
  match l with
  | [] => Eff.ret tt
  | a :: l' => act a ;; acts l'
  end.

(** The run after the actions [l] on a new scanner. *)
Definition reached (cfg : Cfg) (l : list Action) : Run :=
  Eff.final (acts l (created cfg)).

(** *** Vocabulary for the statements below *)

(** The run in which nothing comes between the awaits of one [start()]:
    every promise settles as [env] says, right away. *)
Definition start_script (env : StartEnv) (s : TMScanner) : list Action :=
  Start ::
  (if is_none (model s) then [Settle 0 (Settled (load env))] else []) ++
  [Settle 0 (Settled (camera env));
   Settle 0 (Settled None);
   Settle 0 (Predicted (first env))].

(** The same for one animation-frame callback. *)
Definition frame_script (f : Frame) : list Action :=
  [Callback; Settle 0 (Predicted f)].

(** No webcam object of the run holds a camera stream. *)
Definition cameras_released (r : Run) : Prop :=
  released (scanner (sess r)) /\
  forall c w, In (c, w) (lost r) -> w <> CamLive.

(** The session is idle: not running, no callback pending, no camera
    stream held. *)
Definition idle (r : Run) : Prop :=
  isRunning (scanner (sess r)) = false /\
  queue (sess r) = [] /\
  cameras_released r.

(** [stop()] in the run [r] returns normally, leaves the session idle,
    and a second [stop()] changes nothing. *)
Definition stop_makes_idle (r : Run) : Prop :=
  let r' := Eff.final (act Stop r) in
  Eff.value (act Stop r) = inl tt /\
  idle r' /\
  Eff.final (act Stop r') = r'.

(** One activation at most: nothing is in flight and at most one
    callback is pending, which [predLoopId] names; or one promise is in
    flight and no callback is pending. *)
Definition one_activation (r : Run) : Prop :=
  (awaits r = [] /\ one_pending (sess r)) \/
  (exists a, awaits r = [a] /\ queue (sess r) = []).

(** In the actions [l] from the run [r] on, [start()] is only called
    when no callback is pending and nothing is in flight. *)
Fixpoint starts_at_rest (l : list Action) (r : Run) : Prop :=
  match l with
  | [] => True
  | a :: l' =>
      (a = Start -> queue (sess r) = [] /\ awaits r = []) /\
      starts_at_rest l' (Eff.final (act a r))
  end.

(** Actions by which no [start()] begins or gets further: everything
    but a call of [start()] and the resolution of a promise of [load],
    [setup] or [play]. *)
Definition no_start (a : Action) : bool :=
  match a with
  | Start => false
  | Settle _ (Settled None) => false
  | _ => true
  end.

(** The object [this.webcam] refers to, and the identities that are
    taken. *)
Definition camera_ids (r : Run) : Prop :=
  (forall w, webcam (scanner (sess r)) = Some w -> (cam r < nextCam r)%positive) /\
  (forall c w, In (c, w) (lost r) -> (c < nextCam r)%positive) /\
  (forall c, In (AwaitSetup c) (awaits r) -> (c < nextCam r)%positive).

(** The suspended activations that dereference the webcam or the model
    when they go on: all but a [start] that waits for the model. *)
Definition needs_equipment (a : Await) : bool :=
  match a with
  | AwaitLoad => false
  | _ => true
  end.

(** How the runtime fields of a scanner hang together at every point
    where the page or the browser can step in. *)
Definition consistent (r : Run) : Prop :=
  let st := sess r in
  let s := scanner st in
  (isRunning s = true -> equipped s) /\
  (locked s = true -> isRunning s = false) /\
  (forall l, lastTop s = Some l -> (threshold s <= prob l)%Q) /\
  (forall m, model s = Some m -> m = TMModel (modelPath s)) /\
  (forall id, In id (queue st) -> (id < fresh st)%positive) /\
  (forall id, predLoopId s = Some id -> (id < fresh st)%positive) /\
  (forall a, In a (awaits r) -> needs_equipment a = true -> equipped s) /\
  camera_ids r.

(** *** Sample data *)

Definition cat99 (t : Q) : Frame := frame_of cat (99 # 100) t.

(** [start()], and the model, the camera and the first inference
    settle. *)
Definition first_start : list Action :=
  [Start; Settle 0 (Settled None); Settle 0 (Settled None);
   Settle 0 (Settled None); Settle 0 (Predicted (cat99 0))].

(** [start()] is called a second time on the running scanner, and
    camera and first inference of that activation settle. *)
Definition restarted : list Action :=
  first_start ++
  [Start; Settle 0 (Settled None); Settle 0 (Settled None);
   Settle 0 (Predicted (cat99 16))].

(** A callback has run and its inference is in flight. *)
Definition predicting : list Action :=
  first_start ++ [Callback].

(** [start()] is waiting for the camera. *)
Definition requesting : list Action :=
  [Start; Settle 0 (Settled None)].

End Async.

(* ===================================================================== *)
(** ** Helpers of the page: log, escaping, views *)
(* ===================================================================== *)

Module Page.

Import JS.

(** *** [addLog] *)

(** What [addLog] does to the children of [#logs-container], newest
    first: [prepend] the new entry, then remove the last entry if there are
    more than ten. The container is taken to hold log entries only. *)
Definition prepend_capped {A} (entry : A) (logs : list A) : list A :=
  let logs1 := entry :: logs in
  if (10 <? List.length logs1)%nat then removelast logs1 else logs1.

(** A log entry: its class ([log-entry] and the type), the time stamp
    and the message. *)
Record LogEntry := mkLogEntry {
  entry_type : jsstring;
  entry_timestamp : jsstring;
  entry_message : jsstring
}.

(** [addLog(message, type = 'system')]; [timestamp] is the reading of
    [new Date().toLocaleTimeString()], [container] the element
    [#logs-container] if the page has it. *)
Definition addLog (message : jsstring) (type : option jsstring)
    (timestamp : jsstring) (container : option (list LogEntry))
    : option (list LogEntry) :=
  match container with
  | None => None
  | Some logs =>
      let type := match type with Some t => t | None => str "system" end in
      Some (prepend_capped (mkLogEntry type timestamp message) logs)
  end.

(** One call of [addLog]. *)
Record LogCall := mkLogCall {
  call_message : jsstring;
  call_type : option jsstring;
  call_timestamp : jsstring
}.

Definition entry_of (c : LogCall) : LogEntry :=
  mkLogEntry (match call_type c with Some t => t | None => str "system" end)
             (call_timestamp c) (call_message c).

Definition addLogs (cs : list LogCall) (container : option (list LogEntry))
    : option (list LogEntry) :=
  fold_left (fun c x => addLog (call_message x) (call_type x) (call_timestamp x) c)
            cs container.

(** *** [escapeHtml] *)

(** [s.replaceAll(pat, by)] for a pattern of one code unit. *)
Definition replaceAll (pat : N) (by_ : jsstring) (s : jsstring) : jsstring :=
  flat_map (fun c => if N.eqb c pat then by_ else [c]) s.

Definition amp : N := 38.    (* & *)
Definition lt_sign : N := 60. (* < *)
Definition gt_sign : N := 62. (* > *)
Definition quot : N := 34.   (* double quote *)
Definition apos : N := 39.   (* single quote *)

Definition escapeHtml (s : jsstring) : jsstring :=
  replaceAll apos (str "&#039;")
    (replaceAll quot (str "&quot;")
       (replaceAll gt_sign (str "&gt;")
          (replaceAll lt_sign (str "&lt;")
             (replaceAll amp (str "&amp;") s)))).

(** What one code unit of the input becomes. *)
Definition escape_unit (c : N) : jsstring :=
  if N.eqb c amp then str "&amp;"
  else if N.eqb c lt_sign then str "&lt;"
  else if N.eqb c gt_sign then str "&gt;"
  else if N.eqb c quot then str "&quot;"
  else if N.eqb c apos then str "&#039;"
  else [c].

(** The five character references [escapeHtml] produces. *)
Definition entities : list jsstring :=
  [str "&amp;"; str "&lt;"; str "&gt;"; str "&quot;"; str "&#039;"].

(** Every ampersand of [s] starts one of the five character references. *)
Fixpoint ampersands_escaped (s : jsstring) : Prop :=
  match s with
  | [] => True
  | c :: s' =>
      (c = amp -> exists e rest, In e entities /\ c :: s' = e ++ rest) /\
      ampersands_escaped s'
  end.

(** *** [show] *)

(** An element of the document, as far as [show] looks at it: its id,
    whether it has the class [view], whether it has the class [active]. *)
Record Element := mkElement {
  el_id : jsstring;
  el_view : bool;
  el_active : bool
}.

Definition set_active (b : bool) (e : Element) : Element :=
  mkElement (el_id e) (el_view e) b.

(** [document.getElementById(id)]: the first element with that id, in
    document order; here together with the elements before and after. *)
Fixpoint add_active (id : jsstring) (doc : list Element) : list Element :=
  match doc with
  | [] => []
  | e :: doc' =>
      if strict_eq (el_id e) id
      then set_active true e :: doc'
      else e :: add_active id doc'
  end.

Definition getElementById (id : jsstring) (doc : list Element) : option Element :=
  find (fun e => strict_eq (el_id e) id) doc.

(** The first two statements of [show(viewId)]. *)
Definition show (viewId : jsstring) (doc : list Element) : list Element :=
  let doc1 := map (fun v => if el_view v then set_active false v else v) doc in
  add_active viewId doc1.

(** The views that are active. *)
Definition active_views (doc : list Element) : list Element :=
  filter (fun e => el_view e && el_active e) doc.

End Page.

(* ===================================================================== *)
(** ** The flows of the page, side by side *)
(* ===================================================================== *)

Module Flows.

Import JS Scanner Names Demo.

(** The three flows the home view offers. *)
Inductive Flow := FlowDemo | FlowSoloFace | FlowSoloId.

Definition flow_of_role (r : Role) : Flow :=
  match r with
  | DemoFace | DemoId => FlowDemo
  | SoloFace => FlowSoloFace
  | SoloId => FlowSoloId
  end.

(** The flow an input belongs to: the flow a home button enters, the flow
    whose view holds the button, the flow of the scanner an animation frame
    is for. The Done button of the Verified view belongs to none. *)
Definition flow_of (i : Input) : option Flow :=
  match i with
  | ClickDemo _ _ | ClickDemoFaceAgain _ _ | ClickDemoIdAgain _ | ClickDemoBack
  | ClickVerify _ => Some FlowDemo
  | ClickFaceOnly _ | ClickSoloFaceAgain _ | ClickSoloFaceBack => Some FlowSoloFace
  | ClickIdOnly _ | ClickSoloIdAgain _ | ClickSoloIdBack => Some FlowSoloId
  | ClickVerifiedDone => None
  | Animate r _ _ => Some (flow_of_role r)
  end.

(** The variables and buttons of each flow. *)
Definition demo_part (a : App) :=
  (demoFaceScanner a, demoIdScanner a, lockedFace a, lockedId a,
   demoFaceAgain a, demoIdAgain a, demoWired a).

Definition solo_face_part (a : App) :=
  (soloFaceScanner a, soloFaceAgain a, soloFaceWired a).

Definition solo_id_part (a : App) :=
  (soloIdScanner a, soloIdAgain a, soloIdWired a).

(** A scanner variable holds no scanner that could evaluate a frame or
    holds the camera: it is undefined, or its scanner is stopped. *)
Definition at_rest (s : option Sess) : Prop :=
  forall st, s = Some st ->
    isRunning (scanner st) = false /\ released (scanner st) /\
    forall fs, Eff.output (run fs st) = [].

(** [stop()] has just been called on the scanner a variable holds, if it
    holds one: the scanner is flagged as not running and the webcam object
    it refers to holds no stream. This is the scanner as the handler leaves
    it; whether a [start] or an inference of the scanner is still in flight
    is not part of the page state. *)
Definition stopped (s : option Sess) : Prop :=
  forall st, s = Some st ->
    isRunning (scanner st) = false /\ released (scanner st).

(** The scanner variable after [if (x) x.stop()] or [safeStop(x)]. *)
Definition stop_called (s : option Sess) : option Sess :=
  option_map (fun st => Eff.final (stop st)) s.

(** The session of a scanner constructed and started at once. *)
Definition started (cfg : Cfg) (env : StartEnv) : Sess :=
  Eff.final (start env (create cfg)).

End Flows.

(* ===================================================================== *)
(** ** The campus access demo: class [SmartCampusSystem] *)
(* ===================================================================== *)

(** The second script of the repository simulates the access control of
    a campus gate in three phases (strap detection, ID verification,
    vehicle detection), driven by buttons and by timers.

    Conventions, besides those above.
    - The timers of the browser are part of the state: [setTimeout] and
      [setInterval] hand out increasing identifiers from one pool, and
      [clearTimeout] and [clearInterval] remove the timer with the given
      identifier, whichever function created it. The browser fires pending
      timers in any order: the delays are recorded, time is not modelled.
    - The texts the script writes are named by constructors; the time
      stamp of a log entry is left out. The document has the elements the
      script looks up by id.
    - Of the page, the state keeps the status panel, the classes of the
      three steps, the [disabled] flags of the four buttons, the log
      entries, the notifications and whether the modal is shown. The other
      writes go to the output trace. *)

Module Campus.

Import JS.
Local Open Scope eff_scope.

(** *** The object *)

(** [this.personType]: ['unknown'], ['student'] or ['teacher']. *)
Inductive PersonType := unknown | student | teacher.

Record SmartCampusSystem := mkSystem {
  isRunning : bool;
  currentPhase : Z;
  personType : PersonType;
  accessGranted : bool;
  demoInterval : option positive;
  phaseTimeouts : list positive
}.

Definition set_isRunning v (s : SmartCampusSystem) : SmartCampusSystem :=
  mkSystem v (currentPhase s) (personType s) (accessGranted s)
    (demoInterval s) (phaseTimeouts s).
Definition set_currentPhase v (s : SmartCampusSystem) : SmartCampusSystem :=
  mkSystem (isRunning s) v (personType s) (accessGranted s)
    (demoInterval s) (phaseTimeouts s).
Definition set_personType v (s : SmartCampusSystem) : SmartCampusSystem :=
  mkSystem (isRunning s) (currentPhase s) v (accessGranted s)
    (demoInterval s) (phaseTimeouts s).
Definition set_accessGranted v (s : SmartCampusSystem) : SmartCampusSystem :=
  mkSystem (isRunning s) (currentPhase s) (personType s) v
    (demoInterval s) (phaseTimeouts s).
Definition set_demoInterval v (s : SmartCampusSystem) : SmartCampusSystem :=
  mkSystem (isRunning s) (currentPhase s) (personType s) (accessGranted s)
    v (phaseTimeouts s).
Definition set_phaseTimeouts v (s : SmartCampusSystem) : SmartCampusSystem :=
  mkSystem (isRunning s) (currentPhase s) (personType s) (accessGranted s)
    (demoInterval s) v.

(** The fields as the constructor sets them. *)
Definition initial : SmartCampusSystem := mkSystem false 1 unknown false None [].

Definition is_unknown (p : PersonType) : bool :=
  match p with unknown => true | _ => false end.

(** *** The timers of the browser *)

Inductive Vehicle := STU001 | TCH001.

(** The functions the script passes to [setInterval] and [setTimeout]. *)
Inductive Callback :=
| UpdateTime                          (* () => this.updateTime() *)
| DemoStep                            (* the callback of runDemoSequence *)
| IdVerified                          (* the callback of simulateIDVerification *)
| VehicleDetected                     (* timeout1 of simulateVehicleDetection *)
| GrantAccess (vehicleNumber : Vehicle)  (* timeout2, with the vehicleNumber it closes over *)
| RemoveNotification (n : positive).  (* () => notification.remove() *)

Record Timer := mkTimer {
  timer_id : positive;
  repeating : bool;
  callback : Callback;
  delay : Z
}.

(** *** The page *)

Inductive PhaseText := StrapDetection | IdVerification | VehicleDetection.
Inductive AccessText := AccessGrantedText | WaitingForStrap | Processing.

(** The classes [active] and [completed] of a step. *)
Record StepClasses := mkStep { active : bool; completed : bool }.

Inductive LogType := LogSystem | LogSuccess | LogStudent | LogTeacher.

Inductive Message :=
| MsgInitialized
| MsgClickStart
| MsgSessionStarted
| MsgScanning
| MsgReset
| MsgStudentIdentified
| MsgStudentVerified
| MsgTeacherIdentified
| MsgTeacherVerified
| MsgMovingToId (p : PersonType)
| MsgIdVerified
| MsgVehicleDetected (v : Vehicle)
| MsgAccessGranted (p : PersonType) (v : Vehicle).

Record LogEntry := mkLogEntry { log_type : LogType; log_message : Message }.

Inductive Notice := PleaseStartFirst | StrapPhaseCompleted.
Inductive NoticeType := NoticeWarning | NoticeInfo.

Record Notification := mkNotification {
  notice_id : positive;
  notice : Notice;
  notice_type : NoticeType
}.

Record Dom := mkDom {
  current_phase : PhaseText;       (* #current-phase *)
  person_type : PersonType;        (* #person-type, capitalised *)
  access_status : AccessText;      (* #access-status *)
  step1 : StepClasses;
  step2 : StepClasses;
  step3 : StepClasses;
  start_disabled : bool;
  reset_disabled : bool;
  student_disabled : bool;
  teacher_disabled : bool;
  logs : list LogEntry;            (* the children of #logs-container *)
  notifications : list Notification;
  modal_shown : bool               (* #success-modal has display: block *)
}.

Definition set_status (p : PhaseText) (t : PersonType) (a : AccessText) (d : Dom) : Dom :=
  mkDom p t a (step1 d) (step2 d) (step3 d)
    (start_disabled d) (reset_disabled d) (student_disabled d) (teacher_disabled d)
    (logs d) (notifications d) (modal_shown d).
Definition set_steps (s1 s2 s3 : StepClasses) (d : Dom) : Dom :=
  mkDom (current_phase d) (person_type d) (access_status d) s1 s2 s3
    (start_disabled d) (reset_disabled d) (student_disabled d) (teacher_disabled d)
    (logs d) (notifications d) (modal_shown d).
Definition set_controls (start reset student_ teacher_ : bool) (d : Dom) : Dom :=
  mkDom (current_phase d) (person_type d) (access_status d)
    (step1 d) (step2 d) (step3 d) start reset student_ teacher_
    (logs d) (notifications d) (modal_shown d).
Definition set_logs v (d : Dom) : Dom :=
  mkDom (current_phase d) (person_type d) (access_status d)
    (step1 d) (step2 d) (step3 d)
    (start_disabled d) (reset_disabled d) (student_disabled d) (teacher_disabled d)
    v (notifications d) (modal_shown d).
Definition set_notifications v (d : Dom) : Dom :=
  mkDom (current_phase d) (person_type d) (access_status d)
    (step1 d) (step2 d) (step3 d)
    (start_disabled d) (reset_disabled d) (student_disabled d) (teacher_disabled d)
    (logs d) v (modal_shown d).
Definition set_modal_shown v (d : Dom) : Dom :=
  mkDom (current_phase d) (person_type d) (access_status d)
    (step1 d) (step2 d) (step3 d)
    (start_disabled d) (reset_disabled d) (student_disabled d) (teacher_disabled d)
    (logs d) (notifications d) v.

(** What is written to the page besides. *)
Inductive Title := TitleStrap | TitleId | TitleVehicle | TitleGranted.
Inductive Overlay := ShowStrap | Verifying | ScanningPlate | Welcome.
Inductive Box := BoxSearch | BoxCamera | BoxCar | BoxGranted | BoxCleared.
Inductive StepText :=
| TextCompleted | TextIdentified | TextScanning | TextVerified | TextVerifying
| TextAccessGranted | TextScanningVehicle | TextWaiting.

Inductive Out :=
| ClockText                                                 (* #current-time *)
| PhaseDisplay (phase : Z) (title : Title) (status : Overlay)  (* updatePhaseDisplay *)
| DetectionBox (b : Box)
| StepStatus (step : positive) (t : StepText).

Record World := mkWorld {
  system : SmartCampusSystem;
  timers : list Timer;
  nextTimer : positive;
  dom : Dom
}.

Definition M := Eff.M World Out.

(** Reading and writing the fields of the object, writing the page. *)
Definition this : M SmartCampusSystem :=
  Eff.bind Eff.get (fun w => Eff.ret (system w)).

Definition upd (f : SmartCampusSystem -> SmartCampusSystem) : M unit :=
  Eff.modify (fun w => mkWorld (f (system w)) (timers w) (nextTimer w) (dom w)).

Definition page (f : Dom -> Dom) : M unit :=
  Eff.modify (fun w => mkWorld (system w) (timers w) (nextTimer w) (f (dom w))).

(** [setTimeout] and [setInterval]: the new timer gets the next
    identifier, which is returned. *)
Definition setTimer (rep : bool) (cb : Callback) (ms : Z) : M positive :=
  w <- Eff.get ;;
  Eff.put (mkWorld (system w)
                   (timers w ++ [mkTimer (nextTimer w) rep cb ms])
                   (Pos.succ (nextTimer w)) (dom w)) ;;
  Eff.ret (nextTimer w).

Definition setTimeout (cb : Callback) (ms : Z) : M positive := setTimer false cb ms.
Definition setInterval (cb : Callback) (ms : Z) : M positive := setTimer true cb ms.

(** [clearTimeout] and [clearInterval]: the timer with the identifier,
    if it is pending, is removed. *)
Definition without (id : positive) (l : list Timer) : list Timer :=
  filter (fun t => negb (Pos.eqb (timer_id t) id)) l.

Definition clearTimer (id : positive) : M unit :=
  Eff.modify (fun w =>
    mkWorld (system w) (without id (timers w)) (nextTimer w) (dom w)).

Definition clearTimeout (id : positive) : M unit := clearTimer id.
Definition clearInterval (id : positive) : M unit := clearTimer id.

(** [l.forEach(k)]. *)
Fixpoint each {A} (k : A -> M unit) (l : list A) : M unit :=
  match l with
  | [] => Eff.ret tt
  | x :: l' => k x ;; each k l'
  end.

(** *** The methods *)

Definition updateTime : M unit := Eff.emit ClockText.

Definition addLog (message : Message) (type : LogType) : M unit :=
  page (fun d => set_logs (Page.prepend_capped (mkLogEntry type message) (logs d)) d).

Definition updatePhaseDisplay (phaseText : Title) (statusText : Overlay) : M unit :=
  s <- this ;; Eff.emit (PhaseDisplay (currentPhase s) phaseText statusText).

Definition updateDetectionBox (emoji : Box) : M unit := Eff.emit (DetectionBox emoji).

Definition getPhaseText (s : SmartCampusSystem) : PhaseText :=
  if (currentPhase s =? 1)%Z then StrapDetection
  else if (currentPhase s =? 2)%Z then IdVerification
  else if (currentPhase s =? 3)%Z then VehicleDetection
  else StrapDetection.

Definition add_active (c : StepClasses) : StepClasses := mkStep true (completed c).
Definition add_completed (c : StepClasses) : StepClasses := mkStep (active c) true.
Definition no_classes : StepClasses := mkStep false false.

Definition on_step1 f (d : Dom) : Dom := set_steps (f (step1 d)) (step2 d) (step3 d) d.
Definition on_step2 f (d : Dom) : Dom := set_steps (step1 d) (f (step2 d)) (step3 d) d.
Definition on_step3 f (d : Dom) : Dom := set_steps (step1 d) (step2 d) (f (step3 d)) d.

Definition updatePhaseProgress : M unit :=
  s <- this ;;
  page (on_step1 (fun _ => no_classes)) ;;
  page (on_step2 (fun _ => no_classes)) ;;
  page (on_step3 (fun _ => no_classes)) ;;
  (if (1 <=? currentPhase s)%Z then
     if (1 <? currentPhase s)%Z then
       page (on_step1 add_completed) ;; Eff.emit (StepStatus 1 TextCompleted)
     else
       page (on_step1 add_active) ;;
       Eff.emit (StepStatus 1 (if is_unknown (personType s)
                               then TextScanning else TextIdentified))
   else Eff.ret tt) ;;
  (if (2 <=? currentPhase s)%Z then
     if (2 <? currentPhase s)%Z then
       page (on_step2 add_completed) ;; Eff.emit (StepStatus 2 TextVerified)
     else
       page (on_step2 add_active) ;; Eff.emit (StepStatus 2 TextVerifying)
   else Eff.ret tt) ;;
  (if (3 <=? currentPhase s)%Z then
     page (on_step3 add_active) ;;
     if accessGranted s then
       Eff.emit (StepStatus 3 TextAccessGranted) ;; page (on_step3 add_completed)
     else Eff.emit (StepStatus 3 TextScanningVehicle)
   else Eff.ret tt).

Definition updateDemoControls : M unit :=
  s <- this ;;
  if isRunning s then
    if (currentPhase s =? 1)%Z
    then page (set_controls true false false false)
    else page (set_controls true false true true)
  else page (set_controls false true true true).

Definition updateUI : M unit :=
  s <- this ;;
  page (fun d => set_status (getPhaseText s) (person_type d) (access_status d) d) ;;
  page (fun d => set_status (current_phase d) (personType s) (access_status d) d) ;;
  (if accessGranted s
   then page (fun d => set_status (current_phase d) (person_type d) AccessGrantedText d)
   else page (fun d => set_status (current_phase d) (person_type d)
                         (if (currentPhase s =? 1)%Z
                          then WaitingForStrap else Processing) d)) ;;
  updatePhaseProgress ;;
  updateDemoControls.

(** The notification element is told apart by the identifier of the
    timeout that removes it, which is the next one when the method is
    called. *)
Definition showNotification (message : Notice) (type : NoticeType) : M unit :=
  w <- Eff.get ;;
  let n := nextTimer w in
  page (fun d => set_notifications (notifications d ++ [mkNotification n message type]) d) ;;
  setTimeout (RemoveNotification n) 3000 ;;
  Eff.ret tt.

(** The callback of [showNotification]: [notification.remove()]. *)
Definition removeNotification (n : positive) : M unit :=
  page (fun d =>
    set_notifications
      (filter (fun x => negb (Pos.eqb (notice_id x) n)) (notifications d)) d).

(** [this.phaseTimeouts.push(id)]. *)
Definition push_timeout (id : positive) : M unit :=
  upd (fun s => set_phaseTimeouts (phaseTimeouts s ++ [id]) s).

Definition simulateVehicleDetection : M unit :=
  updatePhaseDisplay TitleVehicle ScanningPlate ;;
  updateDetectionBox BoxCar ;;
  timeout1 <- setTimeout VehicleDetected 3000 ;;
  push_timeout timeout1.

Definition simulateIDVerification : M unit :=
  updatePhaseDisplay TitleId Verifying ;;
  updateDetectionBox BoxCamera ;;
  timeout <- setTimeout IdVerified 3000 ;;
  push_timeout timeout.

Definition showAccessGranted : M unit :=
  Eff.emit (DetectionBox BoxGranted) ;;
  updatePhaseDisplay TitleGranted Welcome.

Definition showSuccessModal : M unit := page (set_modal_shown true).

(** [this.personType === 'student' ? 'STU001' : 'TCH001']. *)
Definition vehicle_of (p : PersonType) : Vehicle :=
  match p with student => STU001 | _ => TCH001 end.

(** The callback of [simulateIDVerification]. *)
Definition idVerified : M unit :=
  s <- this ;;
  if isRunning s && (currentPhase s =? 2)%Z then
    addLog MsgIdVerified LogSuccess ;;
    upd (set_currentPhase 3) ;;
    updateUI ;;
    simulateVehicleDetection
  else Eff.ret tt.

(** The callbacks of [simulateVehicleDetection]. *)
Definition vehicleDetected : M unit :=
  s <- this ;;
  if isRunning s && (currentPhase s =? 3)%Z then
    let vehicleNumber := vehicle_of (personType s) in
    addLog (MsgVehicleDetected vehicleNumber) LogSuccess ;;
    timeout2 <- setTimeout (GrantAccess vehicleNumber) 2000 ;;
    push_timeout timeout2
  else Eff.ret tt.

Definition grantAccess (vehicleNumber : Vehicle) : M unit :=
  s <- this ;;
  if isRunning s then
    upd (set_accessGranted true) ;;
    addLog (MsgAccessGranted (personType s) vehicleNumber) LogSuccess ;;
    updateUI ;;
    showAccessGranted ;;
    showSuccessModal
  else Eff.ret tt.

(** The callback of [runDemoSequence]. *)
Definition demoStep : M unit :=
  s <- this ;;
  if negb (isRunning s) then Eff.ret tt
  else if (currentPhase s =? 1)%Z && is_unknown (personType s)
       then updateDetectionBox BoxSearch
  else if (currentPhase s =? 2)%Z then simulateIDVerification
  else if (currentPhase s =? 3)%Z then simulateVehicleDetection
  else Eff.ret tt.

Definition runDemoSequence : M unit :=
  upd (set_currentPhase 1) ;;
  updateUI ;;
  addLog MsgScanning LogSystem ;;
  updatePhaseDisplay TitleStrap ShowStrap ;;
  id <- setInterval DemoStep 2000 ;;
  upd (set_demoInterval (Some id)).

Definition startDemo : M unit :=
  s <- this ;;
  if isRunning s then Eff.ret tt else
  upd (set_isRunning true) ;;
  addLog MsgSessionStarted LogSystem ;;
  addLog MsgScanning LogSystem ;;
  updateUI ;;
  runDemoSequence.

Definition resetPhaseUI : M unit :=
  updatePhaseDisplay TitleStrap ShowStrap ;;
  Eff.emit (DetectionBox BoxCleared) ;;
  page (on_step1 (fun _ => no_classes)) ;;
  page (on_step2 (fun _ => no_classes)) ;;
  page (on_step3 (fun _ => no_classes)) ;;
  page (on_step1 add_active) ;;
  Eff.emit (StepStatus 1 TextScanning) ;;
  Eff.emit (StepStatus 2 TextWaiting) ;;
  Eff.emit (StepStatus 3 TextWaiting).

Definition resetDemo : M unit :=
  upd (set_isRunning false) ;;
  upd (set_currentPhase 1) ;;
  upd (set_personType unknown) ;;
  upd (set_accessGranted false) ;;
  s <- this ;;
  each clearTimeout (phaseTimeouts s) ;;
  upd (set_phaseTimeouts []) ;;
  match demoInterval s with
  | Some id => clearInterval id
  | None => Eff.ret tt
  end ;;
  addLog MsgReset LogSystem ;;
  updateUI ;;
  resetPhaseUI.

Definition advanceToNextPhase : M unit :=
  s <- this ;;
  if (currentPhase s =? 1)%Z && negb (is_unknown (personType s)) then
    upd (set_currentPhase 2) ;;
    addLog (MsgMovingToId (personType s)) LogSuccess ;;
    updateUI ;;
    simulateIDVerification
  else Eff.ret tt.

Definition simulateStudent : M unit :=
  s <- this ;;
  if negb (isRunning s) then showNotification PleaseStartFirst NoticeWarning
  else if negb (currentPhase s =? 1)%Z
       then showNotification StrapPhaseCompleted NoticeInfo
  else
    upd (set_personType student) ;;
    addLog MsgStudentIdentified LogStudent ;;
    addLog MsgStudentVerified LogSuccess ;;
    advanceToNextPhase.

Definition simulateTeacher : M unit :=
  s <- this ;;
  if negb (isRunning s) then showNotification PleaseStartFirst NoticeWarning
  else if negb (currentPhase s =? 1)%Z
       then showNotification StrapPhaseCompleted NoticeInfo
  else
    upd (set_personType teacher) ;;
    addLog MsgTeacherIdentified LogTeacher ;;
    addLog MsgTeacherVerified LogSuccess ;;
    advanceToNextPhase.

Definition closeModal : M unit := page (set_modal_shown false).

Definition initializeEventListeners : M unit :=
  setInterval UpdateTime 1000 ;; Eff.ret tt.

Definition initializeSystem : M unit :=
  addLog MsgInitialized LogSystem ;;
  addLog MsgClickStart LogSystem ;;
  updateUI.

Definition constructor : M unit :=
  upd (fun _ => initial) ;;
  initializeEventListeners ;;
  updateTime ;;
  initializeSystem.

(** *** What can happen on the page *)

Definition run_callback (cb : Callback) : M unit :=
  match cb with
  | UpdateTime => updateTime
  | DemoStep => demoStep
  | IdVerified => idVerified
  | VehicleDetected => vehicleDetected
  | GrantAccess v => grantAccess v
  | RemoveNotification n => removeNotification n
  end.

(** The pending timer with the identifier. *)
Definition lookup (id : positive) (l : list Timer) : option Timer :=
  find (fun t => Pos.eqb (timer_id t) id) l.

(** The browser fires the pending timer [id]: a timeout is used up, an
    interval stays. *)
Definition fire (id : positive) : M unit :=
  w <- Eff.get ;;
  match lookup id (timers w) with
  | None => Eff.ret tt
  | Some t =>
      (if repeating t then Eff.ret tt else clearTimer id) ;;
      run_callback (callback t)
  end.

(** A click on one of the four buttons or on the close button of the
    modal, or a timer firing. *)
Inductive Input :=
| ClickStart | ClickReset | ClickStudent | ClickTeacher | ClickClose
| Fire (id : positive).

Definition handle (i : Input) : M unit :=
  match i with
  | ClickStart => startDemo
  | ClickReset => resetDemo
  | ClickStudent => simulateStudent
  | ClickTeacher => simulateTeacher
  | ClickClose => closeModal
  | Fire id => fire id
  end.

(** The page once the script has run on the document [html]. *)
Definition boot (html : Dom) : World :=
  Eff.final (constructor (mkWorld initial [] 1%positive html)).

Definition react (w : World) (i : Input) : World := Eff.final (handle i w).

Definition after (html : Dom) (ins : list Input) : World :=
  fold_left react ins (boot html).

Inductive reachable (html : Dom) : World -> Prop :=
| reach_boot : reachable html (boot html)
| reach_step w i : reachable html w -> reachable html (react w i).

(** What is written to the page besides the part kept in [Dom], while
    the inputs are handled one after the other. *)
Fixpoint writes (w : World) (ins : list Input) : list Out :=
  match ins with
  | [] => []
  | i :: ins' => Eff.output (handle i w) ++ writes (react w i) ins'
  end.

(** *** Vocabulary for the statements below *)

(** The timers of a demo session: the interval of [runDemoSequence] and
    the timeouts of the phases. *)
Definition of_session (cb : Callback) : bool :=
  match cb with
  | DemoStep | IdVerified | VehicleDetected | GrantAccess _ => true
  | UpdateTime | RemoveNotification _ => false
  end.

Definition phase_timeout (cb : Callback) : bool :=
  match cb with
  | IdVerified | VehicleDetected | GrantAccess _ => true
  | _ => false
  end.

(** How the fields of the object hang together. *)
Definition consistent (s : SmartCampusSystem) : Prop :=
  (currentPhase s = 1 \/ currentPhase s = 2 \/ currentPhase s = 3)%Z /\
  (currentPhase s = 1%Z <-> personType s = unknown) /\
  (isRunning s = false ->
     currentPhase s = 1%Z /\ accessGranted s = false /\ phaseTimeouts s = []) /\
  (accessGranted s = true -> isRunning s = true /\ currentPhase s = 3%Z).

(** The callbacks passed to [setInterval]. *)
Definition of_interval (cb : Callback) : bool :=
  match cb with
  | UpdateTime | DemoStep => true
  | _ => false
  end.

(** The object and the timers: the state without the page. *)
Definition Core : Type := SmartCampusSystem * list Timer * positive.

Definition core (w : World) : Core := (system w, timers w, nextTimer w).

(** How a pending timer relates to the object [s], [n] being the next
    identifier of the browser. *)
Definition timer_ok (s : SmartCampusSystem) (n : positive) (t : Timer) : Prop :=
  (timer_id t < n)%positive /\
  repeating t = of_interval (callback t) /\
  (phase_timeout (callback t) = true <-> In (timer_id t) (phaseTimeouts s)) /\
  (callback t = DemoStep <-> demoInterval s = Some (timer_id t)) /\
  (of_session (callback t) = true -> isRunning s = true) /\
  (forall v, callback t = GrantAccess v ->
     currentPhase s = 3%Z /\ v = vehicle_of (personType s)) /\
  (callback t = VehicleDetected -> currentPhase s = 3%Z).

(** The invariant of the object and the timers. *)
Definition sound_core (c : Core) : Prop :=
  let '(s, tms, n) := c in
  consistent s /\
  Forall (timer_ok s n) tms /\
  NoDup (map timer_id tms) /\
  Forall (fun id => (id < n)%positive) (phaseTimeouts s) /\
  (forall id, demoInterval s = Some id -> (id < n)%positive).

Definition sound (w : World) : Prop := sound_core (core w).

(** *** The object and the timers, the page left out *)

(** [setTimeout(cb, ms)] followed by [this.phaseTimeouts.push]. *)
Definition arm (cb : Callback) (ms : Z) (c : Core) : Core :=
  let '(s, tms, n) := c in
  (set_phaseTimeouts (phaseTimeouts s ++ [n]) s,
   tms ++ [mkTimer n false cb ms], Pos.succ n).

(** The timer of [showNotification]. *)
Definition notify (c : Core) : Core :=
  let '(s, tms, n) := c in
  (s, tms ++ [mkTimer n false (RemoveNotification n) 3000], Pos.succ n).

Definition on_system (f : SmartCampusSystem -> SmartCampusSystem) (c : Core) : Core :=
  let '(s, tms, n) := c in (f s, tms, n).

Definition clear_all (ids : list positive) (l : list Timer) : list Timer :=
  fold_left (fun l id => without id l) ids l.

Definition step_callback (cb : Callback) (c : Core) : Core :=
  let '(s, _, _) := c in
  match cb with
  | UpdateTime | RemoveNotification _ => c
  | DemoStep =>
      if negb (isRunning s) then c
      else if (currentPhase s =? 1)%Z && is_unknown (personType s) then c
      else if (currentPhase s =? 2)%Z then arm IdVerified 3000 c
      else if (currentPhase s =? 3)%Z then arm VehicleDetected 3000 c
      else c
  | IdVerified =>
      if isRunning s && (currentPhase s =? 2)%Z
      then arm VehicleDetected 3000 (on_system (set_currentPhase 3) c)
      else c
  | VehicleDetected =>
      if isRunning s && (currentPhase s =? 3)%Z
      then arm (GrantAccess (vehicle_of (personType s))) 2000 c
      else c
  | GrantAccess _ =>
      if isRunning s then on_system (set_accessGranted true) c else c
  end.

Definition identify (p : PersonType) (c : Core) : Core :=
  let '(s, _, _) := c in
  if negb (isRunning s) then notify c
  else if negb (currentPhase s =? 1)%Z then notify c
  else arm IdVerified 3000
         (on_system (fun s => set_currentPhase 2 (set_personType p s)) c).

(** What an input does to the object and the timers. *)
Definition step (i : Input) (c : Core) : Core :=
  let '(s, tms, n) := c in
  match i with
  | ClickStart =>
      if isRunning s then c
      else (set_demoInterval (Some n) (set_currentPhase 1 (set_isRunning true s)),
            tms ++ [mkTimer n true DemoStep 2000], Pos.succ n)
  | ClickReset =>
      (mkSystem false 1 unknown false (demoInterval s) [],
       match demoInterval s with
       | Some id => without id (clear_all (phaseTimeouts s) tms)
       | None => clear_all (phaseTimeouts s) tms
       end, n)
  | ClickStudent => identify student c
  | ClickTeacher => identify teacher c
  | ClickClose => c
  | Fire id =>
      match lookup id tms with
      | None => c
      | Some t =>
          step_callback (callback t)
            (s, if repeating t then tms else without id tms, n)
      end
  end.

(** What [updateUI] shows for the fields [s]. *)
Definition shown_for (s : SmartCampusSystem) (d : Dom) : Prop :=
  current_phase d = getPhaseText s /\
  person_type d = personType s /\
  access_status d =
    (if accessGranted s then AccessGrantedText
     else if (currentPhase s =? 1)%Z then WaitingForStrap else Processing) /\
  step1 d = (if (1 <? currentPhase s)%Z then mkStep false true
             else if (1 <=? currentPhase s)%Z then mkStep true false
             else no_classes) /\
  step2 d = (if (2 <? currentPhase s)%Z then mkStep false true
             else if (2 <=? currentPhase s)%Z then mkStep true false
             else no_classes) /\
  step3 d = (if (3 <=? currentPhase s)%Z then mkStep true (accessGranted s)
             else no_classes) /\
  start_disabled d = isRunning s /\
  reset_disabled d = negb (isRunning s) /\
  student_disabled d = negb (isRunning s && (currentPhase s =? 1)%Z) /\
  teacher_disabled d = negb (isRunning s && (currentPhase s =? 1)%Z).

(** A button the user can click: the script has not disabled it. *)
Definition enabled (w : World) (i : Input) : bool :=
  match i with
  | ClickStart => negb (start_disabled (dom w))
  | ClickReset => negb (reset_disabled (dom w))
  | ClickStudent => negb (student_disabled (dom w))
  | ClickTeacher => negb (teacher_disabled (dom w))
  | ClickClose | Fire _ => true
  end.

(** The log entries that report granted access. *)
Definition grants (l : list LogEntry) : list (PersonType * Vehicle) :=
  flat_map (fun e => match log_message e with
                     | MsgAccessGranted p v => [(p, v)]
                     | _ => []
                     end) l.

(** The two identification buttons and the person each stands for. *)
Definition button (i : Input) (p : PersonType) : Prop :=
  (i = ClickStudent /\ p = student) \/ (i = ClickTeacher /\ p = teacher).

(** A report of granted access names the vehicle of the person. *)
Definition matching (e : LogEntry) : Prop :=
  forall p v, log_message e = MsgAccessGranted p v ->
    (p = student /\ v = STU001) \/ (p = teacher /\ v = TCH001).

(** The log [l] after some calls of [addLog] with entries that satisfy
    [P]. *)
Inductive logged (P : LogEntry -> Prop) (l : list LogEntry)
    : list LogEntry -> Prop :=
| logged_same : logged P l l
| logged_more e l' :
    P e -> logged P l l' -> logged P l (Page.prepend_capped e l').

(** The pending timers that are not of a demo session: the clock and
    the removal of notifications. *)
Definition background (l : list Timer) : list Timer :=
  filter (fun t => negb (of_session (callback t))) l.

(** A document whose status panel, steps and buttons are in any state,
    with an empty log, no notification and the modal hidden. *)
Definition blank : Dom :=
  mkDom StrapDetection unknown WaitingForStrap no_classes no_classes no_classes
        false false false false [] [] false.

End Campus.

(* ===================================================================== *)
(** * Facts *)
(* ===================================================================== *)

Unset Implicit Arguments.

(* ===================================================================== *)
(** ** Comparisons *)
(* ===================================================================== *)

Module JSFacts.

Import JS.

Lemma strict_eq_true a b : strict_eq a b = true <-> a = b.
Proof. unfold strict_eq. destruct (jsstring_dec a b); intuition congruence. Qed.

Lemma strict_eq_refl a : strict_eq a a = true.
Proof. now apply strict_eq_true. Qed.

Lemma strict_neq_true a b : strict_neq a b = true <-> a <> b.
Proof.
  unfold strict_neq, strict_eq.
  destruct (jsstring_dec a b); simpl; intuition congruence.
Qed.

Lemma strict_neq_false a b : strict_neq a b = false <-> a = b.
Proof.
  unfold strict_neq, strict_eq.
  destruct (jsstring_dec a b); simpl; intuition congruence.
Qed.

Lemma ge_true a b : ge a b = true <-> (b <= a)%Q.
Proof. apply Qle_bool_iff. Qed.

Lemma lt_true a b : lt a b = true <-> (a < b)%Q.
Proof.
  unfold lt. rewrite negb_true_iff.
  destruct (Qle_bool b a) eqn:E.
  - apply Qle_bool_iff in E. split; [discriminate | intros H; lra].
  - split; [intros _ | reflexivity].
    destruct (Qlt_le_dec a b) as [H | H]; [exact H | ].
    apply Qle_bool_iff in H. congruence.
Qed.

Lemma lt_false a b : lt a b = false <-> (b <= a)%Q.
Proof. unfold lt. rewrite negb_false_iff. apply Qle_bool_iff. Qed.

Lemma lt_ge a b : lt a b = negb (ge a b).
Proof. reflexivity. Qed.

End JSFacts.

(* ===================================================================== *)
(** ** Reasoning about effects *)
(* ===================================================================== *)

Module EffFacts.
Section Rules.

Context {S E : Type}.
Implicit Types (P I X : S -> Prop).

Lemma triple_ret {A} (x : A) P (Q : A -> S -> Prop) X :
  (forall s, P s -> Q x s) -> Eff.triple P (Eff.ret (E := E) x) Q X.
Proof. intros H s Hs. now apply H. Qed.

Lemma triple_throw {A} e P (Q : A -> S -> Prop) X :
  (forall s, P s -> X s) -> Eff.triple P (Eff.throw (E := E) e) Q X.
Proof. intros H s Hs. now apply H. Qed.

Lemma triple_bind {A B} (m : Eff.M S E A) (k : A -> Eff.M S E B)
    P (R : A -> S -> Prop) (Q : B -> S -> Prop) X :
  Eff.triple P m R X ->
  (forall x, Eff.triple (R x) (k x) Q X) ->
  Eff.triple P (Eff.bind m k) Q X.
Proof.
  intros Hm Hk s Hs. unfold Eff.bind. specialize (Hm s Hs).
  destruct (m s) as [[x | e] s1 o1]; [ | exact Hm].
  specialize (Hk x s1 Hm). destruct (k x s1) as [[y | e] s2 o2]; exact Hk.
Qed.

Lemma triple_try {A} (m : Eff.M S E A) (h : JS.Exn -> Eff.M S E A)
    P (Q : A -> S -> Prop) R X :
  Eff.triple P m Q R ->
  (forall e, Eff.triple R (h e) Q X) ->
  Eff.triple P (Eff.try_catch m h) Q X.
Proof.
  intros Hm Hh s Hs. unfold Eff.try_catch. specialize (Hm s Hs).
  destruct (m s) as [[x | e] s1 o1]; [exact Hm | ].
  specialize (Hh e s1 Hm). destruct (h e s1) as [[y | e'] s2 o2]; exact Hh.
Qed.

Lemma triple_weaken {A} (m : Eff.M S E A) P P' (Q Q' : A -> S -> Prop) X X' :
  Eff.triple P' m Q' X' ->
  (forall s, P s -> P' s) ->
  (forall x s, Q' x s -> Q x s) ->
  (forall s, X' s -> X s) ->
  Eff.triple P m Q X.
Proof.
  intros Hm HP HQ HX s Hs. specialize (Hm s (HP s Hs)).
  destruct (m s) as [[x | e] s1 o1]; auto.
Qed.

Lemma triple_get P X : Eff.triple P (Eff.get (E := E)) (fun x s => x = s /\ P s) X.
Proof. intros s Hs. simpl. auto. Qed.

Lemma triple_modify (f : S -> S) P (Q : unit -> S -> Prop) X :
  (forall s, P s -> Q tt (f s)) -> Eff.triple P (Eff.modify (E := E) f) Q X.
Proof. intros H s Hs. now apply H. Qed.

Lemma triple_emit (ev : E) P (Q : unit -> S -> Prop) X :
  (forall s, P s -> Q tt s) -> Eff.triple P (Eff.emit ev) Q X.
Proof. intros H s Hs. now apply H. Qed.

(** The rules for an invariant. *)

Lemma keeps_ret {A} (x : A) I : Eff.keeps I (Eff.ret (E := E) x).
Proof. now apply triple_ret. Qed.

Lemma keeps_throw {A} e I : Eff.keeps I (Eff.throw (A := A) (E := E) e).
Proof. now apply triple_throw. Qed.

Lemma keeps_bind {A B} (m : Eff.M S E A) (k : A -> Eff.M S E B) I :
  Eff.keeps I m -> (forall x, Eff.keeps I (k x)) -> Eff.keeps I (Eff.bind m k).
Proof. intros Hm Hk. eapply triple_bind; [exact Hm | exact Hk]. Qed.

Lemma keeps_try {A} (m : Eff.M S E A) (h : JS.Exn -> Eff.M S E A) I :
  Eff.keeps I m -> (forall e, Eff.keeps I (h e)) -> Eff.keeps I (Eff.try_catch m h).
Proof. intros Hm Hh. eapply triple_try; [exact Hm | exact Hh]. Qed.

Lemma keeps_get I : Eff.keeps I (Eff.get (E := E)).
Proof. intros s Hs. exact Hs. Qed.

Lemma keeps_modify (f : S -> S) I :
  (forall s, I s -> I (f s)) -> Eff.keeps I (Eff.modify (E := E) f).
Proof. intros H. now apply triple_modify. Qed.

Lemma keeps_emit (ev : E) I : Eff.keeps I (Eff.emit ev).
Proof. now apply triple_emit. Qed.

Lemma keeps_final {A} (m : Eff.M S E A) I s :
  Eff.keeps I m -> I s -> I (Eff.final (m s)).
Proof.
  intros H Hs. specialize (H s Hs). destruct (m s) as [[x | e] s1 o1]; exact H.
Qed.

End Rules.
End EffFacts.

(* ===================================================================== *)
(** ** Facts about the scanner *)
(* ===================================================================== *)

Module ScannerFacts.

Import JS JSFacts Scanner.
Local Open Scope eff_scope.

(** Unfolds the effect combinators and the methods of the scanner. *)
Ltac eff :=
  cbv [loop stability stop schedule freezeOverlay call_predict webcam_stop
       webcam_setup loadModel start is_none
       requestAnimationFrame cancelAnimationFrame note error this upd spawn tick
       Eff.bind Eff.try_catch Eff.ret Eff.throw Eff.get Eff.put Eff.modify
       Eff.emit Eff.when Eff.value Eff.final Eff.output].

Lemma locks_app a b : locks (a ++ b) = locks a ++ locks b.
Proof. unfold locks. apply flat_map_app. Qed.

Lemma top_of_inv f p :
  top_of f = Some p ->
  exists preds rest, predict f = PredictOk preds /\ sort_desc preds = p :: rest.
Proof.
  unfold top_of. destruct (predict f) as [preds | e]; [ | discriminate].
  destruct (sort_desc preds) as [ | p' rest] eqn:E; simpl; [discriminate | ].
  intros [= ->]. eauto.
Qed.

(** *** [stop] *)

Lemma filter_twice {A} (g : A -> bool) l : filter g (filter g l) = filter g l.
Proof.
  induction l as [ | x l IH]; simpl; [reflexivity | ].
  destruct (g x) eqn:E; simpl; [rewrite E | ]; congruence.
Qed.

Lemma stop_returns st : Eff.value (stop st) = inl tt /\ Eff.output (stop st) = [].
Proof.
  destruct st as [[tl bl mp fm mo pl wc ir th sw lt lk] q n]; eff; simpl.
  destruct pl; simpl; destruct wc as [[ | | ] | ]; simpl; auto.
Qed.

Lemma stop_scanner st :
  scanner (Eff.final (stop st)) =
  set_webcam (match webcam (scanner st) with
              | Some CamLive | Some CamStopped => Some CamStopped
              | w => w
              end)
             (set_isRunning false (scanner st)).
Proof.
  destruct st as [[tl bl mp fm mo pl wc ir th sw lt lk] q n]; eff; simpl.
  destruct pl; simpl; destruct wc as [[ | | ] | ]; simpl; reflexivity.
Qed.

Lemma stop_queue st :
  queue (Eff.final (stop st)) =
  match predLoopId (scanner st) with
  | Some id => filter (fun j => negb (Pos.eqb j id)) (queue st)
  | None => queue st
  end
  /\ fresh (Eff.final (stop st)) = fresh st.
Proof.
  destruct st as [[tl bl mp fm mo pl wc ir th sw lt lk] q n]; eff; simpl.
  destruct pl; simpl; destruct wc as [[ | | ] | ]; simpl; auto.
Qed.

Lemma stop_twice st : Eff.final (stop (Eff.final (stop st))) = Eff.final (stop st).
Proof.
  destruct (Eff.final (stop st)) as [s1 q1 n1] eqn:E1.
  destruct (Eff.final (stop (mkSess s1 q1 n1))) as [s2 q2 n2] eqn:E2.
  pose proof (stop_scanner st) as Hs. pose proof (stop_queue st) as [Hq Hn].
  pose proof (stop_scanner (mkSess s1 q1 n1)) as Hs'.
  pose proof (stop_queue (mkSess s1 q1 n1)) as [Hq' Hn'].
  rewrite E1 in Hs, Hq, Hn. rewrite E2 in Hs', Hq', Hn'. simpl in *.
  subst n2 n1. f_equal.
  - rewrite Hs', Hs. destruct (scanner st) as [tl bl mp fm mo pl wc ir th sw lt lk]; simpl.
    destruct wc as [[ | | ] | ]; reflexivity.
  - rewrite Hq'. rewrite Hs. simpl. rewrite Hq.
    destruct (predLoopId (scanner st)); [apply filter_twice | reflexivity].
Qed.

(** *** [loop] and [tick] on a session that cannot evaluate *)

Lemma loop_idle f st :
  isRunning (scanner st) = false -> loop f st = Eff.mkResult (inl tt) st [].
Proof. intros H. eff. rewrite H. reflexivity. Qed.

Lemma spawn_value (m : M unit) st : Eff.value (spawn m st) = inl tt.
Proof.
  unfold spawn, Eff.try_catch. destruct (m st) as [[[] | e] s1 o1]; reflexivity.
Qed.

Lemma tick_value f st : Eff.value (tick f st) = inl tt.
Proof.
  unfold tick, Eff.bind, Eff.get, Eff.put.
  destruct (queue st); simpl; [reflexivity | ].
  match goal with |- context [spawn ?m ?s] =>
    pose proof (spawn_value m s) as H; destruct (spawn m s) as [v s1 o1] end.
  exact H.
Qed.

Lemma run_cons f fs st :
  Eff.output (run (f :: fs) st) =
    Eff.output (tick f st) ++ Eff.output (run fs (Eff.final (tick f st)))
  /\ Eff.final (run (f :: fs) st) = Eff.final (run fs (Eff.final (tick f st))).
Proof.
  simpl. unfold Eff.bind at 1 2.
  pose proof (tick_value f st) as H. destruct (tick f st) as [v s1 o1].
  simpl in *. subst v. destruct (run fs s1); auto.
Qed.

Lemma run_value fs st : Eff.value (run fs st) = inl tt.
Proof.
  revert st. induction fs as [ | f fs IH]; intros st; [reflexivity | ].
  simpl. unfold Eff.bind at 1.
  pose proof (tick_value f st) as H. destruct (tick f st) as [v s1 o1].
  simpl in *. subst v. specialize (IH s1). destruct (run fs s1); auto.
Qed.

Lemma tick_halted f st :
  halted st ->
  Eff.output (tick f st) = [] /\
  scanner (Eff.final (tick f st)) = scanner st /\
  halted (Eff.final (tick f st)) /\
  (queue st = [] -> Eff.final (tick f st) = st).
Proof.
  intros H. destruct st as [s q n]. unfold halted in *. simpl in *.
  destruct q as [ | id q].
  - eff. simpl. auto.
  - destruct H as [H | H]; [ | discriminate].
    eff. simpl. rewrite H. simpl. repeat split; auto. discriminate.
Qed.

Lemma run_halted fs st :
  halted st ->
  Eff.output (run fs st) = [] /\
  scanner (Eff.final (run fs st)) = scanner st /\
  (queue st = [] -> Eff.final (run fs st) = st).
Proof.
  revert st. induction fs as [ | f fs IH]; intros st H; [simpl; auto | ].
  destruct (run_cons f fs st) as [Ho Hf].
  destruct (tick_halted f st H) as (To & Ts & Th & Tq).
  destruct (IH _ Th) as (Ro & Rs & Rq).
  rewrite Ho, Hf, To, Ro, Rs, Ts. repeat split; auto.
  intros Hq. rewrite (Tq Hq) in *. apply Rq, Hq.
Qed.

Lemma tick_loop f st id q :
  queue st = id :: q ->
  let st' := mkSess (scanner st) q (fresh st) in
  Eff.final (tick f st) = Eff.final (loop f st') /\
  Eff.output (tick f st) =
    Eff.output (loop f st') ++
    match Eff.value (loop f st') with
    | inl _ => []
    | inr e => [UnhandledRejection e]
    end.
Proof.
  intros Hq st'. unfold tick, Eff.bind, Eff.get, Eff.put, spawn, Eff.try_catch, Eff.emit.
  rewrite Hq. fold st'.
  destruct (loop f st') as [[[] | e] s1 o1]; simpl; auto using app_nil_r.
Qed.

(** *** The paths through [loop] on a running session *)

Lemma sort_desc_nil preds : sort_desc preds = [] -> preds = [].
Proof.
  destruct preds as [ | p preds]; [reflexivity | simpl].
  destruct (sort_desc preds) as [ | q l]; simpl; [discriminate | ].
  destruct (lt (probability p) (probability q)); discriminate.
Qed.

Lemma loop_no_webcam f st :
  isRunning (scanner st) = true -> webcam (scanner st) = None ->
  loop f st = Eff.mkResult (inr TypeError) st [].
Proof. intros Hr Hw. eff. rewrite Hr, Hw. reflexivity. Qed.

Lemma loop_predict_fails f st w :
  isRunning (scanner st) = true -> webcam (scanner st) = Some w ->
  model (scanner st) = None \/ (exists e, predict f = PredictErr e) ->
  Eff.value (loop f st) = inl tt /\
  Eff.final (loop f st) = st /\
  Eff.output (loop f st) =
    (if topLeftEl (scanner st) then [TopLeft PredictionFailed] else [])
    ++ [ConsoleError "Predict error:"].
Proof.
  intros Hr Hw H.
  destruct st as [[tl bl mp fm mo pl wc ir th sw lt lk] q n]; simpl in *. subst ir wc.
  destruct tl, H as [Hm | [e He]]; try subst mo; try destruct mo;
    eff; simpl; rewrite ?He; simpl; auto.
Qed.

Lemma loop_empty f st :
  isRunning (scanner st) = true -> equipped (scanner st) ->
  predict f = PredictOk [] ->
  loop f st = Eff.mkResult (inr TypeError) st [].
Proof.
  intros Hr [[m Hm] [w Hw]] Hp.
  destruct st as [[tl bl mp fm mo pl wc ir th sw lt lk] q n]; simpl in *. subst ir wc mo.
  eff; simpl. rewrite Hp. reflexivity.
Qed.

Lemma continued_none s p :
  continued s p = None ->
  match lastTop s with
  | None => True
  | Some l =>
      strict_neq (name l) (className p) || lt (probability p) (threshold s) = true
  end.
Proof.
  unfold continued. destruct (lastTop s) as [l | ]; [ | trivial].
  destruct (strict_neq (name l) (className p) || lt (probability p) (threshold s));
    [trivial | discriminate].
Qed.

Lemma continued_some s p l :
  continued s p = Some l ->
  lastTop s = Some l /\
  strict_neq (name l) (className p) || lt (probability p) (threshold s) = false.
Proof.
  unfold continued. destruct (lastTop s) as [l' | ]; [ | discriminate].
  destruct (strict_neq (name l') (className p) || lt (probability p) (threshold s)) eqn:E;
    [discriminate | ].
  intros [= ->]. auto.
Qed.

Lemma loop_establish f st p :
  isRunning (scanner st) = true -> equipped (scanner st) ->
  top_of f = Some p ->
  continued (scanner st) p = None ->
  Eff.value (loop f st) = inl tt /\
  Eff.final (loop f st) =
    rescheduled (set_lastTop (candidate (scanner st) p (now f)) (scanner st))
                (queue st) (fresh st) /\
  locks (Eff.output (loop f st)) = [].
Proof.
  intros Hr [[m Hm] [w Hw]] Htop Hc.
  apply top_of_inv in Htop as (preds & rest & Hp & Hs).
  apply continued_none in Hc.
  destruct st as [[tl bl mp fm mo pl wc ir th sw lt lk] q n]; simpl in *. subst ir wc mo.
  unfold candidate; simpl.
  destruct tl, bl; eff; simpl; rewrite Hp; simpl; rewrite Hs; simpl.
  all: destruct lt as [l | ]; simpl; rewrite ?Hc.
  all: destruct (ge (probability p) th); simpl; auto.
Qed.

Lemma loop_wait f st p l :
  isRunning (scanner st) = true -> equipped (scanner st) ->
  top_of f = Some p ->
  continued (scanner st) p = Some l ->
  ge (now f - since l) (stableWindowMs (scanner st)) = false ->
  Eff.value (loop f st) = inl tt /\
  Eff.final (loop f st) = rescheduled (scanner st) (queue st) (fresh st) /\
  locks (Eff.output (loop f st)) = [].
Proof.
  intros Hr [[m Hm] [w Hw]] Htop Hc Hge.
  apply top_of_inv in Htop as (preds & rest & Hp & Hs).
  apply continued_some in Hc as [Hl Hc].
  destruct st as [[tl bl mp fm mo pl wc ir th sw lt lk] q n]; simpl in *.
  subst ir wc mo lt.
  destruct tl, bl; eff; simpl; rewrite Hp; simpl; rewrite Hs; simpl.
  all: rewrite Hc, Hge; simpl; auto.
Qed.

Lemma loop_lock f st p l :
  isRunning (scanner st) = true -> equipped (scanner st) ->
  top_of f = Some p ->
  continued (scanner st) p = Some l ->
  ge (now f - since l) (stableWindowMs (scanner st)) = true ->
  Eff.value (loop f st) = inl tt /\
  Eff.final (loop f st) =
    Eff.final (stop (mkSess (set_locked true (scanner st)) (queue st) (fresh st))) /\
  locks (Eff.output (loop f st)) =
    [mkLockInfo (className p) (probability p) (date f)].
Proof.
  intros Hr [[m Hm] [w Hw]] Htop Hc Hge.
  apply top_of_inv in Htop as (preds & rest & Hp & Hs).
  apply continued_some in Hc as [Hl Hc].
  destruct st as [[tl bl mp fm mo pl wc ir th sw lt lk] q n]; simpl in *.
  subst ir wc mo lt.
  destruct tl, bl, pl, w; eff; simpl; rewrite Hp; simpl; rewrite Hs; simpl.
  all: rewrite Hc, Hge; simpl; auto.
Qed.

(** The top-ranked prediction has the highest probability, and among
    those with that probability it is the first of the model's output. *)
Lemma sort_desc_max l h t :
  sort_desc l = h :: t ->
  (forall q, In q l -> (probability q <= probability h)%Q) /\
  exists l1 l2, l = l1 ++ h :: l2 /\
                forall q, In q l1 -> (probability q < probability h)%Q.
Proof.
  revert h t. induction l as [ | x l IH]; intros h t; simpl; [discriminate | ].
  destruct (sort_desc l) as [ | h' t'] eqn:E; simpl.
  - apply sort_desc_nil in E. subst l. intros [= <- <-]. split.
    + intros q [<- | []]. apply Qle_refl.
    + exists [], []. split; [reflexivity | intros q []].
  - destruct (IH h' t' eq_refl) as (Hmax & l1 & l2 & Hl & Hlt).
    destruct (lt (probability x) (probability h')) eqn:Ex.
    + intros [= <- <-]. apply lt_true in Ex. split.
      * intros q [<- | Hq]; [lra | now apply Hmax].
      * exists (x :: l1), l2. split; [now rewrite Hl | ].
        intros q [<- | Hq]; [exact Ex | now apply Hlt].
    + intros [= <- <-]. apply lt_false in Ex. split.
      * intros q [<- | Hq]; [apply Qle_refl | ].
        specialize (Hmax q Hq). lra.
      * exists [], l. split; [reflexivity | intros q []].
Qed.

Lemma top_of_max f p preds :
  predict f = PredictOk preds -> top_of f = Some p ->
  In p preds /\ forall q, In q preds -> (probability q <= probability p)%Q.
Proof.
  intros Hp Htop. unfold top_of in Htop. rewrite Hp in Htop.
  destruct (sort_desc preds) as [ | h t] eqn:E; [discriminate | ].
  injection Htop as ->.
  destruct (sort_desc_max preds p t E) as (Hmax & l1 & l2 & -> & _).
  split; [apply in_or_app; right; now left | exact Hmax].
Qed.

(** What a call of [loop] does to [lastTop] and whether it locks: it
    leaves [lastTop] alone without locking, or it stores a fresh candidate
    without locking, or it locks on the streak it finds. *)
Lemma loop_cases f st :
  (lastTop (scanner (Eff.final (loop f st))) = lastTop (scanner st) /\
   locks (Eff.output (loop f st)) = [])
  \/ (exists p, top_of f = Some p /\ continued (scanner st) p = None /\
        lastTop (scanner (Eff.final (loop f st))) = candidate (scanner st) p (now f) /\
        locks (Eff.output (loop f st)) = [])
  \/ (exists p l, top_of f = Some p /\ continued (scanner st) p = Some l /\
        ge (now f - since l) (stableWindowMs (scanner st)) = true /\
        lastTop (scanner (Eff.final (loop f st))) = lastTop (scanner st) /\
        locks (Eff.output (loop f st)) =
          [mkLockInfo (className p) (probability p) (date f)]).
Proof.
  destruct (isRunning (scanner st)) eqn:Hr;
    [ | left; rewrite (loop_idle f st Hr); auto].
  destruct (webcam (scanner st)) as [w | ] eqn:Hw;
    [ | left; rewrite (loop_no_webcam f st Hr Hw); auto].
  destruct (model (scanner st)) as [m | ] eqn:Hm.
  2:{ left. destruct (@loop_predict_fails f st w Hr Hw) as (_ & -> & ->); auto.
      destruct (topLeftEl (scanner st)); auto. }
  assert (He : equipped (scanner st)) by (split; eauto).
  destruct (predict f) as [preds | e] eqn:Hp.
  2:{ left. destruct (@loop_predict_fails f st w Hr Hw) as (_ & -> & ->); eauto.
      destruct (topLeftEl (scanner st)); auto. }
  destruct (top_of f) as [p | ] eqn:Htop.
  2:{ left. unfold top_of in Htop. rewrite Hp in Htop.
      destruct (sort_desc preds) eqn:Hs; [ | discriminate].
      apply sort_desc_nil in Hs. subst preds.
      rewrite (loop_empty f st Hr He Hp). auto. }
  destruct (continued (scanner st) p) as [l | ] eqn:Hc.
  - destruct (ge (now f - since l) (stableWindowMs (scanner st))) eqn:Hge.
    + right; right. exists p, l.
      destruct (loop_lock f st p l Hr He Htop Hc Hge) as (_ & -> & ->).
      rewrite stop_scanner. simpl. auto.
    + left. destruct (loop_wait f st p l Hr He Htop Hc Hge) as (_ & -> & ->). auto.
  - right; left. exists p.
    destruct (loop_establish f st p Hr He Htop Hc) as (_ & -> & ->). auto.
Qed.

(** *** [start] *)

Lemma start_calls_loop env st :
  camera env = None ->
  (model (scanner st) = None -> load env = None) ->
  Eff.value (start env st) = inl tt /\
  Eff.final (start env st) = Eff.final (loop (first env) (armed st)) /\
  locks (Eff.output (start env st)) =
    locks (Eff.output (loop (first env) (armed st))).
Proof.
  intros Hc Hl.
  destruct st as [[tl bl mp fm mo pl wc ir th sw lt lk] q n]. simpl in Hl.
  cbv [start loadModel webcam_setup is_none note error this upd spawn armed
       Eff.bind Eff.try_catch Eff.ret Eff.throw Eff.get Eff.put Eff.modify
       Eff.emit Eff.when].
  rewrite Hc. simpl.
  destruct mo as [mo | ], tl; simpl; rewrite ?(Hl eq_refl); simpl.
  all: match goal with |- context [loop ?f ?s] => destruct (loop f s) as [[[] | e] s1 o1] end.
  all: simpl; repeat rewrite ?locks_app; simpl; rewrite ?app_nil_r; auto.
Qed.

Lemma armed_fields st :
  let s := scanner (armed st) in
  isRunning s = true /\ equipped s /\ lastTop s = None /\ locked s = false /\
  threshold s = threshold (scanner st) /\
  stableWindowMs s = stableWindowMs (scanner st) /\
  queue (armed st) = queue st /\ fresh (armed st) = fresh st.
Proof.
  destruct st as [[tl bl mp fm mo pl wc ir th sw lt lk] q n].
  unfold armed, equipped; simpl. destruct mo; simpl; repeat split; eauto.
Qed.

(** A successful activation evaluates its first frame without locking
    and leaves the first candidate behind. *)
Lemma start_ok env st p :
  camera env = None -> load env = None ->
  top_of (first env) = Some p ->
  let st1 := Eff.final (start env st) in
  Eff.value (start env st) = inl tt /\
  locks (Eff.output (start env st)) = [] /\
  isRunning (scanner st1) = true /\ equipped (scanner st1) /\
  lastTop (scanner st1) = candidate (scanner st) p (now (first env)) /\
  threshold (scanner st1) = threshold (scanner st) /\
  stableWindowMs (scanner st1) = stableWindowMs (scanner st) /\
  queue st1 = queue st ++ [fresh st].
Proof.
  intros Hc Hl Htop st1. subst st1.
  destruct (start_calls_loop env st Hc (fun _ => Hl)) as (Hv & -> & ->).
  destruct (armed_fields st) as (Ar & Ae & Al & _ & At & Aw & Aq & An).
  assert (Hcont : continued (scanner (armed st)) p = None)
    by (unfold continued; now rewrite Al).
  destruct (loop_establish (first env) (armed st) p Ar Ae Htop Hcont)
    as (_ & -> & ->).
  rewrite Aq, An. unfold candidate. rewrite At.
  destruct Ae as [[m Hm] [w Hw]].
  remember (scanner (armed st)) as s1 eqn:E. clear E.
  unfold rescheduled, equipped; simpl. repeat split; eauto.
Qed.

(** *** A stable stream locks, once *)



(** *** A label that changes too early never locks *)

Lemma changes_within_tail w f fs :
  changes_within w (f :: fs) -> changes_within w fs.
Proof.
  intros H i j fi fj lbl Hij Hi Hj Hk.
  apply (H (S i) (S j) fi fj lbl); simpl; auto; [lia | ].
  intros [ | k] fk Hle Hfk; [lia | ]. apply (Hk k); [lia | exact Hfk].
Qed.

Lemma label_of_top f p : top_of f = Some p -> label_of f = Some (className p).
Proof. unfold label_of. now intros ->. Qed.

Lemma run_no_lock fs : forall st,
  equipped (scanner st) ->
  (forall f, In f fs -> top_of f <> None) ->
  halted st \/ streak_short (stableWindowMs (scanner st)) st fs ->
  changes_within (stableWindowMs (scanner st)) fs ->
  locks (Eff.output (run fs st)) = [].
Proof.
  induction fs as [ | f fs IH]; intros st He Hall Hst Hch; [reflexivity | ].
  assert (Hdec : halted st \/
                 (isRunning (scanner st) = true /\ exists id q, queue st = id :: q)).
  { unfold halted. destruct (isRunning (scanner st)); [ | auto].
    destruct (queue st) as [ | id q]; [auto | right; eauto]. }
  destruct Hdec as [Hh | (Hr & id & q & Eq)].
  { destruct (run_halted (f :: fs) st Hh) as (-> & _). reflexivity. }
  destruct Hst as [Hh | Hst].
  { destruct (run_halted (f :: fs) st Hh) as (-> & _). reflexivity. }
  destruct (run_cons f fs st) as [-> _].
  destruct (tick_loop f st id q Eq) as [Tf To].
  set (st' := mkSess (scanner st) q (fresh st)) in *.
  destruct (top_of f) as [p | ] eqn:Htop;
    [ | exfalso; apply (Hall f); [now left | exact Htop]].
  assert (Hall' : forall f', In f' fs -> top_of f' <> None)
    by (intros f' Hf'; apply Hall; now right).
  pose proof (changes_within_tail _ _ _ Hch) as Hch'.
  destruct (continued (scanner st') p) as [l | ] eqn:Hcont.
  - (* the streak goes on, and is too young to lock *)
    destruct (continued_some _ _ _ Hcont) as [Hl Hcond].
    apply orb_false_iff in Hcond as [Hname _].
    apply strict_neq_false in Hname.
    assert (Hshort : (now f - since l < stableWindowMs (scanner st))%Q).
    { unfold streak_short in Hst. simpl in Hl. rewrite Hl in Hst.
      apply (Hst 0%nat f eq_refl).
      intros [ | k] fk Hk; [ | lia]. simpl. intros [= <-].
      rewrite Hname. now apply label_of_top. }
    assert (Hge : ge (now f - since l) (stableWindowMs (scanner st)) = false).
    { destruct (ge (now f - since l) (stableWindowMs (scanner st))) eqn:E; [ | reflexivity].
      apply ge_true in E. lra. }
    destruct (loop_wait f st' p l Hr He Htop Hcont Hge) as (Lv & Lf & Lo).
    rewrite To, Tf, Lv, Lf, app_nil_r, locks_app, Lo. simpl.
    apply IH; simpl; auto;
      match goal with
      | |- equipped _ => destruct He as [[m Hm] [w Hw]]; split; eauto
      | |- _ \/ _ => right
      end.
    unfold streak_short in *. simpl in *. rewrite Hl in *.
    intros j fj Hj Hk. apply (Hst (S j) fj Hj).
    intros [ | k] fk Hle; simpl.
    + intros [= <-]. rewrite Hname. now apply label_of_top.
    + apply Hk. lia.
  - (* a new candidate starts at this frame *)
    destruct (loop_establish f st' p Hr He Htop Hcont) as (Lv & Lf & Lo).
    rewrite To, Tf, Lv, Lf, app_nil_r, locks_app, Lo. simpl.
    apply IH; simpl; auto;
      match goal with
      | |- equipped _ => destruct He as [[m Hm] [w Hw]]; split; eauto
      | |- _ \/ _ => right
      end.
    unfold streak_short, candidate. simpl.
    destruct (ge (probability p) (threshold (scanner st))); [simpl | exact I].
    intros j fj Hj Hk.
    apply (Hch 0%nat (S j) f fj (className p)); simpl; auto; [lia | ].
    intros [ | k] fk Hle; simpl.
    + intros [= <-]. now apply label_of_top.
    + apply Hk. lia.
Qed.

(** C5. A stream in which the top-ranked label changes before the
    stability window has elapsed (whenever a stretch of frames keeps one top
    label, less than the window passes from its first to its last frame)
    never makes the scanner call [onLock]. And on a call whose top label
    differs from the stored candidate, [lastTop] is replaced: by the new
    label with the current time as its start if the probability reaches the
    threshold, by nothing otherwise; that call does not lock. *)
Theorem label_change_never_locks :
  (forall (st0 : Sess) (env : StartEnv) (fs : list Frame),
     camera env = None -> load env = None ->
     (forall f, In f (first env :: fs) -> top_of f <> None) ->
     changes_within (stableWindowMs (scanner st0)) (first env :: fs) ->
     locks (Eff.output ((start env ;; run fs)%eff st0)) = [])
  /\
  (forall (st : Sess) (f : Frame) (p : Prediction) (l : LastTop),
     isRunning (scanner st) = true -> equipped (scanner st) ->
     lastTop (scanner st) = Some l ->
     top_of f = Some p -> className p <> name l ->
     lastTop (scanner (Eff.final (loop f st))) =
       (if ge (probability p) (threshold (scanner st))
        then Some (mkLastTop (className p) (now f) (probability p))
        else None)
     /\ locks (Eff.output (loop f st)) = []).
Proof.
  split.
  - intros st0 env fs Hc Hl Hall Hch.
    destruct (top_of (first env)) as [p0 | ] eqn:Htop0;
      [ | exfalso; apply (Hall (first env)); [now left | exact Htop0]].
    destruct (start_ok env st0 p0 Hc Hl Htop0)
      as (Sv & So & Sr & Se & Slt & Sth & Sw & Sq).
    set (st1 := Eff.final (start env st0)) in *.
    assert (Hout : Eff.output ((start env ;; run fs)%eff st0) =
                   Eff.output (start env st0) ++ Eff.output (run fs st1)).
    { subst st1. unfold Eff.bind.
      destruct (start env st0) as [v s1 o1]. simpl in Sv. subst v. simpl.
      destruct (run fs s1); auto. }
    rewrite Hout, locks_app, So. simpl.
    apply run_no_lock; auto.
    + intros f Hf. apply Hall. now right.
    + right. unfold streak_short. rewrite Slt, Sw. unfold candidate.
      destruct (ge (probability p0) (threshold (scanner st0))); [simpl | exact I].
      intros j fj Hj Hk.
      apply (Hch 0%nat (S j) (first env) fj (className p0)); simpl; auto; [lia | ].
      intros [ | k] fk Hle; simpl.
      * intros [= <-]. now apply label_of_top.
      * apply Hk. lia.
    + rewrite Sw. now apply changes_within_tail with (f := first env).
  - intros st f p l Hr He Hl Htop Hne.
    assert (Hcont : continued (scanner st) p = None).
    { unfold continued. rewrite Hl.
      replace (strict_neq (name l) (className p)) with true
        by (symmetry; apply strict_neq_true; congruence).
      reflexivity. }
    destruct (loop_establish f st p Hr He Htop Hcont) as (_ & -> & ->).
    split; reflexivity.
Qed.

(** *** [start] never locks *)

Lemma start_fails_quietly env st :
  camera env <> None \/ (model (scanner st) = None /\ load env <> None) ->
  locks (Eff.output (start env st)) = [].
Proof.
  intros H.
  destruct st as [[tl bl mp fm mo pl wc ir th sw lt lk] q n]. simpl in H.
  cbv [start loadModel webcam_setup is_none note error this upd spawn
       Eff.bind Eff.try_catch Eff.ret Eff.throw Eff.get Eff.put Eff.modify
       Eff.emit Eff.when].
  destruct (camera env) as [[ | | | ] | ], (load env) as [[ | | | ] | ], mo, tl;
    simpl; try reflexivity.
  all: destruct H as [H | [H1 H2]]; congruence.
Qed.

Lemma start_fails_queue env st :
  camera env <> None \/ (model (scanner st) = None /\ load env <> None) ->
  queue (Eff.final (start env st)) = queue st.
Proof.
  intros H.
  destruct st as [[tl bl mp fm mo pl wc ir th sw lt lk] q n]. simpl in H.
  cbv [start loadModel webcam_setup is_none note error this upd spawn
       Eff.bind Eff.try_catch Eff.ret Eff.throw Eff.get Eff.put Eff.modify
       Eff.emit Eff.when].
  destruct (camera env) as [[ | | | ] | ], (load env) as [[ | | | ] | ], mo, tl;
    simpl; try reflexivity.
  all: destruct H as [H | [H1 H2]]; congruence.
Qed.

Lemma first_call_never_locks f st :
  lastTop (scanner st) = None -> locks (Eff.output (loop f st)) = [].
Proof.
  intros Hl.
  destruct (loop_cases f st) as [[_ H] | [(p & _ & _ & _ & H) | (p & l & _ & Hc & _)]];
    auto.
  apply continued_some in Hc as [Hc _]. congruence.
Qed.

Lemma start_never_locks env st : locks (Eff.output (start env st)) = [].
Proof.
  destruct (camera env) as [e | ] eqn:Hc;
    [apply start_fails_quietly; left; congruence | ].
  destruct (model (scanner st)) as [m | ] eqn:Hm.
  - destruct (start_calls_loop env st Hc) as (_ & _ & ->); [congruence | ].
    apply first_call_never_locks, armed_fields.
  - destruct (load env) as [e | ] eqn:Hl;
      [apply start_fails_quietly; right; split; congruence | ].
    destruct (start_calls_loop env st Hc) as (_ & _ & ->); [congruence | ].
    apply first_call_never_locks, armed_fields.
Qed.

(** C10. A call of [loop] that leaves a candidate in [lastTop] which was
    not there before the call has set its start time to the time of the
    call and does not call [onLock], whatever the window, zero included.
    So the first evaluation after [start], which finds no candidate, never
    locks, and neither does [start] itself: a lock needs a later call that
    finds the candidate in place. *)
Theorem no_lock_when_candidate_established :
  forall (st : Sess) (f : Frame),
    (forall l',
       lastTop (scanner (Eff.final (loop f st))) = Some l' ->
       lastTop (scanner st) <> Some l' ->
       since l' = now f /\ locks (Eff.output (loop f st)) = [])
    /\ (lastTop (scanner st) = None -> locks (Eff.output (loop f st)) = [])
    /\ (forall env, locks (Eff.output (start env st)) = []).
Proof.
  intros st f. split; [ | split].
  - intros l' Hafter Hbefore.
    destruct (loop_cases f st)
      as [[H _] | [(p & _ & _ & Hl & Ho) | (p & l & _ & _ & _ & H & _)]];
      try congruence.
    split; [ | exact Ho].
    rewrite Hl in Hafter. unfold candidate in Hafter.
    destruct (ge (probability p) (threshold (scanner st))); [ | discriminate].
    now injection Hafter as <-.
  - apply first_call_never_locks.
  - intros env. apply start_never_locks.
Qed.

(** *** Inference failure *)

(** C3, as the script has it. When inference fails during a cycle of a
    running session with a single loop, the error is reported (overlay and
    console), no update is emitted for that frame, and the session is not
    stopped: it stays flagged as running, keeps its camera and its
    candidate. But the cycle returns without scheduling another one: no
    callback is pending, and no later frame is processed. *)
Theorem inference_failure_halts_loop :
  forall (st : Sess) (f : Frame) (id : positive) (w : Webcam),
    isRunning (scanner st) = true -> webcam (scanner st) = Some w ->
    queue st = [id] ->
    model (scanner st) = None \/ (exists e, predict f = PredictErr e) ->
    let r := tick f st in
    Eff.value r = inl tt /\
    Eff.output r =
      (if topLeftEl (scanner st) then [TopLeft PredictionFailed] else [])
      ++ [ConsoleError "Predict error:"] /\
    scanner (Eff.final r) = scanner st /\
    isRunning (scanner (Eff.final r)) = true /\
    queue (Eff.final r) = [] /\
    (forall fs,
       Eff.output (run fs (Eff.final r)) = [] /\
       Eff.final (run fs (Eff.final r)) = Eff.final r).
Proof.
  intros st f id w Hr Hw Hq H r. subst r.
  destruct (tick_loop f st id [] Hq) as [Tf To].
  set (st' := mkSess (scanner st) [] (fresh st)) in *.
  destruct (loop_predict_fails f st' w Hr Hw H) as (Lv & Lf & Lo).
  rewrite tick_value, To, Tf, Lv, Lf, Lo, app_nil_r. simpl.
  repeat split; auto.
  - apply (run_halted fs st'). now right.
  - apply (run_halted fs st'); [now right | reflexivity].
Qed.

(** *** Empty prediction list *)

(** C4, as the script has it. On an empty prediction list the cycle
    raises a [TypeError] when it reads the class name of the missing top
    entry: no decision is taken, the session, its candidate included, is
    left as it was, nothing is emitted and nothing is scheduled. With a
    single loop, the rejection goes unhandled and no later frame is
    processed. *)
Theorem empty_predictions_raise :
  forall (st : Sess) (f : Frame),
    isRunning (scanner st) = true -> equipped (scanner st) ->
    predict f = PredictOk [] ->
    loop f st = Eff.mkResult (inr TypeError) st [] /\
    (forall id, queue st = [id] ->
       Eff.output (tick f st) = [UnhandledRejection TypeError] /\
       scanner (Eff.final (tick f st)) = scanner st /\
       queue (Eff.final (tick f st)) = [] /\
       forall fs, Eff.output (run fs (Eff.final (tick f st))) = []).
Proof.
  intros st f Hr He Hp. split; [now apply loop_empty | ].
  intros id Hq.
  destruct (tick_loop f st id [] Hq) as [Tf To].
  set (st' := mkSess (scanner st) [] (fresh st)) in *.
  assert (Hl : loop f st' = Eff.mkResult (inr TypeError) st' [])
    by now apply loop_empty.
  rewrite Hl in Tf, To. simpl in *. rewrite Tf, To.
  repeat split; auto.
  intros fs. apply (run_halted fs st'). now right.
Qed.

(** *** [stop] *)

Lemma filter_all_out id q :
  (forall j, In j q -> Some id = Some j) ->
  filter (fun j => negb (Pos.eqb j id)) q = [].
Proof.
  induction q as [ | j q IH]; intros H; [reflexivity | simpl].
  assert (E : id = j) by (injection (H j (or_introl eq_refl)); auto).
  subst j. rewrite Pos.eqb_refl. simpl. apply IH. intros j Hj. apply H. now right.
Qed.

(** *** One loop per session *)

Lemma loop_final_shape f st :
  Eff.final (loop f st) = st \/
  (exists s, Eff.final (loop f st) = rescheduled s (queue st) (fresh st)) \/
  (exists s, Eff.final (loop f st) = Eff.final (stop (mkSess s (queue st) (fresh st)))).
Proof.
  destruct (isRunning (scanner st)) eqn:Hr;
    [ | left; now rewrite (loop_idle f st Hr)].
  destruct (webcam (scanner st)) as [w | ] eqn:Hw;
    [ | left; now rewrite (loop_no_webcam f st Hr Hw)].
  destruct (model (scanner st)) as [m | ] eqn:Hm;
    [ | left; apply (loop_predict_fails f st w Hr Hw); auto].
  assert (He : equipped (scanner st)) by (split; eauto).
  destruct (predict f) as [preds | e] eqn:Hp;
    [ | left; apply (loop_predict_fails f st w Hr Hw); eauto].
  destruct (top_of f) as [p | ] eqn:Htop.
  2:{ left. unfold top_of in Htop. rewrite Hp in Htop.
      destruct (sort_desc preds) eqn:Hs; [ | discriminate].
      apply sort_desc_nil in Hs. subst preds.
      now rewrite (loop_empty f st Hr He Hp). }
  destruct (continued (scanner st) p) as [l | ] eqn:Hc.
  - destruct (ge (now f - since l) (stableWindowMs (scanner st))) eqn:Hge.
    + right; right. eexists. apply (loop_lock f st p l Hr He Htop Hc Hge).
    + right; left. eexists. apply (loop_wait f st p l Hr He Htop Hc Hge).
  - right; left. eexists. apply (loop_establish f st p Hr He Htop Hc).
Qed.

Lemma one_pending_loop f st : queue st = [] -> one_pending (Eff.final (loop f st)).
Proof.
  intros Hq.
  destruct (loop_final_shape f st) as [-> | [[s ->] | [s ->]]].
  - now left.
  - right. exists (fresh st). rewrite Hq. split; reflexivity.
  - left. destruct (stop_queue (mkSess s (queue st) (fresh st))) as [-> _].
    simpl. rewrite Hq. now destruct (predLoopId _).
Qed.

Lemma one_pending_single st : one_pending st -> single_loop st.
Proof.
  intros [Hq | (id & Hq & Hp)] j Hj; rewrite Hq in Hj; [destruct Hj | ].
  destruct Hj as [<- | []]. exact Hp.
Qed.

(** A session keeps to one loop under [tick] and [stop], and under
    [start] when no callback is pending. *)
Lemma one_pending_steps st :
  one_pending (create cfg0) /\
  (one_pending st -> forall f, one_pending (Eff.final (tick f st))) /\
  (one_pending st -> one_pending (Eff.final (stop st))) /\
  (queue st = [] -> forall env, one_pending (Eff.final (start env st))).
Proof.
  split; [now left | split; [ | split]].
  - intros [Hq | (id & Hq & Hp)] f.
    + left. destruct (tick_halted f st (or_intror Hq)) as (_ & _ & _ & H).
      now rewrite (H Hq).
    + destruct (tick_loop f st id [] Hq) as [-> _]. now apply one_pending_loop.
  - intros H. left. destruct (stop_queue st) as [-> _].
    destruct H as [Hq | (id & Hq & Hp)]; rewrite Hq.
    + now destruct (predLoopId _).
    + rewrite Hp. simpl. now rewrite Pos.eqb_refl.
  - intros Hq env.
    destruct (camera env) as [e | ] eqn:Hc;
      [left; rewrite start_fails_queue; [exact Hq | left; congruence] | ].
    destruct (model (scanner st)) as [m | ] eqn:Hm.
    + destruct (start_calls_loop env st Hc) as (_ & -> & _); [congruence | ].
      apply one_pending_loop.
      now destruct (armed_fields st) as (_ & _ & _ & _ & _ & _ & -> & _).
    + destruct (load env) as [e | ] eqn:Hl;
        [left; rewrite start_fails_queue; [exact Hq | right; split; congruence] | ].
      destruct (start_calls_loop env st Hc) as (_ & -> & _); [congruence | ].
      apply one_pending_loop.
      now destruct (armed_fields st) as (_ & _ & _ & _ & _ & _ & -> & _).
Qed.

(** *** The theorems at work *)

(** Scenario A: a cat at 0.99 on every frame, one frame every 100 ms for
    1100 ms: one lock, on the cat, taken at the frame at 1000 ms. *)
Example scenario_A :
  let frames := map (fun t => frame_of cat (99 # 100) (inject_Z t))
                    [100; 200; 300; 400; 500; 600; 700; 800; 900; 1000; 1100]%Z in
  let r := (start (env_of (frame_of cat (99 # 100) 0)) ;; run frames)%eff (create cfg0) in
  locks (Eff.output r) = [mkLockInfo cat (99 # 100) 0] /\
  Eff.output (run (firstn 9 frames) st_cat) <> [] /\
  locks (Eff.output (run (firstn 9 frames) st_cat)) = [].
Proof. vm_compute. repeat split. discriminate. Qed.

(** Scenario B: cat and dog alternate every 500 ms: no lock. *)
Example scenario_B :
  let frames := [frame_of dog (99 # 100) 500; frame_of cat (99 # 100) 1000;
                 frame_of dog (99 # 100) 1500; frame_of cat (99 # 100) 2000] in
  locks (Eff.output
           ((start (env_of (frame_of cat (99 # 100) 0)) ;; run frames)%eff
              (create cfg0))) = [].
Proof. vm_compute. reflexivity. Qed.

(** With a window of zero the first evaluation still does not lock; the
    second one does. *)
Example zero_window :
  let st := with_window 0 (create cfg0) in
  let f := frame_of cat (99 # 100) 0 in
  locks (Eff.output (start (env_of f) st)) = [] /\
  locks (Eff.output ((start (env_of f) ;; run [f])%eff st)) =
    [mkLockInfo cat (99 # 100) 0].
Proof. vm_compute. split; reflexivity. Qed.


Lemma label_change_never_locks_witness :
  locks (Eff.output
           ((start (env_of (frame_of cat (99 # 100) 0)) ;;
             run [frame_of dog (99 # 100) 500; frame_of cat (99 # 100) 1000])%eff
              (create cfg0))) = []
  /\ lastTop (scanner (Eff.final (loop (frame_of dog (99 # 100) 500) st_cat))) =
       Some (mkLastTop dog 500 (99 # 100)).
Proof.
  split.
  - apply (proj1 label_change_never_locks (create cfg0)
             (env_of (frame_of cat (99 # 100) 0))
             [frame_of dog (99 # 100) 500; frame_of cat (99 # 100) 1000]
             eq_refl eq_refl).
    + intros f [<- | [<- | [<- | []]]]; discriminate.
    + intros i j fi fj lbl Hij Hi Hj Hk.
      pose proof (proj1 (nth_error_Some _ j) ltac:(rewrite Hj; discriminate)) as Hj3.
      simpl in Hj3.
      destruct i as [ | [ | [ | i]]]; destruct j as [ | [ | [ | j]]];
        simpl in Hi, Hj; try lia.
      all: pose proof (Hk _ _ (conj (le_n _) (Nat.lt_le_incl _ _ Hij)) Hi) as H1.
      all: injection Hi as <-.
      * pose proof (Hk 1%nat _ ltac:(lia) eq_refl) as H2. vm_compute in H1, H2. congruence.
      * pose proof (Hk 1%nat _ ltac:(lia) eq_refl) as H2. vm_compute in H1, H2. congruence.
      * pose proof (Hk 2%nat _ ltac:(lia) eq_refl) as H2. vm_compute in H1, H2. congruence.
  - apply (proj2 label_change_never_locks st_cat (frame_of dog (99 # 100) 500)
             (mkPrediction dog (99 # 100)) (mkLastTop cat 0 (99 # 100))).
    + reflexivity.
    + split; eexists; reflexivity.
    + reflexivity.
    + reflexivity.
    + vm_compute. discriminate.
Defined.

Lemma no_lock_when_candidate_established_witness :
  let st := with_window 0 st_cat in
  let f := frame_of dog (99 # 100) 0 in
  since (mkLastTop dog 0 (99 # 100)) = now f /\
  locks (Eff.output (loop f st)) = [].
Proof.
  intros st f.
  apply (proj1 (no_lock_when_candidate_established st f)).
  - reflexivity.
  - vm_compute. discriminate.
Defined.

(** C3 as stated fails: after a failed inference no callback is pending,
    the next frame is not retried. *)
Lemma inference_failure_not_retried : ~ retried_after st_cat (frame_rejected 16).
Proof. unfold retried_after. vm_compute. intros H. now apply H. Qed.

Lemma inference_failure_halts_loop_witness :
  let r := tick (frame_rejected 16) st_cat in
  Eff.output r = [TopLeft PredictionFailed; ConsoleError "Predict error:"] /\
  isRunning (scanner (Eff.final r)) = true /\
  queue (Eff.final r) = [] /\
  Eff.output (run [frame_of cat (99 # 100) 33; frame_of cat (99 # 100) 50]
                  (Eff.final r)) = [].
Proof.
  intros r.
  refine (let H := inference_failure_halts_loop st_cat (frame_rejected 16)
                     1%positive CamLive eq_refl eq_refl eq_refl
                     (or_intror (ex_intro _ OtherError eq_refl)) in _).
  destruct H as (_ & Ho & _ & Hr & Hq & Hrun).
  split; [exact Ho | split; [exact Hr | split; [exact Hq | apply (Hrun _)]]].
Defined.

(** C4 as stated fails: on an empty prediction list the evaluation does
    not return, and the candidate is not reset. *)
Lemma empty_predictions_no_continue :
  ~ (Eff.value (loop (frame_empty 16) st_cat) = inl tt /\
     lastTop (scanner (Eff.final (loop (frame_empty 16) st_cat))) = None).
Proof. vm_compute. intros [H _]. discriminate H. Qed.

Lemma empty_predictions_raise_witness :
  loop (frame_empty 16) st_cat = Eff.mkResult (inr TypeError) st_cat [] /\
  Eff.output (tick (frame_empty 16) st_cat) = [UnhandledRejection TypeError].
Proof.
  refine (let H := empty_predictions_raise st_cat (frame_empty 16)
                     eq_refl (conj (ex_intro _ _ eq_refl) (ex_intro _ _ eq_refl))
                     eq_refl in _).
  split; [exact (proj1 H) | exact (proj1 (proj2 H 1%positive eq_refl))].
Defined.

End ScannerFacts.

(* ===================================================================== *)
(** ** Facts about [normalizeName] *)
(* ===================================================================== *)

Module NamesFacts.

Import JS Names.
Local Open Scope N_scope.

(** *** Code units *)

(** Settles every comparison of the goal that [lia] can settle. *)
Ltac settle_cmp :=
  repeat match goal with
         | |- context [?a <=? ?b] =>
             first [ rewrite (proj2 (N.leb_le a b)) by lia
                   | rewrite (proj2 (N.leb_gt a b)) by lia ]
         | |- context [?a =? ?b] =>
             first [ rewrite (proj2 (N.eqb_eq a b)) by lia
                   | rewrite (proj2 (N.eqb_neq a b)) by lia ]
         end.

Lemma is_space_letters c :
  (33 <= c <= 159) \/ (161 <= c <= 5759) -> is_space c = false.
Proof. intros H. unfold is_space. settle_cmp. reflexivity. Qed.

(** The three cases of [lower_unit]. *)
Lemma lower_unit_cases c :
  (65 <= c <= 90 /\ lower_unit c = c + 32) \/
  (192 <= c <= 222 /\ c <> 215 /\ lower_unit c = c + 32) \/
  (~ (65 <= c <= 90) /\ ~ (192 <= c <= 222 /\ c <> 215) /\ lower_unit c = c).
Proof.
  unfold lower_unit.
  destruct (N.leb_spec 65 c), (N.leb_spec c 90); simpl; try (left; lia).
  all: destruct (N.leb_spec 192 c), (N.leb_spec c 222), (N.eqb_spec c 215); simpl.
  all: try (right; left; lia).
  all: right; right; lia.
Qed.

Lemma lower_unit_space c : is_space (lower_unit c) = is_space c.
Proof.
  destruct (lower_unit_cases c) as [[H ->] | [(H & _ & ->) | (_ & _ & ->)]];
    [ | | reflexivity].
  all: rewrite !is_space_letters by lia; reflexivity.
Qed.

Lemma lower_unit_small c : ~ (65 <= c <= 90) -> ~ (192 <= c <= 222 /\ c <> 215) -> lower_unit c = c.
Proof.
  intros H1 H2.
  destruct (lower_unit_cases c) as [[H _] | [(H & H' & _) | (_ & _ & E)]];
    [tauto | tauto | exact E].
Qed.

Lemma lower_unit_idem c : lower_unit (lower_unit c) = lower_unit c.
Proof.
  destruct (lower_unit_cases c) as [[H ->] | [(H & _ & ->) | (H1 & H2 & ->)]].
  - apply lower_unit_small; lia.
  - apply lower_unit_small; lia.
  - now apply lower_unit_small.
Qed.

Lemma lower_unit_fixes_space c : is_space c = true -> lower_unit c = c.
Proof.
  intros Hs. apply lower_unit_small; intros H;
    rewrite is_space_letters in Hs by lia; discriminate.
Qed.

(** *** [trim] *)

Lemma trimStart_head s c s' : trimStart s = c :: s' -> is_space c = false.
Proof.
  induction s as [ | d s IH]; simpl; [discriminate | ].
  destruct (is_space d) eqn:E; [exact IH | ].
  intros [= <- _]. exact E.
Qed.

Lemma trimStart_snoc s c :
  is_space c = false -> trimStart (s ++ [c]) = trimStart s ++ [c].
Proof.
  intros Hc. induction s as [ | d s IH]; simpl; [now rewrite Hc | ].
  destruct (is_space d); [exact IH | reflexivity].
Qed.

Lemma trimStart_fixed s :
  (forall c s', s = c :: s' -> is_space c = false) -> trimStart s = s.
Proof.
  destruct s as [ | c s]; [reflexivity | intros H; simpl].
  now rewrite (H c s eq_refl).
Qed.

Lemma trimEnd_last s c s' : trimEnd s = s' ++ [c] -> is_space c = false.
Proof.
  unfold trimEnd. intros H.
  apply (f_equal (@rev N)) in H. rewrite rev_involutive, rev_app_distr in H.
  simpl in H. eapply trimStart_head, H.
Qed.

Lemma trimEnd_cons c s :
  is_space c = false -> trimEnd (c :: s) = c :: trimEnd s.
Proof.
  intros Hc. unfold trimEnd. simpl.
  rewrite (trimStart_snoc _ _ Hc), rev_app_distr. reflexivity.
Qed.

Lemma trimEnd_fixed s :
  (forall c s', s = s' ++ [c] -> is_space c = false) -> trimEnd s = s.
Proof.
  intros H. unfold trimEnd. rewrite trimStart_fixed; [apply rev_involutive | ].
  intros c s' E. apply (H c (rev s')).
  apply (f_equal (@rev N)) in E. rewrite rev_involutive in E. exact E.
Qed.

Lemma trim_trimmed s : trimmed (trim s).
Proof.
  unfold trim. split.
  - intros c s' E.
    destruct (trimStart s) as [ | d t] eqn:Et; [discriminate E | ].
    pose proof (trimStart_head _ _ _ Et) as Hd.
    rewrite (trimEnd_cons _ _ Hd) in E. now injection E as <- _.
  - intros c s' E. eapply trimEnd_last, E.
Qed.

Lemma trim_fixed s : trimmed s -> trim s = s.
Proof.
  intros [H1 H2]. unfold trim. rewrite (trimStart_fixed _ H1).
  now apply trimEnd_fixed.
Qed.

(** *** [toLowerCase] *)

Lemma toLowerCase_idem s : toLowerCase (toLowerCase s) = toLowerCase s.
Proof.
  unfold toLowerCase. rewrite map_map. apply map_ext, lower_unit_idem.
Qed.

Lemma toLowerCase_trimmed s : trimmed s -> trimmed (toLowerCase s).
Proof.
  intros [H1 H2]. unfold toLowerCase. split.
  - intros c s' E. destruct s as [ | d t]; [discriminate E | ].
    simpl in E. injection E as <- _. rewrite lower_unit_space. eapply H1; eauto.
  - intros c s' E.
    destruct (exists_last (l := s)) as (t & d & ->);
      [intros ->; now destruct s' | ].
    rewrite map_app in E. simpl in E.
    apply app_inj_tail in E as [_ <-].
    rewrite lower_unit_space. eapply H2; eauto.
Qed.

(** *** [replace(/\s+/g, ' ')] *)

Lemma replace_runs_idem s : forall b,
  replace_runs b (replace_runs b s) = replace_runs b s.
Proof.
  induction s as [ | c s IH]; intros b; simpl; [reflexivity | ].
  destruct (is_space c) eqn:E.
  - destruct b; [apply IH | ].
    simpl. now rewrite (IH true).
  - simpl. rewrite E. now rewrite (IH false).
Qed.

Lemma replace_runs_lower s : forall b,
  toLowerCase (replace_runs b s) = replace_runs b (toLowerCase s).
Proof.
  induction s as [ | c s IH]; intros b; simpl; [reflexivity | ].
  rewrite lower_unit_space.
  destruct (is_space c) eqn:E.
  - destruct b; [apply IH | ]. simpl. now rewrite (IH true).
  - simpl. now rewrite (IH false).
Qed.

Lemma replace_runs_snoc s c : forall b,
  is_space c = false -> replace_runs b (s ++ [c]) = replace_runs b s ++ [c].
Proof.
  induction s as [ | d s IH]; intros b Hc; simpl; [now rewrite Hc | ].
  destruct (is_space d); [destruct b | ]; simpl; now rewrite IH.
Qed.

Lemma collapse_trimmed s : trimmed s -> trimmed (collapse s).
Proof.
  intros [H1 H2]. unfold collapse. split.
  - intros c s' E. destruct s as [ | d t]; [discriminate E | ].
    simpl in E. rewrite (H1 d t eq_refl) in E. injection E as <- _.
    eapply H1; eauto.
  - intros c s' E.
    destruct (exists_last (l := s)) as (t & d & ->);
      [intros ->; now destruct s' | ].
    pose proof (H2 d t eq_refl) as Hd.
    rewrite (replace_runs_snoc _ _ _ Hd) in E.
    apply app_inj_tail in E as [_ <-]. exact Hd.
Qed.

(** After a run has begun the output does not start with white space;
    in any case its white space is single U+0020s. *)
Lemma replace_runs_single s : forall b,
  single_spaced (replace_runs b s) /\
  (b = true -> forall c s', replace_runs b s = c :: s' -> is_space c = false).
Proof.
  induction s as [ | c s IH]; intros b; simpl; [split; [exact I | discriminate] | ].
  destruct (is_space c) eqn:E.
  - destruct (IH true) as [Hs Hh]. destruct b.
    + split; [exact Hs | intros _; apply Hh; reflexivity].
    + split; [ | discriminate]. simpl. split; [ | exact Hs].
      intros _. split; [reflexivity | ].
      destruct (replace_runs true s) as [ | d t] eqn:Er; [exact I | ].
      eapply Hh; eauto.
  - destruct (IH false) as [Hs _]. split.
    + simpl. split; [ | exact Hs]. intros H. congruence.
    + intros _ d t [= <- _]. exact E.
Qed.

Lemma replace_runs_lowered s : forall b,
  (forall c, In c s -> lower_unit c = c) ->
  forall c, In c (replace_runs b s) -> lower_unit c = c.
Proof.
  induction s as [ | d s IH]; intros b H c; simpl; [tauto | ].
  assert (H' : forall c, In c s -> lower_unit c = c)
    by (intros; apply H; now right).
  destruct (is_space d); [destruct b | ]; simpl.
  - now apply IH.
  - intros [<- | Hc]; [reflexivity | now apply (IH true)].
  - intros [<- | Hc]; [apply H; now left | now apply (IH false)].
Qed.

(** *** Words *)

Lemma ends_well_tail c s : ends_well (c :: s) -> ends_well s.
Proof. intros H d s' E. apply (H d (c :: s')). now rewrite E. Qed.

Lemma ends_well_nonempty c : ends_well [c] -> is_space c = false.
Proof. intros H. now apply (H c []). Qed.

Lemma words_from_nonempty s : forall w,
  ends_well s -> w <> [] \/ s <> [] -> words_from w s <> [].
Proof.
  induction s as [ | c s IH]; intros w He Hne; simpl.
  - destruct w; [destruct Hne; congruence | discriminate].
  - destruct (is_space c) eqn:E.
    + assert (Hs : s <> []) by (intros ->; apply ends_well_nonempty in He; congruence).
      destruct w; [ | discriminate].
      apply IH; [eapply ends_well_tail, He | now right].
    + apply IH; [eapply ends_well_tail, He | left; discriminate].
Qed.

Lemma join_space_cons w ws :
  ws <> [] -> join_space (w :: ws) = w ++ 32 :: join_space ws.
Proof. destruct ws; [congruence | reflexivity]. Qed.

(** On a string that ends well, joining the words gives what the
    replacement of white-space runs gives. *)
Lemma join_words_from s : forall w,
  ends_well s ->
  join_space (words_from w s) =
    match w with
    | [] => replace_runs true s
    | _ => rev w ++ replace_runs false s
    end.
Proof.
  induction s as [ | c s IH]; intros w He.
  - destruct w; simpl; [reflexivity | now rewrite app_nil_r].
  - pose proof (ends_well_tail _ _ He) as He'. simpl.
    destruct (is_space c) eqn:E.
    + assert (Hs : s <> []) by (intros ->; apply ends_well_nonempty in He; congruence).
      destruct w as [ | d w].
      * now rewrite (IH [] He').
      * rewrite join_space_cons by (apply words_from_nonempty; auto).
        now rewrite (IH [] He').
    + rewrite (IH (c :: w) He'). simpl.
      destruct w; simpl; [reflexivity | now rewrite <- !app_assoc].
Qed.

Lemma replace_runs_head s :
  (forall c s', s = c :: s' -> is_space c = false) ->
  replace_runs true s = replace_runs false s.
Proof.
  destruct s as [ | c s]; [reflexivity | intros H; simpl].
  now rewrite (H c s eq_refl).
Qed.

Lemma collapse_words s : trimmed s -> collapse s = join_space (words s).
Proof.
  intros [H1 H2]. unfold words, collapse.
  rewrite (join_words_from s [] H2). symmetry. now apply replace_runs_head.
Qed.

Lemma words_from_lower s : forall w,
  words_from (toLowerCase w) (toLowerCase s) = map toLowerCase (words_from w s).
Proof.
  assert (Hrev : forall w, rev (toLowerCase w) = toLowerCase (rev w))
    by (intros w; unfold toLowerCase; now rewrite map_rev).
  induction s as [ | c s IH]; intros w; simpl.
  - destruct w; simpl; [reflexivity | ].
    f_equal. apply (Hrev (n :: w)).
  - rewrite lower_unit_space. destruct (is_space c).
    + destruct w as [ | d w]; simpl; [apply (IH []) | ].
      f_equal; [apply (Hrev (d :: w)) | apply (IH [])].
    + apply (IH (c :: w)).
Qed.

Lemma words_from_trimStart s : words_from [] (trimStart s) = words_from [] s.
Proof.
  induction s as [ | c s IH]; simpl; [reflexivity | ].
  destruct (is_space c) eqn:E; [exact IH | simpl; now rewrite E].
Qed.

Lemma words_from_snoc_space s c : forall w,
  is_space c = true -> words_from w (s ++ [c]) = words_from w s.
Proof.
  induction s as [ | d s IH]; intros w Hc; simpl.
  - rewrite Hc. now destruct w.
  - destruct (is_space d); [destruct w | ]; now rewrite IH.
Qed.

Lemma words_trimEnd s : words (trimEnd s) = words s.
Proof.
  unfold words, trimEnd. rewrite <- (rev_involutive s) at 2.
  induction (rev s) as [ | c t IH]; simpl; [reflexivity | ].
  destruct (is_space c) eqn:E; [ | reflexivity].
  now rewrite IH, words_from_snoc_space.
Qed.

Lemma words_trim s : words (trim s) = words s.
Proof. unfold trim. rewrite words_trimEnd. apply words_from_trimStart. Qed.

(** [normalizeName] is the word-by-word reading: the words of the label
    in lower case with one U+0020 between them. *)
Lemma normalizeName_words s : normalizeName (Some s) = spec_normalize s.
Proof.
  unfold normalizeName, spec_normalize.
  rewrite collapse_words by apply toLowerCase_trimmed, trim_trimmed.
  pose proof (words_from_lower (trim s) []) as H. simpl in H.
  unfold words at 1. rewrite H. fold (words (trim s)). now rewrite words_trim.
Qed.

(** *** [normalizeName] *)

Lemma normalizeName_trimmed x : trimmed (normalizeName x).
Proof.
  unfold normalizeName. apply collapse_trimmed, toLowerCase_trimmed, trim_trimmed.
Qed.

(** With the case table: [normalizeName] is idempotent, and its result is
    trimmed (no
    white space at either end), has single U+0020s as its only white
    space, and is in lower case (every code unit is its own lower case);
    it consists of the words of the label, in lower case, with one U+0020
    between them: the ends are trimmed and the inner runs of white space
    collapsed. *)
Lemma normalizeName_table_idempotent :
  forall x : option jsstring,
    normalizeName (Some (normalizeName x)) = normalizeName x /\
    trimmed (normalizeName x) /\
    single_spaced (normalizeName x) /\
    (forall c, In c (normalizeName x) -> lower_unit c = c) /\
    normalizeName x =
      spec_normalize (match x with Some s => s | None => [] end).
Proof.
  intros x. split; [ | split; [ | split; [ | split]]].
  - unfold normalizeName at 1.
    rewrite (trim_fixed _ (normalizeName_trimmed x)).
    unfold normalizeName, collapse.
    rewrite replace_runs_lower, toLowerCase_idem.
    apply replace_runs_idem.
  - apply normalizeName_trimmed.
  - unfold normalizeName, collapse. apply replace_runs_single.
  - unfold normalizeName, collapse. apply replace_runs_lowered.
    intros c Hc. unfold toLowerCase in Hc. apply in_map_iff in Hc as (d & <- & _).
    apply lower_unit_idem.
  - destruct x as [s | ]; [apply normalizeName_words | reflexivity].
Qed.

(** Scenario C of the specification and two more samples. *)
Example normalizeName_samples :
  normalizeName (Some (str "Alice ")) = str "alice" /\
  normalizeName (Some (str "  Mary   Ann	 LEE ")) = str "mary ann lee" /\
  normalizeName None = [].
Proof. vm_compute. repeat split. Qed.

(** *** White space, code point by code point *)

Lemma is_white_spec c : is_white c = true <-> white c.
Proof.
  unfold is_white, white. rewrite existsb_exists. split.
  - intros (x & Hx & E). apply N.eqb_eq in E. now subst.
  - intros H. exists c. split; [exact H | apply N.eqb_refl].
Qed.

Lemma is_space_white c : is_space c = true <-> white c.
Proof.
  unfold is_space, white, white_space.
  rewrite !orb_true_iff, !andb_true_iff, !N.leb_le, !N.eqb_eq.
  cbn [In]. lia.
Qed.

Lemma is_space_is_white c : is_space c = is_white c.
Proof.
  destruct (is_space c) eqn:E1, (is_white c) eqn:E2; try reflexivity.
  - apply is_space_white, is_white_spec in E1. congruence.
  - apply is_white_spec, is_space_white in E2. congruence.
Qed.

Lemma not_white c : ~ white c <-> is_space c = false.
Proof.
  rewrite <- is_space_white. destruct (is_space c); split; congruence.
Qed.

Lemma bare_ends_trimmed s : bare_ends s <-> trimmed s.
Proof.
  unfold bare_ends, trimmed. split; intros [H1 H2]; split; intros c s' E.
  - apply not_white. eapply H1, E.
  - apply not_white. eapply H2, E.
  - apply not_white. eapply H1, E.
  - apply not_white. eapply H2, E.
Qed.

Lemma pieces_from_words s : forall w, pieces_from w s = words_from w s.
Proof.
  induction s as [ | c s IH]; intros w; simpl; [reflexivity | ].
  rewrite <- is_space_is_white.
  destruct (is_space c); [destruct w | ]; now rewrite ?IH.
Qed.

Lemma pieces_words s : pieces s = words s.
Proof. apply pieces_from_words. Qed.

(** *** Single spaces *)

Lemma single_spaced_at a : forall c b,
  single_spaced (a ++ c :: b) -> is_space c = true ->
  c = 32 /\ match b with d :: _ => is_space d = false | [] => True end.
Proof.
  induction a as [ | x a IH]; intros c b H Hc.
  - destruct H as [H _]. now apply H.
  - destruct H as [_ H]. now apply IH.
Qed.

Lemma single_spaced_lone s : trimmed s -> single_spaced s -> lone_spaces s.
Proof.
  intros [Hfirst Hlast] Hs a c b E Hw.
  apply is_space_white in Hw. subst s.
  destruct (single_spaced_at a c b Hs Hw) as [Hc Hnext].
  split; [exact Hc | split].
  - destruct a as [ | x0 a0] eqn:Ea.
    + rewrite (Hfirst c b eq_refl) in Hw. discriminate.
    + rewrite <- Ea in *.
      destruct (exists_last (l := a)) as (a' & x & Ex); [congruence | ].
      exists a', x. split; [exact Ex | ].
      apply not_white. rewrite Ex in Hs. rewrite <- app_assoc in Hs.
      destruct (is_space x) eqn:Hx; [ | reflexivity].
      destruct (single_spaced_at a' x (c :: b) Hs Hx) as [_ K]. congruence.
  - destruct b as [ | y b'].
    + rewrite (Hlast c a eq_refl) in Hw. discriminate.
    + exists y, b'. split; [reflexivity | apply not_white, Hnext].
Qed.

Lemma in_replace_runs s : forall b c,
  In c (replace_runs b s) -> In c s \/ c = 32.
Proof.
  induction s as [ | d s IH]; intros b c; simpl; [tauto | ].
  destruct (is_space d); [destruct b | ]; simpl.
  - intros H. destruct (IH _ _ H); auto.
  - intros [<- | H]; [now right | ]. destruct (IH _ _ H); auto.
  - intros [<- | H]; [now left; left | ]. destruct (IH _ _ H); auto.
Qed.

(** *** What [trim] takes away *)

Lemma trimStart_split s :
  exists a, s = a ++ trimStart s /\ Forall white a.
Proof.
  induction s as [ | c s (a & E & Ha)]; [exists []; split; [reflexivity | constructor] | ].
  simpl. destruct (is_space c) eqn:Hc.
  - exists (c :: a). split; [simpl; now rewrite <- E | ].
    constructor; [now apply is_space_white | exact Ha].
  - exists []. split; [reflexivity | constructor].
Qed.

Lemma trim_split s :
  exists a b, s = a ++ trim s ++ b /\ Forall white a /\ Forall white b.
Proof.
  destruct (trimStart_split s) as (a & Ea & Ha).
  destruct (trimStart_split (rev (trimStart s))) as (b & Eb & Hb).
  exists a, (rev b). split; [ | split; [exact Ha | ]].
  - unfold trim, trimEnd. rewrite <- rev_app_distr, <- Eb, rev_involutive.
    exact Ea.
  - apply Forall_forall. intros c Hc. apply in_rev in Hc.
    rewrite Forall_forall in Hb. now apply Hb.
Qed.

(** *** A map on code units that keeps white space *)

Lemma words_from_map (g : N -> N) s :
  (forall c, is_space (g c) = is_space c) ->
  forall w, words_from (map g w) (map g s) = map (map g) (words_from w s).
Proof.
  intros Hg. induction s as [ | c s IH]; intros w; simpl.
  - destruct w; simpl; [reflexivity | ].
    f_equal. rewrite map_app, map_rev. reflexivity.
  - rewrite Hg. destruct (is_space c).
    + destruct w as [ | d w]; simpl; [apply (IH []) | ].
      f_equal; [rewrite map_app, map_rev; reflexivity | apply (IH [])].
    + apply (IH (c :: w)).
Qed.

Lemma ascii_lower_space c : is_space (ascii_lower c) = is_space c.
Proof.
  unfold ascii_lower.
  destruct (N.leb_spec 65 c), (N.leb_spec c 90); simpl; try reflexivity.
  rewrite !is_space_letters by lia. reflexivity.
Qed.

(** *** The case table is a case conversion *)

Lemma lower_unit_basic c : c < 128 -> lower_unit c = ascii_lower c.
Proof.
  intros H. unfold lower_unit, ascii_lower.
  destruct (N.leb_spec 65 c), (N.leb_spec c 90); simpl; try reflexivity.
  all: settle_cmp; reflexivity.
Qed.

Lemma lower_unit_not_capital c : ~ capital (lower_unit c).
Proof.
  unfold capital.
  destruct (lower_unit_cases c) as [[H ->] | [(H & _ & ->) | (H1 & _ & ->)]]; lia.
Qed.

Lemma table_conversion : case_conversion toLowerCase.
Proof.
  constructor.
  - intros s H. apply bare_ends_trimmed, toLowerCase_trimmed, bare_ends_trimmed, H.
  - apply toLowerCase_idem.
  - intros s H. unfold collapse. rewrite replace_runs_lower, H. reflexivity.
  - intros s c Hc. unfold toLowerCase in Hc. apply in_map_iff in Hc.
    destruct Hc as (d & <- & _). apply lower_unit_not_capital.
  - intros s H. unfold toLowerCase. apply map_ext_in.
    intros c Hc. apply lower_unit_basic, H, Hc.
Qed.

Lemma normalizeName_table x : normalizeName x = normalizeWith toLowerCase x.
Proof. reflexivity. Qed.

(** *** [normalizeName] *)

(** C9. [normalizeName] trims, lowercases and collapses, and is
    idempotent, for every label and for every case conversion of the
    engine (the script leaves it to [toLowerCase]; what is asked of it is
    [case_conversion]). The result is a fixed point of the function; it
    has no white space at either end; its only white space are single
    U+0020s between two other code units; it is in lower case: converting
    it changes nothing, and it has no capital A-Z. The label is some white
    space, a middle part without white space at its ends, and some white
    space, and the result consists of the pieces of the middle part in
    lower case, one U+0020 between them. For a label of Basic Latin the
    result is made of the pieces of the label with A-Z turned into a-z. *)
Theorem normalizeName_trims_lowers_collapses :
  forall lower : jsstring -> jsstring,
    case_conversion lower ->
    forall x : option jsstring,
      let s := match x with Some s => s | None => [] end in
      let n := normalizeWith lower x in
      normalizeWith lower (Some n) = n /\
      bare_ends n /\
      lone_spaces n /\
      lower n = n /\
      (forall c, In c n -> ~ capital c) /\
      (exists a t b,
         s = a ++ t ++ b /\ Forall white a /\ Forall white b /\
         bare_ends t /\ n = join_space (pieces (lower t))) /\
      (basic_latin s -> n = join_space (map (map ascii_lower) (pieces s))).
Proof.
  intros lower [Hends Htwice Hruns Hcap Hbasic] x s n.
  assert (Ht : trimmed (lower (trim s))).
  { apply bare_ends_trimmed, Hends, bare_ends_trimmed, trim_trimmed. }
  assert (Hn : trimmed n).
  { unfold n, normalizeWith. fold s. apply collapse_trimmed, Ht. }
  assert (Hfix : lower n = n).
  { unfold n, normalizeWith. fold s. apply Hruns, Htwice. }
  assert (Hwords : n = join_space (pieces (lower (trim s)))).
  { unfold n, normalizeWith. fold s. rewrite pieces_words.
    apply collapse_words, Ht. }
  split; [ | split; [ | split; [ | split; [ | split; [ | split]]]]].
  - unfold normalizeWith at 1. rewrite (trim_fixed _ Hn), Hfix.
    unfold n, normalizeWith, collapse. apply replace_runs_idem.
  - apply bare_ends_trimmed, Hn.
  - apply single_spaced_lone; [exact Hn | ].
    unfold n, normalizeWith, collapse. apply replace_runs_single.
  - exact Hfix.
  - intros c Hc. unfold n, normalizeWith, collapse in Hc.
    apply in_replace_runs in Hc. destruct Hc as [Hc | ->].
    + eapply Hcap, Hc.
    + unfold capital. lia.
  - destruct (trim_split s) as (a & b & E & Ha & Hb).
    exists a, (trim s), b.
    split; [exact E | split; [exact Ha | split; [exact Hb | split]]].
    + apply bare_ends_trimmed, trim_trimmed.
    + exact Hwords.
  - intros Hs. rewrite Hwords.
    assert (Hb : basic_latin (trim s)).
    { destruct (trim_split s) as (a & b & E & _). intros c Hc. apply Hs.
      rewrite E. apply in_or_app. right. apply in_or_app. now left. }
    rewrite (Hbasic _ Hb), !pieces_words. unfold words at 1.
    change (words_from [] (map ascii_lower (trim s)))
      with (words_from (map ascii_lower []) (map ascii_lower (trim s))).
    rewrite (words_from_map ascii_lower (trim s) ascii_lower_space []).
    fold (words (trim s)). now rewrite words_trim.
Qed.

(** Scenario C of the specification and another label, with the case
    table. *)
Lemma normalizeName_trims_lowers_collapses_witness :
  normalizeName (Some (str "Alice ")) = str "alice" /\
  normalizeName (Some (str "  Mary   Ann	 LEE ")) = str "mary ann lee" /\
  normalizeName (Some (normalizeName (Some (str "  Mary   Ann	 LEE ")))) =
    normalizeName (Some (str "  Mary   Ann	 LEE ")).
Proof.
  assert (Hb : forall s, forallb (fun c => c <? 128) s = true -> basic_latin s).
  { intros s H c Hc. rewrite forallb_forall in H. apply N.ltb_lt, H, Hc. }
  destruct (normalizeName_trims_lowers_collapses toLowerCase table_conversion
              (Some (str "Alice "))) as (_ & _ & _ & _ & _ & _ & A).
  destruct (normalizeName_trims_lowers_collapses toLowerCase table_conversion
              (Some (str "  Mary   Ann	 LEE "))) as (M1 & _ & _ & _ & _ & _ & M).
  split; [ | split].
  - rewrite normalizeName_table, A; [reflexivity | ].
    apply Hb. reflexivity.
  - rewrite normalizeName_table, M; [reflexivity | ].
    apply Hb. reflexivity.
  - rewrite !normalizeName_table. exact M1.
Defined.

End NamesFacts.

(* ===================================================================== *)
(** ** Facts about the demo flow *)
(* ===================================================================== *)

Module DemoFacts.

Import JS JSFacts Scanner Names Demo EffFacts ScannerFacts.
Local Open Scope eff_scope.

(** *** Rules for the operations of the page *)

Lemma keeps_call r (m : Scanner.M unit) (I : App -> Prop) :
  (forall a st', slot r a <> None -> I a -> I (set_slot r (Some st') a)) ->
  Eff.keeps I (call r m).
Proof.
  intros H a Ha. unfold call.
  destruct (slot r a) as [st | ] eqn:Hs; [ | exact Ha].
  destruct (m st) as [[[] | e] st' out]; apply H; congruence.
Qed.

Lemma keeps_each {A} (k : A -> AppM unit) (I : App -> Prop) l :
  (forall x, Eff.keeps I (k x)) -> Eff.keeps I (each k l).
Proof.
  intros H. induction l as [ | x l IH]; simpl.
  - apply keeps_ret.
  - apply keeps_bind; [apply H | intros _; exact IH].
Qed.

Lemma safe_keeps {A} (I : App -> Prop) (m : AppM A) : safe I m -> Eff.keeps I m.
Proof.
  intros H. eapply triple_weaken; [exact H | auto | auto | intros s []].
Qed.

Lemma safe_then {A B} (m : AppM A) (k : A -> AppM B) I Q X :
  safe I m -> (forall x, Eff.triple I (k x) Q X) -> Eff.triple I (Eff.bind m k) Q X.
Proof.
  intros Hm Hk. eapply triple_bind; [ | exact Hk].
  eapply triple_weaken; [exact Hm | auto | auto | intros s []].
Qed.

Lemma safe_bind {A B} (m : AppM A) (k : A -> AppM B) I :
  safe I m -> (forall x, safe I (k x)) -> safe I (Eff.bind m k).
Proof. intros Hm Hk. now apply safe_then. Qed.

Lemma safe_ret {A} (x : A) I : safe I (Eff.ret x).
Proof. now apply triple_ret. Qed.

Lemma safe_emit ev I : safe I (Eff.emit ev).
Proof. now apply triple_emit. Qed.

Lemma safe_modify f (I : App -> Prop) :
  (forall a, I a -> I (f a)) -> safe I (Eff.modify f).
Proof. intros H. now apply triple_modify. Qed.

Lemma safe_get I : safe I (Eff.get (S := App) (E := Out)).
Proof. intros a Ha. exact Ha. Qed.

Lemma safe_each {A} (k : A -> AppM unit) (I : App -> Prop) l :
  (forall x, safe I (k x)) -> safe I (each k l).
Proof.
  intros H. induction l as [ | x l IH]; simpl.
  - apply safe_ret.
  - apply safe_bind; [apply H | intros _; exact IH].
Qed.

Lemma stop_value st : Eff.value (stop st) = inl tt.
Proof. apply stop_returns. Qed.

(** Takes a handler apart with the rules for [keeps], reading off the
    shape of the computation. What remains are the steps that touch what
    the invariant is about, and the calls of other handlers. *)
Ltac keeps_steps :=
  repeat match goal with
    | |- Eff.keeps _ (Eff.ret _) => apply keeps_ret
    | |- Eff.keeps _ (Eff.emit _) => apply keeps_emit
    | |- Eff.keeps _ Eff.get => apply keeps_get
    | |- Eff.keeps _ (Eff.throw _) => apply keeps_throw
    | |- Eff.keeps _ (Eff.bind _ _) => apply keeps_bind; [ | intros ? ]
    | |- Eff.keeps _ (Eff.try_catch _ _) => apply keeps_try; [ | intros ? ]
    | |- Eff.keeps _ (each _ _) => apply keeps_each; intros ?
    | |- Eff.keeps _ (match ?x with _ => _ end) => destruct x
    end.

Ltac safe_steps :=
  repeat match goal with
    | |- safe _ (Eff.ret _) => apply safe_ret
    | |- safe _ (Eff.emit _) => apply safe_emit
    | |- safe _ Eff.get => apply safe_get
    | |- safe _ (Eff.bind _ _) => apply safe_bind; [ | intros ? ]
    | |- safe _ (each _ _) => apply safe_each; intros ?
    | |- safe _ (match ?x with _ => _ end) => destruct x eqn:?
    end.

(** *** The Verified view *)

Lemma not_verified_slot r v a : not_verified a -> not_verified (set_slot r v a).
Proof. destruct r; exact (fun H => H). Qed.

Ltac view_steps :=
  keeps_steps;
  try match goal with
    | |- Eff.keeps _ (call _ _) =>
        apply keeps_call; intros; now apply not_verified_slot
    | |- Eff.keeps _ (Eff.modify _) =>
        apply keeps_modify; intros s Hs; first [exact Hs | discriminate]
    end.

Lemma stop_if_set_view r : Eff.keeps not_verified (stop_if_set r).
Proof. unfold stop_if_set. view_steps. Qed.

Lemma safeStop_view r : Eff.keeps not_verified (safeStop r).
Proof. unfold safeStop. view_steps. Qed.

Lemma start_scanner_view r env onLock :
  (forall i, Eff.keeps not_verified (onLock i)) ->
  Eff.keeps not_verified (start_scanner r env onLock).
Proof. intros H. unfold start_scanner. view_steps. apply H. Qed.

Lemma onLock_view r idEnv info : Eff.keeps not_verified (onLock r idEnv info).
Proof.
  destruct r; unfold onLock, onLockDemoFace, onLockDemoId, onLockSoloFace, onLockSoloId.
  all: view_steps.
  - apply stop_if_set_view.
  - apply start_scanner_view. intros i. unfold onLockDemoId. view_steps.
Qed.

Lemma mismatch_branch_view env :
  Eff.keeps not_verified
    (Eff.emit AlertMismatch ;;
     Eff.modify (set_lockedId None) ;;
     Eff.modify (set_demoIdAgain DisplayNone) ;;
     Eff.emit (SetStepState BadgeVerify Pending) ;;
     Eff.emit (SetStepState BadgeId Active) ;;
     start_scanner DemoId env onLockDemoId).
Proof.
  view_steps. apply start_scanner_view. intros i. apply (onLock_view DemoId env i).
Qed.

(** Every handler but the one of the Verify button keeps the page off
    the Verified view. *)
Lemma handle_view i :
  (forall env, i <> ClickVerify env) -> Eff.keeps not_verified (handle i).
Proof.
  intros Hi.
  destruct i; unfold handle, wired, startDemoFlow, startSoloFace, startSoloId,
    demoFaceScanAgain, demoIdScanAgain, demoBack, soloFaceScanAgain,
    soloIdScanAgain, soloBack.
  all: try (exfalso; eapply Hi; reflexivity).
  all: view_steps.
  all: try apply stop_if_set_view.
  all: try apply safeStop_view.
  all: try (apply start_scanner_view; intros;
            first [ apply (onLock_view DemoFace)
                  | apply (onLock_view DemoId env)
                  | apply (onLock_view SoloFace env)
                  | apply (onLock_view SoloId env) ]).
  apply onLock_view.
Qed.

(** *** Running a handler step by step *)

Lemma bind_get {A} (k : App -> AppM A) a : Eff.bind Eff.get k a = k a a.
Proof. unfold Eff.bind, Eff.get. destruct (k a a); reflexivity. Qed.

Lemma bind_modify {A} f (k : unit -> AppM A) a :
  Eff.bind (Eff.modify f) k a = k tt (f a).
Proof. unfold Eff.bind, Eff.modify. destruct (k tt (f a)); reflexivity. Qed.

Lemma bind_emit {A} ev (k : unit -> AppM A) a :
  Eff.bind (Eff.emit ev) k a =
  Eff.mkResult (Eff.value (k tt a)) (Eff.final (k tt a)) (ev :: Eff.output (k tt a)).
Proof. unfold Eff.bind, Eff.emit. destruct (k tt a); reflexivity. Qed.

Lemma spawn_result (m : Scanner.M unit) st :
  Eff.value (spawn m st) = inl tt /\
  Eff.final (spawn m st) = Eff.final (m st) /\
  locks (Eff.output (spawn m st)) = locks (Eff.output (m st)).
Proof.
  unfold spawn, Eff.try_catch, Eff.emit.
  destruct (m st) as [[[] | e] s1 o1]; simpl; repeat split; auto.
  rewrite locks_app. simpl. apply app_nil_r.
Qed.

(** Starting a scanner that is there: [start] runs on it, no callback is
    called, nothing is thrown. *)
Lemma start_scanner_set r env onLock a st :
  slot r a = Some st ->
  Eff.value (start_scanner r env onLock a) = inl tt /\
  Eff.final (start_scanner r env onLock a) =
    set_slot r (Some (Eff.final (start env st))) a /\
  Eff.output (start_scanner r env onLock a) =
    map (OfScanner r) (Eff.output (spawn (start env) st)).
Proof.
  intros Hs. unfold start_scanner, Eff.bind, call. rewrite Hs.
  destruct (spawn_result (start env) st) as (Hv & Hf & Hl).
  rewrite start_never_locks in Hl.
  destruct (spawn (start env) st) as [v st' out]. simpl in *. subst v st'.
  rewrite Hl. simpl. rewrite app_nil_r. auto.
Qed.

(** *** The Verified view is entered by Verify only *)

(** C2. The page enters the Verified view only through the handler of
    the Verify button, run while a face lock and an ID lock are stored whose
    normalized labels are equal and not empty. No other click and no
    animation frame gets there. *)
Theorem verified_only_by_verify :
  forall (a : App) (i : Input),
    view a <> ViewVerified ->
    view (react a i) = ViewVerified ->
    exists env face id,
      i = ClickVerify env /\
      demoWired a = true /\
      lockedFace a = Some face /\
      lockedId a = Some id /\
      normalizeName (Some (info_className face)) =
        normalizeName (Some (info_className id)) /\
      normalizeName (Some (info_className face)) <> [].
Proof.
  intros a i Hnv Hv.
  assert (Hcase : (exists env, i = ClickVerify env) \/ forall env, i <> ClickVerify env)
    by (destruct i; eauto; right; discriminate).
  destruct Hcase as [[env ->] | Hi].
  2:{ exfalso. apply (keeps_final (handle i) not_verified a (handle_view i Hi) Hnv).
      exact Hv. }
  unfold react, handle, wired in Hv. rewrite bind_get in Hv.
  destruct (demoWired a) eqn:Hw; [ | contradiction].
  unfold checkVerify in Hv. rewrite bind_get in Hv.
  destruct (lockedFace a) as [face | ] eqn:Hf; [ | contradiction].
  destruct (lockedId a) as [id | ] eqn:Hd; [ | contradiction].
  destruct (names_match (normalizeName (Some (info_className face)))
                        (normalizeName (Some (info_className id)))) eqn:Hm.
  - exists env, face, id. repeat split; auto.
    + unfold names_match in Hm. apply andb_true_iff in Hm as [_ Hm].
      now apply strict_eq_true.
    + unfold names_match in Hm. apply andb_true_iff in Hm as [Hm _].
      apply andb_true_iff in Hm as [Hm _].
      intros E. rewrite E in Hm. discriminate.
  - exfalso.
    apply (keeps_final _ not_verified a (mismatch_branch_view env) Hnv). exact Hv.
Qed.

Lemma verified_only_by_verify_witness :
  exists env face id,
    ClickVerify env_cat = ClickVerify env /\
    demoWired (after (firstn 3 second_visit)) = true /\
    lockedFace (after (firstn 3 second_visit)) = Some face /\
    lockedId (after (firstn 3 second_visit)) = Some id /\
    normalizeName (Some (info_className face)) =
      normalizeName (Some (info_className id)) /\
    normalizeName (Some (info_className face)) <> [].
Proof.
  apply (verified_only_by_verify (after (firstn 3 second_visit)) (ClickVerify env_cat)).
  - vm_compute. discriminate.
  - vm_compute. reflexivity.
Defined.

(** *** The variables of the demo flow stay linked *)

Lemma plain_linked : plain linked.
Proof.
  constructor; intros; destruct a; unfold linked in *; simpl in *;
    try destruct r; simpl in *; intuition (try congruence; try discriminate).
Qed.

Lemma plain_wired_up : plain wired_up.
Proof.
  constructor; intros; destruct a; unfold wired_up, linked in *; simpl in *;
    try destruct r; simpl in *; intuition (try congruence; try discriminate).
Qed.

(** Settles a step that assigns one of the fields a plain invariant
    allows for. *)
Ltac plain_side H :=
  intros;
  match goal with
  | |- context [set_lockedFace ?v ?a] => apply (p_face H a v)
  | |- context [set_lockedId None ?a] => apply (p_id_none H a)
  | |- context [set_lockedId (Some ?v) ?a] => apply (p_id_some H a v)
  | |- context [set_demoIdScanner (Some ?st) ?a] => apply (p_new_id H a st)
  | |- context [set_view ?v ?a] => apply (p_view H a v)
  | |- context [set_demoFaceAgain ?v ?a] => apply (p_demoFaceAgain H a v)
  | |- context [set_demoIdAgain ?v ?a] => apply (p_demoIdAgain H a v)
  | |- context [set_soloFaceAgain ?v ?a] => apply (p_soloFaceAgain H a v)
  | |- context [set_soloIdAgain ?v ?a] => apply (p_soloIdAgain H a v)
  | |- context [set_soloFaceScanner (Some ?st) ?a] => apply (p_soloFaceScanner H a st)
  | |- context [set_soloIdScanner (Some ?st) ?a] => apply (p_soloIdScanner H a st)
  | |- context [set_soloFaceWired ?v ?a] => apply (p_soloFaceWired H a v)
  | |- context [set_soloIdWired ?v ?a] => apply (p_soloIdWired H a v)
  | |- context [set_demoWired true ?a] => apply (p_demoWired H a)
  | |- context [set_slot ?r (Some ?st) ?a] => apply (p_slot H a r st)
  end;
  first [ assumption | tauto ].

Lemma plain_with_slot I r :
  plain I -> plain (fun a => I a /\ slot r a <> None).
Proof.
  intros H. constructor.
  all: intros;
    match goal with Hc : _ /\ _ |- _ => destruct Hc as [Ha Hs] end;
    (split; [plain_side H | ]).
  all: try (destruct r; simpl in *; first [assumption | discriminate]).
  destruct r, r0; simpl in *; first [assumption | discriminate].
Qed.

Lemma stop_if_set_safe I r : plain I -> safe I (stop_if_set r).
Proof.
  intros H a Ha. unfold stop_if_set. rewrite bind_get.
  destruct (slot r a) as [st | ] eqn:Hs; [ | exact Ha].
  unfold Eff.bind, call. rewrite Hs.
  pose proof (stop_value st) as Hv. destruct (stop st) as [[[] | e] st' out];
    simpl in *; [ | discriminate].
  apply (p_slot H); [congruence | exact Ha].
Qed.

Lemma safeStop_safe I r : plain I -> safe I (safeStop r).
Proof.
  intros H a Ha. unfold safeStop. rewrite bind_get.
  destruct (slot r a) as [st | ] eqn:Hs; [ | exact Ha].
  unfold Eff.try_catch, Eff.bind, call. rewrite Hs.
  pose proof (stop_value st) as Hv. destruct (stop st) as [[[] | e] st' out];
    simpl in *; [ | discriminate].
  apply (p_slot H); [congruence | exact Ha].
Qed.

Lemma start_scanner_keeps I r env onLock :
  plain I -> Eff.keeps I (start_scanner r env onLock).
Proof.
  intros H a Ha.
  destruct (slot r a) as [st | ] eqn:Hs.
  - destruct (start_scanner_set r env onLock a st Hs) as (Hv & Hf & _).
    destruct (start_scanner r env onLock a) as [[[] | e] a' out]; simpl in *;
      [ | discriminate].
    subst a'. apply (p_slot H); [congruence | exact Ha].
  - unfold start_scanner, Eff.bind, call. rewrite Hs. exact Ha.
Qed.

Lemma start_scanner_safe I r env onLock :
  plain I -> safe (fun a => I a /\ slot r a <> None) (start_scanner r env onLock).
Proof.
  intros H a [Ha Hs].
  destruct (slot r a) as [st | ] eqn:Es; [ | congruence].
  destruct (start_scanner_set r env onLock a st Es) as (Hv & Hf & _).
  destruct (start_scanner r env onLock a) as [[[] | e] a' out]; simpl in *;
    [ | discriminate].
  subst a'. split.
  - apply (p_slot H); [congruence | exact Ha].
  - destruct r; discriminate.
Qed.

Lemma onLockDemoId_safe I info :
  plain I -> safe (fun a => I a /\ demoIdScanner a <> None) (onLockDemoId info).
Proof.
  intros H. pose proof (plain_with_slot I DemoId H) as H'. simpl in H'.
  unfold onLockDemoId. safe_steps.
  all: apply safe_modify; plain_side H'.
Qed.

Lemma onLockDemoFace_safe I idEnv info :
  plain I ->
  safe (fun a => I a /\ demoFaceScanner a <> None) (onLockDemoFace idEnv info).
Proof.
  intros H. pose proof (plain_with_slot I DemoFace H) as HF. simpl in HF.
  pose proof (plain_with_slot _ DemoId HF) as HFD. simpl in HFD.
  unfold onLockDemoFace.
  apply safe_bind; [apply safe_modify; plain_side HF | intros _].
  apply safe_bind; [apply safe_emit | intros _].
  apply safe_bind; [apply safe_modify; plain_side HF | intros _].
  apply safe_bind; [apply safe_emit | intros _].
  apply safe_bind; [apply safe_emit | intros _].
  apply safe_bind; [apply safe_emit | intros _].
  apply safe_bind; [apply stop_if_set_safe, HF | intros _].
  eapply triple_bind with
    (R := fun _ a => (I a /\ demoFaceScanner a <> None) /\ demoIdScanner a <> None).
  - apply triple_modify. intros a Ha. split; [plain_side HF | discriminate].
  - intros _. eapply triple_weaken;
      [apply (start_scanner_safe _ DemoId idEnv onLockDemoId HF) | | | ]; simpl; tauto.
Qed.

Lemma onLock_keeps r idEnv info :
  Eff.keeps (fun a => wired_up a /\ slot r a <> None) (onLock r idEnv info).
Proof.
  pose proof (plain_with_slot _ r plain_wired_up) as H.
  destruct r; simpl in *.
  - apply safe_keeps, onLockDemoFace_safe, plain_wired_up.
  - apply safe_keeps, onLockDemoId_safe, plain_wired_up.
  - unfold onLockSoloFace. keeps_steps. apply keeps_modify; plain_side H.
  - unfold onLockSoloId. keeps_steps. apply keeps_modify; plain_side H.
Qed.

Ltac plain_keeps H :=
  keeps_steps;
  try match goal with
    | |- Eff.keeps _ (Eff.modify _) => apply keeps_modify; plain_side H
    | |- Eff.keeps _ (call _ _) => apply keeps_call; intros; now apply (p_slot H)
    | |- Eff.keeps _ (stop_if_set _) => apply safe_keeps, stop_if_set_safe, H
    | |- Eff.keeps _ (safeStop _) => apply safe_keeps, safeStop_safe, H
    | |- Eff.keeps _ (start_scanner _ _ _) => apply start_scanner_keeps, H
    end.

(** [startDemoFlow] does not throw, and ends with the handlers assigned. *)
Lemma startDemoFlow_wired_up env idEnv :
  Eff.triple linked (startDemoFlow env idEnv) (fun _ => wired_up) (fun _ => False).
Proof.
  pose proof plain_linked as H.
  pose proof (plain_with_slot _ DemoFace H) as HF. simpl in HF.
  unfold startDemoFlow.
  apply safe_then; [apply safe_emit | intros _].
  apply safe_then; [apply safe_modify; plain_side H | intros _].
  apply safe_then; [apply safe_modify; plain_side H | intros _].
  apply safe_then; [apply safe_emit | intros _].
  apply safe_then; [apply safe_emit | intros _].
  apply safe_then; [apply safe_emit | intros _].
  apply safe_then; [apply safe_emit | intros _].
  apply safe_then; [apply stop_if_set_safe, H | intros _].
  apply safe_then; [apply stop_if_set_safe, H | intros _].
  eapply triple_bind with
    (R := fun _ a => linked a /\ demoFaceScanner a <> None).
  - apply triple_modify. intros a Ha. split; [ | discriminate].
    destruct a; unfold linked in *; simpl in *. intuition discriminate.
  - intros _. apply safe_then.
    + apply (start_scanner_safe _ DemoFace env (onLockDemoFace idEnv) H).
    + intros _. apply triple_modify. intros a [[H1 H2] H3].
      destruct a; unfold wired_up, linked in *; simpl in *. tauto.
Qed.

Lemma handle_wired_up i : Eff.keeps wired_up (handle i).
Proof.
  pose proof plain_wired_up as H.
  destruct i; unfold handle, wired.
  13:{ (* an animation frame, and the callbacks it may call *)
    apply keeps_bind; [apply keeps_get | intros a0].
    destruct (slot r a0); [ | apply keeps_ret].
    eapply triple_bind with (R := fun _ a => wired_up a /\ slot r a <> None).
    - intros a Ha. unfold call.
      destruct (slot r a) as [st | ] eqn:Hs; [ | exact Ha].
      destruct (tick f st) as [[[] | e] st' out].
      + split; [apply (p_slot H); [congruence | exact Ha] | destruct r; discriminate].
      + apply (p_slot H); [congruence | exact Ha].
    - intros ls. eapply triple_weaken;
        [apply (keeps_each (onLock r idEnv) _ ls (onLock_keeps r idEnv)) | | | ];
        simpl; tauto. }
  all: unfold startSoloFace, startSoloId,
    demoFaceScanAgain, demoIdScanAgain, demoBack, checkVerify, goVerified,
    soloFaceScanAgain, soloIdScanAgain, soloBack.
  all: plain_keeps H.
  (* startDemoFlow *)
  eapply triple_weaken; [apply startDemoFlow_wired_up | | | ]; simpl;
    [intros s Hs; apply Hs | auto | tauto].
Qed.

Lemma reachable_wired_up a : reachable a -> wired_up a.
Proof.
  induction 1 as [ | a i Ha IH].
  - unfold wired_up, linked, boot; simpl. intuition congruence.
  - apply (keeps_final (handle i) wired_up a (handle_wired_up i) IH).
Qed.

Lemma reachable_after ins : reachable (after ins).
Proof.
  unfold after. generalize boot, reach_boot.
  induction ins as [ | i ins IH]; intros a Ha; simpl; [exact Ha | ].
  apply IH. now constructor.
Qed.

(** *** Mismatch *)

Lemma names_match_spec x y : names_match x y = true <-> x = y /\ x <> [].
Proof.
  unfold names_match. rewrite !andb_true_iff, strict_eq_true. split.
  - intros [[Hx _] E]. split; [exact E | ]. intros ->. discriminate.
  - intros [E Hx]. subst y. destruct x; [congruence | auto].
Qed.

(** C6. When the Verify button is clicked with both locks stored and
    their normalized labels unequal or empty, the handler reports the
    mismatch, clears the ID lock, starts the ID scanner again and leaves the
    face lock, the face scanner and the view as they are: the sequencer is
    back to waiting for the second lock. If model and camera are granted,
    the ID session runs again. *)
Theorem mismatch_restarts_second :
  forall (a : App) (env : StartEnv) (face id : LockInfo),
    reachable a ->
    lockedFace a = Some face -> lockedId a = Some id ->
    ~ (normalizeName (Some (info_className face)) =
         normalizeName (Some (info_className id)) /\
       normalizeName (Some (info_className face)) <> []) ->
    let r := handle (ClickVerify env) a in
    Eff.value r = inl tt /\
    In AlertMismatch (Eff.output r) /\
    lockedId (Eff.final r) = None /\
    lockedFace (Eff.final r) = Some face /\
    view (Eff.final r) = view a /\
    demoFaceScanner (Eff.final r) = demoFaceScanner a /\
    (exists st,
       demoIdScanner a = Some st /\
       demoIdScanner (Eff.final r) = Some (Eff.final (start env st)) /\
       (camera env = None -> load env = None -> top_of (first env) <> None ->
        isRunning (scanner (Eff.final (start env st))) = true)) /\
    (view a <> ViewVerified -> phase (Eff.final r) = AwaitingSecond).
Proof.
  intros a env face id Hreach Hf Hd Hne r. subst r.
  destruct (reachable_wired_up a Hreach) as [[Hl1 Hl2] Hw].
  destruct (demoIdScanner a) as [st | ] eqn:Hs;
    [ | exfalso; apply Hl1; congruence].
  assert (Hwired : demoWired a = true)
    by (apply Hw, Hl2; discriminate).
  assert (Hm : names_match (normalizeName (Some (info_className face)))
                           (normalizeName (Some (info_className id))) = false).
  { destruct (names_match _ _) eqn:E; [ | reflexivity].
    apply names_match_spec in E. contradiction. }
  unfold handle, wired. rewrite bind_get, Hwired.
  unfold checkVerify. rewrite bind_get, Hf, Hd, Hm.
  rewrite bind_emit, bind_modify, bind_modify, bind_emit, bind_emit. simpl.
  set (b := set_demoIdAgain DisplayNone (set_lockedId None a)).
  assert (Hb : slot DemoId b = Some st) by exact Hs.
  destruct (start_scanner_set DemoId env onLockDemoId b st Hb) as (Sv & Sf & _).
  rewrite Sv, Sf. simpl. rewrite Hf.
  repeat split; auto.
  - exists st. repeat split; auto.
    intros Hc Hl Htop. destruct (top_of (first env)) as [p | ] eqn:E; [ | congruence].
    apply (start_ok env st p Hc Hl E).
  - intros Hv. unfold phase. simpl. rewrite Hf. destruct (view a); congruence.
Qed.

Lemma mismatch_restarts_second_witness :
  let a := after alice_bob in
  let r := handle (ClickVerify (env_of (frame_of (str "Bob") (99 # 100) 2000))) a in
  In AlertMismatch (Eff.output r) /\
  lockedId (Eff.final r) = None /\
  lockedFace (Eff.final r) = lockedFace a /\
  phase (Eff.final r) = AwaitingSecond.
Proof.
  intros a r.
  assert (Hf : lockedFace a = Some (mkLockInfo (str "Alice") (99 # 100) 0))
    by (vm_compute; reflexivity).
  assert (Hd : lockedId a = Some (mkLockInfo (str "Bob") (99 # 100) 0))
    by (vm_compute; reflexivity).
  assert (Hne : ~ (normalizeName (Some (str "Alice")) = normalizeName (Some (str "Bob"))
                   /\ normalizeName (Some (str "Alice")) <> []))
    by (vm_compute; intros [E _]; discriminate E).
  assert (Hv : view a <> ViewVerified) by (vm_compute; discriminate).
  destruct (mismatch_restarts_second a
              (env_of (frame_of (str "Bob") (99 # 100) 2000))
              _ _ (reachable_after alice_bob) Hf Hd Hne)
    as (_ & H1 & H2 & H3 & _ & _ & _ & H4).
  split; [exact H1 | split; [exact H2 | split; [ | exact (H4 Hv)]]].
  fold r in H3. rewrite H3. symmetry. exact Hf.
Defined.

(** Scenario C of the specification: Alice with a trailing space on the
    face, alice on the ID: Verify leads to the Verified view, showing the
    normalized label. *)
Example scenario_C :
  let alice1 t := frame_of (str "Alice ") (99 # 100) t in
  let alice2 t := frame_of (str "alice") (99 # 100) t in
  let a := after [ ClickDemo (env_of (alice1 0)) (env_of (alice2 0));
                   Animate DemoFace (alice1 1000) (env_of (alice2 0));
                   Animate DemoId (alice2 1000) (env_of (alice2 0)) ] in
  let r := handle (ClickVerify (env_of (alice2 0))) a in
  phase a = ReadyToVerify /\
  phase (Eff.final r) = Verified /\
  In (VerifiedText (str "alice")) (Eff.output r).
Proof. vm_compute. repeat split. right. left. reflexivity. Qed.

(** *** Rescanning the ID before the face has locked *)

(** C8 fails on the script: the handler of the ID Scan Again button has
    no guard. Clicked in the first demo before the face has locked, when no
    ID scanner exists yet, it throws a [TypeError] at [demoIdScanner.start()].
    Clicked on a second visit of the demo, where the button is still shown
    and the ID scanner of the first visit still exists, it starts that ID
    scanner although no face lock is stored. *)
Theorem rescan_id_before_face_lock :
  (let a := after [ClickDemo env_cat env_cat] in
   phase a = AwaitingFirst /\ lockedFace a = None /\ demoWired a = true /\
   Eff.value (handle (ClickDemoIdAgain env_cat) a) = inr TypeError)
  /\
  (let a := after second_visit in
   let r := handle (ClickDemoIdAgain env_cat) a in
   all_offered boot (second_visit ++ [ClickDemoIdAgain env_cat]) = true /\
   phase a = AwaitingFirst /\ lockedFace a = None /\
   option_map (fun st => isRunning (scanner st)) (demoIdScanner a) = Some false /\
   Eff.value r = inl tt /\
   option_map (fun st => isRunning (scanner st)) (demoIdScanner (Eff.final r))
     = Some true /\
   lockedFace (Eff.final r) = None /\
   phase (Eff.final r) = AwaitingFirst).
Proof. vm_compute. repeat split. Qed.

(** The same in general: without an ID scanner the handler throws, with
    one it starts it, whether or not a face lock is stored. *)
Lemma demoIdScanAgain_unguarded a env :
  demoWired a = true ->
  match demoIdScanner a with
  | None => Eff.value (handle (ClickDemoIdAgain env) a) = inr TypeError
  | Some st =>
      Eff.value (handle (ClickDemoIdAgain env) a) = inl tt /\
      demoIdScanner (react a (ClickDemoIdAgain env)) =
        Some (Eff.final (start env st)) /\
      lockedFace (react a (ClickDemoIdAgain env)) = lockedFace a
  end.
Proof.
  intros Hw. unfold react, handle, wired. rewrite bind_get, Hw.
  unfold demoIdScanAgain.
  rewrite bind_modify, bind_emit, bind_emit, bind_modify, bind_emit. simpl.
  set (b := set_demoIdAgain DisplayNone (set_lockedId None a)).
  destruct (demoIdScanner a) as [st | ] eqn:Hs.
  - assert (Hb : slot DemoId b = Some st) by exact Hs.
    destruct (start_scanner_set DemoId env onLockDemoId b st Hb) as (Sv & Sf & _).
    rewrite Sv, Sf. simpl. auto.
  - unfold start_scanner, Eff.bind, call. simpl. rewrite Hs. reflexivity.
Qed.

End DemoFacts.

(* ===================================================================== *)
(** ** Facts about a scanner over its lifetime *)
(* ===================================================================== *)

From Stdlib Require Import Permutation.

Module SessionFacts.

Import JS JSFacts Scanner Session EffFacts ScannerFacts.
Local Open Scope eff_scope.

(** *** The outcomes of one call of [loop] *)

(** A call of [loop] changes nothing and locks nothing, or it runs on a
    running, equipped scanner with a top prediction and starts a streak,
    waits, or locks. *)
Lemma loop_outcome f st :
  (Eff.final (loop f st) = st /\ locks (Eff.output (loop f st)) = [])
  \/ (isRunning (scanner st) = true /\ equipped (scanner st) /\
      exists p, top_of f = Some p /\
        ((continued (scanner st) p = None /\
          Eff.final (loop f st) =
            rescheduled (set_lastTop (candidate (scanner st) p (now f)) (scanner st))
                        (queue st) (fresh st) /\
          locks (Eff.output (loop f st)) = [])
         \/ exists l, continued (scanner st) p = Some l /\
              ((ge (now f - since l) (stableWindowMs (scanner st)) = false /\
                Eff.final (loop f st) = rescheduled (scanner st) (queue st) (fresh st) /\
                locks (Eff.output (loop f st)) = [])
               \/ (ge (now f - since l) (stableWindowMs (scanner st)) = true /\
                   Eff.final (loop f st) =
                     Eff.final (stop (mkSess (set_locked true (scanner st))
                                             (queue st) (fresh st))) /\
                   locks (Eff.output (loop f st)) =
                     [mkLockInfo (className p) (probability p) (date f)])))).
Proof.
  destruct (isRunning (scanner st)) eqn:Hr;
    [ | left; rewrite (loop_idle f st Hr); auto].
  destruct (webcam (scanner st)) as [w | ] eqn:Hw;
    [ | left; rewrite (loop_no_webcam f st Hr Hw); auto].
  destruct (model (scanner st)) as [m | ] eqn:Hm.
  2:{ left. destruct (loop_predict_fails f st w Hr Hw) as (_ & -> & ->); auto.
      destruct (topLeftEl (scanner st)); auto. }
  assert (He : equipped (scanner st)) by (split; eauto).
  destruct (predict f) as [preds | e] eqn:Hp.
  2:{ left. destruct (loop_predict_fails f st w Hr Hw) as (_ & -> & ->); eauto.
      destruct (topLeftEl (scanner st)); auto. }
  destruct (top_of f) as [p | ] eqn:Htop.
  2:{ left. unfold top_of in Htop. rewrite Hp in Htop.
      destruct (sort_desc preds) eqn:Hs; [ | discriminate].
      apply sort_desc_nil in Hs. subst preds.
      rewrite (loop_empty f st Hr He Hp). auto. }
  right. split; [reflexivity | split; [exact He | exists p; split; [reflexivity | ]]].
  destruct (continued (scanner st) p) as [l | ] eqn:Hc.
  - right. exists l. split; [reflexivity | ].
    destruct (ge (now f - since l) (stableWindowMs (scanner st))) eqn:Hge.
    + right. destruct (loop_lock f st p l Hr He Htop Hc Hge) as (_ & -> & ->). auto.
    + left. destruct (loop_wait f st p l Hr He Htop Hc Hge) as (_ & -> & ->). auto.
  - left. destruct (loop_establish f st p Hr He Htop Hc) as (_ & -> & ->). auto.
Qed.

(** *** [perform] and [drive] *)

Lemma spawn_final (m : M unit) st : Eff.final (spawn m st) = Eff.final (m st).
Proof.
  unfold spawn, Eff.try_catch, Eff.emit. destruct (m st) as [[[] | e] s1 o1]; reflexivity.
Qed.

Lemma perform_value c st : Eff.value (perform c st) = inl tt.
Proof.
  destruct c; simpl; [apply spawn_value | apply stop_returns | apply tick_value].
Qed.

Lemma drive_cons c cs st :
  Eff.output (drive (c :: cs) st) =
    Eff.output (perform c st) ++ Eff.output (drive cs (Eff.final (perform c st)))
  /\ Eff.final (drive (c :: cs) st) = Eff.final (drive cs (Eff.final (perform c st))).
Proof.
  simpl. unfold Eff.bind at 1 2.
  pose proof (perform_value c st) as H. destruct (perform c st) as [v s1 o1].
  simpl in *. subst v. destruct (drive cs s1); auto.
Qed.

Lemma drive_value cs st : Eff.value (drive cs st) = inl tt.
Proof.
  revert st. induction cs as [ | c cs IH]; intros st; [reflexivity | ].
  simpl. unfold Eff.bind at 1.
  pose proof (perform_value c st) as H. destruct (perform c st) as [v s1 o1].
  simpl in *. subst v. specialize (IH s1). destruct (drive cs s1); auto.
Qed.

(** *** [start] that fails *)

(** The session in which a failing [start] leaves the scanner: as it was
    when the model cannot be loaded; with the model loaded, if it was
    missing, and a new webcam object when the camera cannot be set up. *)
Lemma start_fails_state env st :
  (forall e, model (scanner st) = None -> load env = Some e ->
     Eff.value (start env st) = inr e /\ Eff.final (start env st) = st) /\
  (forall e, camera env = Some e -> (model (scanner st) = None -> load env = None) ->
     Eff.value (start env st) = inr e /\
     Eff.final (start env st) =
       mkSess (set_webcam (Some CamNew)
                 (match model (scanner st) with
                  | None => set_model (Some (TMModel (modelPath (scanner st)))) (scanner st)
                  | Some _ => scanner st
                  end))
              (queue st) (fresh st)).
Proof.
  destruct st as [[tl bl mp fm mo pl wc ir th sw lt lk] q n]. simpl.
  split; intros e.
  - intros -> Hl.
    cbv [start loadModel webcam_setup is_none note error this upd spawn
         Eff.bind Eff.try_catch Eff.ret Eff.throw Eff.get Eff.put Eff.modify
         Eff.emit Eff.when].
    simpl. rewrite Hl. destruct tl, e; simpl; auto.
  - intros Hc Hl.
    cbv [start loadModel webcam_setup is_none note error this upd spawn
         Eff.bind Eff.try_catch Eff.ret Eff.throw Eff.get Eff.put Eff.modify
         Eff.emit Eff.when].
    simpl. rewrite Hc.
    destruct mo as [m | ]; simpl; rewrite ?(Hl eq_refl); destruct tl, e; simpl; auto.
Qed.

(** *** What a scanner keeps over its lifetime *)

Lemma constructed_fields cfg s s' :
  constructed cfg s ->
  topLeftEl s' = topLeftEl s -> bottomLeftEl s' = bottomLeftEl s ->
  modelPath s' = modelPath s -> facingMode s' = facingMode s ->
  threshold s' = threshold s -> stableWindowMs s' = stableWindowMs s ->
  constructed cfg s'.
Proof.
  unfold constructed. intros (H1 & H2 & H3 & H4 & H5 & H6) -> -> -> -> -> ->.
  repeat split; assumption.
Qed.

Lemma stop_constructed cfg st :
  constructed cfg (scanner st) -> constructed cfg (scanner (Eff.final (stop st))).
Proof.
  intros H. rewrite stop_scanner.
  apply (constructed_fields cfg (scanner st)); auto; reflexivity.
Qed.

Lemma stop_coherent st :
  (forall l, lastTop (scanner st) = Some l -> (threshold (scanner st) <= prob l)%Q) ->
  (forall m, model (scanner st) = Some m -> m = TMModel (modelPath (scanner st))) ->
  (forall id, In id (queue st) -> (id < fresh st)%positive) ->
  (forall id, predLoopId (scanner st) = Some id -> (id < fresh st)%positive) ->
  coherent (Eff.final (stop st)).
Proof.
  intros Hlt Hm Hq Hp.
  destruct (stop_queue st) as [Eq En].
  unfold coherent. rewrite stop_scanner, Eq, En.
  destruct st as [[tl bl mp fm mo pl wc ir th sw lt lk] q n]; simpl in *.
  repeat split; try discriminate; auto.
  - unfold released; simpl. destruct wc as [[ | | ] | ]; discriminate.
  - intros id Hin. apply Hq. destruct pl; [ | exact Hin].
    apply filter_In in Hin. tauto.
Qed.

Lemma rescheduled_coherent s s' q n :
  coherent (mkSess s q n) ->
  isRunning s' = isRunning s -> model s' = model s -> webcam s' = webcam s ->
  locked s' = locked s -> modelPath s' = modelPath s -> threshold s' = threshold s ->
  (forall l, lastTop s' = Some l -> (threshold s <= prob l)%Q) ->
  coherent (rescheduled s' q n).
Proof.
  intros (Hrun & Hrel & Hlk & _ & Hm & Hq & _) Er Em Ew El Ep Et Hlt.
  unfold coherent, rescheduled, equipped, released in *; simpl in *.
  rewrite Er, Em, Ew, El, Ep, Et.
  repeat split; auto.
  - apply Hrun; assumption.
  - apply Hrun; assumption.
  - intros id Hin. apply in_app_or in Hin as [Hin | [<- | []]].
    + specialize (Hq id Hin). lia.
    + lia.
  - intros id [= <-]. lia.
Qed.

Lemma loop_constructed cfg f st :
  constructed cfg (scanner st) -> constructed cfg (scanner (Eff.final (loop f st))).
Proof.
  intros H.
  destruct (loop_outcome f st)
    as [[-> _] | (_ & _ & p & _ & [(_ & -> & _) | (l & _ & [(_ & -> & _) | (_ & -> & _)])])];
    rewrite ?stop_scanner;
    solve [ exact H
          | apply (constructed_fields cfg (scanner st)); auto; reflexivity ].
Qed.

Lemma loop_coherent f st : coherent st -> coherent (Eff.final (loop f st)).
Proof.
  intros H.
  destruct (loop_outcome f st)
    as [[-> _] | (_ & _ & p & _ & [(_ & -> & _) | (l & _ & [(_ & -> & _) | (_ & -> & _)])])];
    auto.
  - destruct st as [s q n]. apply (rescheduled_coherent s); auto.
    simpl. unfold candidate. destruct (ge (probability p) (threshold s)) eqn:E;
      [ | discriminate].
    intros l [= <-]. simpl. now apply ge_true.
  - destruct st as [s q n]. apply (rescheduled_coherent s); auto.
    apply H.
  - destruct H as (_ & _ & _ & Hlt & Hm & Hq & Hp).
    apply stop_coherent; simpl; auto.
Qed.

Lemma tick_constructed cfg f st :
  constructed cfg (scanner st) -> constructed cfg (scanner (Eff.final (tick f st))).
Proof.
  intros H. destruct (queue st) as [ | id q] eqn:Eq.
  - destruct (tick_halted f st (or_intror Eq)) as (_ & -> & _). exact H.
  - destruct (tick_loop f st id q Eq) as [-> _]. now apply loop_constructed.
Qed.

Lemma tick_coherent f st : coherent st -> coherent (Eff.final (tick f st)).
Proof.
  intros H. destruct (queue st) as [ | id q] eqn:Eq.
  - destruct (tick_halted f st (or_intror Eq)) as (_ & _ & _ & ->); auto.
  - destruct (tick_loop f st id q Eq) as [-> _]. apply loop_coherent.
    destruct H as (H1 & H2 & H3 & H4 & H5 & H6 & H7).
    refine (conj H1 (conj H2 (conj H3 (conj H4 (conj H5 (conj _ H7)))))).
    simpl. intros j Hj. apply H6. rewrite Eq. now right.
Qed.

Lemma armed_coherent st : coherent st -> coherent (armed st).
Proof.
  intros (H1 & H2 & H3 & H4 & H5 & H6 & H7).
  destruct st as [[tl bl mp fm mo pl wc ir th sw lt lk] q n].
  unfold coherent, armed, equipped, released in *; simpl in *.
  destruct mo as [m | ]; simpl; repeat split; eauto; try discriminate.
  intros m' [= <-]. reflexivity.
Qed.

Lemma armed_constructed cfg st :
  constructed cfg (scanner st) -> constructed cfg (scanner (armed st)).
Proof.
  intros H. apply (constructed_fields cfg (scanner st)); auto.
  all: unfold armed; simpl; destruct (model (scanner st)); reflexivity.
Qed.

Lemma start_constructed cfg env st :
  constructed cfg (scanner st) -> constructed cfg (scanner (Eff.final (start env st))).
Proof.
  intros H.
  destruct (start_fails_state env st) as [Hload Hcam].
  destruct (camera env) as [e | ] eqn:Hc.
  - destruct (model (scanner st)) as [m | ] eqn:Hm.
    + destruct (Hcam e eq_refl) as (_ & ->); [discriminate | ]. exact H.
    + destruct (load env) as [e' | ] eqn:Hl.
      * destruct (Hload e' eq_refl eq_refl) as (_ & ->). exact H.
      * destruct (Hcam e eq_refl) as (_ & ->); [reflexivity | ].
        apply (constructed_fields cfg (scanner st)); auto; reflexivity.
  - destruct (model (scanner st)) as [m | ] eqn:Hm.
    + destruct (start_calls_loop env st Hc) as (_ & -> & _); [congruence | ].
      now apply loop_constructed, armed_constructed.
    + destruct (load env) as [e' | ] eqn:Hl.
      * destruct (Hload e' eq_refl eq_refl) as (_ & ->). exact H.
      * destruct (start_calls_loop env st Hc) as (_ & -> & _); [auto | ].
        now apply loop_constructed, armed_constructed.
Qed.

Lemma camera_refused_coherent st :
  coherent st ->
  coherent
    (mkSess (set_webcam (Some CamNew)
               (match model (scanner st) with
                | None => set_model (Some (TMModel (modelPath (scanner st)))) (scanner st)
                | Some _ => scanner st
                end))
            (queue st) (fresh st)).
Proof.
  intros (H1 & H2 & H3 & H4 & H5 & H6 & H7).
  destruct st as [[tl bl mp fm mo pl wc ir th sw lt lk] q n].
  unfold coherent, equipped, released in *; simpl in *.
  destruct mo as [m | ]; simpl.
  - refine (conj _ (conj _ (conj H3 (conj H4 (conj H5 (conj H6 H7)))))).
    + intros Hr. split; [apply (H1 Hr) | eauto].
    + discriminate.
  - refine (conj _ (conj _ (conj H3 (conj H4 (conj _ (conj H6 H7)))))).
    + intros Hr. split; eauto.
    + discriminate.
    + intros m' [= <-]. reflexivity.
Qed.

Lemma start_coherent env st : coherent st -> coherent (Eff.final (start env st)).
Proof.
  intros H.
  destruct (start_fails_state env st) as [Hload Hcam].
  destruct (camera env) as [e | ] eqn:Hc.
  - destruct (model (scanner st)) as [m | ] eqn:Hm.
    + destruct (Hcam e eq_refl) as (_ & ->); [discriminate | ].
      pose proof (camera_refused_coherent st H) as K. now rewrite Hm in K.
    + destruct (load env) as [e' | ] eqn:Hl.
      * destruct (Hload e' eq_refl eq_refl) as (_ & ->). exact H.
      * destruct (Hcam e eq_refl) as (_ & ->); [reflexivity | ].
        pose proof (camera_refused_coherent st H) as K. now rewrite Hm in K.
  - destruct (model (scanner st)) as [m | ] eqn:Hm.
    + destruct (start_calls_loop env st Hc) as (_ & -> & _); [congruence | ].
      now apply loop_coherent, armed_coherent.
    + destruct (load env) as [e' | ] eqn:Hl.
      * destruct (Hload e' eq_refl eq_refl) as (_ & ->). exact H.
      * destruct (start_calls_loop env st Hc) as (_ & -> & _); [auto | ].
        now apply loop_coherent, armed_coherent.
Qed.

Lemma perform_keeps cfg c st :
  constructed cfg (scanner st) /\ coherent st ->
  constructed cfg (scanner (Eff.final (perform c st))) /\
  coherent (Eff.final (perform c st)).
Proof.
  intros [Hc Hk]. destruct c as [env | | f]; simpl.
  - rewrite spawn_final. split; [now apply start_constructed | now apply start_coherent].
  - split; [now apply stop_constructed | ].
    destruct Hk as (_ & _ & _ & Hlt & Hm & Hq & Hp). now apply stop_coherent.
  - split; [now apply tick_constructed | now apply tick_coherent].
Qed.

Lemma create_keeps cfg :
  constructed cfg (scanner (create cfg)) /\ coherent (create cfg).
Proof.
  unfold constructed, coherent, create, new, released; simpl.
  repeat split; try discriminate. intros id [].
Qed.

(** *** When [onLock] is called *)

Lemma continued_spec s p l :
  continued s p = Some l ->
  lastTop s = Some l /\ name l = className p /\ (threshold s <= probability p)%Q.
Proof.
  intros H. apply continued_some in H as [Hl Hc].
  apply orb_false_iff in Hc as [Hn Hp].
  apply strict_neq_false in Hn. apply lt_false in Hp. auto.
Qed.

(** X2. A call of [loop] calls [onLock] only on a running scanner whose
    stored candidate has the label of the frame's top prediction, when
    that prediction reaches the threshold and the window has elapsed since
    the candidate was stored. It then calls it once, with the label and
    probability of the top prediction and the date of the frame, and leaves
    the scanner stopped: not running, flagged as locked, the camera
    released, the callback under [predLoopId] cancelled, the candidate
    still stored. *)
Theorem lock_only_after_window :
  forall (st : Sess) (f : Frame) (info : LockInfo),
    In info (locks (Eff.output (loop f st))) ->
    isRunning (scanner st) = true /\
    (exists p l,
       top_of f = Some p /\ lastTop (scanner st) = Some l /\
       name l = className p /\
       (threshold (scanner st) <= probability p)%Q /\
       (stableWindowMs (scanner st) <= now f - since l)%Q /\
       info = mkLockInfo (className p) (probability p) (date f)) /\
    locks (Eff.output (loop f st)) = [info] /\
    isRunning (scanner (Eff.final (loop f st))) = false /\
    locked (scanner (Eff.final (loop f st))) = true /\
    released (scanner (Eff.final (loop f st))) /\
    lastTop (scanner (Eff.final (loop f st))) = lastTop (scanner st) /\
    (forall id, predLoopId (scanner st) = Some id ->
       ~ In id (queue (Eff.final (loop f st)))).
Proof.
  intros st f info Hin.
  destruct (loop_outcome f st)
    as [[_ E] | (Hr & _ & p & Htop &
                 [(_ & _ & E) | (l & Hc & [(_ & _ & E) | (Hge & Ef & E)])])];
    rewrite E in Hin; try (now destruct Hin).
  destruct Hin as [<- | []].
  apply continued_spec in Hc as (Hl & Hn & Hp). apply ge_true in Hge.
  split; [exact Hr | ]. split; [exists p, l; auto 7 | ]. split; [exact E | ].
  rewrite Ef, stop_scanner. destruct (stop_queue (mkSess (set_locked true (scanner st))
                                                          (queue st) (fresh st))) as [-> _].
  simpl. repeat split.
  - unfold released. simpl. destruct (webcam (scanner st)) as [[ | | ] | ]; discriminate.
  - intros id Hid. rewrite Hid. intros Hq. apply filter_In in Hq as [_ Hq].
    now rewrite Pos.eqb_refl in Hq.
Qed.

Lemma lock_only_after_window_witness :
  let f := frame_of cat (99 # 100) 1000 in
  locks (Eff.output (loop f st_cat)) = [mkLockInfo cat (99 # 100) 0] /\
  isRunning (scanner (Eff.final (loop f st_cat))) = false.
Proof.
  intros f.
  refine (let H := lock_only_after_window st_cat f (mkLockInfo cat (99 # 100) 0) _ in
          conj (proj1 (proj2 (proj2 H))) (proj1 (proj2 (proj2 (proj2 H))))).
  vm_compute. left. reflexivity.
Defined.

Lemma loop_thresholds f st :
  threshold (scanner (Eff.final (loop f st))) = threshold (scanner st) /\
  stableWindowMs (scanner (Eff.final (loop f st))) = stableWindowMs (scanner st).
Proof.
  destruct (loop_outcome f st)
    as [[-> _] | (_ & _ & p & _ & [(_ & -> & _) | (l & _ & [(_ & -> & _) | (_ & -> & _)])])];
    rewrite ?stop_scanner; split; reflexivity.
Qed.

Lemma tick_locks f st id q :
  queue st = id :: q ->
  locks (Eff.output (tick f st)) =
  locks (Eff.output (loop f (mkSess (scanner st) q (fresh st)))).
Proof.
  intros Hq. destruct (tick_loop f st id q Hq) as [_ ->].
  rewrite locks_app.
  destruct (Eff.value (loop f (mkSess (scanner st) q (fresh st)))); simpl;
    apply app_nil_r.
Qed.

Lemma nth_error_snoc {A} (l : list A) (x y : A) k :
  nth_error (l ++ [x]) k = Some y ->
  ((k < List.length l)%nat /\ nth_error l k = Some y) \/ (k = List.length l /\ y = x).
Proof.
  intros H. destruct (Nat.lt_ge_cases k (List.length l)) as [Hk | Hk].
  - left. split; [exact Hk | ]. now rewrite nth_error_app1 in H.
  - right. rewrite nth_error_app2 in H by exact Hk.
    destruct (k - List.length l)%nat as [ | d] eqn:E; simpl in H.
    + injection H as <-. split; [lia | reflexivity].
    + destruct d; discriminate.
Qed.

Lemma nth_error_middle {A} (l l' : list A) (x : A) :
  nth_error (l ++ x :: l') (List.length l) = Some x.
Proof. rewrite nth_error_app2, Nat.sub_diag; [reflexivity | lia]. Qed.

(** Along a stream, with the frames [hist] already evaluated: a lock on
    one of the frames to come ends a stretch of frames with one top label
    at or above the threshold that spans the window. *)
Lemma run_lock_stretch fs : forall hist st thr w info,
  one_pending st ->
  threshold (scanner st) = thr -> stableWindowMs (scanner st) = w ->
  (forall l, lastTop (scanner st) = Some l ->
     exists i fi, nth_error hist i = Some fi /\ since l = now fi /\
       forall k fk, (i <= k)%nat -> nth_error hist k = Some fk ->
         exists q, top_of fk = Some q /\ className q = name l /\
                   (thr <= probability q)%Q) ->
  In info (locks (Eff.output (run fs st))) ->
  exists i j fi fj p,
    (i < j)%nat /\ nth_error (hist ++ fs) i = Some fi /\
    nth_error (hist ++ fs) j = Some fj /\
    top_of fj = Some p /\
    info = mkLockInfo (className p) (probability p) (date fj) /\
    stable_stretch thr (className p) (hist ++ fs) i j /\
    (w <= now fj - now fi)%Q.
Proof.
  induction fs as [ | f fs IH]; intros hist st thr w info Hone Hthr Hw Hinv Hin;
    [destruct Hin | ].
  destruct Hone as [Hq | (id & Hq & Hp)].
  { destruct (run_halted (f :: fs) st (or_intror Hq)) as (E & _).
    rewrite E in Hin. destruct Hin. }
  destruct (run_cons f fs st) as [Ho _]. rewrite Ho, locks_app in Hin. clear Ho.
  rewrite (tick_locks f st id [] Hq) in Hin.
  destruct (tick_loop f st id [] Hq) as [Tf _].
  set (st1 := Eff.final (tick f st)) in *.
  set (st' := mkSess (scanner st) [] (fresh st)) in *.
  assert (Hstep : forall s,
            Eff.final (loop f st') = rescheduled s [] (fresh st) ->
            locks (Eff.output (loop f st')) = [] ->
            threshold s = thr -> stableWindowMs s = w ->
            (forall l, lastTop s = Some l ->
               exists i fi, nth_error (hist ++ [f]) i = Some fi /\ since l = now fi /\
                 forall k fk, (i <= k)%nat -> nth_error (hist ++ [f]) k = Some fk ->
                   exists q, top_of fk = Some q /\ className q = name l /\
                             (thr <= probability q)%Q) ->
            exists i j fi fj p,
              (i < j)%nat /\ nth_error (hist ++ f :: fs) i = Some fi /\
              nth_error (hist ++ f :: fs) j = Some fj /\
              top_of fj = Some p /\
              info = mkLockInfo (className p) (probability p) (date fj) /\
              stable_stretch thr (className p) (hist ++ f :: fs) i j /\
              (w <= now fj - now fi)%Q).
  { intros s Ef El Es Ew Hs. rewrite El in Hin. simpl in Hin.
    replace (hist ++ f :: fs) with ((hist ++ [f]) ++ fs)
      by (rewrite <- app_assoc; reflexivity).
    apply (IH (hist ++ [f]) st1 thr w info); auto.
    - right. exists (fresh st). rewrite Tf, Ef. split; reflexivity.
    - rewrite Tf, Ef. exact Es.
    - rewrite Tf, Ef. exact Ew.
    - rewrite Tf, Ef. exact Hs. }
  destruct (loop_outcome f st')
    as [[Ef El] | (Hr & _ & p & Htop &
                   [(Hc & Ef & El) | (l & Hc & [(Hge & Ef & El) | (Hge & Ef & El)])])].
  - (* nothing evaluated: the loop has ended *)
    rewrite El in Hin. simpl in Hin.
    destruct (run_halted fs st1) as (E & _); [right; now rewrite Tf, Ef | ].
    rewrite E in Hin. destruct Hin.
  - (* a new candidate *)
    apply (Hstep _ Ef El); auto.
    simpl. unfold candidate.
    destruct (ge (probability p) (threshold (scanner st))) eqn:Eg; [ | discriminate].
    intros l [= <-]. simpl. exists (List.length hist), f.
    split; [apply nth_error_middle | split; [reflexivity | ]].
    intros k fk Hk Hfk.
    apply nth_error_snoc in Hfk as [[Hlt _] | [_ ->]]; [lia | ].
    exists p. apply ge_true in Eg. rewrite <- Hthr. auto.
  - (* the streak goes on *)
    apply continued_spec in Hc as (Hl & Hn & Hpr). simpl in Hl, Hpr.
    apply (Hstep _ Ef El); auto.
    intros l' Hl'. unfold st' in Hl'. simpl in Hl'.
    assert (l' = l) by congruence. subst l'.
    destruct (Hinv l Hl) as (i & fi & Hi & Hsince & Hall).
    exists i, fi. split; [ | split; [exact Hsince | ]].
    + rewrite nth_error_app1; [exact Hi | ].
      apply nth_error_Some. congruence.
    + intros k fk Hk Hfk.
      apply nth_error_snoc in Hfk as [[_ Hfk] | [_ ->]]; [now apply (Hall k) | ].
      exists p. rewrite <- Hthr. auto.
  - (* the lock *)
    apply continued_spec in Hc as (Hl & Hn & Hpr). simpl in Hl, Hpr, Hge.
    destruct (run_halted fs st1) as (E & _).
    { left. rewrite Tf, Ef, stop_scanner. reflexivity. }
    rewrite E, El, app_nil_r in Hin. destruct Hin as [<- | []].
    destruct (Hinv l Hl) as (i & fi & Hi & Hsince & Hall).
    assert (Hlen : (i < List.length hist)%nat) by (apply nth_error_Some; congruence).
    exists i, (List.length hist), fi, f, p.
    split; [exact Hlen | ].
    split; [rewrite nth_error_app1; assumption | ].
    split; [apply nth_error_middle | ].
    split; [exact Htop | ]. split; [reflexivity | ]. split.
    + intros k fk [Hik Hkj] Hfk.
      destruct (Nat.eq_dec k (List.length hist)) as [-> | Hne].
      * rewrite nth_error_middle in Hfk. injection Hfk as <-.
        exists p. rewrite <- Hthr. auto.
      * rewrite nth_error_app1 in Hfk by lia.
        destruct (Hall k fk Hik Hfk) as (q & Hq1 & Hq2 & Hq3).
        exists q. rewrite <- Hn. auto.
    + apply ge_true in Hge. rewrite <- Hsince, <- Hw. exact Hge.
Qed.

(** X3. The converse of the lock on a stable stream: when a scanner
    started with no callback pending reports a lock while the stream is
    processed, the stream contains two frames, at least the window apart in
    time, such that every frame from the first to the second has the locked
    label as its top prediction with a probability of at least the
    threshold; the lock carries the label, probability and date of the
    second. In particular no lock is reported on a label that was not on
    top, or was below the threshold, within the window before. *)
Theorem lock_needs_stable_stretch :
  forall (st0 : Sess) (env : StartEnv) (fs : list Frame) (info : LockInfo),
    queue st0 = [] ->
    In info (locks (Eff.output ((start env ;; run fs)%eff st0))) ->
    exists i j fi fj p,
      (i < j)%nat /\
      nth_error (first env :: fs) i = Some fi /\
      nth_error (first env :: fs) j = Some fj /\
      top_of fj = Some p /\
      info = mkLockInfo (className p) (probability p) (date fj) /\
      stable_stretch (threshold (scanner st0)) (className p) (first env :: fs) i j /\
      (stableWindowMs (scanner st0) <= now fj - now fi)%Q.
Proof.
  intros st0 env fs info Hq Hin.
  pose proof (start_never_locks env st0) as Hs.
  assert (Hok : Eff.value (start env st0) = inl tt /\
                Eff.final (start env st0) = Eff.final (loop (first env) (armed st0))).
  { destruct (Eff.value (start env st0)) as [[] | e] eqn:Ev.
    - split; [reflexivity | ].
      destruct (start_fails_state env st0) as [Hload Hcam].
      destruct (camera env) as [e | ] eqn:Hc.
      + destruct (model (scanner st0)) as [m | ] eqn:Hm.
        * destruct (Hcam e eq_refl) as (E & _); [discriminate | congruence].
        * destruct (load env) as [e' | ] eqn:Hl.
          -- destruct (Hload e' eq_refl eq_refl) as (E & _). congruence.
          -- destruct (Hcam e eq_refl) as (E & _); [reflexivity | congruence].
      + apply (start_calls_loop env st0 Hc). intros Hm.
        destruct (load env) as [e' | ] eqn:Hl; [ | reflexivity].
        destruct (Hload e' Hm eq_refl) as (E & _). congruence.
    - exfalso. unfold Eff.bind in Hin.
      destruct (start env st0) as [v s1 o1]. simpl in Ev, Hs. subst v.
      simpl in Hin. rewrite Hs in Hin. destruct Hin. }
  destruct Hok as [Hv Hf].
  assert (Hrun : In info (locks (Eff.output (run fs (Eff.final (start env st0)))))).
  { unfold Eff.bind in Hin. destruct (start env st0) as [v s1 o1].
    simpl in Hv, Hs |- *. subst v. destruct (run fs s1) as [v2 s2 o2]. simpl in *.
    rewrite locks_app, Hs in Hin. exact Hin. }
  destruct (armed_fields st0) as (Ar & Ae & Al & _ & At & Aw & Aq & An).
  destruct (loop_thresholds (first env) (armed st0)) as [Lt Lw].
  apply (run_lock_stretch fs [first env] (Eff.final (start env st0))
           (threshold (scanner st0)) (stableWindowMs (scanner st0)) info); auto.
  - rewrite Hf. apply one_pending_loop. now rewrite Aq.
  - rewrite Hf, Lt. exact At.
  - rewrite Hf, Lw. exact Aw.
  - rewrite Hf. clear Hf Hrun Hin Hs Hv.
    remember (armed st0) as sa eqn:Esa. clear Esa.
    destruct (loop_outcome (first env) sa)
      as [[-> _] | (_ & _ & p & Htop &
                    [(_ & -> & _) | (l & Hc & _)])].
    + intros l Hl. congruence.
    + simpl. unfold candidate.
      destruct (ge (probability p) (threshold (scanner sa))) eqn:Eg;
        [ | discriminate].
      intros l [= <-]. simpl. exists 0%nat, (first env).
      split; [reflexivity | split; [reflexivity | ]].
      intros [ | [ | k]] fk _ Hfk; simpl in Hfk; try discriminate.
      injection Hfk as <-. exists p. apply ge_true in Eg. rewrite <- At. auto.
    + apply continued_some in Hc as [Hc _]. congruence.
Qed.

Lemma lock_needs_stable_stretch_witness :
  exists i j fi fj p,
    (i < j)%nat /\
    nth_error [frame_of cat (99 # 100) 0; frame_of cat (99 # 100) 1000] i = Some fi /\
    nth_error [frame_of cat (99 # 100) 0; frame_of cat (99 # 100) 1000] j = Some fj /\
    top_of fj = Some p /\
    mkLockInfo cat (99 # 100) 0 = mkLockInfo (className p) (probability p) (date fj) /\
    stable_stretch (98 # 100) (className p)
      [frame_of cat (99 # 100) 0; frame_of cat (99 # 100) 1000] i j /\
    (1000 <= now fj - now fi)%Q.
Proof.
  apply (lock_needs_stable_stretch (create cfg0) (env_of (frame_of cat (99 # 100) 0))
           [frame_of cat (99 # 100) 1000] (mkLockInfo cat (99 # 100) 0)).
  - reflexivity.
  - vm_compute. left. reflexivity.
Defined.

(** *** Locks over the lifetime of a scanner *)

Lemma spawn_locks (m : M unit) st :
  locks (Eff.output (spawn m st)) = locks (Eff.output (m st)).
Proof.
  unfold spawn, Eff.try_catch, Eff.emit. destruct (m st) as [[[] | e] s1 o1]; simpl;
    [reflexivity | ].
  rewrite locks_app. apply app_nil_r.
Qed.

Lemma loop_budget f st :
  (List.length (locks (Eff.output (loop f st)))
   + Nat.b2n (isRunning (scanner (Eff.final (loop f st))))
   <= Nat.b2n (isRunning (scanner st)))%nat.
Proof.
  destruct (loop_outcome f st)
    as [[-> ->] | (Hr & _ & p & _ &
                   [(_ & -> & ->) | (l & _ & [(_ & -> & ->) | (_ & -> & ->)])])];
    rewrite ?stop_scanner; simpl; rewrite ?Hr; simpl; lia.
Qed.

Lemma perform_budget c st :
  (List.length (locks (Eff.output (perform c st)))
   + Nat.b2n (isRunning (scanner (Eff.final (perform c st))))
   <= Nat.b2n (is_start c) + Nat.b2n (isRunning (scanner st)))%nat.
Proof.
  destruct c as [env | | f]; simpl.
  - rewrite spawn_locks, start_never_locks. simpl.
    destruct (isRunning (scanner (Eff.final (spawn (start env) st)))); simpl; lia.
  - destruct (stop_returns st) as [_ ->]. rewrite stop_scanner. simpl. lia.
  - destruct (queue st) as [ | id q] eqn:Eq.
    + destruct (tick_halted f st (or_intror Eq)) as (-> & -> & _). simpl. lia.
    + rewrite (tick_locks f st id q Eq).
      destruct (tick_loop f st id q Eq) as [-> _].
      apply (loop_budget f (mkSess (scanner st) q (fresh st))).
Qed.

Lemma drive_budget cs : forall st,
  (List.length (locks (Eff.output (drive cs st)))
   + Nat.b2n (isRunning (scanner (Eff.final (drive cs st))))
   <= starts cs + Nat.b2n (isRunning (scanner st)))%nat.
Proof.
  induction cs as [ | c cs IH]; intros st; [simpl; lia | ].
  destruct (drive_cons c cs st) as [-> ->].
  rewrite locks_app, length_app.
  specialize (IH (Eff.final (perform c st))).
  pose proof (perform_budget c st) as H.
  unfold starts in *. simpl. destruct (is_start c); simpl in *; lia.
Qed.

Lemma perform_lock_threshold c st info :
  In info (locks (Eff.output (perform c st))) ->
  (threshold (scanner st) <= info_prob info)%Q.
Proof.
  destruct c as [env | | f]; simpl.
  - rewrite spawn_locks, start_never_locks. simpl. tauto.
  - destruct (stop_returns st) as [_ ->]. simpl. tauto.
  - destruct (queue st) as [ | id q] eqn:Eq.
    + destruct (tick_halted f st (or_intror Eq)) as (-> & _). simpl. tauto.
    + rewrite (tick_locks f st id q Eq).
      destruct (loop_outcome f (mkSess (scanner st) q (fresh st)))
        as [[_ ->] | (_ & _ & p & _ &
                      [(_ & _ & ->) | (l & Hc & [(_ & _ & ->) | (_ & _ & ->)])])];
        simpl; try tauto.
      intros [<- | []]. simpl. now apply continued_spec in Hc.
Qed.

(** X4. Over the lifetime of a scanner, whatever the calls and the
    frames, [onLock] is called at most once for each call of [start]:
    after a lock nothing is reported until the scanner is started again.
    And every lock reported carries a probability of at least 0.98. *)
Theorem one_lock_per_start :
  forall (cfg : Cfg) (cs : list Call),
    let out := Eff.output (drive cs (create cfg)) in
    (List.length (locks out) <= starts cs)%nat /\
    (forall info, In info (locks out) -> (98 # 100 <= info_prob info)%Q).
Proof.
  intros cfg cs out. subst out. split.
  - pose proof (drive_budget cs (create cfg)) as H. simpl in H. lia.
  - assert (H : forall st info,
              constructed cfg (scanner st) /\ coherent st ->
              In info (locks (Eff.output (drive cs st))) ->
              (98 # 100 <= info_prob info)%Q).
    { induction cs as [ | c cs IH]; intros st info Hst Hin; [destruct Hin | ].
      destruct (drive_cons c cs st) as [Ho _]. rewrite Ho, locks_app in Hin.
      apply in_app_or in Hin as [Hin | Hin].
      - apply perform_lock_threshold in Hin.
        destruct Hst as [(_ & _ & _ & _ & Ht & _) _]. now rewrite Ht in Hin.
      - apply (IH (Eff.final (perform c st))); [ | exact Hin].
        now apply perform_keeps. }
    intros info. apply H, create_keeps.
Qed.

(** *** The ranking of the predictions *)

Lemma insert_desc_perm p l : Permutation (p :: l) (insert_desc p l).
Proof.
  induction l as [ | q l IH]; simpl; [apply Permutation_refl | ].
  destruct (lt (probability p) (probability q)); [ | apply Permutation_refl].
  apply perm_trans with (q :: p :: l); [apply perm_swap | now apply perm_skip].
Qed.

Lemma sort_desc_perm l : Permutation l (sort_desc l).
Proof.
  induction l as [ | p l IH]; simpl; [apply perm_nil | ].
  apply perm_trans with (p :: sort_desc l);
    [now apply perm_skip | apply insert_desc_perm].
Qed.

Lemma insert_desc_descending p l : descending l -> descending (insert_desc p l).
Proof.
  induction l as [ | q l IH]; simpl; [intros _; split; [intros x [] | exact I] | ].
  intros [Hq Hl].
  destruct (lt (probability p) (probability q)) eqn:E; simpl.
  - apply lt_true in E. split; [ | now apply IH].
    intros x Hx.
    apply (Permutation_in x (Permutation_sym (insert_desc_perm p l))) in Hx.
    destruct Hx as [<- | Hx]; [lra | now apply Hq].
  - apply lt_false in E. split; [ | split; assumption].
    intros x [<- | Hx]; [exact E | ].
    specialize (Hq x Hx). lra.
Qed.

Lemma sort_desc_descending l : descending (sort_desc l).
Proof.
  induction l as [ | p l IH]; simpl; [exact I | now apply insert_desc_descending].
Qed.

Lemma insert_desc_with_probability v p l :
  with_probability v (insert_desc p l) = with_probability v (p :: l).
Proof.
  unfold with_probability.
  induction l as [ | q l IH]; simpl; [reflexivity | ].
  destruct (lt (probability p) (probability q)) eqn:E; simpl; [ | reflexivity].
  rewrite IH. simpl. apply lt_true in E.
  destruct (Qeq_bool (probability p) v) eqn:Ep, (Qeq_bool (probability q) v) eqn:Eq;
    try reflexivity.
  apply Qeq_bool_iff in Ep, Eq. lra.
Qed.

Lemma in_firstn {A} n (l : list A) x : In x (firstn n l) -> In x l.
Proof.
  intros H. rewrite <- (firstn_skipn n l). apply in_or_app. now left.
Qed.

Lemma descending_firstn n l : descending l -> descending (firstn n l).
Proof.
  revert n. induction l as [ | p l IH]; intros [ | n]; simpl; auto.
  intros [Hp Hl]. split; [ | now apply IH].
  intros q Hq. apply Hp. now apply (in_firstn n).
Qed.

Lemma descending_app a b :
  descending (a ++ b) ->
  forall r o, In r a -> In o b -> (probability o <= probability r)%Q.
Proof.
  induction a as [ | p a IH]; simpl; [intros _ r o [] | ].
  intros [Hp Ha] r o [<- | Hr] Ho.
  - apply Hp, in_or_app. now right.
  - now apply IH.
Qed.

(** X5. [preds.sort((a, b) => b.probability - a.probability)] as the loop
    uses it: the result is a rearrangement of the model's output, in
    descending order of probability, and the entries with one and the same
    probability keep the order they have in the model's output. *)
Theorem sort_desc_stable_descending :
  forall l : list Prediction,
    Permutation l (sort_desc l) /\
    descending (sort_desc l) /\
    (forall v, with_probability v (sort_desc l) = with_probability v l).
Proof.
  intros l. split; [apply sort_desc_perm | split; [apply sort_desc_descending | ]].
  intros v. induction l as [ | p l IH]; [reflexivity | ].
  simpl. rewrite insert_desc_with_probability.
  unfold with_probability in *. simpl. now rewrite IH.
Qed.

(** *** What the overlays show *)

(** As [eff], leaving [stop] folded. *)
Ltac eff_stop :=
  cbv [loop stability schedule freezeOverlay call_predict
       requestAnimationFrame note error this upd
       Eff.bind Eff.try_catch Eff.ret Eff.throw Eff.get Eff.put Eff.modify
       Eff.emit Eff.when Eff.value Eff.final Eff.output].

Lemma stop_result st :
  stop st =
  Eff.mkResult (inl tt)
    (mkSess
       (set_webcam (match webcam (scanner st) with
                    | Some CamLive | Some CamStopped => Some CamStopped
                    | w => w
                    end)
                   (set_isRunning false (scanner st)))
       (match predLoopId (scanner st) with
        | Some id => filter (fun j => negb (Pos.eqb j id)) (queue st)
        | None => queue st
        end)
       (fresh st))
    [].
Proof.
  destruct st as [[tl bl mp fm mo pl wc ir th sw lt lk] q n]; eff; simpl.
  destruct pl; simpl; destruct wc as [[ | | ] | ]; simpl; reflexivity.
Qed.

Lemma loop_overlay_inv f st e :
  In e (Eff.output (loop f st)) ->
  match e with
  | PredList rows =>
      bottomLeftEl (scanner st) = true /\
      exists preds, predict f = PredictOk preds /\ rows = firstn 3 (sort_desc preds)
  | TopLeft (TopClass n p) =>
      topLeftEl (scanner st) = true /\
      exists top, top_of f = Some top /\ n = className top /\ p = probability top
  | TopLeft (LockedOn n) => exists top, top_of f = Some top /\ n = className top
  | TopLeft PredictionFailed => True
  | TopLeft _ => False
  | _ => True
  end.
Proof.
  destruct st as [[tl bl mp fm mo pl wc ir th sw lt lk] q n]. simpl.
  destruct ir, wc as [w | ], mo as [m | ], (predict f) as [preds | e'] eqn:Hp;
    try (destruct tl; eff; simpl; rewrite ?Hp; simpl; intuition (subst; auto); fail).
  unfold top_of. rewrite Hp.
  destruct (sort_desc preds) as [ | top rest] eqn:Hs;
    [eff; simpl; rewrite Hp; simpl; rewrite Hs; simpl; intros [] | ].
  destruct tl, bl, lt as [l | ]; eff_stop; simpl; rewrite Hp; simpl; rewrite Hs; simpl.
  all: repeat match goal with
       | |- context [if ?x then _ else _] => destruct x eqn:?; simpl
       end.
  all: try match goal with
       | |- context [stop ?s] =>
           let H := fresh in pose proof (stop_returns s) as [H1 H2];
           pose proof (stop_scanner s) as H3;
           destruct (stop s) as [v [s1 q1 n1] o1]; simpl in *; subst v o1 s1; simpl
       end.
  all: intros H; repeat (destruct H as [<- | H]); try destruct H; simpl; eauto 6.
  all: split; [reflexivity | exists preds; split; [reflexivity | now rewrite Hs]].
Qed.

(** X6. What [loop] writes to the overlays comes from the frame it
    evaluates. The list under the bottom-left overlay has the three most
    probable classes of the model's output (all of them if there are fewer
    than three), most probable first: no class left out is more probable
    than a class listed. The top-left overlay shows a class of the model's
    output with its probability, and no class of the output is more
    probable. *)
Theorem overlay_shows_ranking :
  forall (st : Sess) (f : Frame) (preds : list Prediction),
    predict f = PredictOk preds ->
    (forall rows, In (PredList rows) (Eff.output (loop f st)) ->
       List.length rows = Nat.min 3 (List.length preds) /\
       descending rows /\
       exists others,
         Permutation preds (rows ++ others) /\
         forall r o, In r rows -> In o others ->
                     (probability o <= probability r)%Q) /\
    (forall n p, In (TopLeft (TopClass n p)) (Eff.output (loop f st)) ->
       (exists top, In top preds /\ className top = n /\ probability top = p) /\
       (forall q, In q preds -> (probability q <= p)%Q)).
Proof.
  intros st f preds Hp. split.
  - intros rows Hin. apply loop_overlay_inv in Hin as (_ & preds' & Hp' & ->).
    assert (preds' = preds) by congruence. subst preds'.
    split; [ | split].
    + rewrite length_firstn.
      now rewrite <- (Permutation_length (sort_desc_perm preds)).
    + apply descending_firstn, sort_desc_descending.
    + exists (skipn 3 (sort_desc preds)). split.
      * rewrite firstn_skipn. apply sort_desc_perm.
      * apply descending_app. rewrite firstn_skipn. apply sort_desc_descending.
  - intros n p Hin. apply loop_overlay_inv in Hin as (_ & top & Htop & -> & ->).
    destruct (top_of_max f top preds Hp Htop) as [Hin Hmax].
    split; [exists top; auto | exact Hmax].
Qed.

Lemma overlay_shows_ranking_witness :
  let rows := [mkPrediction cat (975 # 1000); mkPrediction dog (1 # 100);
               mkPrediction (str "fish") (1 # 100)] in
  List.length rows = 3%nat /\ descending rows.
Proof.
  intros rows.
  refine (let H := proj1 (overlay_shows_ranking st_cat (frame_four 500) _ eq_refl)
                     rows _ in
          conj (proj1 H) (proj1 (proj2 H))).
  vm_compute. right. left. reflexivity.
Defined.

(** *** The overlays do not matter *)

Lemma loop_display_only f st :
  Eff.value (loop f (without_overlays st)) = Eff.value (loop f st) /\
  Eff.final (loop f (without_overlays st)) = without_overlays (Eff.final (loop f st)) /\
  Eff.output (loop f (without_overlays st)) = silent (Eff.output (loop f st)).
Proof.
  destruct st as [[tl bl mp fm mo pl wc ir th sw lt lk] q n].
  unfold without_overlays; simpl.
  destruct ir, wc as [w | ], mo as [m | ], (predict f) as [preds | e] eqn:Hp;
    try (destruct tl; eff; simpl; rewrite ?Hp; simpl; auto; fail).
  destruct (sort_desc preds) as [ | top rest] eqn:Hs;
    [eff; simpl; rewrite Hp; simpl; rewrite Hs; simpl; auto | ].
  destruct tl, bl, lt as [l | ]; eff_stop; simpl; rewrite Hp; simpl; rewrite Hs; simpl.
  all: repeat match goal with
       | |- context [if ?x then _ else _] => destruct x eqn:?; simpl
       end; rewrite ?stop_result; simpl; auto.
Qed.

Lemma stop_display_only st :
  Eff.value (stop (without_overlays st)) = Eff.value (stop st) /\
  Eff.final (stop (without_overlays st)) = without_overlays (Eff.final (stop st)) /\
  Eff.output (stop (without_overlays st)) = silent (Eff.output (stop st)).
Proof. rewrite !stop_result. simpl. auto. Qed.

Lemma silent_app a b : silent (a ++ b) = silent a ++ silent b.
Proof. apply filter_app. Qed.

Lemma tick_display_only f st :
  Eff.value (tick f (without_overlays st)) = Eff.value (tick f st) /\
  Eff.final (tick f (without_overlays st)) = without_overlays (Eff.final (tick f st)) /\
  Eff.output (tick f (without_overlays st)) = silent (Eff.output (tick f st)).
Proof.
  destruct st as [s [ | id q] n].
  - unfold without_overlays. eff. simpl. auto.
  - pose proof (loop_display_only f (mkSess s q n)) as (Hv & Hf & Ho).
    unfold without_overlays in *. simpl in *.
    cbv [tick spawn Eff.bind Eff.try_catch Eff.get Eff.put Eff.emit]. simpl.
    match goal with |- context [loop f ?a] =>
      match goal with |- context [loop f ?b] =>
        lazymatch a with b => fail | _ =>
          destruct (loop f a) as [v1 s1 o1]; destruct (loop f b) as [v2 s2 o2]
        end end end.
    simpl in *. subst. destruct v2 as [[] | e]; simpl; rewrite ?silent_app; simpl; auto.
Qed.

Lemma start_display_only env st :
  Eff.value (start env (without_overlays st)) = Eff.value (start env st) /\
  Eff.final (start env (without_overlays st)) = without_overlays (Eff.final (start env st)) /\
  Eff.output (start env (without_overlays st)) = silent (Eff.output (start env st)).
Proof.
  pose proof (loop_display_only (first env)) as HL.
  destruct st as [[tl bl mp fm mo pl wc ir th sw lt lk] q n].
  unfold without_overlays at 1 2 4; simpl.
  cbv [start loadModel webcam_setup is_none note error this upd spawn
       Eff.bind Eff.try_catch Eff.ret Eff.throw Eff.get Eff.put Eff.modify
       Eff.emit Eff.when].
  remember (loop (first env)) as L eqn:EL in *. clear EL.
  destruct (camera env) as [[ | | | ] | ], (load env) as [[ | | | ] | ], mo, tl;
    simpl; auto.
  all: match goal with Lv : M unit |- _ =>
         match goal with |- context [?g ?a] =>
           constr_eq g Lv;
           match goal with |- context [?g' ?b] =>
             constr_eq g' Lv;
             tryif constr_eq a b then fail else idtac;
             change a with (without_overlays b);
             destruct (HL b) as (Hv & Hf & Ho);
             destruct (Lv (without_overlays b)) as [v1 s1 o1];
             destruct (Lv b) as [v2 s2 o2]
           end
         end
       end.
  all: simpl in *; subst; destruct v2 as [[] | e]; simpl;
       repeat (rewrite ?silent_app; simpl); rewrite ?app_nil_r; auto.
Qed.

Lemma locks_silent out : locks (silent out) = locks out.
Proof.
  unfold silent. induction out as [ | e out IH]; [reflexivity | ].
  destruct e as [o | rows | what | info | e]; simpl; rewrite ?IH; reflexivity.
Qed.

Lemma perform_display_only c st :
  Eff.final (perform c (without_overlays st)) =
    without_overlays (Eff.final (perform c st)) /\
  Eff.output (perform c (without_overlays st)) = silent (Eff.output (perform c st)).
Proof.
  destruct c as [env | | f]; simpl.
  - destruct (start_display_only env st) as (Hv & Hf & Ho).
    unfold spawn, Eff.try_catch, Eff.emit.
    destruct (start env (without_overlays st)) as [v1 s1 o1].
    destruct (start env st) as [v2 s2 o2]. simpl in *. subst.
    destruct v2 as [[] | e]; simpl; rewrite ?silent_app; auto.
  - destruct (stop_display_only st) as (_ & Hf & Ho). auto.
  - destruct (tick_display_only f st) as (_ & Hf & Ho). auto.
Qed.

(** X7. The overlay elements are for display only. A scanner constructed
    without them goes through the same states, requests the same animation
    frames and calls [onLock] with the same arguments as one constructed
    with them, whatever the calls and the frames; its output is the one
    of the other scanner without the overlay writes. *)
Theorem overlays_are_display_only :
  forall (cs : list Call) (st : Sess),
    Eff.final (drive cs (without_overlays st)) =
      without_overlays (Eff.final (drive cs st)) /\
    Eff.output (drive cs (without_overlays st)) = silent (Eff.output (drive cs st)) /\
    locks (Eff.output (drive cs (without_overlays st))) =
      locks (Eff.output (drive cs st)).
Proof.
  intros cs.
  assert (H : forall st,
            Eff.final (drive cs (without_overlays st)) =
              without_overlays (Eff.final (drive cs st)) /\
            Eff.output (drive cs (without_overlays st)) =
              silent (Eff.output (drive cs st))).
  { induction cs as [ | c cs IH]; intros st; [split; reflexivity | ].
    destruct (drive_cons c cs st) as [-> ->].
    destruct (drive_cons c cs (without_overlays st)) as [-> ->].
    destruct (perform_display_only c st) as [-> ->].
    destruct (IH (Eff.final (perform c st))) as [-> ->].
    rewrite silent_app. auto. }
  intros st. destruct (H st) as [Hf Ho].
  split; [exact Hf | split; [exact Ho | ]].
  rewrite Ho. apply locks_silent.
Qed.

(** *** [start] that fails *)

(** X8. When the model cannot be loaded, or the camera cannot be set up,
    [start] rejects with that very error. The overlay, if there is one,
    ends up with the message chosen by the name of the error (blocked or
    not found, or failed to start), and the console gets the start error
    last. Nothing of the scan state is touched: [isRunning], [locked],
    [lastTop], [predLoopId] and the pending callbacks are as before, no
    animation frame is requested and [onLock] is not called. A failed load
    leaves the scanner as it was, so the next [start] loads again; a
    refused camera leaves the model loaded and a webcam object without a
    stream. As the page does not await [start], the error ends as an
    unhandled rejection. *)
Theorem start_failure_reported :
  forall (st : Sess) (env : StartEnv) (e : Exn),
    (model (scanner st) = None /\ load env = Some e) \/
    (camera env = Some e /\ (model (scanner st) = None -> load env = None)) ->
    let r := start env st in
    Eff.value r = inr e /\
    overlay_text (Eff.output r) =
      (if topLeftEl (scanner st) then Some (failure_overlay e) else None) /\
    last (Eff.output r) (ConsoleError "") = ConsoleError "TMScanner start error:" /\
    locks (Eff.output r) = [] /\
    isRunning (scanner (Eff.final r)) = isRunning (scanner st) /\
    locked (scanner (Eff.final r)) = locked (scanner st) /\
    lastTop (scanner (Eff.final r)) = lastTop (scanner st) /\
    predLoopId (scanner (Eff.final r)) = predLoopId (scanner st) /\
    queue (Eff.final r) = queue st /\
    fresh (Eff.final r) = fresh st /\
    (model (scanner st) = None -> load env = Some e -> Eff.final r = st) /\
    (camera env = Some e -> (model (scanner st) = None -> load env = None) ->
       model (scanner (Eff.final r)) <> None /\
       webcam (scanner (Eff.final r)) = Some CamNew) /\
    Eff.output (spawn (start env) st) = Eff.output r ++ [UnhandledRejection e].
Proof.
  intros st env e H r. subst r.
  destruct st as [[tl bl mp fm mo pl wc ir th sw lt lk] q n]. simpl in H |- *.
  cbv [start loadModel webcam_setup is_none note error this upd spawn
       Eff.bind Eff.try_catch Eff.ret Eff.throw Eff.get Eff.put Eff.modify
       Eff.emit Eff.when].
  destruct H as [[-> Hl] | [Hc Hl]].
  - simpl. rewrite Hl. destruct tl, e; simpl; repeat split; auto; try congruence.
    all: exfalso; match goal with K : None = None -> _ |- _ => specialize (K eq_refl); congruence end.
  - simpl. rewrite Hc.
    destruct mo as [m | ]; simpl; rewrite ?(Hl eq_refl); destruct tl, e; simpl.
    all: repeat split; auto; congruence.
Qed.

Lemma start_failure_reported_witness :
  let env := mkStartEnv None (Some NotAllowedError) (frame_of cat (99 # 100) 0) in
  Eff.value (start env (create cfg0)) = inr NotAllowedError /\
  overlay_text (Eff.output (start env (create cfg0))) = Some CameraBlocked.
Proof.
  intros env.
  refine (let H := start_failure_reported (create cfg0) env NotAllowedError _ in
          conj (proj1 H) (proj1 (proj2 H))).
  right. split; reflexivity.
Defined.

End SessionFacts.

(* ===================================================================== *)
(** ** Facts about the helpers of the page *)
(* ===================================================================== *)

Module PageFacts.

Import JS JSFacts Page.

(** *** The log keeps the latest ten entries *)

Lemma firstn_app_firstn {A} n (a b : list A) :
  firstn n (a ++ firstn n b) = firstn n (a ++ b).
Proof.
  rewrite !firstn_app, firstn_firstn.
  replace (Nat.min (n - List.length a) n) with (n - List.length a)%nat by lia.
  reflexivity.
Qed.

Lemma prepend_capped_firstn {A} (e : A) logs :
  (List.length logs <= 10)%nat -> prepend_capped e logs = firstn 10 (e :: logs).
Proof.
  intros H. unfold prepend_capped.
  destruct (Nat.ltb_spec 10 (List.length (e :: logs))) as [Hlt | Hle].
  - rewrite removelast_firstn_len. simpl in Hlt |- *.
    replace (List.length logs) with 10%nat by lia. reflexivity.
  - symmetry. apply firstn_all2. exact Hle.
Qed.

Lemma prepend_capped_length {A} (e : A) logs :
  List.length (prepend_capped e logs) =
  if (10 <=? List.length logs)%nat then List.length logs else S (List.length logs).
Proof.
  unfold prepend_capped.
  change (List.length (e :: logs)) with (S (List.length logs)).
  destruct (Nat.ltb_spec 10 (S (List.length logs))) as [Hlt | Hle];
    destruct (Nat.leb_spec 10 (List.length logs)) as [H1 | H1]; try lia.
  - rewrite removelast_firstn_len, length_firstn. simpl. lia.
  - reflexivity.
Qed.

(** X9. The log shows the ten latest entries, newest first: after any
    number of calls of [addLog] on a container that held at most ten
    entries, the container holds the entries of the calls, latest first,
    followed by the old ones, cut after the tenth. When the page has no
    log container, [addLog] does nothing. *)
Theorem addLog_keeps_latest_ten :
  forall (cs : list LogCall) (logs : list LogEntry),
    (List.length logs <= 10)%nat ->
    addLogs cs (Some logs) = Some (firstn 10 (rev (map entry_of cs) ++ logs)) /\
    addLogs cs None = None.
Proof.
  intros cs logs H. split.
  - revert logs H. induction cs as [ | c cs IH]; intros logs H.
    + change (Some logs = Some (firstn 10 logs)). now rewrite firstn_all2.
    + change (addLogs (c :: cs) (Some logs))
        with (addLogs cs (Some (prepend_capped (entry_of c) logs))).
      rewrite (prepend_capped_firstn (entry_of c) logs H).
      rewrite IH by (rewrite length_firstn; lia).
      change (map entry_of (c :: cs)) with (entry_of c :: map entry_of cs).
      change (rev (entry_of c :: map entry_of cs))
        with (rev (map entry_of cs) ++ [entry_of c]).
      rewrite firstn_app_firstn, <- app_assoc. reflexivity.
  - unfold addLogs. induction cs as [ | c cs IH]; [reflexivity | exact IH].
Qed.

Lemma addLog_keeps_latest_ten_witness :
  let call n := mkLogCall [n] None [] in
  let cs := map call [1; 2; 3; 4; 5; 6; 7; 8; 9; 10; 11; 12]%N in
  addLogs cs (Some []) =
    Some (map (fun n => entry_of (call n)) [12; 11; 10; 9; 8; 7; 6; 5; 4; 3]%N).
Proof.
  intros call cs.
  refine (eq_trans (proj1 (addLog_keeps_latest_ten cs [] _)) _).
  - simpl. lia.
  - reflexivity.
Defined.

(** *** [escapeHtml] *)

Lemma flat_map_flat_map {A B C} (f : A -> list B) (g : B -> list C) l :
  flat_map g (flat_map f l) = flat_map (fun x => flat_map g (f x)) l.
Proof.
  induction l as [ | x l IH]; [reflexivity | ].
  simpl. now rewrite flat_map_app, IH.
Qed.

Lemma escapeHtml_one_pass s : escapeHtml s = flat_map escape_unit s.
Proof.
  unfold escapeHtml, replaceAll. rewrite !flat_map_flat_map.
  apply flat_map_ext. intros c. unfold escape_unit, amp, lt_sign, gt_sign, quot, apos.
  destruct (N.eqb_spec c 38) as [-> | H1]; [reflexivity | ].
  destruct (N.eqb_spec c 60) as [-> | H2]; [reflexivity | ].
  destruct (N.eqb_spec c 62) as [-> | H3]; [reflexivity | ].
  destruct (N.eqb_spec c 34) as [-> | H4]; [reflexivity | ].
  destruct (N.eqb_spec c 39) as [-> | H5]; [reflexivity | ].
  simpl.
  repeat match goal with
         | H : c <> ?k |- context [N.eqb c ?k] =>
             rewrite (proj2 (N.eqb_neq c k) H); simpl
         end.
  reflexivity.
Qed.

Lemma escapeHtml_cons c s : escapeHtml (c :: s) = escape_unit c ++ escapeHtml s.
Proof. rewrite !escapeHtml_one_pass. reflexivity. Qed.

(** The six shapes of [escape_unit c]. *)
Lemma escape_unit_cases c :
  (c = amp /\ escape_unit c = str "&amp;") \/
  (c = lt_sign /\ escape_unit c = str "&lt;") \/
  (c = gt_sign /\ escape_unit c = str "&gt;") \/
  (c = quot /\ escape_unit c = str "&quot;") \/
  (c = apos /\ escape_unit c = str "&#039;") \/
  (c <> amp /\ c <> lt_sign /\ c <> gt_sign /\ c <> quot /\ c <> apos /\
   escape_unit c = [c]).
Proof.
  unfold escape_unit, amp, lt_sign, gt_sign, quot, apos.
  destruct (N.eqb_spec c 38) as [-> | H1]; [auto | ].
  destruct (N.eqb_spec c 60) as [-> | H2]; [auto | ].
  destruct (N.eqb_spec c 62) as [-> | H3]; [auto 6 | ].
  destruct (N.eqb_spec c 34) as [-> | H4]; [auto 7 | ].
  destruct (N.eqb_spec c 39) as [-> | H5]; [auto 8 | ].
  auto 12.
Qed.

(** X10. The result of [escapeHtml] is the input with each of the five
    characters replaced by its character reference, as if in one pass:
    replacing the ampersand first keeps the later replacements from
    touching a reference already written. The result contains no angle
    bracket and no quote, and every ampersand in it starts one of the five
    references. *)
Theorem escapeHtml_no_markup :
  forall s : jsstring,
    escapeHtml s = flat_map escape_unit s /\
    (forall c, In c (escapeHtml s) ->
       c <> lt_sign /\ c <> gt_sign /\ c <> quot /\ c <> apos) /\
    ampersands_escaped (escapeHtml s).
Proof.
  intros s. split; [apply escapeHtml_one_pass | ].
  induction s as [ | x s [IH1 IH2]]; [split; [intros c [] | exact I] | ].
  rewrite escapeHtml_cons.
  destruct (escape_unit_cases x)
    as [[-> ->] | [[-> ->] | [[-> ->] | [[-> ->] | [[-> ->] | (N1 & N2 & N3 & N4 & N5 & ->)]]]]].
  6:{ split.
      - intros c [<- | Hc]; [auto | now apply IH1].
      - simpl. split; [intros E; congruence | exact IH2]. }
  all: split;
    [ intros c Hc; apply in_app_or in Hc as [Hc | Hc]; [ | now apply IH1];
      simpl in Hc; unfold lt_sign, gt_sign, quot, apos;
      repeat (destruct Hc as [<- | Hc]; [repeat split; discriminate | ]);
      destruct Hc
    | simpl; unfold amp; repeat (split; [try (intros E; discriminate E) | ]);
      try exact IH2 ].
  all: intros _; unfold entities.
  - exists (str "&amp;"), (escapeHtml s). split; [simpl; auto | reflexivity].
  - exists (str "&lt;"), (escapeHtml s). split; [simpl; auto | reflexivity].
  - exists (str "&gt;"), (escapeHtml s). split; [simpl; auto | reflexivity].
  - exists (str "&quot;"), (escapeHtml s). split; [simpl; auto | reflexivity].
  - exists (str "&#039;"), (escapeHtml s). split; [simpl; auto 6 | reflexivity].
Qed.

(** X11. [escapeHtml] loses nothing: two strings with the same escaped
    form are the same string. *)
Theorem escapeHtml_injective :
  forall s t : jsstring, escapeHtml s = escapeHtml t -> s = t.
Proof.
  induction s as [ | x s IH]; intros [ | y t] H.
  - reflexivity.
  - rewrite escapeHtml_cons in H.
    destruct (escape_unit_cases y)
      as [[_ E] | [[_ E] | [[_ E] | [[_ E] | [[_ E] | (_ & _ & _ & _ & _ & E)]]]]];
      rewrite E in H; discriminate H.
  - rewrite escapeHtml_cons in H.
    destruct (escape_unit_cases x)
      as [[_ E] | [[_ E] | [[_ E] | [[_ E] | [[_ E] | (_ & _ & _ & _ & _ & E)]]]]];
      rewrite E in H; discriminate H.
  - rewrite !escapeHtml_cons in H.
    assert (K : x = y /\ escapeHtml s = escapeHtml t).
    { destruct (escape_unit_cases x)
        as [[-> Ex] | [[-> Ex] | [[-> Ex] | [[-> Ex] | [[-> Ex] |
            (X1 & X2 & X3 & X4 & X5 & Ex)]]]]];
      destruct (escape_unit_cases y)
        as [[-> Ey] | [[-> Ey] | [[-> Ey] | [[-> Ey] | [[-> Ey] |
            (Y1 & Y2 & Y3 & Y4 & Y5 & Ey)]]]]];
      rewrite ?Ex, ?Ey in H; unfold amp, lt_sign, gt_sign, quot, apos in *;
      simpl in H; try discriminate H;
      injection H; intros; subst; first [ now split | congruence ]. }
    destruct K as [-> K]. f_equal. now apply IH.
Qed.

Lemma escapeHtml_injective_witness : str "<a>" = [60; 97; 62]%N.
Proof.
  apply (escapeHtml_injective (str "<a>") [60; 97; 62]%N). reflexivity.
Defined.

(** *** [show] *)

Lemma add_active_views id doc :
  active_views doc = [] ->
  active_views (add_active id doc) =
  match getElementById id doc with
  | Some e => if el_view e then [set_active true e] else []
  | None => []
  end.
Proof.
  unfold active_views, getElementById.
  induction doc as [ | e doc IH]; simpl; [reflexivity | ].
  destruct (el_view e && el_active e) eqn:Ea; [discriminate | ].
  intros H. destruct (strict_eq (el_id e) id) eqn:Ei; simpl.
  - rewrite H. destruct (el_view e); reflexivity.
  - rewrite Ea. now apply IH.
Qed.

Lemma getElementById_map id f doc :
  (forall e, el_id (f e) = el_id e) ->
  getElementById id (map f doc) = option_map f (getElementById id doc).
Proof.
  intros H. unfold getElementById.
  induction doc as [ | e doc IH]; simpl; [reflexivity | ].
  rewrite H. destruct (strict_eq (el_id e) id); [reflexivity | exact IH].
Qed.

(** X12. After [show(viewId)] at most one view is active: the element
    with that id, if it is a view. When the page has no element with that
    id, or the element is not a view, no view is active. *)
Theorem show_activates_one_view :
  forall (viewId : jsstring) (doc : list Element),
    active_views (show viewId doc) =
    match getElementById viewId doc with
    | Some e => if el_view e then [set_active true e] else []
    | None => []
    end.
Proof.
  intros viewId doc. unfold show.
  rewrite add_active_views.
  - rewrite getElementById_map by (intros e; destruct (el_view e); reflexivity).
    destruct (getElementById viewId doc) as [e | ]; simpl; [ | reflexivity].
    destruct (el_view e) eqn:E; simpl; rewrite ?E; reflexivity.
  - unfold active_views. induction doc as [ | e doc IH]; [reflexivity | ].
    simpl. destruct (el_view e) eqn:E; simpl; rewrite E; simpl; [exact IH | exact IH].
Qed.

End PageFacts.

(* ===================================================================== *)
(** ** Facts about the flows of the page *)
(* ===================================================================== *)

Module FlowsFacts.

Import JS JSFacts Scanner Names Demo Flows EffFacts ScannerFacts SessionFacts DemoFacts.
Local Open Scope eff_scope.

(** *** Each flow keeps to its own variables *)

(** Takes a handler apart and settles the steps that do not touch what
    the invariant is about. *)
Ltac frame_steps :=
  keeps_steps;
  try match goal with
    | |- Eff.keeps _ (call _ _) => apply keeps_call; intros ? ? _ Hs; exact Hs
    | |- Eff.keeps _ (Eff.modify _) => apply keeps_modify; intros ? Hs; exact Hs
    end.

Ltac frame_handle Hi :=
  unfold handle, wired, startDemoFlow, startSoloFace, startSoloId,
    demoFaceScanAgain, demoIdScanAgain, demoBack, checkVerify, goVerified,
    soloFaceScanAgain, soloIdScanAgain, soloBack,
    start_scanner, stop_if_set, safeStop;
  try (exfalso; apply Hi; reflexivity);
  frame_steps;
  unfold onLock, onLockDemoFace, onLockDemoId, onLockSoloFace, onLockSoloId,
    start_scanner, stop_if_set;
  frame_steps;
  unfold onLockDemoId; frame_steps.

Lemma demo_part_kept a0 i :
  flow_of i <> Some FlowDemo ->
  Eff.keeps (fun a => demo_part a = demo_part a0) (handle i).
Proof.
  intros Hi. destruct i as [ | | | | | | | | | | | | r f idEnv];
    try destruct r; simpl in Hi; frame_handle Hi.
Qed.

Lemma solo_face_part_kept a0 i :
  flow_of i <> Some FlowSoloFace ->
  Eff.keeps (fun a => solo_face_part a = solo_face_part a0) (handle i).
Proof.
  intros Hi. destruct i as [ | | | | | | | | | | | | r f idEnv];
    try destruct r; simpl in Hi; frame_handle Hi.
Qed.

Lemma solo_id_part_kept a0 i :
  flow_of i <> Some FlowSoloId ->
  Eff.keeps (fun a => solo_id_part a = solo_id_part a0) (handle i).
Proof.
  intros Hi. destruct i as [ | | | | | | | | | | | | r f idEnv];
    try destruct r; simpl in Hi; frame_handle Hi.
Qed.

(** X13. The three flows of the page do not interfere through the
    variables of the script: a click or an animation frame changes the
    scanners, locks, Scan Again buttons and handlers of its own flow only
    (and the active view). In particular entering a solo flow neither stops
    nor restarts the scanners of the demo, and the Done button changes
    nothing but the view. *)
Theorem flows_do_not_interfere :
  forall (a : App) (i : Input),
    (flow_of i <> Some FlowDemo -> demo_part (react a i) = demo_part a) /\
    (flow_of i <> Some FlowSoloFace ->
       solo_face_part (react a i) = solo_face_part a) /\
    (flow_of i <> Some FlowSoloId -> solo_id_part (react a i) = solo_id_part a).
Proof.
  intros a i. unfold react. split; [ | split]; intros Hi.
  - apply (keeps_final (handle i) _ a (demo_part_kept a i Hi) eq_refl).
  - apply (keeps_final (handle i) _ a (solo_face_part_kept a i Hi) eq_refl).
  - apply (keeps_final (handle i) _ a (solo_id_part_kept a i Hi) eq_refl).
Qed.

Lemma flows_do_not_interfere_witness :
  let a := after (firstn 3 second_visit) in
  demo_part (react a (ClickFaceOnly env_cat)) = demo_part a.
Proof.
  intros a.
  apply (proj1 (flows_do_not_interfere a (ClickFaceOnly env_cat))).
  discriminate.
Defined.

(** *** Running the handlers *)

(** Unfolds the handlers of the page and the effect combinators. *)
Ltac page_eff :=
  cbv [handle wired startDemoFlow startSoloFace startSoloId
       demoFaceScanAgain demoIdScanAgain demoBack checkVerify goVerified
       soloFaceScanAgain soloIdScanAgain soloBack
       onLock onLockDemoFace onLockDemoId onLockSoloFace onLockSoloId
       start_scanner stop_if_set safeStop call slot set_slot
       set_view set_demoFaceScanner set_demoIdScanner set_lockedFace set_lockedId
       set_soloFaceScanner set_soloIdScanner set_demoFaceAgain set_demoIdAgain
       set_soloFaceAgain set_soloIdAgain set_demoWired set_soloFaceWired
       set_soloIdWired
       view demoFaceScanner demoIdScanner lockedFace lockedId
       soloFaceScanner soloIdScanner demoFaceAgain demoIdAgain
       soloFaceAgain soloIdAgain demoWired soloFaceWired soloIdWired
       Eff.bind Eff.try_catch Eff.ret Eff.throw Eff.get Eff.put Eff.modify
       Eff.emit Eff.when].

(** [stop], and the methods whose result is known from an equation in
    the context, as the handlers see them. *)
Lemma stop_shape st :
  stop st = Eff.mkResult (inl tt) (Eff.final (stop st)) [].
Proof.
  destruct (stop_returns st) as [Hv Ho].
  destruct (stop st) as [v st' out]. simpl in *. now subst.
Qed.

Lemma spawn_start_shape env st :
  exists out,
    spawn (start env) st = Eff.mkResult (inl tt) (Eff.final (start env st)) out /\
    locks out = [].
Proof.
  destruct (spawn_result (start env) st) as (Hv & Hf & Hl).
  rewrite start_never_locks in Hl.
  destruct (spawn (start env) st) as [v st' out]. simpl in *. subst.
  exists out. auto.
Qed.

Lemma tick_shape f st :
  tick f st = Eff.mkResult (inl tt) (Eff.final (tick f st)) (Eff.output (tick f st)).
Proof.
  pose proof (tick_value f st) as Hv.
  destruct (tick f st) as [v st' out]. simpl in *. now subst.
Qed.

(** Runs a handler on a page state given by its fields. *)
Ltac page_run :=
  page_eff;
  repeat (first
            [ match goal with
              | |- context [stop ?s] =>
                  let H := fresh in
                  let z := fresh "z" in
                  pose proof (stop_shape s) as H;
                  remember (Eff.final (stop s)) as z in *;
                  rewrite H; clear H
              end
            | match goal with
              | Es : spawn ?m ?s = _ |- context [spawn ?m ?s] => rewrite Es
              | Et : tick ?f ?s = _ |- context [tick ?f ?s] => rewrite Et
              | El : locks ?o = _ |- context [locks ?o] => rewrite El
              end ];
          page_eff; cbn [each map locks flat_map app]; page_eff).

Lemma stopped_at_rest st : at_rest (Some (Eff.final (stop st))).
Proof.
  intros st' [= <-].
  assert (Hr : isRunning (scanner (Eff.final (stop st))) = false)
    by (rewrite stop_scanner; reflexivity).
  split; [exact Hr | split].
  - rewrite stop_scanner. unfold released. simpl.
    destruct (webcam (scanner st)) as [[ | | ] | ]; discriminate.
  - intros fs. apply run_halted. now left.
Qed.

Lemma none_at_rest : at_rest None.
Proof. intros st' [=]. Qed.

(** Settles the conjuncts of a statement about the page after a handler
    has been run. *)
Ltac page_done :=
  cbn; repeat match goal with |- _ /\ _ => split end;
  try reflexivity; try assumption;
  try match goal with
      | |- at_rest None => apply none_at_rest
      | Hz : ?z = Eff.final (stop _) |- at_rest (Some ?z) =>
          rewrite Hz; apply stopped_at_rest
      end.

(** Names the result of the handler by an equation. *)
Ltac page_start :=
  match goal with
  | r := ?t |- _ =>
      let E := fresh "Er" in
      assert (E : r = t) by reflexivity; clearbody r; revert E
  end.

(** *** Leaving a flow *)

Lemma stop_called_stopped s : stopped (stop_called s).
Proof.
  destruct s as [st | ]; intros st' [= <-].
  split; [rewrite stop_scanner; reflexivity | ].
  rewrite stop_scanner. unfold released. simpl.
  destruct (webcam (scanner st)) as [[ | | ] | ]; discriminate.
Qed.

(** Settles what is left about scanners on which [stop] was called. *)
Ltac page_stopped :=
  try match goal with
      | |- stopped None => intros ? [=]
      | Hz : ?z = Eff.final (stop ?s) |- stopped (Some ?z) =>
          rewrite Hz; apply (stop_called_stopped (Some s))
      | Hz : ?z = Eff.final (stop _) |- Some ?z = Some _ =>
          rewrite Hz; reflexivity
      end.

(** X14. The Back button of the demo view, once assigned, never throws,
    also when a scanner variable is still undefined, writes nothing but
    the view, shows the home view, and calls [stop()] on both scanners of
    the demo, which stay in their variables: as the handler leaves them
    they are flagged as not running and the webcam objects they refer to
    hold no stream. The stored locks and the Scan Again buttons stay as
    they are. The Back buttons of the solo views do the same for their
    scanner. What a [start] or an inference still in flight does later is
    not part of the statement. *)
Theorem back_stops_scanners :
  forall a : App,
    (demoWired a = true ->
     let r := handle ClickDemoBack a in
     Eff.value r = inl tt /\ Eff.output r = [] /\
     view (Eff.final r) = ViewHome /\
     demoFaceScanner (Eff.final r) = stop_called (demoFaceScanner a) /\
     demoIdScanner (Eff.final r) = stop_called (demoIdScanner a) /\
     stopped (demoFaceScanner (Eff.final r)) /\
     stopped (demoIdScanner (Eff.final r)) /\
     lockedFace (Eff.final r) = lockedFace a /\
     lockedId (Eff.final r) = lockedId a /\
     demoFaceAgain (Eff.final r) = demoFaceAgain a /\
     demoIdAgain (Eff.final r) = demoIdAgain a) /\
    (soloFaceWired a = true ->
     let r := handle ClickSoloFaceBack a in
     Eff.value r = inl tt /\ Eff.output r = [] /\
     view (Eff.final r) = ViewHome /\
     soloFaceScanner (Eff.final r) = stop_called (soloFaceScanner a) /\
     stopped (soloFaceScanner (Eff.final r))) /\
    (soloIdWired a = true ->
     let r := handle ClickSoloIdBack a in
     Eff.value r = inl tt /\ Eff.output r = [] /\
     view (Eff.final r) = ViewHome /\
     soloIdScanner (Eff.final r) = stop_called (soloIdScanner a) /\
     stopped (soloIdScanner (Eff.final r))).
Proof.
  intros a. split; [ | split]; intros Hw r; page_start;
    destruct a as [v dfs dis lf li sfs sis dfa dia sfa sia dw sfw siw];
    cbn in Hw; subst.
  - destruct dfs as [sf | ], dis as [sd | ]; page_run; intros ->; page_done;
      page_stopped.
  - destruct sfs as [sf | ]; page_run; intros ->; page_done; page_stopped.
  - destruct sis as [sd | ]; page_run; intros ->; page_done; page_stopped.
Qed.

Lemma back_stops_scanners_witness :
  let a := after (firstn 1 second_visit) in
  option_map (fun st => isRunning (scanner st)) (demoFaceScanner a) = Some true /\
  view (react a ClickDemoBack) = ViewHome /\
  stopped (demoFaceScanner (react a ClickDemoBack)) /\
  stopped (demoIdScanner (react a ClickDemoBack)).
Proof.
  intros a.
  assert (Hw : demoWired a = true) by (vm_compute; reflexivity).
  destruct (proj1 (back_stops_scanners a) Hw)
    as (_ & _ & Hv & _ & _ & Hf & Hi & _).
  split; [vm_compute; reflexivity | ].
  split; [exact Hv | split; [exact Hf | exact Hi]].
Defined.

(** *** Verify, when the names match *)



(** *** The lock callbacks of the demo *)

(** A frame on which the scanner locks leaves it at rest. *)
Lemma tick_lock_rest f st info :
  locks (Eff.output (tick f st)) = [info] ->
  at_rest (Some (Eff.final (tick f st))).
Proof.
  intros H. destruct (queue st) as [ | id q] eqn:Eq.
  - destruct (tick_halted f st (or_intror Eq)) as (E & _).
    rewrite E in H. discriminate.
  - rewrite (tick_locks f st id q Eq) in H.
    destruct (tick_loop f st id q Eq) as [-> _].
    destruct (loop_outcome f (mkSess (scanner st) q (fresh st)))
      as [[_ E] | (_ & _ & p & _ &
                   [(_ & _ & E) | (l & _ & [(_ & _ & E) | (_ & -> & _)])])];
      try (rewrite E in H; discriminate).
    apply stopped_at_rest.
Qed.

(** X16. When the face scanner of the demo locks on a frame, its callback
    stores the lock, marks the face step done and the ID step active,
    shows the Scan Again button of the face, logs the locked label, sets the
    status to waiting for the ID, and puts a new scanner, constructed for
    the ID model and the environment camera and started at once, into the
    variable of the ID scanner, whatever that variable held. The face
    scanner is left as its own lock stopped it, flagged as not running
    and with no stream held by its webcam object; the ID lock and the view
    are left as they are, and nothing is thrown. *)
Theorem face_lock_starts_id_scan :
  forall (a : App) (f : Frame) (idEnv : StartEnv) (st : Sess) (info : LockInfo),
    demoFaceScanner a = Some st ->
    locks (Eff.output (tick f st)) = [info] ->
    let r := handle (Animate DemoFace f idEnv) a in
    Eff.value r = inl tt /\
    lockedFace (Eff.final r) = Some info /\
    demoFaceAgain (Eff.final r) = DisplayInlineFlex /\
    demoFaceScanner (Eff.final r) = Some (Eff.final (tick f st)) /\
    stopped (demoFaceScanner (Eff.final r)) /\
    demoIdScanner (Eff.final r) = Some (started cfgId idEnv) /\
    lockedId (Eff.final r) = lockedId a /\
    view (Eff.final r) = view a /\
    In (SetStepState BadgeFace Done) (Eff.output r) /\
    In (AddLog (FaceLocked (info_className info))) (Eff.output r) /\
    In (SetStepState BadgeId Active) (Eff.output r) /\
    In (VerifyStatus WaitingForId) (Eff.output r).
Proof.
  intros a f idEnv st info Hs Hl r.
  assert (Hrest : stopped (Some (Eff.final (tick f st)))).
  { intros z Ez. destruct (tick_lock_rest f st info Hl z Ez) as (A & B & _). auto. }
  page_start.
  destruct (spawn_start_shape idEnv (create cfgId)) as (out & Es & Eo).
  fold (started cfgId idEnv) in Es.
  remember (started cfgId idEnv) as sid eqn:E. clear E.
  pose proof (tick_shape f st) as Et.
  remember (Eff.final (tick f st)) as zt eqn:E. clear E.
  remember (Eff.output (tick f st)) as ot eqn:E. clear E.
  destruct a as [v dfs dis lf li sfs sis dfa dia sfa sia dw sfw siw].
  cbn in Hs. subst.
  destruct dis as [sd | ]; page_run; intros ->; page_done.
  all: rewrite ?in_app_iff; simpl; tauto.
Qed.

Lemma face_lock_starts_id_scan_witness :
  let a := after second_visit in
  let r := handle (Animate DemoFace (frame_of cat (99 # 100) 1000) env_cat) a in
  demoIdScanner a <> None /\
  demoIdScanner a <> Some (started cfgId env_cat) /\
  lockedFace (Eff.final r) = Some (mkLockInfo cat (99 # 100) 0) /\
  demoIdScanner (Eff.final r) = Some (started cfgId env_cat).
Proof.
  intros a r.
  assert (Hs : demoFaceScanner a = Some (started cfgFace env_cat))
    by (vm_compute; reflexivity).
  assert (Hl : locks (Eff.output (tick (frame_of cat (99 # 100) 1000)
                                       (started cfgFace env_cat))) =
               [mkLockInfo cat (99 # 100) 0])
    by (vm_compute; reflexivity).
  destruct (face_lock_starts_id_scan a (frame_of cat (99 # 100) 1000) env_cat
              (started cfgFace env_cat) (mkLockInfo cat (99 # 100) 0) Hs Hl)
    as (_ & H2 & _ & _ & _ & H6 & _).
  split; [vm_compute; discriminate | ].
  split; [vm_compute; discriminate | ].
  split; [exact H2 | exact H6].
Defined.



(** *** Entering the demo *)

(** X18. The Demo button starts the flow afresh, whatever the variables of
    the page hold: the handler never throws, shows the demo view, clears
    both locks, puts a new scanner, constructed for the face model and the
    user camera with [start()] called on it at once, into the variable of
    the face scanner, and assigns the handlers of the view. The previous
    ID scanner stays in its variable with [stop()] called: as the handler
    leaves it, it is flagged as not running and the webcam object it
    refers to holds no stream. The Scan Again buttons are left as they
    are; the sequencer waits for the first lock. Nothing is said about
    the scanner object the face variable held before, nor about what a
    [start] or an inference of a previous scanner that is still in flight
    does later. *)
Theorem click_demo_resets_flow :
  forall (a : App) (env idEnv : StartEnv),
    let r := handle (ClickDemo env idEnv) a in
    Eff.value r = inl tt /\
    view (Eff.final r) = ViewDemo /\
    lockedFace (Eff.final r) = None /\
    lockedId (Eff.final r) = None /\
    phase (Eff.final r) = AwaitingFirst /\
    demoWired (Eff.final r) = true /\
    demoFaceScanner (Eff.final r) = Some (started cfgFace env) /\
    demoIdScanner (Eff.final r) = stop_called (demoIdScanner a) /\
    stopped (demoIdScanner (Eff.final r)) /\
    demoFaceAgain (Eff.final r) = demoFaceAgain a /\
    demoIdAgain (Eff.final r) = demoIdAgain a.
Proof.
  intros a env idEnv r. page_start.
  destruct (spawn_start_shape env (create cfgFace)) as (out & Es & Eo).
  fold (started cfgFace env) in Es.
  remember (started cfgFace env) as sface eqn:E. clear E.
  destruct a as [v dfs dis lf li sfs sis dfa dia sfa sia dw sfw siw].
  destruct dfs as [sf | ], dis as [sd | ]; page_run; intros ->; page_done;
    page_stopped.
Qed.

End FlowsFacts.

(* ===================================================================== *)
(** ** Facts about the campus access demo *)
(* ===================================================================== *)

Module CampusFacts.

Import JS Page Campus EffFacts PageFacts.
Local Open Scope eff_scope.

(** Unfolds the methods and the effect combinators; [updateUI] and the
    loop over the timeouts stay folded. *)
Ltac campus_eff :=
  cbv [handle fire run_callback startDemo resetDemo simulateStudent simulateTeacher
       closeModal constructor initializeEventListeners initializeSystem
       advanceToNextPhase runDemoSequence demoStep grantAccess vehicleDetected
       idVerified showSuccessModal showAccessGranted simulateIDVerification
       simulateVehicleDetection push_timeout removeNotification showNotification
       resetPhaseUI updateDetectionBox updatePhaseDisplay addLog updateTime
       clearInterval clearTimeout clearTimer setInterval setTimeout setTimer
       page upd this
       on_step1 on_step2 on_step3 add_active add_completed no_classes
       set_status set_steps set_controls set_logs set_notifications set_modal_shown
       set_isRunning set_currentPhase set_personType set_accessGranted
       set_demoInterval set_phaseTimeouts is_unknown negb andb
       system timers nextTimer dom timer_id repeating callback delay
       arm notify on_system
       isRunning currentPhase personType accessGranted demoInterval phaseTimeouts
       current_phase person_type access_status step1 step2 step3
       start_disabled reset_disabled student_disabled teacher_disabled
       logs notifications modal_shown active completed
       Eff.bind Eff.try_catch Eff.ret Eff.throw Eff.get Eff.put Eff.modify
       Eff.emit Eff.when Eff.value Eff.final Eff.output app].

(** Decides the comparisons between constants. *)
Ltac campus_num :=
  cbv [Z.eqb Z.leb Z.ltb Z.compare Pos.compare Pos.compare_cont Pos.eqb].


(** *** [updateUI] writes the page, and nothing else *)

Lemma phase_regions (ph : Z) :
  (ph < 1 \/ ph = 1 \/ ph = 2 \/ ph = 3 \/ 3 < ph)%Z.
Proof. lia. Qed.

(** Decides the comparisons of a phase outside 1..3 with the constants
    of the script. *)
Ltac settle_phase :=
  repeat match goal with
    | |- context [(?a =? ?b)%Z] =>
        first [ replace (a =? b)%Z with false by (symmetry; apply Z.eqb_neq; lia)
              | replace (a =? b)%Z with true by (symmetry; apply Z.eqb_eq; lia) ]
    | |- context [(?a <=? ?b)%Z] =>
        first [ replace (a <=? b)%Z with false by (symmetry; apply Z.leb_gt; lia)
              | replace (a <=? b)%Z with true by (symmetry; apply Z.leb_le; lia) ]
    | |- context [(?a <? ?b)%Z] =>
        first [ replace (a <? b)%Z with false by (symmetry; apply Z.ltb_ge; lia)
              | replace (a <? b)%Z with true by (symmetry; apply Z.ltb_lt; lia) ]
    end.

(** Runs a method on a state given by its fields. *)
Ltac campus_run := repeat (progress (campus_eff; settle_phase)).

Lemma updateUI_result w :
  exists d' out,
    updateUI w =
      Eff.mkResult (inl tt) (mkWorld (system w) (timers w) (nextTimer w) d') out /\
    shown_for (system w) d' /\
    logs d' = logs (dom w) /\
    notifications d' = notifications (dom w) /\
    modal_shown d' = modal_shown (dom w).
Proof.
  destruct w as [[r ph pt ag di pts] tms n d].
  unfold updateUI, updatePhaseProgress, updateDemoControls, shown_for, getPhaseText.
  destruct (phase_regions ph) as [H | [-> | [-> | [-> | H]]]].
  all: destruct r, ag, pt;
       repeat (progress (campus_eff; settle_phase; campus_num)).
  all: eexists; eexists; (split; [reflexivity | ]);
       repeat (progress (campus_eff; settle_phase; campus_num));
       repeat split; reflexivity.
Qed.

(** Replaces a call of [updateUI] by its result. *)
Ltac ui_step :=
  match goal with
  | |- context [updateUI ?w] =>
      let d := fresh "d" in
      let o := fresh "o" in
      let E := fresh "E" in
      let Hs := fresh "Hshown" in
      let Hl := fresh "Hlogs" in
      let Hn := fresh "Hnotes" in
      let Hm := fresh "Hmodal" in
      destruct (updateUI_result w) as (d & o & E & Hs & Hl & Hn & Hm);
      rewrite E; clear E;
      cbn [system timers nextTimer dom logs notifications modal_shown] in Hs, Hl, Hn, Hm
  end.

Ltac campus_go := campus_run; repeat (ui_step; campus_run).

(** *** The loop over the phase timeouts *)

Lemma each_clearTimeout ids s tms n d :
  each clearTimeout ids (mkWorld s tms n d) =
  Eff.mkResult (inl tt) (mkWorld s (clear_all ids tms) n d) [].
Proof.
  revert tms. induction ids as [| id ids IH]; intros tms.
  - reflexivity.
  - cbn [each clear_all fold_left]. campus_eff.
    change (fold_left (fun l id0 => without id0 l) ids (without id tms))
      with (clear_all ids (without id tms)).
    rewrite IH. reflexivity.
Qed.

(** *** The page does not steer the object *)

Lemma react_core w i : core (react w i) = step i (core w).
Proof.
  destruct w as [[r ph pt ag di pts] tms n d].
  destruct i as [ | | | | | id]; unfold react, core, step, identify.
  - destruct r; campus_go; reflexivity.
  - campus_go. rewrite each_clearTimeout. campus_go.
    destruct di; campus_go; reflexivity.
  - destruct r; [destruct (Z.eqb_spec ph 1) as [-> | Hne] | ]; campus_go;
      try reflexivity.
  - destruct r; [destruct (Z.eqb_spec ph 1) as [-> | Hne] | ]; campus_go;
      try reflexivity.
  - campus_go. reflexivity.
  - campus_eff. destruct (lookup id tms) as [[tid rep cb dl] | ]; [ | reflexivity].
    unfold step_callback.
    destruct (phase_regions ph) as [H | [-> | [-> | [-> | H]]]].
    all: destruct rep, cb, r; campus_go; try reflexivity.
    all: destruct pt; campus_go; reflexivity.
Qed.

(** *** Lists of timers *)

Lemma lookup_some id tms t :
  lookup id tms = Some t -> In t tms /\ timer_id t = id.
Proof.
  unfold lookup. intros H. apply find_some in H. destruct H as [H1 H2].
  apply Pos.eqb_eq in H2. auto.
Qed.

Lemma in_without u id tms :
  In u (without id tms) <-> In u tms /\ timer_id u <> id.
Proof.
  unfold without. rewrite filter_In, negb_true_iff, Pos.eqb_neq. tauto.
Qed.

Lemma clear_all_cons id ids tms :
  clear_all (id :: ids) tms = clear_all ids (without id tms).
Proof. reflexivity. Qed.

Lemma in_clear_all u ids tms :
  In u (clear_all ids tms) <-> In u tms /\ ~ In (timer_id u) ids.
Proof.
  revert tms. induction ids as [| id ids IH]; intros tms.
  - cbn. tauto.
  - rewrite clear_all_cons, IH, in_without. cbn [In].
    split; intros H; intuition congruence.
Qed.

Lemma filter_keeps_ids_apart (keep : Timer -> bool) (tms : list Timer) :
  NoDup (map timer_id tms) -> NoDup (map timer_id (filter keep tms)).
Proof.
  induction tms as [| t tms IH]; cbn [map filter]; intros H.
  - constructor.
  - inversion H as [| ? ? Hn Hd]; subst.
    destruct (keep t); cbn [map]; auto.
    constructor; auto.
    intros Hin. apply Hn. apply in_map_iff in Hin.
    destruct Hin as (x & Hx & Hin). apply filter_In in Hin.
    apply in_map_iff. exists x. tauto.
Qed.

Lemma NoDup_clear_all ids tms :
  NoDup (map timer_id tms) -> NoDup (map timer_id (clear_all ids tms)).
Proof.
  revert tms. induction ids as [| id ids IH]; intros tms H.
  - exact H.
  - rewrite clear_all_cons. apply IH. apply filter_keeps_ids_apart. exact H.
Qed.

Lemma NoDup_new_timer tms n t :
  NoDup (map timer_id tms) ->
  (forall u, In u tms -> (timer_id u < n)%positive) ->
  timer_id t = n ->
  NoDup (map timer_id (tms ++ [t])).
Proof.
  intros Hd Hlt Ht. rewrite map_app. apply NoDup_app; auto.
  - cbn. constructor; [cbn; tauto | constructor].
  - intros a Ha [Hb | []]. apply in_map_iff in Ha.
    destruct Ha as (u & Hu & Hin). specialize (Hlt u Hin). lia.
Qed.

(** *** The invariant is kept *)

Lemma sound_core_fewer s tms tms' n :
  sound_core (s, tms, n) ->
  incl tms' tms ->
  NoDup (map timer_id tms') ->
  sound_core (s, tms', n).
Proof.
  intros (Hc & Ht & Hd & Hp & Hi) Hincl Hd'.
  refine (conj Hc (conj _ (conj Hd' (conj Hp Hi)))).
  rewrite Forall_forall in *. intros u Hu. apply Ht, Hincl, Hu.
Qed.

Lemma sound_core_without id s tms n :
  sound_core (s, tms, n) -> sound_core (s, without id tms, n).
Proof.
  intros H. apply (sound_core_fewer _ _ _ _ H).
  - intros u Hu. apply in_without in Hu. tauto.
  - apply filter_keeps_ids_apart. apply H.
Qed.

(** One more timer, the object changed from [s] to [s']. *)
Lemma sound_core_more s s' tms n t :
  sound_core (s, tms, n) ->
  timer_id t = n ->
  consistent s' ->
  (forall u, In u tms -> timer_ok s n u -> timer_ok s' (Pos.succ n) u) ->
  timer_ok s' (Pos.succ n) t ->
  Forall (fun id => (id < Pos.succ n)%positive) (phaseTimeouts s') ->
  (forall id, demoInterval s' = Some id -> (id < Pos.succ n)%positive) ->
  sound_core (s', tms ++ [t], Pos.succ n).
Proof.
  intros (Hc & Ht & Hd & Hp & Hi) Hid Hc' Hold Hnew Hp' Hi'.
  rewrite Forall_forall in Ht.
  refine (conj Hc' (conj _ (conj _ (conj Hp' Hi')))).
  - apply Forall_app. split.
    + apply Forall_forall. intros u Hu. apply Hold; auto.
    + constructor; [exact Hnew | constructor].
  - apply NoDup_new_timer with (n := n); auto.
    intros u Hu. apply (Ht u Hu).
Qed.

Lemma Forall_lt_snoc (l : list positive) n :
  Forall (fun id => (id < n)%positive) l ->
  Forall (fun id => (id < Pos.succ n)%positive) (l ++ [n]).
Proof.
  intros H. apply Forall_app. split.
  - revert H. apply Forall_impl. intros; lia.
  - constructor; [lia | constructor].
Qed.

Lemma in_lt_neq (l : list positive) n :
  Forall (fun id => (id < n)%positive) l -> ~ In n l.
Proof.
  intros H Hin. rewrite Forall_forall in H. specialize (H n Hin). lia.
Qed.

Lemma arm_sound cb ms s tms n :
  sound_core (s, tms, n) ->
  phase_timeout cb = true ->
  isRunning s = true ->
  (forall v, cb = GrantAccess v ->
     currentPhase s = 3%Z /\ v = vehicle_of (personType s)) ->
  (cb = VehicleDetected -> currentPhase s = 3%Z) ->
  sound_core (arm cb ms (s, tms, n)).
Proof.
  intros H Hcb Hr Hg Hv. pose proof H as (Hc & Ht & Hd & Hp & Hi).
  pose proof (in_lt_neq _ _ Hp) as Hn.
  destruct s as [r ph pt ag di pts]. cbn in Hr, Hg, Hv, Hp, Hi, Hn. subst r.
  unfold arm, set_phaseTimeouts. cbn [isRunning currentPhase personType
    accessGranted demoInterval phaseTimeouts].
  apply (sound_core_more _ _ _ _ _ H); cbn [timer_id phaseTimeouts demoInterval].
  - reflexivity.
  - unfold consistent in *. cbn in *. intuition discriminate.
  - intros u Hu (K1 & K2 & K3 & K4 & K5 & K6 & K7). cbn in K3, K4, K5, K6, K7.
    unfold timer_ok. cbn [isRunning currentPhase personType accessGranted
      demoInterval phaseTimeouts].
    rewrite in_app_iff. cbn [In].
    repeat match goal with |- _ /\ _ => split end; auto; try lia; try tauto.
    split; [tauto | intros [K | [K | []]]; [tauto | lia]].
  - unfold timer_ok. cbn [timer_id repeating callback isRunning currentPhase
      personType accessGranted demoInterval phaseTimeouts].
    rewrite in_app_iff. cbn [In].
    repeat match goal with |- _ /\ _ => split end; auto; try lia; try tauto.
    + destruct cb; try discriminate; reflexivity.
    + split; [intros ->; discriminate | intros K; specialize (Hi _ K); lia].
  - apply Forall_lt_snoc. exact Hp.
  - intros id K. specialize (Hi _ K). lia.
Qed.

Lemma notify_sound c : sound_core c -> sound_core (notify c).
Proof.
  destruct c as [[s tms] n]. intros H. pose proof H as (Hc & Ht & Hd & Hp & Hi).
  pose proof (in_lt_neq _ _ Hp) as Hn.
  unfold notify. apply (sound_core_more _ _ _ _ _ H); cbn [timer_id].
  - reflexivity.
  - exact Hc.
  - intros u Hu (K1 & K). split; [lia | exact K].
  - unfold timer_ok. cbn [timer_id repeating callback of_interval phase_timeout
      of_session].
    repeat match goal with |- _ /\ _ => split end;
      try discriminate; try reflexivity; try lia; try tauto.
    + split; [discriminate | intros K; tauto].
    + split; [discriminate | intros K; specialize (Hi _ K); lia].
  - revert Hp. apply Forall_impl. intros; lia.
  - intros id K. specialize (Hi _ K). lia.
Qed.

(** The object changes, the timers stay. *)
Lemma sound_core_system s s' tms n :
  sound_core (s, tms, n) ->
  consistent s' ->
  phaseTimeouts s' = phaseTimeouts s ->
  demoInterval s' = demoInterval s ->
  (forall u, In u tms -> timer_ok s n u -> timer_ok s' n u) ->
  sound_core (s', tms, n).
Proof.
  intros (Hc & Ht & Hd & Hp & Hi) Hc' Ep Ei Hold.
  rewrite Forall_forall in Ht.
  refine (conj Hc' (conj _ (conj Hd (conj _ _)))).
  - apply Forall_forall. intros u Hu. apply Hold; auto.
  - rewrite Ep. exact Hp.
  - rewrite Ei. exact Hi.
Qed.

Ltac split_all := repeat match goal with |- _ /\ _ => split end.

Lemma phase3_sound s tms n :
  sound_core (s, tms, n) ->
  isRunning s = true ->
  currentPhase s = 2%Z ->
  sound_core (set_currentPhase 3 s, tms, n).
Proof.
  intros H Hr Hph. pose proof H as (Hc & _).
  destruct s as [r ph pt ag di pts]. cbn in Hr, Hph. subst r ph.
  apply (sound_core_system _ _ _ _ H); try reflexivity.
  - unfold consistent in *. cbn in *.
    destruct Hc as (_ & (K1 & K2) & _ & K3).
    split_all; auto; try discriminate.
    split; [intros; discriminate | intros E; apply K2 in E; discriminate].
  - intros u Hu (K1 & K2 & K3 & K4 & K5 & K6 & K7).
    unfold timer_ok. cbn in *. split_all; auto.
    intros v E. destruct (K6 v E) as [? _]. discriminate.
Qed.

Lemma granted_sound s tms n :
  sound_core (s, tms, n) ->
  isRunning s = true ->
  currentPhase s = 3%Z ->
  sound_core (set_accessGranted true s, tms, n).
Proof.
  intros H Hr Hph. pose proof H as (Hc & _).
  destruct s as [r ph pt ag di pts]. cbn in Hr, Hph. subst r ph.
  apply (sound_core_system _ _ _ _ H); try reflexivity.
  - unfold consistent in *. cbn in *.
    destruct Hc as (K0 & K1 & _ & K3).
    split_all; auto; intros; discriminate.
  - intros u Hu K. exact K.
Qed.

Lemma identified_sound p s tms n :
  sound_core (s, tms, n) ->
  p <> unknown ->
  isRunning s = true ->
  currentPhase s = 1%Z ->
  sound_core (set_currentPhase 2 (set_personType p s), tms, n).
Proof.
  intros H Hp Hr Hph. pose proof H as (Hc & _).
  destruct s as [r ph pt ag di pts]. cbn in Hr, Hph. subst r ph.
  apply (sound_core_system _ _ _ _ H); try reflexivity.
  - unfold consistent in *. cbn in *.
    destruct Hc as (K0 & K1 & _ & K3).
    split_all; auto; try discriminate.
    + split; [intros; discriminate | intros E; contradiction].
    + intros E. destruct (K3 E) as [_ ?]. discriminate.
  - intros u Hu (K1 & K2 & K3 & K4 & K5 & K6 & K7).
    unfold timer_ok. cbn in *. split_all; auto.
    + intros v E. destruct (K6 v E) as [? _]. discriminate.
    + intros E. specialize (K7 E). discriminate.
Qed.

Lemma identify_sound p c :
  p <> unknown -> sound_core c -> sound_core (identify p c).
Proof.
  destruct c as [[s tms] n]. intros Hp H. unfold identify.
  destruct (isRunning s) eqn:Er; cbn [negb]; [ | apply notify_sound, H].
  destruct (Z.eqb_spec (currentPhase s) 1) as [E1 | E1]; cbn [negb];
    [ | apply notify_sound, H].
  cbn [on_system]. apply arm_sound; try reflexivity; try discriminate.
  - apply identified_sound; auto.
  - destruct s; exact Er.
Qed.

Lemma start_sound s tms n :
  sound_core (s, tms, n) ->
  isRunning s = false ->
  sound_core
    (set_demoInterval (Some n) (set_currentPhase 1 (set_isRunning true s)),
     tms ++ [mkTimer n true DemoStep 2000], Pos.succ n).
Proof.
  intros H Hr. pose proof H as (Hc & Ht & Hd & Hp & Hi).
  destruct s as [r ph pt ag di pts]. cbn in Hr. subst r.
  unfold consistent in Hc. cbn in Hc.
  destruct Hc as (_ & K1 & K2 & _). destruct (K2 eq_refl) as (-> & -> & ->).
  apply (sound_core_more _ _ _ _ _ H); cbn.
  - reflexivity.
  - unfold consistent. cbn. split_all; auto; try tauto; intros; discriminate.
  - intros u Hu (L1 & L2 & L3 & L4 & L5 & L6 & L7). cbn in *.
    unfold timer_ok. cbn. split_all; auto; try lia; try tauto.
    split.
    + intros E. assert (false = true) by (apply L5; rewrite E; reflexivity).
      discriminate.
    + intros E. injection E as E. lia.
  - unfold timer_ok. cbn. split_all; auto; try lia; try tauto; try discriminate.
  - constructor.
  - intros id E. injection E as <-. lia.
Qed.

Lemma reset_sound s tms n :
  sound_core (s, tms, n) -> sound_core (step ClickReset (s, tms, n)).
Proof.
  intros H. pose proof H as (Hc & Ht & Hd & Hp & Hi).
  rewrite Forall_forall in Ht. cbn [step].
  set (tms' := match demoInterval s with
               | Some id => without id (clear_all (phaseTimeouts s) tms)
               | None => clear_all (phaseTimeouts s) tms
               end).
  assert (Hin : forall u, In u tms' ->
            In u tms /\ ~ In (timer_id u) (phaseTimeouts s) /\
            demoInterval s <> Some (timer_id u)).
  { intros u Hu. unfold tms' in Hu. destruct (demoInterval s) as [id | ].
    - apply in_without in Hu. destruct Hu as [Hu Hne].
      apply in_clear_all in Hu. split_all; try tauto. congruence.
    - apply in_clear_all in Hu. split_all; try tauto. discriminate. }
  unfold sound_core. split_all.
  - unfold consistent. cbn. split_all; auto; try tauto; intros; discriminate.
  - apply Forall_forall. intros u Hu. destruct (Hin u Hu) as (Hu' & Hn1 & Hn2).
    destruct (Ht u Hu') as (L1 & L2 & L3 & L4 & L5 & L6 & L7).
    assert (Hns : of_session (callback u) = false).
    { destruct (callback u); cbn in *; try reflexivity; exfalso; tauto. }
    unfold timer_ok. cbn. split_all; auto; try tauto.
    + intros E. congruence.
    + intros v E. rewrite E in Hns. discriminate.
    + intros E. rewrite E in Hns. discriminate.
  - unfold tms'. destruct (demoInterval s).
    + apply filter_keeps_ids_apart, NoDup_clear_all, Hd.
    + apply NoDup_clear_all, Hd.
  - constructor.
  - exact Hi.
Qed.

Lemma callback_sound t s tms tms' n :
  sound_core (s, tms, n) ->
  In t tms ->
  incl tms' tms ->
  NoDup (map timer_id tms') ->
  sound_core (step_callback (callback t) (s, tms', n)).
Proof.
  intros H Hin Hincl Hd'.
  pose proof (sound_core_fewer _ _ _ _ H Hincl Hd') as H'.
  destruct H as (_ & Ht & _). rewrite Forall_forall in Ht.
  destruct (Ht t Hin) as (L1 & L2 & L3 & L4 & L5 & L6 & L7).
  unfold step_callback.
  destruct (callback t) as [ | | | | v | k]; try exact H'.
  - destruct (isRunning s) eqn:Er; cbn [negb]; [ | exact H'].
    destruct ((currentPhase s =? 1)%Z && is_unknown (personType s));
      [exact H' | ].
    destruct (Z.eqb_spec (currentPhase s) 2) as [E2 | E2].
    { apply arm_sound; auto; try discriminate. }
    destruct (Z.eqb_spec (currentPhase s) 3) as [E3 | E3]; [ | exact H'].
    apply arm_sound; auto; try discriminate.
  - destruct (isRunning s) eqn:Er; cbn [andb]; [ | exact H'].
    destruct (Z.eqb_spec (currentPhase s) 2) as [E2 | E2]; [ | exact H'].
    cbn [on_system]. apply arm_sound; try reflexivity; try discriminate.
    + apply phase3_sound; auto.
    + destruct s; exact Er.
  - destruct (isRunning s) eqn:Er; cbn [andb]; [ | exact H'].
    destruct (Z.eqb_spec (currentPhase s) 3) as [E3 | E3]; [ | exact H'].
    apply arm_sound; auto; try discriminate.
    intros v E. injection E as <-. auto.
  - destruct (isRunning s) eqn:Er; [ | exact H'].
    cbn [on_system]. apply granted_sound; auto.
    apply (L6 v eq_refl).
Qed.

Lemma sound_step i c : sound_core c -> sound_core (step i c).
Proof.
  destruct c as [[s tms] n]. intros H.
  destruct i as [ | | | | | id].
  - cbn [step]. destruct (isRunning s) eqn:Er; [exact H | ].
    apply start_sound; auto.
  - apply reset_sound, H.
  - apply identify_sound; [discriminate | exact H].
  - apply identify_sound; [discriminate | exact H].
  - exact H.
  - cbn [step]. destruct (lookup id tms) as [t | ] eqn:El; [ | exact H].
    apply lookup_some in El. destruct El as [Hin Hid].
    apply (callback_sound t s tms); auto.
    + destruct (repeating t); [apply incl_refl | ].
      intros u Hu. apply in_without in Hu. tauto.
    + destruct (repeating t); [apply H | ].
      apply filter_keeps_ids_apart, H.
Qed.

Lemma boot_core html :
  core (boot html) = (initial, [mkTimer 1 true UpdateTime 1000], 2%positive).
Proof.
  unfold boot, core. campus_go. reflexivity.
Qed.

Lemma boot_sound html : sound (boot html).
Proof.
  unfold sound. rewrite boot_core. unfold sound_core, initial.
  split_all.
  - unfold consistent. cbn. split_all; auto; try tauto; intros; discriminate.
  - constructor; [ | constructor]. unfold timer_ok. cbn.
    split_all; auto; try lia; try tauto; try discriminate.
    split; discriminate.
  - cbn. constructor; [cbn; tauto | constructor].
  - constructor.
  - intros id E. discriminate.
Qed.

Lemma react_sound w i : sound w -> sound (react w i).
Proof. unfold sound. rewrite react_core. apply sound_step. Qed.

Lemma reachable_sound html w : reachable html w -> sound w.
Proof.
  induction 1 as [| w i _ IH]; [apply boot_sound | apply react_sound, IH].
Qed.

Lemma after_app html ins i :
  after html (ins ++ [i]) = react (after html ins) i.
Proof. unfold after. rewrite fold_left_app. reflexivity. Qed.

Lemma after_reachable html ins : reachable html (after html ins).
Proof.
  induction ins as [| i ins IH] using rev_ind.
  - apply reach_boot.
  - rewrite after_app. apply reach_step, IH.
Qed.

Lemma after_sound html ins : sound (after html ins).
Proof. apply (reachable_sound html), after_reachable. Qed.

(** *** The page follows the object *)

Ltac shown_done :=
  try assumption;
  match goal with
  | H : shown_for _ _ |- shown_for _ _ =>
      unfold shown_for in H |- *;
      cbn [isRunning currentPhase personType accessGranted demoInterval
           phaseTimeouts current_phase person_type access_status step1 step2
           step3 start_disabled reset_disabled student_disabled
           teacher_disabled getPhaseText] in H |- *;
      exact H
  end.

Lemma react_shown w i :
  shown_for (system w) (dom w) ->
  shown_for (system (react w i)) (dom (react w i)).
Proof.
  destruct w as [[r ph pt ag di pts] tms n d].
  cbn [system dom]. intros H0.
  destruct i as [ | | | | | id]; unfold react.
  - destruct r; campus_go; shown_done.
  - campus_go. rewrite each_clearTimeout. campus_go.
    destruct di; campus_go.
    all: unfold shown_for in *; cbn in *; tauto.
  - destruct r; [destruct (Z.eqb_spec ph 1) as [-> | Hne] | ]; campus_go;
      shown_done.
  - destruct r; [destruct (Z.eqb_spec ph 1) as [-> | Hne] | ]; campus_go;
      shown_done.
  - campus_go. destruct d. exact H0.
  - campus_eff. destruct (lookup id tms) as [[tid rep cb dl] | ]; [ | exact H0].
    destruct (phase_regions ph) as [H | [-> | [-> | [-> | H]]]].
    all: destruct rep, cb, r; campus_go; try shown_done.
    all: destruct pt; campus_go; try shown_done.
Qed.

(** *** What is written to the log *)

Ltac logs_back :=
  repeat match goal with
    | H : logs ?x = _ |- _ => fold (logs x); rewrite H; clear H
    end.

Ltac logged_done :=
  logs_back;
  repeat first
    [ apply logged_same
    | apply logged_more; [intros ? ? ?; discriminate | ] ].

Lemma react_logged w i :
  sound w -> logged matching (logs (dom w)) (logs (dom (react w i))).
Proof.
  destruct w as [[r ph pt ag di pts] tms n d].
  intros Hs. cbn [dom].
  destruct i as [ | | | | | id]; unfold react.
  - destruct r; campus_go; logged_done.
  - campus_go. rewrite each_clearTimeout. campus_go.
    destruct di; campus_go; logged_done.
  - destruct r; [destruct (Z.eqb_spec ph 1) as [-> | Hne] | ]; campus_go;
      logged_done.
  - destruct r; [destruct (Z.eqb_spec ph 1) as [-> | Hne] | ]; campus_go;
      logged_done.
  - campus_go. logged_done.
  - campus_eff.
    destruct (lookup id tms) as [[tid rep cb dl] | ] eqn:El; [ | logged_done].
    apply lookup_some in El. destruct El as [Hin _].
    destruct Hs as ((_ & Hu & _) & Ht & _). rewrite Forall_forall in Ht.
    destruct (Ht _ Hin) as (_ & _ & _ & _ & _ & Hg & _).
    cbn in Hu, Hg. clear Ht Hin.
    destruct (phase_regions ph) as [H | [-> | [-> | [-> | H]]]].
    all: destruct rep, cb, r; campus_go; try solve [logged_done].
    all: destruct pt; campus_go; try solve [logged_done].
    all: logs_back; apply logged_more; [ | apply logged_same].
    all: intros p v E; injection E as <- <-.
    all: destruct (Hg _ eq_refl) as [K1 K2]; cbn in K2.
    all: try solve [rewrite K2; first [left; split; reflexivity
                                      | right; split; reflexivity]].
    all: destruct Hu as [_ Hu]; specialize (Hu eq_refl); lia.
Qed.

Lemma logged_length P l l' :
  logged P l l' -> (List.length l <= 10)%nat -> (List.length l' <= 10)%nat.
Proof.
  induction 1 as [| e l' He Hl IH]; intros H; [exact H | ].
  specialize (IH H). rewrite prepend_capped_length.
  destruct (Nat.leb_spec 10 (List.length l')); lia.
Qed.

Lemma in_removelast {A} (x : A) l : In x (removelast l) -> In x l.
Proof.
  induction l as [| a l IH]; [cbn; tauto | ].
  destruct l as [| b l]; [cbn; tauto | ].
  change (removelast (a :: b :: l)) with (a :: removelast (b :: l)).
  intros [-> | H]; [left; reflexivity | right; apply IH, H].
Qed.

Lemma in_prepend_capped {A} (x e : A) l :
  In x (prepend_capped e l) -> x = e \/ In x l.
Proof.
  unfold prepend_capped. intros H.
  assert (K : In x (e :: l)).
  { destruct (10 <? List.length (e :: l))%nat; [apply in_removelast, H | exact H]. }
  destruct K as [<- | K]; auto.
Qed.

Lemma hd_prepend_capped {A} (e : A) l : hd_error (prepend_capped e l) = Some e.
Proof.
  unfold prepend_capped.
  destruct (Nat.ltb_spec 10 (List.length (e :: l))) as [H | H]; [ | reflexivity].
  destruct l as [| b l]; [cbn in H; lia | reflexivity].
Qed.

Lemma logged_grants l l' p v :
  logged matching l l' ->
  In (p, v) (grants l') ->
  In (p, v) (grants l) \/ (p = student /\ v = STU001) \/ (p = teacher /\ v = TCH001).
Proof.
  induction 1 as [| e l' He Hl IH]; intros H; [left; exact H | ].
  unfold grants in H. apply in_flat_map in H. destruct H as (x & Hx & Hin).
  apply in_prepend_capped in Hx. destruct Hx as [-> | Hx].
  - right. destruct (log_message e) as [ | | | | | | | | | | | | p' v'] eqn:E;
      try contradiction.
    destruct Hin as [Hin | []]. injection Hin as <- <-. apply (He _ _ E).
  - apply IH. unfold grants. apply in_flat_map. exists x. auto.
Qed.

Lemma boot_logged html : logged matching (logs html) (logs (dom (boot html))).
Proof.
  destruct html. unfold boot. campus_go. logged_done.
Qed.

Lemma logged_trans P a b c : logged P a b -> logged P b c -> logged P a c.
Proof.
  intros Hab Hbc. induction Hbc as [| e l' He Hl IH]; [exact Hab | ].
  apply logged_more; auto.
Qed.

Lemma after_logged html ins :
  logged matching (logs (dom (boot html))) (logs (dom (after html ins))).
Proof.
  induction ins as [| i ins IH] using rev_ind.
  - change (after html []) with (boot html).
    generalize (boot html). intros w. apply logged_same.
  - rewrite after_app.
    apply (logged_trans _ _ _ _ IH), react_logged, after_sound.
Qed.

Lemma after_shown html ins :
  shown_for (system (after html ins)) (dom (after html ins)).
Proof.
  induction ins as [| i ins IH] using rev_ind.
  - unfold after. cbn [fold_left]. destruct html. unfold boot. campus_go.
    shown_done.
  - rewrite after_app. apply react_shown, IH.
Qed.

(** *** Single steps *)

Lemma NoDup_map_inj_in {A B} (f : A -> B) l a b :
  NoDup (map f l) -> In a l -> In b l -> f a = f b -> a = b.
Proof.
  induction l as [| x l IH]; cbn [map]; intros Hd Ha Hb E; [contradiction | ].
  inversion Hd as [| ? ? Hn Hd']; subst.
  destruct Ha as [-> | Ha], Hb as [-> | Hb]; auto.
  - exfalso. apply Hn. rewrite E. apply in_map, Hb.
  - exfalso. apply Hn. rewrite <- E. apply in_map, Ha.
Qed.

Lemma lookup_in t tms :
  NoDup (map timer_id tms) -> In t tms -> lookup (timer_id t) tms = Some t.
Proof.
  intros Hd Hin. unfold lookup.
  destruct (find (fun u => Pos.eqb (timer_id u) (timer_id t)) tms) as [u | ] eqn:E.
  - apply find_some in E. destruct E as [Hu E]. apply Pos.eqb_eq in E.
    f_equal. apply (NoDup_map_inj_in timer_id tms); auto.
  - exfalso. apply (find_none _ _ E) in Hin. rewrite Pos.eqb_refl in Hin.
    discriminate.
Qed.

(** A timer of [grantAccess] fires while the demo runs. *)
Lemma grant_shows w id t v :
  lookup id (timers w) = Some t ->
  callback t = GrantAccess v ->
  isRunning (system w) = true ->
  let w' := react w (Fire id) in
  modal_shown (dom w') = true /\
  access_status (dom w') = AccessGrantedText /\
  logs (dom w') =
    prepend_capped (mkLogEntry LogSuccess (MsgAccessGranted (personType (system w)) v))
                   (logs (dom w)).
Proof.
  destruct w as [[r ph pt ag di pts] tms n d].
  destruct t as [tid rep cb dl]. cbn [timers system callback isRunning dom].
  intros El -> ->. unfold react. campus_eff. rewrite El.
  destruct rep; campus_go.
  all: unfold shown_for in *; cbn in *.
  all: fold (logs d0); rewrite Hlogs.
  all: split_all; try reflexivity; tauto.
Qed.

Ltac modal_back :=
  repeat match goal with
    | H : modal_shown ?x = _ |- _ => fold (modal_shown x); rewrite H; clear H
    end;
  reflexivity.

(** Only [closeModal] hides the modal. *)
Lemma react_modal w i :
  i <> ClickClose ->
  modal_shown (dom w) = true ->
  modal_shown (dom (react w i)) = true.
Proof.
  destruct w as [[r ph pt ag di pts] tms n d].
  cbn [dom]. intros Hi H0.
  destruct i as [ | | | | | id]; unfold react; try congruence.
  - destruct r; campus_go; modal_back.
  - campus_go. rewrite each_clearTimeout. campus_go.
    destruct di; campus_go; modal_back.
  - destruct r; [destruct (Z.eqb_spec ph 1) as [-> | Hne] | ]; campus_go;
      modal_back.
  - destruct r; [destruct (Z.eqb_spec ph 1) as [-> | Hne] | ]; campus_go;
      modal_back.
  - campus_eff. destruct (lookup id tms) as [[tid rep cb dl] | ]; [ | exact H0].
    destruct (phase_regions ph) as [H | [-> | [-> | [-> | H]]]].
    all: destruct rep, cb, r; campus_go; try modal_back.
    all: destruct pt; campus_go; modal_back.
Qed.

(** *** Reset and the timers *)

Lemma filter_filter_and {A} (p q : A -> bool) l :
  filter q (filter p l) = filter (fun x => p x && q x) l.
Proof.
  induction l as [| a l IH]; [reflexivity | ].
  cbn [filter]. destruct (p a); cbn [andb filter]; [ | exact IH].
  destruct (q a); rewrite IH; reflexivity.
Qed.

Lemma clear_all_filter ids tms :
  clear_all ids tms =
  filter (fun t => negb (existsb (Pos.eqb (timer_id t)) ids)) tms.
Proof.
  revert tms. induction ids as [| id ids IH]; intros tms.
  - cbn. symmetry. apply forallb_filter_id. apply forallb_forall. reflexivity.
  - rewrite clear_all_cons, IH. unfold without. rewrite filter_filter_and.
    apply filter_ext. intros t. cbn [existsb].
    destruct (Pos.eqb (timer_id t) id); reflexivity.
Qed.

Lemma reset_timers s tms n :
  sound_core (s, tms, n) ->
  match demoInterval s with
  | Some id => without id (clear_all (phaseTimeouts s) tms)
  | None => clear_all (phaseTimeouts s) tms
  end = background tms.
Proof.
  intros (_ & Ht & _). rewrite Forall_forall in Ht.
  rewrite clear_all_filter. unfold background.
  assert (Hp : forall t, In t tms ->
            existsb (Pos.eqb (timer_id t)) (phaseTimeouts s) =
            phase_timeout (callback t)).
  { intros t Hin. destruct (Ht t Hin) as (_ & _ & L3 & _).
    destruct (phase_timeout (callback t)).
    - apply existsb_exists. exists (timer_id t). split; [tauto | apply Pos.eqb_refl].
    - destruct (existsb (Pos.eqb (timer_id t)) (phaseTimeouts s)) eqn:E;
        [ | reflexivity].
      apply existsb_exists in E. destruct E as (x & Hx & E).
      apply Pos.eqb_eq in E. subst x. symmetry. tauto. }
  destruct (demoInterval s) as [id | ] eqn:Ei.
  - unfold without. rewrite filter_filter_and. apply filter_ext_in.
    intros t Hin. rewrite (Hp t Hin). destruct (Ht t Hin) as (_ & _ & _ & L4 & _).
    destruct (Pos.eqb_spec (timer_id t) id) as [E | E].
    + assert (K : callback t = DemoStep) by (apply L4; congruence).
      rewrite K. reflexivity.
    + assert (K : callback t <> DemoStep).
      { intros K. apply L4 in K. congruence. }
      destruct (callback t); try reflexivity. contradiction.
  - apply filter_ext_in. intros t Hin. rewrite (Hp t Hin).
    destruct (Ht t Hin) as (_ & _ & _ & L4 & _).
    assert (K : callback t <> DemoStep).
    { intros K. apply L4 in K. congruence. }
    destruct (callback t); try reflexivity. contradiction.
Qed.

(** *** While the demo does not run *)

Lemma idle_fire w id :
  isRunning (system w) = false ->
  let w' := react w (Fire id) in
  system w' = system w /\
  dom w' = set_notifications (notifications (dom w')) (dom w) /\
  nextTimer w' = nextTimer w /\
  incl (timers w') (timers w) /\
  Eff.value (handle (Fire id) w) = inl tt /\
  Eff.output (handle (Fire id) w) =
    match lookup id (timers w) with
    | Some t => match callback t with UpdateTime => [ClockText] | _ => [] end
    | None => []
    end.
Proof.
  destruct w as [[r ph pt ag di pts] tms n d]. cbn [system isRunning timers].
  intros ->. unfold react. campus_eff.
  destruct (lookup id tms) as [[tid rep cb dl] | ].
  - destruct rep, cb; campus_go; destruct d; split_all; try reflexivity.
    all: first [apply incl_refl | intros u Hu; apply in_without in Hu; tauto].
  - destruct d; split_all; try reflexivity. apply incl_refl.
Qed.

(** *** The two identification buttons *)

Lemma accepted_click w i p :
  button i p ->
  isRunning (system w) = true ->
  currentPhase (system w) = 1%Z ->
  let w' := react w i in
  system w' =
    mkSystem true 2 p (accessGranted (system w)) (demoInterval (system w))
             (phaseTimeouts (system w) ++ [nextTimer w]) /\
  timers w' = timers w ++ [mkTimer (nextTimer w) false IdVerified 3000] /\
  nextTimer w' = Pos.succ (nextTimer w) /\
  notifications (dom w') = notifications (dom w) /\
  modal_shown (dom w') = modal_shown (dom w).
Proof.
  destruct w as [[r ph pt ag di pts] tms n d].
  cbn [system isRunning currentPhase accessGranted demoInterval phaseTimeouts
       timers nextTimer dom].
  intros [[-> ->] | [-> ->]] -> ->; unfold react; campus_go.
  all: fold (notifications d0); fold (modal_shown d0); rewrite Hnotes, Hmodal.
  all: split_all; reflexivity.
Qed.

Lemma refused_click w i p :
  button i p ->
  isRunning (system w) && (currentPhase (system w) =? 1)%Z = false ->
  let w' := react w i in
  let n := nextTimer w in
  system w' = system w /\
  timers w' = timers w ++ [mkTimer n false (RemoveNotification n) 3000] /\
  nextTimer w' = Pos.succ n /\
  dom w' =
    set_notifications
      (notifications (dom w) ++
       [if isRunning (system w)
        then mkNotification n StrapPhaseCompleted NoticeInfo
        else mkNotification n PleaseStartFirst NoticeWarning])
      (dom w).
Proof.
  destruct w as [[r ph pt ag di pts] tms n d].
  cbn [system isRunning currentPhase timers nextTimer dom].
  intros [[-> ->] | [-> ->]] H; unfold react.
  all: destruct r; cbn [andb] in H; [rewrite Z.eqb_neq in H | ]; campus_go.
  all: destruct d; split_all; reflexivity.
Qed.

(* --------------------------------------------------------------------- *)
(** *** The object over a session *)
(* --------------------------------------------------------------------- *)

(** X19. Whatever buttons are clicked and whatever timers fire, in any
    order and on any document, the fields of the object hang together:
    the phase is 1, 2 or 3; it is 1 exactly while the person is unknown;
    while the demo does not run, the phase is 1, access is not granted and
    no phase timeout is recorded; access is granted only while the demo
    runs in phase 3. *)
Theorem campus_fields_consistent :
  forall (html : Dom) (ins : list Input),
    consistent (system (after html ins)).
Proof.
  intros html ins. destruct (after_sound html ins) as [H _]. exact H.
Qed.

(** X20. Every pending timer of a demo session is on record in the object,
    so that [resetDemo] finds it: a pending callback of [runDemoSequence]
    is the interval stored in [demoInterval], a pending timeout of a phase
    has its identifier in [phaseTimeouts], and such timers are pending only
    while the demo runs. A timeout that grants access is pending only in
    phase 3, for the vehicle of the person identified. No two pending
    timers share an identifier. *)
Theorem session_timers_tracked :
  forall (html : Dom) (ins : list Input) (t : Timer),
    let w := after html ins in
    In t (timers w) ->
    (of_session (callback t) = true -> isRunning (system w) = true) /\
    (callback t = DemoStep <-> demoInterval (system w) = Some (timer_id t)) /\
    (phase_timeout (callback t) = true <->
       In (timer_id t) (phaseTimeouts (system w))) /\
    (forall v, callback t = GrantAccess v ->
       currentPhase (system w) = 3%Z /\ v = vehicle_of (personType (system w))) /\
    (forall u, In u (timers w) -> timer_id u = timer_id t -> u = t).
Proof.
  intros html ins t w Hin.
  destruct (after_sound html ins) as (_ & Ht & Hd & _).
  fold w in Ht, Hd. cbn [fst snd] in Ht, Hd.
  rewrite Forall_forall in Ht.
  destruct (Ht t Hin) as (_ & _ & L3 & L4 & L5 & L6 & _).
  split_all; auto.
  intros u Hu E. apply (NoDup_map_inj_in timer_id (timers w)); auto.
Qed.

Lemma session_timers_tracked_witness :
  let t := mkTimer 3 false IdVerified 3000 in
  let w := after blank [ClickStart; ClickStudent] in
  isRunning (system w) = true /\ In (timer_id t) (phaseTimeouts (system w)).
Proof.
  intros t w.
  assert (Hin : In t (timers w)) by (vm_compute; tauto).
  destruct (session_timers_tracked blank [ClickStart; ClickStudent] t Hin)
    as (H1 & _ & H3 & _).
  split; [apply H1; reflexivity | apply H3; reflexivity].
Defined.

(** X21. [resetDemo] cancels the timers of the demo session, all of them
    and no other: the pending timers afterwards are the clock and the
    removals of notifications, in their order. It sets the fields of the
    object back to those of the constructor, except [demoInterval], which
    keeps the identifier of the cancelled interval. *)
Theorem reset_cancels_session_timers :
  forall (html : Dom) (ins : list Input),
    let w := after html ins in
    let w' := react w ClickReset in
    timers w' = background (timers w) /\
    system w' = mkSystem false 1 unknown false (demoInterval (system w)) [] /\
    nextTimer w' = nextTimer w.
Proof.
  intros html ins w w'.
  pose proof (react_core w ClickReset) as E. fold w' in E.
  pose proof (after_sound html ins) as Hs. fold w in Hs.
  unfold core in E. cbn [step] in E.
  rewrite (reset_timers _ _ _ Hs) in E.
  injection E as E1 E2 E3. auto.
Qed.

(** X22. While the demo does not run, the timers that fire change nothing
    of the object, and of the page only the clock text and the
    notifications they remove. Every callback of a session returns at once:
    it writes nothing to the page, no log entry is written and no timer is
    set; the clock interval writes the clock text and nothing else; the
    removal of a notification writes nothing besides. *)
Theorem idle_timers_change_nothing :
  forall (w : World) (ids : list positive),
    isRunning (system w) = false ->
    let ins := map Fire ids in
    let w' := fold_left react ins w in
    system w' = system w /\
    dom w' = set_notifications (notifications (dom w')) (dom w) /\
    nextTimer w' = nextTimer w /\
    incl (timers w') (timers w) /\
    Forall (fun o => o = ClockText) (writes w ins) /\
    (forall id,
       Eff.value (handle (Fire id) w) = inl tt /\
       Eff.output (handle (Fire id) w) =
         match lookup id (timers w) with
         | Some t =>
             match callback t with UpdateTime => [ClockText] | _ => [] end
         | None => []
         end).
Proof.
  intros w ids Hr0 ins w'.
  assert (Hstep : forall id,
            Eff.value (handle (Fire id) w) = inl tt /\
            Eff.output (handle (Fire id) w) =
              match lookup id (timers w) with
              | Some t =>
                  match callback t with UpdateTime => [ClockText] | _ => [] end
              | None => []
              end).
  { intros id. destruct (idle_fire w id Hr0) as (_ & _ & _ & _ & Hv & Ho).
    split; assumption. }
  cut (system w' = system w /\
       dom w' = set_notifications (notifications (dom w')) (dom w) /\
       nextTimer w' = nextTimer w /\
       incl (timers w') (timers w) /\
       Forall (fun o => o = ClockText) (writes w ins)).
  { intros (H1 & H2 & H3 & H4 & H5). split_all; auto. }
  clear Hstep. subst ins w'. revert w Hr0.
  induction ids as [| id ids IH]; intros w Hr.
  - cbn. destruct w as [s tms n d]. destruct d. cbn.
    split_all; try reflexivity; [apply incl_refl | constructor].
  - cbn [map fold_left writes].
    destruct (idle_fire w id Hr) as (E1 & E2 & E3 & E4 & _ & E6).
    assert (Hr' : isRunning (system (react w (Fire id))) = false)
      by (rewrite E1; exact Hr).
    destruct (IH _ Hr') as (F1 & F2 & F3 & F4 & F5).
    split_all.
    + rewrite F1. exact E1.
    + rewrite F2 at 1. rewrite E2. destruct (dom w). reflexivity.
    + rewrite F3. exact E3.
    + intros u Hu. apply E4, F4, Hu.
    + apply Forall_app. split; [ | exact F5]. rewrite E6.
      destruct (lookup id (timers w)) as [t | ]; [ | constructor].
      destruct (callback t); repeat constructor.
Qed.

Lemma idle_timers_change_nothing_witness :
  let w := mkWorld (mkSystem false 2 student false None [])
                   [mkTimer 1 false IdVerified 3000;
                    mkTimer 2 false (GrantAccess STU001) 2000;
                    mkTimer 3 true DemoStep 2000;
                    mkTimer 4 true UpdateTime 1000] 5 blank in
  let ins := map Fire [1; 3; 4; 2; 3]%positive in
  let w' := fold_left react ins w in
  system w' = system w /\ dom w' = dom w /\ writes w ins = [ClockText].
Proof.
  intros w ins w'.
  assert (Hr : isRunning (system w) = false) by reflexivity.
  pose proof (idle_timers_change_nothing w [1; 3; 4; 2; 3]%positive Hr) as K.
  cbv zeta in K. destruct K as (H1 & H2 & _).
  split; [exact H1 | ].
  split; [subst w' ins; rewrite H2; vm_compute; reflexivity | ].
  vm_compute. reflexivity.
Defined.

(** X23. A click on an identification button outside phase 1 of a running
    demo is refused: the object is left as it is, no log entry is written,
    and the page gets one notification, a warning to start the demo first
    while the demo does not run and otherwise the information that the
    strap phase is completed, together with the timeout that removes it
    after three seconds. *)
Theorem refused_click_only_notifies :
  forall (w : World) (i : Input) (p : PersonType),
    button i p ->
    isRunning (system w) && (currentPhase (system w) =? 1)%Z = false ->
    let w' := react w i in
    let n := nextTimer w in
    system w' = system w /\
    timers w' = timers w ++ [mkTimer n false (RemoveNotification n) 3000] /\
    nextTimer w' = Pos.succ n /\
    dom w' =
      set_notifications
        (notifications (dom w) ++
         [if isRunning (system w)
          then mkNotification n StrapPhaseCompleted NoticeInfo
          else mkNotification n PleaseStartFirst NoticeWarning])
        (dom w).
Proof. exact refused_click. Qed.

Lemma refused_click_only_notifies_witness :
  let w := after blank [ClickStart; ClickTeacher] in
  notifications (dom (react w ClickStudent)) =
    [mkNotification 4 StrapPhaseCompleted NoticeInfo].
Proof.
  intros w.
  assert (Hb : button ClickStudent student) by (left; split; reflexivity).
  assert (Hg : isRunning (system w) && (currentPhase (system w) =? 1)%Z = false)
    by (vm_compute; reflexivity).
  destruct (refused_click_only_notifies w ClickStudent student Hb Hg)
    as (_ & _ & _ & E).
  rewrite E. vm_compute. reflexivity.
Defined.

(** X24. The page always shows the state of the object. After any clicks
    and timers, on any document, the status panel has the text of the
    phase, the person and the access status of the object; the three steps
    carry the classes [updatePhaseProgress] gives them for the phase; and
    the buttons are enabled or disabled as [updateDemoControls] sets them:
    Start exactly while the demo does not run, Reset exactly while it
    runs, the identification buttons exactly while it runs in phase 1. *)
Theorem page_shows_object_state :
  forall (html : Dom) (ins : list Input),
    let w := after html ins in
    shown_for (system w) (dom w) /\
    enabled w ClickStart = negb (isRunning (system w)) /\
    enabled w ClickReset = isRunning (system w) /\
    enabled w ClickStudent =
      isRunning (system w) && (currentPhase (system w) =? 1)%Z /\
    enabled w ClickTeacher =
      isRunning (system w) && (currentPhase (system w) =? 1)%Z.
Proof.
  intros html ins w. pose proof (after_shown html ins) as H. fold w in H.
  split; [exact H | ].
  destruct H as (_ & _ & _ & _ & _ & _ & H7 & H8 & H9 & H10).
  unfold enabled. rewrite H7, H8, H9, H10, !negb_involutive. auto.
Qed.

(** X25. The two refusals of the identification buttons are never seen
    by a user who clicks a button that is enabled: such a click always
    identifies the person, moves the object to phase 2, sets the timeout
    of the ID verification and records it, and adds no notification. *)
Theorem enabled_click_is_never_refused :
  forall (html : Dom) (ins : list Input) (i : Input) (p : PersonType),
    let w := after html ins in
    button i p ->
    enabled w i = true ->
    let w' := react w i in
    personType (system w') = p /\
    currentPhase (system w') = 2%Z /\
    timers w' = timers w ++ [mkTimer (nextTimer w) false IdVerified 3000] /\
    phaseTimeouts (system w') = phaseTimeouts (system w) ++ [nextTimer w] /\
    notifications (dom w') = notifications (dom w).
Proof.
  intros html ins i p w Hb He w'.
  pose proof (after_shown html ins) as H. fold w in H.
  destruct H as (_ & _ & _ & _ & _ & _ & _ & _ & H9 & H10).
  assert (Hg : isRunning (system w) && (currentPhase (system w) =? 1)%Z = true).
  { destruct Hb as [[-> _] | [-> _]]; cbn [enabled] in He.
    - rewrite H9, negb_involutive in He. exact He.
    - rewrite H10, negb_involutive in He. exact He. }
  apply andb_true_iff in Hg. destruct Hg as [Hr Hph]. apply Z.eqb_eq in Hph.
  destruct (accepted_click w i p Hb Hr Hph) as (E1 & E2 & _ & E4 & _).
  fold w' in E1, E2, E4. rewrite E1. cbn. auto.
Qed.

Lemma enabled_click_is_never_refused_witness :
  let w := after blank [ClickStart] in
  personType (system (react w ClickTeacher)) = teacher /\
  currentPhase (system (react w ClickTeacher)) = 2%Z.
Proof.
  intros w.
  assert (Hb : button ClickTeacher teacher) by (right; split; reflexivity).
  assert (He : enabled (after blank [ClickStart]) ClickTeacher = true)
    by (vm_compute; reflexivity).
  destruct (enabled_click_is_never_refused blank [ClickStart] ClickTeacher
              teacher Hb He) as (H1 & H2 & _).
  split; [exact H1 | exact H2].
Defined.

(** X26. Every log entry that reports granted access names the person
    identified together with the vehicle of that person: a student with
    STU001, a teacher with TCH001. The vehicle, fixed when it was detected,
    and the person, read when access is granted, cannot disagree, and
    access is never reported for an unknown person. Entries the document
    had before the script ran are left aside. *)
Theorem granted_log_names_vehicle :
  forall (html : Dom) (ins : list Input) (p : PersonType) (v : Vehicle),
    In (p, v) (grants (logs (dom (after html ins)))) ->
    In (p, v) (grants (logs html)) \/
    (p = student /\ v = STU001) \/ (p = teacher /\ v = TCH001).
Proof.
  intros html ins p v H.
  apply (logged_grants (logs html) (logs (dom (after html ins)))); auto.
  apply (logged_trans _ _ _ _ (boot_logged html)), after_logged.
Qed.

Lemma granted_log_names_vehicle_witness :
  let ins := [ClickStart; ClickTeacher; Fire 3; Fire 4; Fire 5]%positive in
  In (teacher, TCH001) (grants (logs (dom (after blank ins)))) /\
  (In (teacher, TCH001) (grants (logs blank)) \/
   (teacher = student /\ TCH001 = STU001) \/
   (teacher = teacher /\ TCH001 = TCH001)).
Proof.
  intros ins.
  assert (H : In (teacher, TCH001) (grants (logs (dom (after blank ins)))))
    by (vm_compute; tauto).
  split; [exact H | ].
  apply (granted_log_names_vehicle blank ins teacher TCH001 H).
Defined.

(** X27. The log never holds more than ten entries: on a document whose
    log container has at most ten, it has at most ten after any clicks and
    timers. *)
Theorem campus_log_at_most_ten :
  forall (html : Dom) (ins : list Input),
    (List.length (logs html) <= 10)%nat ->
    (List.length (logs (dom (after html ins))) <= 10)%nat.
Proof.
  intros html ins H.
  apply (logged_length matching (logs html)); auto.
  apply (logged_trans _ _ _ _ (boot_logged html)), after_logged.
Qed.

Lemma campus_log_at_most_ten_witness :
  let ins := [ClickStart; ClickReset; ClickStart; ClickStudent; ClickReset;
              ClickStart; ClickTeacher] in
  (List.length (logs (dom (after blank ins))) <= 10)%nat.
Proof.
  intros ins. apply (campus_log_at_most_ten blank ins). cbn. lia.
Defined.

(** X28. What the script decides never depends on what the page shows:
    two states with the same object and the same pending timers have the
    same object and the same pending timers after the same click or timer,
    whatever their documents. *)
Theorem page_never_steers :
  forall (w1 w2 : World) (i : Input),
    core w1 = core w2 -> core (react w1 i) = core (react w2 i).
Proof.
  intros w1 w2 i E. rewrite !react_core, E. reflexivity.
Qed.

Lemma page_never_steers_witness :
  let w1 := boot blank in
  let w2 := boot (set_modal_shown true blank) in
  core (react w1 ClickStart) = core (react w2 ClickStart).
Proof.
  intros w1 w2. apply (page_never_steers w1 w2 ClickStart).
  vm_compute. reflexivity.
Defined.

(** *** From the strap to the gate *)

Lemma fire_pending w t :
  sound w ->
  In t (timers w) ->
  core (react w (Fire (timer_id t))) =
  step_callback (callback t)
    (system w,
     if repeating t then timers w else without (timer_id t) (timers w),
     nextTimer w).
Proof.
  intros Hs Hin. rewrite react_core. unfold core. cbn [step].
  destruct Hs as (_ & _ & Hd & _).
  rewrite lookup_in; auto.
Qed.

Lemma in_last {A} (l : list A) x : In x (l ++ [x]).
Proof. apply in_or_app. right. left. reflexivity. Qed.

Lemma step_keeps_granted i c :
  i <> ClickReset ->
  accessGranted (fst (fst c)) = true ->
  accessGranted (fst (fst (step i c))) = true.
Proof.
  destruct c as [[[r ph pt ag di pts] tms] n]. cbn [fst accessGranted].
  intros Hi ->.
  destruct i as [ | | | | | id]; try congruence; cbn [step isRunning].
  - destruct r; reflexivity.
  - unfold identify. cbn. destruct r; cbn; [ | reflexivity].
    destruct (ph =? 1)%Z; reflexivity.
  - unfold identify. cbn. destruct r; cbn; [ | reflexivity].
    destruct (ph =? 1)%Z; reflexivity.
  - reflexivity.
  - destruct (lookup id tms) as [[tid rep cb dl] | ]; [ | reflexivity].
    cbn [callback repeating].
    destruct cb, r; cbn; try reflexivity.
    + destruct ((ph =? 1)%Z && is_unknown pt); [reflexivity | ].
      destruct (ph =? 2)%Z; [reflexivity | ].
      destruct (ph =? 3)%Z; reflexivity.
    + destruct (ph =? 2)%Z; reflexivity.
    + destruct (ph =? 3)%Z; reflexivity.
Qed.

Lemma reset_modal w :
  modal_shown (dom (react w ClickReset)) = modal_shown (dom w).
Proof.
  destruct w as [[r ph pt ag di pts] tms n d]. unfold react.
  campus_go. rewrite each_clearTimeout. campus_go.
  destruct di; campus_go; modal_back.
Qed.

(** X29. A demo that runs in phase 1 is brought to the open gate by one
    click and three timeouts, from whatever went on before: the click on an
    identification button sets the timeout of the ID verification; when it
    fires, the object is in phase 3 and the timeout of the vehicle
    detection is set; when that fires, the timeout to grant access is set;
    and when that fires, access is granted to the person of the button, the
    status panel says so, the modal is shown, and the newest log entry
    reports the person with the vehicle of the person. *)
Theorem demo_reaches_access_granted :
  forall (html : Dom) (ins : list Input) (i : Input) (p : PersonType),
    let w := after html ins in
    button i p ->
    isRunning (system w) = true ->
    currentPhase (system w) = 1%Z ->
    let n := nextTimer w in
    let w' :=
      fold_left react
        [i; Fire n; Fire (Pos.succ n); Fire (Pos.succ (Pos.succ n))] w in
    accessGranted (system w') = true /\
    currentPhase (system w') = 3%Z /\
    personType (system w') = p /\
    modal_shown (dom w') = true /\
    access_status (dom w') = AccessGrantedText /\
    hd_error (logs (dom w')) =
      Some (mkLogEntry LogSuccess (MsgAccessGranted p (vehicle_of p))).
Proof.
  intros html ins i p w Hb Hr Hph n w'.
  pose proof (after_sound html ins) as Hs0. fold w in Hs0.
  unfold w'. cbn [fold_left].
  (* the click *)
  destruct (accepted_click w i p Hb Hr Hph) as (Es1 & Et1 & En1 & _).
  fold n in Es1, Et1, En1.
  pose proof (react_sound w i Hs0) as Hs1.
  set (w1 := react w i) in *.
  set (t1 := mkTimer n false IdVerified 3000) in *.
  assert (Hin1 : In t1 (timers w1)) by (rewrite Et1; apply in_last).
  (* the ID verification *)
  pose proof (fire_pending w1 t1 Hs1 Hin1) as E2.
  pose proof (react_sound w1 (Fire n) Hs1) as Hs2.
  change (timer_id t1) with n in E2.
  set (w2 := react w1 (Fire n)) in *.
  rewrite Es1, En1 in E2. cbn in E2. unfold core in E2.
  injection E2 as Es2 Et2 En2.
  set (t2 := mkTimer (Pos.succ n) false VehicleDetected 3000) in *.
  assert (Hin2 : In t2 (timers w2)) by (rewrite Et2; apply in_last).
  (* the vehicle detection *)
  pose proof (fire_pending w2 t2 Hs2 Hin2) as E3.
  pose proof (react_sound w2 (Fire (Pos.succ n)) Hs2) as Hs3.
  change (timer_id t2) with (Pos.succ n) in E3.
  set (w3 := react w2 (Fire (Pos.succ n))) in *.
  rewrite Es2, En2 in E3. cbn in E3. unfold core in E3.
  injection E3 as Es3 Et3 En3.
  set (t3 := mkTimer (Pos.succ (Pos.succ n)) false
               (GrantAccess (vehicle_of p)) 2000) in *.
  assert (Hin3 : In t3 (timers w3)) by (rewrite Et3; apply in_last).
  (* access is granted *)
  pose proof (fire_pending w3 t3 Hs3 Hin3) as E4.
  change (timer_id t3) with (Pos.succ (Pos.succ n)) in E4.
  assert (Hl3 : lookup (Pos.succ (Pos.succ n)) (timers w3) = Some t3).
  { destruct Hs3 as (_ & _ & Hd & _). apply (lookup_in t3); auto. }
  assert (Hr3 : isRunning (system w3) = true) by (rewrite Es3; reflexivity).
  destruct (grant_shows w3 _ t3 (vehicle_of p) Hl3 eq_refl Hr3)
    as (M1 & M2 & M3).
  set (w4 := react w3 (Fire (Pos.succ (Pos.succ n)))) in *.
  rewrite Es3 in E4. cbn in E4. unfold core in E4.
  injection E4 as Es4 _ _.
  rewrite Es4, M3, hd_prepend_capped, Es3. cbn.
  split_all; auto.
Qed.

Lemma demo_reaches_access_granted_witness :
  let w := after blank [ClickStart; ClickTeacher; ClickReset; ClickStart] in
  let n := nextTimer w in
  let w' :=
    fold_left react
      [ClickStudent; Fire n; Fire (Pos.succ n); Fire (Pos.succ (Pos.succ n))] w in
  accessGranted (system w') = true /\
  hd_error (logs (dom w')) =
    Some (mkLogEntry LogSuccess (MsgAccessGranted student STU001)).
Proof.
  intros w n w'.
  assert (Hb : button ClickStudent student) by (left; split; reflexivity).
  assert (Hr : isRunning (system w) = true) by (vm_compute; reflexivity).
  assert (Hph : currentPhase (system w) = 1%Z) by (vm_compute; reflexivity).
  pose proof (demo_reaches_access_granted blank
                [ClickStart; ClickTeacher; ClickReset; ClickStart]
                ClickStudent student Hb Hr Hph) as K.
  cbv zeta in K. subst w' n w.
  destruct K as (H1 & _ & _ & _ & _ & H6).
  split; [exact H1 | exact H6].
Defined.

(** X30. Access once granted stays granted until [resetDemo], and the
    modal once shown stays shown until [closeModal]: no other click and no
    timer takes either back. In particular [resetDemo], which withdraws
    the access, leaves the modal as it is. *)
Theorem granted_until_reset :
  forall (w : World) (i : Input),
    (i <> ClickReset -> accessGranted (system w) = true ->
       accessGranted (system (react w i)) = true) /\
    (i <> ClickClose -> modal_shown (dom w) = true ->
       modal_shown (dom (react w i)) = true) /\
    accessGranted (system (react w ClickReset)) = false /\
    modal_shown (dom (react w ClickReset)) = modal_shown (dom w) /\
    modal_shown (dom (react w ClickClose)) = false.
Proof.
  intros w i. split_all.
  - intros Hi H.
    pose proof (step_keeps_granted i (core w) Hi H) as K.
    rewrite <- react_core in K. exact K.
  - apply react_modal.
  - pose proof (react_core w ClickReset) as E. unfold core in E.
    cbn [step] in E. injection E as E _ _. rewrite E. reflexivity.
  - apply reset_modal.
  - destruct w as [s tms n d]. reflexivity.
Qed.

Lemma granted_until_reset_witness :
  let w := after blank [ClickStart; ClickStudent; Fire 3; Fire 4; Fire 5]%positive in
  accessGranted (system (react w ClickTeacher)) = true /\
  modal_shown (dom (react w (Fire 2))) = true.
Proof.
  intros w.
  destruct (granted_until_reset w ClickTeacher) as (H1 & _).
  destruct (granted_until_reset w (Fire 2)) as (_ & H2 & _).
  split.
  - apply H1; [discriminate | vm_compute; reflexivity].
  - apply H2; [discriminate | vm_compute; reflexivity].
Defined.

End CampusFacts.

(* ===================================================================== *)
(** ** Facts about the scanner with its awaits *)
(* ===================================================================== *)

Module AsyncFacts.

Import JS JSFacts Scanner EffFacts ScannerFacts Async.
Local Open Scope eff_scope.

(** Unfolds the steps of a run, then the methods of the scanner. *)
Ltac task :=
  cbv [act acts animate settle resume detach begin_start begin_loop
       after_predict predict_failed start_failed request_camera
       model_loaded model_failed acquire new_webcam await lift drop_await
       start_script frame_script nth_error app
       sess cam lost nextCam awaits];
  eff.

(** *** Single steps *)

Lemma detach_value (m : Task unit) r : Eff.value (detach m r) = inl tt.
Proof.
  unfold detach, Eff.try_catch. destruct (m r) as [[[] | e] r1 o1]; reflexivity.
Qed.

Lemma act_stop r :
  act Stop r =
  Eff.mkResult (inl tt)
    (mkRun (Eff.final (stop (sess r))) (cam r) (lost r) (nextCam r) (awaits r)) [].
Proof.
  unfold act, lift. destruct (stop_returns (sess r)) as [Hv Ho].
  destruct (stop (sess r)) as [v st o]. simpl in *. now subst.
Qed.

Lemma acts_step a l r r1 o1 :
  act a r = Eff.mkResult (inl tt) r1 o1 ->
  acts (a :: l) r =
  match acts l r1 with
  | Eff.mkResult v r2 o2 => Eff.mkResult v r2 (o1 ++ o2)
  end.
Proof. intros H. simpl. unfold Eff.bind. rewrite H. reflexivity. Qed.

(** Evaluates one step of a run on a state given field by field. *)
Ltac one_step :=
  cbv [act animate settle resume detach begin_start begin_loop predict_failed
       start_failed request_camera model_loaded model_failed acquire
       new_webcam await lift
       sess cam lost nextCam awaits
       note error this upd is_none
       Eff.bind Eff.try_catch Eff.ret Eff.throw Eff.get Eff.put Eff.modify
       Eff.emit Eff.when];
  simpl; rewrite ?Pos.eqb_refl; simpl.

(** Takes the first action off a list of actions. *)
Ltac step := erewrite acts_step by (one_step; reflexivity).

(** Unfolds [start] down to its call of [loop]. *)
Ltac atomic_start :=
  cbv [start loadModel webcam_setup is_none note error this upd spawn
       Eff.bind Eff.try_catch Eff.ret Eff.throw Eff.get Eff.put Eff.modify
       Eff.emit Eff.when Eff.value Eff.final Eff.output];
  simpl.

(** No step of a run throws: what goes wrong inside [start] or [loop]
    rejects a promise the caller does not look at. *)
Lemma act_value a r : Eff.value (act a r) = inl tt.
Proof.
  destruct a as [ | | | k ans].
  - apply detach_value.
  - now rewrite act_stop.
  - unfold act, animate, Eff.bind, Eff.get, Eff.put.
    destruct (queue (sess r)); [reflexivity | ].
    match goal with |- context [detach ?m ?x] =>
      pose proof (detach_value m x) as H; destruct (detach m x) as [v r1 o1] end.
    exact H.
  - unfold act, settle, Eff.bind, Eff.get, Eff.put.
    destruct (nth_error (awaits r) k) as [a | ]; [ | reflexivity].
    destruct (resume a ans) as [m | ] eqn:E; [ | reflexivity].
    assert (V : forall x, Eff.value (m x) = inl tt).
    { destruct a, ans as [[e | ] | f]; simpl in E; try discriminate.
      all: injection E as <-; intros x.
      all: try apply detach_value.
      all: destruct x as [[[tl bl mp fm mo pl wc ir th sw la lk] q n] c0 lo nc aw].
      all: try (destruct tl; try destruct e; one_step; reflexivity).
      all: try (one_step; destruct (Pos.eqb _ _); reflexivity).
      all: destruct tl, wc as [w | ], mo as [m | ]; one_step; reflexivity. }
    match goal with |- context [m ?x] =>
      specialize (V x); destruct (m x) as [v r1 o1] end.
    exact V.
Qed.

Lemma acts_last a r :
  acts [a] r = Eff.mkResult (inl tt) (Eff.final (act a r)) (Eff.output (act a r)).
Proof.
  simpl. unfold Eff.bind, Eff.ret. pose proof (act_value a r) as H.
  destruct (act a r) as [v r1 o1]. simpl in *. subst v. now rewrite app_nil_r.
Qed.

(** The settlement of a [predict] runs the rest of [loop] on the
    scanner as it is by then. *)
Lemma settle_predicted k f r :
  nth_error (awaits r) k = Some AwaitPredict ->
  act (Settle k (Predicted f)) r =
  match after_predict f (sess r) with
  | Eff.mkResult v st o =>
      Eff.mkResult (inl tt)
        (mkRun st (cam r) (lost r) (nextCam r) (drop_await k (awaits r)))
        (o ++ match v with inl _ => [] | inr e => [UnhandledRejection e] end)
  end.
Proof.
  intros H. unfold act, settle, Eff.bind, Eff.get, Eff.put. rewrite H.
  unfold resume, detach, lift, Eff.try_catch, Eff.emit. simpl.
  destruct (after_predict f (sess r)) as [[[] | e] st o]; simpl;
    rewrite ?app_nil_r; reflexivity.
Qed.

(** The settlement of any promise: the activation goes on with the
    promise no longer pending. *)
Lemma settle_resumes k ans r a m :
  nth_error (awaits r) k = Some a -> resume a ans = Some m ->
  act (Settle k ans) r =
  m (mkRun (sess r) (cam r) (lost r) (nextCam r) (drop_await k (awaits r))).
Proof.
  intros E R. unfold act, settle, Eff.bind, Eff.get, Eff.put. rewrite E, R.
  destruct (m _) as [v r1 o1]. reflexivity.
Qed.

Lemma acts_cons a l r :
  Eff.value (acts (a :: l) r) = Eff.value (acts l (Eff.final (act a r))) /\
  Eff.final (acts (a :: l) r) = Eff.final (acts l (Eff.final (act a r))) /\
  Eff.output (acts (a :: l) r) =
    Eff.output (act a r) ++ Eff.output (acts l (Eff.final (act a r))).
Proof.
  pose proof (act_value a r) as H. simpl. unfold Eff.bind at 1 2 3.
  destruct (act a r) as [v r1 o1]. simpl in *. subst v.
  destruct (acts l r1); auto.
Qed.

Lemma acts_value l r : Eff.value (acts l r) = inl tt.
Proof.
  revert r. induction l as [ | a l IH]; intros r; [reflexivity | ].
  destruct (acts_cons a l r) as (-> & _). apply IH.
Qed.

Lemma acts_app l1 l2 r :
  Eff.final (acts (l1 ++ l2) r) = Eff.final (acts l2 (Eff.final (acts l1 r))) /\
  Eff.output (acts (l1 ++ l2) r) =
    Eff.output (acts l1 r) ++ Eff.output (acts l2 (Eff.final (acts l1 r))).
Proof.
  revert r. induction l1 as [ | a l1 IH]; intros r; [simpl; auto | ].
  rewrite <- app_comm_cons.
  destruct (acts_cons a (l1 ++ l2) r) as (_ & -> & ->).
  destruct (acts_cons a l1 r) as (_ & -> & ->).
  destruct (IH (Eff.final (act a r))) as (-> & ->).
  now rewrite app_assoc.
Qed.

(** *** [loop] after its await *)

(** On a running scanner that has its model and its webcam, [loop] is
    its part after the await. *)
Lemma loop_after_predict f st :
  isRunning (scanner st) = true -> equipped (scanner st) ->
  loop f st = after_predict f st.
Proof.
  intros Hr [[m Hm] [w Hw]].
  destruct st as [[tl bl mp fm mo pl wc ir th sw lt lk] q n]; simpl in *.
  subst ir wc mo.
  destruct tl, bl, f as [[preds | e] nw dt]; task; simpl; try reflexivity.
  all: destruct (sort_desc preds) as [ | p rest]; simpl; try reflexivity.
  all: destruct lt as [l | ]; simpl.
  all: repeat match goal with
              | |- context [if ?c then _ else _] => destruct c; simpl
              end; try reflexivity.
  all: destruct pl, w; reflexivity.
Qed.

(** What [loop] does once [predict] has settled, whether the scanner is
    still running or not: nothing to the state and no lock, or, with a
    top prediction, it starts a streak, waits, or locks. *)
Lemma after_predict_outcome f st :
  (Eff.final (after_predict f st) = st /\
   locks (Eff.output (after_predict f st)) = [])
  \/ exists p, top_of f = Some p /\
       ((continued (scanner st) p = None /\
         Eff.final (after_predict f st) =
           rescheduled (set_lastTop (candidate (scanner st) p (now f)) (scanner st))
                       (queue st) (fresh st) /\
         locks (Eff.output (after_predict f st)) = [])
        \/ exists l, continued (scanner st) p = Some l /\
             ((ge (now f - since l) (stableWindowMs (scanner st)) = false /\
               Eff.final (after_predict f st) =
                 rescheduled (scanner st) (queue st) (fresh st) /\
               locks (Eff.output (after_predict f st)) = [])
              \/ (ge (now f - since l) (stableWindowMs (scanner st)) = true /\
                  Eff.final (after_predict f st) =
                    Eff.final (stop (mkSess (set_locked true (scanner st))
                                            (queue st) (fresh st))) /\
                  locks (Eff.output (after_predict f st)) =
                    [mkLockInfo (className p) (probability p) (date f)]))).
Proof.
  destruct st as [[tl bl mp fm mo pl wc ir th sw la lk] q n],
           f as [[preds | e] nw dt].
  2:{ left. destruct tl; task; simpl; auto. }
  unfold top_of, continued, candidate, rescheduled. simpl.
  destruct (sort_desc preds) as [ | p rest] eqn:Hs.
  { left. task; simpl. rewrite Hs. auto. }
  right. exists p. split; [reflexivity | ].
  destruct la as [l | ]; simpl.
  - destruct (strict_neq (name l) (className p) || JS.lt (probability p) th) eqn:Hc.
    + left. split; [reflexivity | ].
      destruct tl, bl; task; simpl; rewrite Hs; simpl; rewrite Hc.
      all: destruct (ge (probability p) th); simpl; auto.
    + right. exists l. split; [reflexivity | ].
      destruct (ge (nw - since l) sw) eqn:Hge.
      * right. split; [reflexivity | ].
        destruct tl, bl, pl, wc as [[ | | ] | ]; task; simpl; rewrite Hs; simpl.
        all: rewrite Hc, Hge; simpl; auto.
      * left. split; [reflexivity | ].
        destruct tl, bl; task; simpl; rewrite Hs; simpl.
        all: rewrite Hc, Hge; simpl; auto.
  - left. split; [reflexivity | ].
    destruct tl, bl; task; simpl; rewrite Hs; simpl.
    all: destruct (ge (probability p) th); simpl; auto.
Qed.

(** *** The runs without interleaving *)

Ltac split_ifs :=
  repeat match goal with
         | |- context [if ?c then _ else _] => destruct c; simpl
         end.

(** An animation-frame callback whose inference settles before anything
    else happens is [tick]. *)
Lemma tick_uninterrupted f r :
  awaits r = [] ->
  let res := acts (frame_script f) r in
  Eff.value res = inl tt /\
  Eff.final res =
    mkRun (Eff.final (tick f (sess r))) (cam r) (lost r) (nextCam r) [] /\
  Eff.output res = Eff.output (tick f (sess r)).
Proof.
  destruct r as [[[tl bl mp fm mo pl wc ir th sw la lk] q n] c lo nc aw].
  simpl. intros ->.
  destruct q as [ | id q]; [task; simpl; auto | ].
  destruct ir; [ | task; simpl; auto].
  destruct wc as [w | ]; [ | task; simpl; auto].
  destruct mo as [m | ]; [ | destruct tl; task; simpl; auto].
  destruct f as [[preds | e] nw dt]; [ | destruct tl; task; simpl; auto].
  destruct tl, bl; task; simpl.
  all: destruct (sort_desc preds) as [ | p rest]; simpl; auto.
  all: destruct la as [l | ]; simpl; split_ifs; auto.
  all: destruct pl, w; auto.
Qed.



(** A [start()] whose promises settle one after the other before
    anything else happens is [start]; a rejection of [setup] is what
    [camera] stands for there. *)
Lemma start_uninterrupted env r :
  awaits r = [] ->
  let res := acts (start_script env (scanner (sess r))) r in
  Eff.value res = inl tt /\
  sess (Eff.final res) = Eff.final (spawn (start env) (sess r)) /\
  awaits (Eff.final res) = [] /\
  Eff.output res = Eff.output (spawn (start env) (sess r)).
Proof.
  destruct r as [[[tl bl mp fm mo pl wc ir th sw la lk] q n] c lo nc aw].
  intros Haw. simpl in Haw. subst aw.
  destruct env as [ld cm f].
  cbv zeta. unfold start_script. cbn [sess scanner model load camera first].
  destruct mo as [m | ], ld as [e | ]; cbn [is_none app].
  3:{ destruct tl, e; repeat step; simpl. all: atomic_start; auto. }
  all: destruct cm as [e' | ].
  all: try (destruct tl, e'; repeat step; simpl; atomic_start; auto; fail).
  all: destruct tl; repeat step.
  all: rewrite acts_last, settle_predicted by reflexivity.
  all: atomic_start.
  all: rewrite loop_after_predict by (simpl; unfold equipped; simpl; eauto).
  all: match goal with |- context [after_predict ?f ?s] =>
         destruct (after_predict f s) as [[[] | e'] s1 o1] end.
  all: simpl; rewrite ?app_nil_r; auto.
Qed.

(** *** One activation at a time *)

Lemma one_activation_single r : one_activation r -> single_loop (sess r).
Proof.
  intros [[_ H] | (a & _ & Hq)]; [now apply one_pending_single | ].
  intros id Hin. rewrite Hq in Hin. destruct Hin.
Qed.

Lemma after_predict_one f st :
  queue st = [] -> one_pending (Eff.final (after_predict f st)).
Proof.
  intros Hq.
  destruct (after_predict_outcome f st)
    as [[-> _] | (p & _ & [(_ & -> & _) | (l & _ & [(_ & -> & _) | (_ & -> & _)])])].
  - now left.
  - right. exists (fresh st). rewrite Hq. auto.
  - right. exists (fresh st). rewrite Hq. auto.
  - left. match goal with |- context [stop ?s] => destruct (stop_queue s) as [-> _] end.
    simpl. rewrite Hq. now destruct (predLoopId (scanner st)).
Qed.

Lemma act_one_activation a r :
  (a = Start -> queue (sess r) = [] /\ awaits r = []) ->
  one_activation r -> one_activation (Eff.final (act a r)).
Proof.
  intros Hg H. destruct a as [ | | | k ans].
  - destruct (Hg eq_refl) as [Hq Ha].
    destruct r as [[[tl bl mp fm mo pl wc ir th sw la lk] q n] c lo nc aw].
    simpl in *. subst q aw.
    right. destruct mo, tl; one_step; eauto.
  - rewrite act_stop. unfold one_activation. cbn [Eff.final sess awaits].
    destruct (stop_queue (sess r)) as [Eq _]. unfold one_pending. rewrite Eq.
    destruct H as [[Ha [Hq | (id & Hq & Hp)]] | (a & Ha & Hq)]; rewrite Hq.
    + left. split; [exact Ha | left; now destruct (predLoopId _)].
    + left. split; [exact Ha | left]. rewrite Hp. simpl. now rewrite Pos.eqb_refl.
    + right. exists a. split; [exact Ha | now destruct (predLoopId _)].
  - destruct r as [[[tl bl mp fm mo pl wc ir th sw la lk] q n] c lo nc aw].
    unfold one_activation, one_pending in *. simpl in *.
    destruct H as [[-> [-> | (id & -> & ->)]] | (a & -> & ->)].
    + one_step. auto.
    + destruct ir, tl, wc as [w | ], mo as [m | ]; one_step; eauto.
    + one_step. eauto.
  - destruct (nth_error (awaits r) k) as [a | ] eqn:E.
    2:{ unfold act, settle, Eff.bind, Eff.get. rewrite E. simpl. auto. }
    destruct (resume a ans) as [m | ] eqn:R.
    2:{ unfold act, settle, Eff.bind, Eff.get. rewrite E, R. simpl. auto. }
    destruct H as [[Ha _] | (a' & Ha & Hq)]; [rewrite Ha in E; now destruct k | ].
    rewrite Ha in E. destruct k as [ | k]; [ | now destruct k].
    injection E as ->. 
    assert (E : nth_error (awaits r) 0 = Some a) by now rewrite Ha.
    destruct a, ans as [[e | ] | f]; try discriminate.
    7:{ rewrite (settle_predicted 0 f r E).
        pose proof (after_predict_one f (sess r) Hq) as K.
        destruct (after_predict f (sess r)) as [v st o].
        left. rewrite Ha. simpl in *. auto. }
    all: rewrite (settle_resumes 0 _ r _ m E R); simpl in R; injection R as <-.
    all: destruct r as [[[tl bl mp fm mo pl wc ir th sw la lk] q n] c0 lo nc aw].
    all: unfold one_activation, one_pending; simpl in *; subst q aw.
    all: destruct tl; try destruct e; destruct wc as [w | ], mo as [m0 | ]; one_step.
    all: try match goal with
             | |- context [Pos.eqb ?a ?b] => destruct (Pos.eqb a b); simpl
             end.
    all: eauto.
Qed.

Lemma acts_one_activation l r :
  starts_at_rest l r -> one_activation r -> one_activation (Eff.final (acts l r)).
Proof.
  revert r. induction l as [ | a l IH]; intros r Hl H; [exact H | ].
  destruct Hl as [Hg Hl]. destruct (acts_cons a l r) as (_ & -> & _).
  apply IH; [exact Hl | now apply act_one_activation].
Qed.

(** *** [stop] and what is in flight *)

(** A callback that runs on a scanner that is not running returns at
    its first line. *)
Lemma animate_not_running r :
  isRunning (scanner (sess r)) = false ->
  act Callback r =
  Eff.mkResult (inl tt)
    (mkRun (mkSess (scanner (sess r)) (List.tl (queue (sess r))) (fresh (sess r)))
           (cam r) (lost r) (nextCam r) (awaits r)) [].
Proof.
  destruct r as [[[tl bl mp fm mo pl wc ir th sw la lk] q n] c lo nc aw].
  simpl. intros ->. destruct q; one_step; reflexivity.
Qed.

Lemma after_predict_not_running f st :
  isRunning (scanner st) = false -> released (scanner st) ->
  isRunning (scanner (Eff.final (after_predict f st))) = false /\
  released (scanner (Eff.final (after_predict f st))).
Proof.
  intros Hr Hw.
  destruct (after_predict_outcome f st)
    as [[-> _] | (p & _ & [(_ & -> & _) | (l & _ & [(_ & -> & _) | (_ & -> & _)])])];
    rewrite ?stop_scanner; simpl; auto.
  unfold released in *. simpl.
  destruct (webcam (scanner st)) as [[ | | ] | ]; auto; discriminate.
Qed.

(** As long as no [start()] is called and no promise of a [start()]
    resolves, a scanner that is not running stays so, the webcam object
    it refers to stays released, and no other webcam object changes. *)
Lemma quiet_step a r :
  no_start a = true ->
  isRunning (scanner (sess r)) = false -> released (scanner (sess r)) ->
  isRunning (scanner (sess (Eff.final (act a r)))) = false /\
  released (scanner (sess (Eff.final (act a r)))) /\
  lost (Eff.final (act a r)) = lost r.
Proof.
  intros Ha Hr Hw. destruct a as [ | | | k [[e | ] | f]]; try discriminate.
  - rewrite act_stop. simpl. rewrite stop_scanner. unfold released in *. simpl.
    repeat split. destruct (webcam (scanner (sess r))) as [[ | | ] | ]; auto; discriminate.
  - rewrite (animate_not_running r Hr). simpl. auto.
  - destruct r as [[[tl bl mp fm mo pl wc ir th sw la lk] q n] c lo nc aw].
    simpl in *. unfold settle, Eff.bind, Eff.get. cbn [awaits].
    destruct (nth_error aw k) as [[ | c' | | ] | ]; simpl; auto.
    all: destruct tl, e; one_step; auto.
  - destruct (nth_error (awaits r) k) as [a | ] eqn:E.
    + destruct a.
      4:{ rewrite (settle_predicted k f r E).
          destruct (after_predict_not_running f (sess r) Hr Hw) as [H1 H2].
          destruct (after_predict f (sess r)) as [v st o]. simpl in *. auto. }
      all: unfold act, settle, Eff.bind, Eff.get; rewrite E; simpl; auto.
    + unfold act, settle, Eff.bind, Eff.get; rewrite E; simpl; auto.
Qed.

Lemma quiet_steps l r :
  forallb no_start l = true ->
  isRunning (scanner (sess r)) = false -> released (scanner (sess r)) ->
  isRunning (scanner (sess (Eff.final (acts l r)))) = false /\
  released (scanner (sess (Eff.final (acts l r)))) /\
  lost (Eff.final (acts l r)) = lost r.
Proof.
  revert r. induction l as [ | a l IH]; intros r Hl Hr Hw; [simpl; auto | ].
  simpl in Hl. apply andb_true_iff in Hl as [Ha Hl].
  destruct (acts_cons a l r) as (_ & -> & _).
  destruct (quiet_step a r Ha Hr Hw) as (H1 & H2 & H3).
  destruct (IH _ Hl H1 H2) as (K1 & K2 & K3).
  rewrite K3, H3. auto.
Qed.

(** The callbacks that are still pending on a scanner that is not
    running do nothing when the browser runs them. *)
Lemma animate_idle n r :
  isRunning (scanner (sess r)) = false ->
  Eff.output (acts (repeat Callback n) r) = [] /\
  scanner (sess (Eff.final (acts (repeat Callback n) r))) = scanner (sess r) /\
  awaits (Eff.final (acts (repeat Callback n) r)) = awaits r /\
  lost (Eff.final (acts (repeat Callback n) r)) = lost r.
Proof.
  revert r. induction n as [ | n IH]; intros r Hr; [simpl; auto | ].
  cbn [repeat]. destruct (acts_cons Callback (repeat Callback n) r) as (_ & -> & ->).
  rewrite (animate_not_running r Hr). cbn [Eff.final Eff.output app].
  destruct (IH (mkRun (mkSess (scanner (sess r)) (List.tl (queue (sess r)))
                              (fresh (sess r)))
                      (cam r) (lost r) (nextCam r) (awaits r)) Hr)
    as (-> & -> & -> & ->).
  auto.
Qed.

(** C7, as the script has it. [stop()] can be called in any state,
    whatever is pending or in flight: it returns normally and writes
    nothing; it leaves the scanner flagged as not running and stops the
    webcam object [this.webcam] refers to, if its stream was set up; it
    cancels the animation-frame callback recorded in [predLoopId], so
    that no callback is left pending when that was the only one, as it
    is when [start()] was only ever called with no callback pending and
    nothing in flight; a second [stop()] changes nothing. It does not
    touch what is in flight, nor the webcam objects of earlier
    activations. Afterwards the callbacks still pending return at their
    first line; and until [start()] is called or a promise of a
    [start()] in flight resolves, the scanner stays not running with
    that webcam object released, also when an inference in flight
    settles and is processed. *)
Theorem stop_clears_current_activation :
  forall r : Run,
    let r' := Eff.final (act Stop r) in
    let s := scanner (sess r) in
    let s' := scanner (sess r') in
    Eff.value (act Stop r) = inl tt /\
    Eff.output (act Stop r) = [] /\
    isRunning s' = false /\
    released s' /\
    s' = set_webcam (match webcam s with
                     | Some CamLive | Some CamStopped => Some CamStopped
                     | w => w
                     end)
                    (set_isRunning false s) /\
    queue (sess r') =
      match predLoopId s with
      | Some id => filter (fun j => negb (Pos.eqb j id)) (queue (sess r))
      | None => queue (sess r)
      end /\
    (forall id, predLoopId s = Some id -> ~ In id (queue (sess r'))) /\
    (single_loop (sess r) -> queue (sess r') = []) /\
    (forall cfg l, r = reached cfg l -> starts_at_rest l (created cfg) ->
       queue (sess r') = []) /\
    awaits r' = awaits r /\ lost r' = lost r /\
    cam r' = cam r /\ nextCam r' = nextCam r /\
    act Stop r' = Eff.mkResult (inl tt) r' [] /\
    (forall n,
       Eff.output (acts (repeat Callback n) r') = [] /\
       scanner (sess (Eff.final (acts (repeat Callback n) r'))) = s' /\
       awaits (Eff.final (acts (repeat Callback n) r')) = awaits r) /\
    (forall l, forallb no_start l = true ->
       isRunning (scanner (sess (Eff.final (acts l r')))) = false /\
       released (scanner (sess (Eff.final (acts l r')))) /\
       lost (Eff.final (acts l r')) = lost r).
Proof.
  intros r r' s s'. subst r' s s'.
  rewrite (act_stop r). cbn [Eff.value Eff.final Eff.output sess cam lost nextCam awaits].
  destruct (stop_queue (sess r)) as [Eq En].
  assert (Hrun : isRunning (scanner (Eff.final (stop (sess r)))) = false)
    by now rewrite stop_scanner.
  assert (Hrel : released (scanner (Eff.final (stop (sess r))))).
  { rewrite stop_scanner. unfold released. simpl.
    destruct (webcam (scanner (sess r))) as [[ | | ] | ]; discriminate. }
  repeat match goal with |- _ /\ _ => split end; auto.
  - apply stop_scanner.
  - intros id Hid. rewrite Eq, Hid. intros Hin. apply filter_In in Hin as [_ Hin].
    now rewrite Pos.eqb_refl in Hin.
  - intros Hs. rewrite Eq. destruct (predLoopId (scanner (sess r))) as [id | ] eqn:Hp.
    + apply filter_all_out. intros j Hj. rewrite <- Hp. now apply Hs.
    + destruct (queue (sess r)) as [ | j js] eqn:Eqq; [reflexivity | ].
      assert (Hj : In j (queue (sess r))) by (rewrite Eqq; now left).
      apply Hs in Hj. rewrite Hp in Hj. discriminate.
  - intros cfg l -> Hl.
    assert (Hs : single_loop (sess (reached cfg l))).
    { apply one_activation_single, acts_one_activation; [exact Hl | ].
      left. split; [reflexivity | now left]. }
    rewrite Eq. destruct (predLoopId (scanner (sess (reached cfg l)))) as [id | ] eqn:Hp.
    + apply filter_all_out. intros j Hj. rewrite <- Hp. now apply Hs.
    + destruct (queue (sess (reached cfg l))) as [ | j js] eqn:Eqq; [reflexivity | ].
      assert (Hj : In j (queue (sess (reached cfg l)))) by (rewrite Eqq; now left).
      apply Hs in Hj. rewrite Hp in Hj. discriminate.
  - rewrite act_stop. cbn [sess cam lost nextCam awaits]. now rewrite stop_twice.
  - intros n.
    destruct (animate_idle n (mkRun (Eff.final (stop (sess r))) (cam r) (lost r)
                                    (nextCam r) (awaits r)) Hrun)
      as (A & B & C & _).
    auto.
  - intros l Hl.
    apply (quiet_steps l (mkRun (Eff.final (stop (sess r))) (cam r) (lost r)
                                (nextCam r) (awaits r)) Hl Hrun Hrel).
Qed.

Lemma stop_clears_current_activation_witness :
  (let r := reached cfg0 restarted in
   let r' := Eff.final (act Stop r) in
   isRunning (scanner (sess r')) = false /\
   webcam (scanner (sess r')) = Some CamStopped /\
   queue (sess r') = [1%positive] /\
   lost r' = [(1%positive, CamLive)] /\
   Eff.output (acts (repeat Callback 3) r') = []) /\
  (starts_at_rest first_start (created cfg0) /\
   queue (sess (Eff.final (act Stop (reached cfg0 first_start)))) = []) /\
  (let r' := Eff.final (act Stop (reached cfg0 predicting)) in
   let l := [Settle 0 (Predicted (cat99 1000)); Callback] in
   forallb no_start l = true /\
   isRunning (scanner (sess (Eff.final (acts l r')))) = false).
Proof.
  split; [ | split].
  - pose proof (stop_clears_current_activation (reached cfg0 restarted)) as K.
    cbv zeta in K.
    destruct K as (_ & _ & Hr & _ & _ & _ & _ & _ & _ & _ & _ & _ & _ & _ & Ha & _).
    cbv zeta. split; [exact Hr | ].
    split; [vm_compute; reflexivity | ].
    split; [vm_compute; reflexivity | ].
    split; [vm_compute; reflexivity | ].
    apply (Ha 3%nat).
  - pose proof (stop_clears_current_activation (reached cfg0 first_start)) as K.
    cbv zeta in K.
    destruct K as (_ & _ & _ & _ & _ & _ & _ & _ & Hg & _).
    assert (S : starts_at_rest first_start (created cfg0))
      by (vm_compute; repeat split; intros; try discriminate; reflexivity).
    split; [exact S | exact (Hg cfg0 first_start eq_refl S)].
  - pose proof (stop_clears_current_activation (reached cfg0 predicting)) as K.
    cbv zeta in K.
    destruct K as (_ & _ & _ & _ & _ & _ & _ & _ & _ & _ & _ & _ & _ & _ & _ & Hl).
    cbv zeta. split; [reflexivity | ].
    apply (Hl [Settle 0 (Predicted (cat99 1000)); Callback] eq_refl).
Defined.

(** C7 as stated fails: after [start()] was called a second time on
    the running scanner, [stop()] leaves the callback of the first
    activation pending and the webcam object of the first activation
    with its stream live. *)
Lemma stop_after_restart_not_idle : ~ stop_makes_idle (reached cfg0 restarted).
Proof.
  intros (_ & (_ & Hq & _) & _). vm_compute in Hq. discriminate.
Qed.

(** What the state after the second [start()] and [stop()] is. *)
Example stop_after_restart :
  let r := Eff.final (act Stop (reached cfg0 restarted)) in
  queue (sess r) = [1%positive] /\
  predLoopId (scanner (sess r)) = Some 2%positive /\
  webcam (scanner (sess r)) = Some CamStopped /\
  lost r = [(1%positive, CamLive)].
Proof. vm_compute. auto. Qed.

(** [stop()] while [start()] waits for the camera: when [setup] and
    [play] resolve, the scanner is running with a live stream and an
    inference in flight, although [start()] was not called again. *)
Example stop_overtaken_by_start :
  let r := reached cfg0 (requesting ++
             [Stop; Settle 0 (Settled None); Settle 0 (Settled None)]) in
  isRunning (scanner (sess r)) = true /\
  webcam (scanner (sess r)) = Some CamLive /\
  awaits r = [AwaitPredict].
Proof. vm_compute. auto. Qed.

(** [stop()] while an inference is in flight: when it settles, its
    result is processed; here the streak has lasted for the window, and
    the lock is reported to [onLock] after the [stop()]. *)
Example stop_overtaken_by_inference :
  let res := acts [Stop; Settle 0 (Predicted (cat99 1000))]
                  (reached cfg0 predicting) in
  Eff.output res =
    [TopLeft (TopClass cat (99 # 100));
     PredList [mkPrediction cat (99 # 100)];
     TopLeft (LockedOn cat);
     OnLock (mkLockInfo cat (99 # 100) 0)] /\
  isRunning (scanner (sess (Eff.final res))) = false.
Proof. vm_compute. auto. Qed.

(** [play] is rejected after [setup] has resolved: [start()] fails, and
    the scanner, which is not running, refers to a webcam object whose
    stream is live. *)
Example play_rejected_keeps_stream :
  let r := reached cfg0 (requesting ++
             [Settle 0 (Settled None); Settle 0 (Settled (Some OtherError))]) in
  isRunning (scanner (sess r)) = false /\
  webcam (scanner (sess r)) = Some CamLive /\
  awaits r = [].
Proof. vm_compute. auto. Qed.

(** *** What a scanner keeps, whatever interleaves *)

Lemma without_subset {A} k (l : list A) x : In x (drop_await k l) -> In x l.
Proof.
  revert k. induction l as [ | y l IH]; intros [ | k]; simpl; auto.
  intros [H | H]; eauto.
Qed.

(** A step that changes the scanner object and the suspended
    activations, but creates no webcam object and resolves no
    [setup]. *)
Lemma coherent_step r st' aw' :
  consistent r ->
  (isRunning (scanner st') = true -> isRunning (scanner (sess r)) = true) ->
  (forall m, model (scanner (sess r)) = Some m -> exists m', model (scanner st') = Some m') ->
  (forall m, model (scanner st') = Some m -> m = TMModel (modelPath (scanner st'))) ->
  threshold (scanner st') = threshold (scanner (sess r)) ->
  (forall w, webcam (scanner (sess r)) = Some w ->
             exists w', webcam (scanner st') = Some w') ->
  (forall w, webcam (scanner st') = Some w ->
             exists w', webcam (scanner (sess r)) = Some w') ->
  (locked (scanner st') = true -> isRunning (scanner st') = false) ->
  (forall l, lastTop (scanner st') = Some l ->
             (threshold (scanner (sess r)) <= prob l)%Q) ->
  (forall id, In id (queue st') -> (id < fresh st')%positive) ->
  (forall id, predLoopId (scanner st') = Some id -> (id < fresh st')%positive) ->
  (forall a, In a aw' -> needs_equipment a = true ->
             In a (awaits r) \/
             (a = AwaitPredict /\ isRunning (scanner st') = true)) ->
  consistent (mkRun st' (cam r) (lost r) (nextCam r) aw').
Proof.
  intros (H1 & H2 & H3 & H4 & H5 & H6 & H7 & C1 & C2 & C3)
         Er Em Em' Et Ew Ew' El Ela Eq Ep Ea.
  assert (Heq : equipped (scanner (sess r)) -> equipped (scanner st')).
  { intros [[m Hm] [w Hw]]. split; eauto. }
  unfold consistent, camera_ids. simpl.
  repeat match goal with |- _ /\ _ => split end; auto.
  - rewrite Et. exact Ela.
  - intros a Ha Hn. destruct (Ea a Ha Hn) as [Hin | [-> Hr]]; eauto.
  - intros w Hw. destruct (Ew' w Hw) as [w' Hw']. eauto.
  - intros c Hc. destruct (Ea _ Hc eq_refl) as [Hin | [[=] _]]. eauto.
Qed.

Lemma acquired_ids c (lo : list (positive * Webcam)) c0 w :
  In (c0, w) (map (fun cw => if Pos.eqb (fst cw) c then (c, CamLive) else cw) lo) ->
  exists w0, In (c0, w0) lo.
Proof.
  intros H. apply in_map_iff in H as ((c1 & w1) & E & Hin). simpl in E.
  destruct (Pos.eqb_spec c1 c) as [-> | _]; injection E as <- <-; eauto.
Qed.

Ltac pieces :=
  repeat match goal with
         | H : In _ (_ ++ _) |- _ => apply in_app_or in H; destruct H as [H | H]
         | H : In _ [_] |- _ => destruct H as [H | []]
         | H : In _ (_ :: _) |- _ => destruct H as [H | H]
         | H : In _ [] |- _ => destruct H
         | H : In _ (drop_await _ _) |- _ => apply without_subset in H
         | H : In _ (map _ _) |- _ => apply acquired_ids in H; destruct H as [? H]
         | H : AwaitSetup _ = AwaitSetup _ |- _ => injection H as H; subst
         | H : (_, _) = (_, _) |- _ => injection H as H ?; subst
         | H : Some _ = Some _ |- _ => injection H as H; subst
         end.

Ltac settle_ids :=
  pieces; subst; simpl in *; try discriminate; eauto;
  try match goal with
      | H : forall id, In id ?q -> _, K : In ?j ?q |- _ => specialize (H _ K); lia
      | H : forall id, Some _ = Some id -> _ |- _ => specialize (H _ eq_refl); lia
      | H : forall c w, In (c, w) ?l -> _, K : In (?j, _) ?l |- _ => specialize (H _ _ K); lia
      | H : forall c, In (AwaitSetup c) ?l -> _, K : In (AwaitSetup ?j) ?l |- _ => specialize (H _ K); lia
      end;
  try lia.

Lemma start_keeps cfg r :
  Session.constructed cfg (scanner (sess r)) -> consistent r ->
  Session.constructed cfg (scanner (sess (Eff.final (act Start r)))) /\
  consistent (Eff.final (act Start r)).
Proof.
  destruct r as [[[tl bl mp fm mo pl wc ir th sw la lk] q n] c lo nc aw].
  intros HC (H1 & H2 & H3 & H4 & H5 & H6 & H7 & C1 & C2 & C3).
  unfold equipped in *. simpl in *.
  destruct mo as [m | ], tl, wc as [w | ]; one_step; (split; [exact HC | ]).
  all: unfold consistent, camera_ids, equipped; simpl.
  all: repeat match goal with |- _ /\ _ => split end; auto.
  all: intros; settle_ids.
Qed.

Lemma stop_keeps cfg r :
  Session.constructed cfg (scanner (sess r)) -> consistent r ->
  Session.constructed cfg (scanner (sess (Eff.final (act Stop r)))) /\
  consistent (Eff.final (act Stop r)).
Proof.
  intros HC HK. rewrite act_stop. cbn [Eff.final sess].
  split; [now apply SessionFacts.stop_constructed | ].
  destruct (stop_queue (sess r)) as [Eq En].
  pose proof HK as (H1 & H2 & H3 & H4 & H5 & H6 & H7 & C1 & C2 & C3).
  apply coherent_step; auto; rewrite ?stop_scanner, ?Eq, ?En; simpl; auto;
    try discriminate.
  - eauto.
  - destruct (webcam (scanner (sess r))) as [[ | | ] | ]; intros w Hw; eauto.
  - destruct (webcam (scanner (sess r))) as [[ | | ] | ]; intros w Hw; eauto.
  - intros id Hin. apply H5.
    destruct (predLoopId (scanner (sess r))); [ | exact Hin].
    apply filter_In in Hin. tauto.
Qed.

Lemma animate_keeps cfg r :
  Session.constructed cfg (scanner (sess r)) -> consistent r ->
  Session.constructed cfg (scanner (sess (Eff.final (act Callback r)))) /\
  consistent (Eff.final (act Callback r)).
Proof.
  destruct r as [[[tl bl mp fm mo pl wc ir th sw la lk] q n] c lo nc aw].
  intros HC (H1 & H2 & H3 & H4 & H5 & H6 & H7 & C1 & C2 & C3).
  unfold equipped in *. simpl in *.
  destruct q as [ | id q]; [one_step; split; [exact HC | ] | ].
  2: destruct ir, tl, wc as [w | ], mo as [m | ]; one_step; (split; [exact HC | ]).
  all: unfold consistent, camera_ids, equipped; simpl.
  all: repeat match goal with |- _ /\ _ => split end; auto.
  all: intros; settle_ids.
Qed.

Lemma after_predict_constructed cfg f st :
  Session.constructed cfg (scanner st) ->
  Session.constructed cfg (scanner (Eff.final (after_predict f st))).
Proof.
  intros H.
  destruct (after_predict_outcome f st)
    as [[-> _] | (p & _ & [(_ & -> & _) | (l & _ & [(_ & -> & _) | (_ & -> & _)])])];
    rewrite ?stop_scanner;
    solve [ exact H
          | apply (SessionFacts.constructed_fields cfg (scanner st)); auto; reflexivity ].
Qed.

Lemma after_predict_coherent f r aw' :
  consistent r ->
  (forall a, In a aw' -> In a (awaits r)) ->
  consistent (mkRun (Eff.final (after_predict f (sess r)))
                  (cam r) (lost r) (nextCam r) aw').
Proof.
  intros HK Ha.
  pose proof HK as (H1 & H2 & H3 & H4 & H5 & H6 & H7 & C1 & C2 & C3).
  destruct (after_predict_outcome f (sess r))
    as [[-> _] | (p & _ & [(_ & -> & _) | (l & _ & [(_ & -> & _) | (_ & -> & _)])])].
  - apply coherent_step; eauto.
  - apply coherent_step; unfold rescheduled; simpl; eauto.
    + unfold candidate.
      destruct (ge (probability p) (threshold (scanner (sess r)))) eqn:E;
        [ | discriminate].
      intros l [= <-]. simpl. now apply ge_true.
    + intros id Hin. apply in_app_or in Hin as [Hin | [<- | []]]; [ | lia].
      specialize (H5 id Hin). lia.
    + intros id [= <-]. lia.
  - apply coherent_step; unfold rescheduled; simpl; eauto.
    + intros id Hin. apply in_app_or in Hin as [Hin | [<- | []]]; [ | lia].
      specialize (H5 id Hin). lia.
    + intros id [= <-]. lia.
  - destruct (stop_queue (mkSess (set_locked true (scanner (sess r)))
                                 (queue (sess r)) (fresh (sess r)))) as [Eq En].
    apply coherent_step; rewrite ?stop_scanner, ?Eq, ?En; simpl; eauto;
      try discriminate.
    + destruct (webcam (scanner (sess r))) as [[ | | ] | ]; intros w Hw; eauto.
    + destruct (webcam (scanner (sess r))) as [[ | | ] | ]; intros w Hw; eauto.
    + intros id Hin. apply H5.
      destruct (predLoopId (scanner (sess r))); [ | exact Hin].
      apply filter_In in Hin. tauto.
Qed.


Lemma settle_keeps cfg k ans r :
  Session.constructed cfg (scanner (sess r)) -> consistent r ->
  Session.constructed cfg (scanner (sess (Eff.final (act (Settle k ans) r)))) /\
  consistent (Eff.final (act (Settle k ans) r)).
Proof.
  intros HC HK.
  destruct (nth_error (awaits r) k) as [a | ] eqn:E.
  2:{ unfold act, settle, Eff.bind, Eff.get. rewrite E. simpl. auto. }
  destruct (resume a ans) as [m | ] eqn:R.
  2:{ unfold act, settle, Eff.bind, Eff.get. rewrite E, R. simpl. auto. }
  pose proof (nth_error_In _ _ E) as Hin.
  destruct a, ans as [[e | ] | f]; try discriminate.
  7:{ rewrite (settle_predicted k f r E).
      pose proof (after_predict_constructed cfg f (sess r) HC) as K1.
      pose proof (after_predict_coherent f r (drop_await k (awaits r)) HK
                    (fun a => without_subset k (awaits r) a)) as K2.
      destruct (after_predict f (sess r)) as [v st o]. simpl in *. auto. }
  all: rewrite (settle_resumes k _ r _ m E R); simpl in R; injection R as <-.
  all: destruct r as [[[tl bl mp fm mo pl wc ir th sw la lk] q n] c0 lo nc aw].
  all: destruct HK as (H1 & H2 & H3 & H4 & H5 & H6 & H7 & C1 & C2 & C3).
  all: unfold equipped in *; simpl in *.
  all: try (destruct (H7 _ Hin eq_refl) as [[m0 Hm0] [w0 Hw0]]; subst mo wc).
  all: destruct tl; try destruct e; try destruct wc as [w | ]; one_step.
  all: try match goal with
           | |- context [Pos.eqb ?a ?b] => destruct (Pos.eqb a b); simpl
           end.
  all: (split; [exact HC | ]).
  all: unfold consistent, camera_ids, equipped; simpl.
  all: repeat match goal with |- _ /\ _ => split end; auto.
  all: intros; settle_ids.
Qed.

Lemma act_keeps cfg a r :
  Session.constructed cfg (scanner (sess r)) -> consistent r ->
  Session.constructed cfg (scanner (sess (Eff.final (act a r)))) /\
  consistent (Eff.final (act a r)).
Proof.
  destruct a as [ | | | k ans].
  - apply start_keeps.
  - apply stop_keeps.
  - apply animate_keeps.
  - apply settle_keeps.
Qed.

Lemma acts_keep cfg l r :
  Session.constructed cfg (scanner (sess r)) -> consistent r ->
  Session.constructed cfg (scanner (sess (Eff.final (acts l r)))) /\
  consistent (Eff.final (acts l r)).
Proof.
  revert r. induction l as [ | a l IH]; intros r HC HK; [simpl; auto | ].
  destruct (acts_cons a l r) as (_ & -> & _).
  destruct (act_keeps cfg a r HC HK) as [HC' HK']. now apply IH.
Qed.

Lemma created_coherent cfg :
  Session.constructed cfg (scanner (sess (created cfg))) /\ consistent (created cfg).
Proof.
  unfold Session.constructed, consistent, camera_ids, created, create, new; simpl.
  repeat match goal with |- _ /\ _ => split end; auto; try discriminate.
  all: intros; settle_ids.
Qed.

(** X1. Whatever happens to a scanner after its construction, in whatever
    order (calls of [start()] and [stop()], also while an earlier
    [start()] or an inference is in flight; animation-frame callbacks;
    promises of [load], [setup], [play] and [predict] that resolve or
    reject, or never settle), no step throws, the fields set by the
    constructor stay as they were, in particular the threshold of 0.98
    and the window of one second, and the runtime fields hang together:
    a running scanner has its model and a webcam object, and so has a
    scanner for which a [setup], a [play] or an inference is in flight; a
    locked scanner is not running; a stored [lastTop] has a probability
    of at least the threshold; the model is the one of [modelPath]; the
    pending callbacks and [predLoopId] are identifiers that were handed
    out. *)
Theorem scanner_coherent_across_awaits :
  forall (cfg : Cfg) (l : list Action),
    let r := reached cfg l in
    Eff.value (acts l (created cfg)) = inl tt /\
    Session.constructed cfg (scanner (sess r)) /\
    consistent r.
Proof.
  intros cfg l r. split; [apply acts_value | ].
  destruct (created_coherent cfg) as [HC HK].
  apply (acts_keep cfg l (created cfg) HC HK).
Qed.

End AsyncFacts.
